(** * Energy report (windows_report.cpp): data simulator, layout and renderers

    A shallow embedding of the deterministic part of [windows_report.cpp]:
    the seeded generator, [simulateEnergyDay], [formatDate], the region
    layout of the paint handler and the six renderers (header, line chart,
    bar chart, pie chart, table and checklist) as the lists of calls they
    make on the device context.

    Conventions.
    - [uint64_t] values are integers in [Z] with the wrap-around written out
      ([wrap64]).
    - [double] values are IEEE-754 binary64 numbers, taken from the
      specification of floating-point arithmetic of the standard library
      ([SpecFloat], precision 53, maximal exponent 1024, rounding to nearest
      even).  Decimal literals of the source are the nearest binary64 number
      ([dec]).
    - [int] and [LONG] coordinates are integers in [Z]; signed overflow is
      undefined in C++, so the layout theorem also shows that the coordinates
      stay inside the 32-bit range.
    - Library functions that are not part of the source file ([sin], [cos],
      [std::sort], the stream formatting of a number, the text extent of GDI)
      are parameters of the definitions that call them; [ceil] and the
      printing of integers are written out.  Where the order of equal values
      matters, [std::sort] is the insertion sort that the library runs on a
      range of seven elements ([std_sort]).
    - Where a product of [int] values can leave the 32-bit range for a
      window of admissible size (the abscissas of the line chart), the
      wrap-around is written out ([wrap_int]). *)

From Stdlib Require Import String.
From Stdlib Require Import ZArith List Lia Bool Permutation Sorted.
From Stdlib Require Import QArith Qpower Qabs Lqa.
From Stdlib Require Import Floats.SpecFloat.
From Stdlib Require Import Ascii DecimalString DecimalZ.
Import ListNotations.
Open Scope Z_scope.

(** ** Part I: the program *)

(** *** 64-bit unsigned integers *)

Definition wrap64 (z : Z) : Z := z mod 2 ^ 64.

(** *** binary64 arithmetic *)

Definition prec : Z := 53.
Definition emax : Z := 1024.

Definition double : Type := spec_float.

Definition fadd : double -> double -> double := SFadd prec emax.
Definition fsub : double -> double -> double := SFsub prec emax.
Definition fmul : double -> double -> double := SFmul prec emax.
Definition fdiv : double -> double -> double := SFdiv prec emax.

(** [a < b] and [a > b] on doubles: false as soon as one side is a NaN. *)
Definition flt (a b : double) : bool := SFltb a b.
Definition fgt (a b : double) : bool := SFltb b a.
Definition fle (a b : double) : bool := SFleb a b.

(** [std::max(a, b)] is [(a < b) ? b : a]. *)
Definition std_max (a b : double) : double := if flt a b then b else a.

(** Conversion of an integer to [double] (exact below 2^53, rounded to
    nearest otherwise). *)
Definition of_Z (z : Z) : double := binary_normalize prec emax z 0 false.

(** The decimal literal with digits [p] and [k] digits after the point:
    the binary64 number nearest to [p / 10^k]. *)
Definition dec (p : positive) (k : Z) : double :=
  let '(q, e, l) := SFdiv_core_binary prec emax (Zpos p) 0 (10 ^ k) 0 in
  binary_round_aux prec emax false q e l.

Definition fzero : double := S754_zero false.

(** [(int) x]: truncation toward zero.  Outside the range of [int] (and for
    a NaN) the conversion is undefined in C++; the model returns what the
    x86 conversion instruction returns there, the smallest [int]. *)
Definition int_min : Z := - 2 ^ 31.
Definition int_max : Z := 2 ^ 31 - 1.

Definition double_to_int (x : double) : Z :=
  match x with
  | S754_zero _ => 0
  | S754_finite s m e =>
      let a := match e with
               | Zneg n => Z.shiftr (Zpos m) (Zpos n)
               | _ => Z.shiftl (Zpos m) e
               end in
      let v := if s then - a else a in
      if (int_min <=? v) && (v <=? int_max) then v else int_min
  | _ => int_min
  end.

(** *** class SeededRNG *)

Module SeededRNG.

(** A computation that reads and advances the generator state. *)
Definition M (A : Type) : Type := Z -> A * Z.

Definition ret {A} (x : A) : M A := fun s => (x, s).

Definition bind {A B} (m : M A) (f : A -> M B) : M B :=
  fun s => let '(x, s') := m s in f x s'.

Definition a : Z := 6364136223846793005.
Definition c : Z := 1.

(** The constructor: [state(seed & ((1ULL << 64) - 1))].  The shift by the
    full width is read as the integer 2^64, so that the mask keeps the 64 low
    bits of the seed. *)
Definition make (seed : Z) : Z := Z.land seed (Z.shiftl 1 64 - 1).

(** [state = state * a + c; return state;] *)
Definition next : M Z :=
  fun state => let state' := wrap64 (wrap64 (state * a) + c) in (state', state').

(** [uint64_t v = next() >> 11; return (double)v / (double)(1ULL << 53);] *)
Definition nextDouble01 : M double :=
  bind next (fun r =>
    let v := Z.shiftr r 11 in
    ret (fdiv (of_Z v) (of_Z (Z.shiftl 1 53)))).

(** The first [n] results of [next()] from a given state. *)
Fixpoint outputs (n : nat) (state : Z) : list Z :=
  match n with
  | O => []
  | S n' => let '(r, state') := next state in r :: outputs n' state'
  end.

End SeededRNG.

Notation "x <- m ;; k" := (SeededRNG.bind m (fun x => k))
  (at level 61, m at next level, right associativity).

(** *** Data structures of the report *)

Record Consumer := { cons_name : string; cons_kWh : double }.
Record Category := { cat_name : string; cat_kWh : double }.

Record SYSTEMTIME := {
  wYear : Z; wMonth : Z; wDayOfWeek : Z; wDay : Z;
  wHour : Z; wMinute : Z; wSecond : Z; wMilliseconds : Z }.

Record EnergyDay := {
  buildingName : string;
  date : SYSTEMTIME;
  hourlyKWh : list double;
  topConsumers : list Consumer;
  categoryBreakdown : list Category;
  priceCZKPerKWh : double }.

(** *** simulateEnergyDay *)

(** [v[i] = x] on a vector; the simulator only writes inside the 24 slots
    it has allocated, where this is the C++ assignment. *)
Fixpoint update {A : Type} (l : list A) (i : nat) (x : A) : list A :=
  match l, i with
  | [], _ => []
  | _ :: t, O => x :: t
  | y :: t, S j => y :: update t j x
  end.

Definition PI_literal : double := dec 314159265358979323846 20.

Definition base_load (h : Z) : double :=
  let baseNight := dec 65 1 in
  let baseWork := dec 160 1 in
  let baseEvening := dec 100 1 in
  if (h <? 6) || (h >=? 23) then baseNight
  else if h <? 8 then fadd baseNight (dec 30 1)
  else if h <=? 18 then baseWork
  else baseEvening.

(** The share tables [cats] and [consumersRaw]. *)
Definition cats : list (string * double) :=
  [ ("HVAC (chlazení + VZT)"%string, dec 42 2);
    ("Osvětlení"%string, dec 22 2);
    ("IT + serverovna"%string, dec 18 2);
    ("Zásuvky / kuchyňky"%string, dec 10 2);
    ("Ostatní"%string, dec 8 2) ].

Definition consumersRaw : list (string * double) :=
  [ ("Chiller / tepelné čerpadlo"%string, dec 22 2);
    ("VZT jednotky"%string, dec 17 2);
    ("Osvětlení open-space"%string, dec 15 2);
    ("Serverovna UPS"%string, dec 14 2);
    ("EV nabíjení"%string, dec 10 2);
    ("Výtahy"%string, dec 5 2);
    ("Ostatní"%string, dec 17 2) ].

(** [total = 0.0; for (double v : hourlyKWh) total += v;] *)
Definition sum_doubles (l : list double) : double := fold_left fadd l fzero.

(** The loop over [cats]: [cat.kWh = total * c.share]. *)
Definition derive_categories (total : double) : list Category :=
  map (fun c => {| cat_name := fst c; cat_kWh := fmul total (snd c) |}) cats.

(** The loop over [consumersRaw]: [cons.kWh = total * cr.share]. *)
Definition derive_consumers (total : double) : list Consumer :=
  map (fun c => {| cons_name := fst c; cons_kWh := fmul total (snd c) |})
      consumersRaw.

(** The comparison given to [std::sort]: [a.kWh > b.kWh]. *)
Definition by_kWh_desc (a b : Consumer) : bool := fgt (cons_kWh a) (cons_kWh b).

Section Simulator.

(** [sin] of the C library and [std::sort] of the C++ library. *)
Variable sin : double -> double.
Variable sort : (Consumer -> Consumer -> bool) -> list Consumer -> list Consumer.

Definition wave_term (h : Z) : double :=
  if (h >=? 8) && (h <=? 18)
  then fmul (dec 70 1)
            (sin (fmul (fdiv (fsub (of_Z h) (dec 80 1)) (dec 100 1)) PI_literal))
  else fzero.

(** The body of the loop over the hours, up to the assignment. *)
Definition simulate_hour (h : Z) : SeededRNG.M double :=
  let base := base_load h in
  let wave := wave_term h in
  u1 <- SeededRNG.nextDouble01 ;;
  let noise := fmul (fsub u1 (dec 5 1)) (dec 20 1) in
  u2 <- SeededRNG.nextDouble01 ;;
  spike <- (if flt u2 (dec 8 2)
            then u3 <- SeededRNG.nextDouble01 ;;
                 SeededRNG.ret (fadd (dec 50 1) (fmul u3 (dec 100 1)))
            else SeededRNG.ret fzero) ;;
  let kWh := std_max (dec 30 1) (fadd (fadd (fadd base wave) noise) spike) in
  SeededRNG.ret kWh.

(** [for (int h = ...; ...; ++h) { ...; day.hourlyKWh[h] = kWh; }] run for
    [count] iterations from hour [h]. *)
Fixpoint hours_loop (count : nat) (h : Z) (v : list double)
  : SeededRNG.M (list double) :=
  match count with
  | O => SeededRNG.ret v
  | S n =>
      kWh <- simulate_hour h ;;
      hours_loop n (h + 1) (update v (Z.to_nat h) kWh)
  end.

(** [simulateEnergyDay] with the seed and the local time as arguments. *)
Definition simulateEnergyDayFrom (seed : Z) (localTime : SYSTEMTIME) : EnergyDay :=
  let rng := SeededRNG.make seed in
  let '(hourly, _) := hours_loop 24 0 (repeat fzero 24) rng in
  let total := sum_doubles hourly in
  let list := sort by_kWh_desc (derive_consumers total) in
  {| buildingName := "Kancelářská budova A (menší)";
     date := localTime;
     hourlyKWh := hourly;
     topConsumers := firstn 6 list;
     categoryBreakdown := derive_categories total;
     priceCZKPerKWh := dec 320 2 |}.

(** The function of the source: the seed is the constant [0xC0FFEE]. *)
Definition simulateEnergyDay (localTime : SYSTEMTIME) : EnergyDay :=
  simulateEnergyDayFrom 12648430 localTime.

End Simulator.

(** *** The regions of the paint handler *)

Module Rect.
Record RECT := { left : Z; top : Z; right : Z; bottom : Z }.
Definition width (r : RECT) : Z := right r - left r.
Definition height (r : RECT) : Z := bottom r - top r.
End Rect.
Abbreviation RECT := Rect.RECT.

Record Regions := {
  headerArea : RECT; lineArea : RECT; barArea : RECT;
  pieArea : RECT; tableArea : RECT; checkArea : RECT }.

(** The six rectangles computed under [WM_PAINT], for a given [margin]. *)
Definition computeRegions (margin : Z) (client : RECT) : Regions :=
  let headerArea :=
    {| Rect.left := Rect.left client + margin;
       Rect.top := Rect.top client + margin + 40;
       Rect.right := Rect.right client - margin;
       Rect.bottom := Rect.top client + margin + 40 + 190 |} in
  let lineArea :=
    {| Rect.left := Rect.left client + margin;
       Rect.top := Rect.bottom headerArea + margin;
       Rect.right := Rect.right client - margin;
       Rect.bottom := Rect.bottom headerArea + margin + 260 |} in
  let barArea :=
    {| Rect.left := Rect.left client + margin;
       Rect.top := Rect.bottom lineArea + margin;
       Rect.right := Rect.right client - margin;
       Rect.bottom := Rect.bottom lineArea + margin + 250 |} in
  let pieArea :=
    {| Rect.left := Rect.left client + margin;
       Rect.top := Rect.bottom barArea + margin;
       Rect.right := Rect.right client - margin;
       Rect.bottom := Rect.bottom barArea + margin + 300 |} in
  let tableArea :=
    {| Rect.left := Rect.left client + margin;
       Rect.top := Rect.bottom pieArea + margin;
       Rect.right := Rect.right client - margin;
       Rect.bottom := Rect.bottom pieArea + margin + 320 |} in
  let checkArea :=
    {| Rect.left := Rect.left client + margin;
       Rect.top := Rect.bottom tableArea + margin;
       Rect.right := Rect.right client - margin;
       Rect.bottom := Rect.bottom tableArea + margin + 240 |} in
  {| headerArea := headerArea; lineArea := lineArea; barArea := barArea;
     pieArea := pieArea; tableArea := tableArea; checkArea := checkArea |}.

(** [GetClientRect]: the client area of a window of the given size. *)
Definition client_rect (canvasWidth canvasHeight : Z) : RECT :=
  {| Rect.left := 0; Rect.top := 0;
     Rect.right := canvasWidth; Rect.bottom := canvasHeight |}.

(** The regions of the source: [const int margin = 10]. *)
Definition paint_regions (client : RECT) : Regions := computeRegions 10 client.

Definition regions_list (r : Regions) : list RECT :=
  [headerArea r; lineArea r; barArea r; pieArea r; tableArea r; checkArea r].

(** Two rectangles overlap when they share a pixel (right and bottom edges
    are exclusive, as for GDI's [FillRect]). *)
Definition overlap (a b : RECT) : Prop :=
  exists x y,
    Rect.left a <= x < Rect.right a /\ Rect.top a <= y < Rect.bottom a /\
    Rect.left b <= x < Rect.right b /\ Rect.top b <= y < Rect.bottom b.

Definition in_int_range (z : Z) : Prop := int_min <= z <= int_max.

(** *** Drawing: the calls made on the device context *)

Inductive Brush := WHITE_BRUSH | BLACK_BRUSH.

Inductive DrawCmd :=
| FillRect (r : RECT) (b : Brush)
| DrawTextW (x y : Z) (text : string) (fontSize : Z) (bold : bool)
| SelectPen (width : Z) (red green blue : Z)
| RestorePen
| SelectBrush (b : Brush)
| RestoreBrush
| MoveToEx (x y : Z)
| LineTo (x y : Z)
| Rectangle (l t r b : Z)
| TextOutW (x y : Z) (text : string).

(** The title and the rule under it, common to all sections. *)
Definition section_head (area : RECT) (title : string) : list DrawCmd :=
  [ FillRect area WHITE_BRUSH;
    DrawTextW (Rect.left area + 10) (Rect.top area + 10) title 18 true;
    SelectPen 1 0 0 0;
    MoveToEx (Rect.left area + 10) (Rect.top area + 36);
    LineTo (Rect.right area - 10) (Rect.top area + 36);
    RestorePen ].

Section Renderers.

(** [oss << std::fixed << std::setprecision(k) << x] and the width that
    [GetTextExtentPoint32W] reports for a text. *)
Variable format_fixed : nat -> double -> string.
Variable text_extent : string -> Z.

(** *** DrawBarChart *)

(** [maxV = 1.0; for (c : topConsumers) if (c.kWh > maxV) maxV = c.kWh;] *)
Definition bar_maxV (l : list Consumer) : double :=
  fold_left (fun maxV c => if fgt (cons_kWh c) maxV then cons_kWh c else maxV)
            l (dec 10 1).

(** [frac = it.kWh / maxV; w = (int)(barW * frac);] *)
Definition bar_fill_width (barW : Z) (maxV : double) (it : Consumer) : Z :=
  let frac := fdiv (cons_kWh it) maxV in
  double_to_int (fmul (of_Z barW) frac).

(** One iteration of the loop over the consumers; [more] is
    [i < topConsumers.size() - 1]. *)
Definition bar_row (area : RECT) (maxV : double) (y : Z) (more : bool)
           (it : Consumer) : list DrawCmd :=
  let leftLabelX := Rect.left area + 10 in
  let barX := Rect.left area + 170 in
  let barW := Rect.right area - barX - 10 in
  let w := bar_fill_width barW maxV it in
  let valStr := format_fixed 1 (cons_kWh it) in
  [ DrawTextW leftLabelX (y + 2) (cons_name it) 12 false;
    Rectangle barX y (barX + barW) (y + 18);
    SelectBrush BLACK_BRUSH;
    FillRect {| Rect.left := barX; Rect.top := y;
                Rect.right := barX + w; Rect.bottom := y + 18 |} BLACK_BRUSH;
    RestoreBrush;
    TextOutW (Rect.right area - 10 - text_extent valStr) (y + 2) valStr ]
  ++ (if more
      then [ SelectPen 1 210 210 210;
             MoveToEx (Rect.left area + 10) (y + 26);
             LineTo (Rect.right area - 10) (y + 26);
             RestorePen ]
      else []).

Fixpoint bar_rows (area : RECT) (maxV : double) (y : Z) (l : list Consumer)
  : list (list DrawCmd) :=
  match l with
  | [] => []
  | it :: rest =>
      bar_row area maxV y (match rest with [] => false | _ => true end) it
      :: bar_rows area maxV (y + 28) rest
  end.

Definition DrawBarChart (g_day : EnergyDay) (area : RECT) : list DrawCmd :=
  section_head area "Top spotřebiče (kWh/den)"
  ++ concat (bar_rows area (bar_maxV (topConsumers g_day))
                      (Rect.top area + 60) (topConsumers g_day)).

(** *** DrawChecklist *)

Record Alert := { text : string; ok : bool }.

(** [peak = 0.0; for (v : hourlyKWh) if (v > peak) peak = v;] *)
Definition peak_of (hourly : list double) : double :=
  fold_left (fun peak v => if fgt v peak then v else peak) hourly fzero.

(** [for (int i = ...; i < 6 && i < size; ++i) nightAvg += hourlyKWh[i];]
    run for [count] iterations from index [i]. *)
Fixpoint night_loop (count : nat) (i : Z) (hourly : list double) (nightAvg : double)
  : double :=
  match count with
  | O => nightAvg
  | S n =>
      if (i <? 6) && (i <? Z.of_nat (length hourly))
      then night_loop n (i + 1) hourly
                      (fadd nightAvg (nth (Z.to_nat i) hourly fzero))
      else nightAvg
  end.

Definition checklist_alerts (g_day : EnergyDay) : list Alert :=
  let total := sum_doubles (hourlyKWh g_day) in
  let avg := fdiv total (dec 240 1) in
  let peak := peak_of (hourlyKWh g_day) in
  let nightAvg := fdiv (night_loop 6 0 (hourlyKWh g_day) fzero) (dec 60 1) in
  let nightHigh := fgt nightAvg (fmul avg (dec 75 2)) in
  [ {| text := "Noční zátěž v normě"; ok := negb nightHigh |};
    {| text := "Žádná extrémní špička (> 2.0× průměr)";
       ok := negb (fgt peak (fmul avg (dec 20 1))) |};
    {| text := "Křivka bez výpadků (24/24)";
       ok := Nat.eqb (length (hourlyKWh g_day)) 24 |};
    {| text := "Doporučení: zkontrolovat HVAC plán"; ok := true |};
    {| text := "Doporučení: audit osvětlení (zóny)"; ok := true |} ].

Definition check_mark (area : RECT) (y : Z) : list DrawCmd :=
  [ SelectPen 2 0 0 0;
    MoveToEx (Rect.left area + 12) (y + 9);
    LineTo (Rect.left area + 15) (y + 13);
    LineTo (Rect.left area + 21) (y + 3);
    RestorePen ].

Definition cross_mark (area : RECT) (y : Z) : list DrawCmd :=
  [ SelectPen 2 0 0 0;
    MoveToEx (Rect.left area + 12) (y + 3);
    LineTo (Rect.left area + 21) (y + 13);
    MoveToEx (Rect.left area + 21) (y + 3);
    LineTo (Rect.left area + 12) (y + 13);
    RestorePen ].

(** One iteration of the loop over the alerts. *)
Definition alert_row (area : RECT) (y : Z) (a : Alert) : list DrawCmd :=
  Rectangle (Rect.left area + 10) (y + 2) (Rect.left area + 22) (y + 14)
  :: (if ok a then check_mark area y else cross_mark area y)
  ++ [ DrawTextW (Rect.left area + 30) (y + 2) (text a) 13 (negb (ok a)) ].

Fixpoint alert_rows (area : RECT) (y : Z) (alerts : list Alert)
  : list (list DrawCmd) :=
  match alerts with
  | [] => []
  | a :: rest => alert_row area y a :: alert_rows area (y + 26) rest
  end.

Definition DrawChecklist (g_day : EnergyDay) (area : RECT) : list DrawCmd :=
  section_head area "Checklist / Alerts"
  ++ concat (alert_rows area (Rect.top area + 60) (checklist_alerts g_day)).

(** *** DrawPieChart and DrawTable: the divisions *)

(** [total = 0.0; for (c : categoryBreakdown) total += c.kWh;] *)
Definition pie_total (g_day : EnergyDay) : double :=
  fold_left (fun total c => fadd total (cat_kWh c)) (categoryBreakdown g_day) fzero.

(** [frac = cat.kWh / total] for every slice. *)
Definition pie_fractions (g_day : EnergyDay) : list double :=
  map (fun c => fdiv (cat_kWh c) (pie_total g_day)) (categoryBreakdown g_day).

(** [pct = 100.0 * cat.kWh / total] for every legend line. *)
Definition pie_percents (g_day : EnergyDay) : list double :=
  map (fun c => fdiv (fmul (dec 1000 1) (cat_kWh c)) (pie_total g_day))
      (categoryBreakdown g_day).

(** [avg = total / 24.0] of the table and the checklist. *)
Definition hourly_average (g_day : EnergyDay) : double :=
  fdiv (sum_doubles (hourlyKWh g_day)) (dec 240 1).

End Renderers.

(** *** Decimal output and formatDate *)

(** [std::to_wstring(n)] and [oss << n] for an integer [n]: its decimal
    digits, after a minus sign when it is negative. *)
Definition to_wstring (n : Z) : string := NilZero.string_of_int (Z.to_int n).

(** [n] copies of the fill character. *)
Fixpoint fill_chars (n : nat) (c : ascii) : string :=
  match n with
  | O => EmptyString
  | S k => String c (fill_chars k c)
  end.

(** [oss << std::setfill(c) << std::setw(w) << s]: [s] is padded on the left
    up to the width [w]; a longer [s] is written in full. *)
Definition setw_fill (w : nat) (c : ascii) (s : string) : string :=
  String.append (fill_chars (w - String.length s) c) s.

(** [formatDate]: the day and the month with width 2 and fill ['0'], the year
    as it is, separated by dots. *)
Definition formatDate (st : SYSTEMTIME) : string :=
  String.append (setw_fill 2 "0" (to_wstring (wDay st)))
    (String.append "."
       (String.append (setw_fill 2 "0" (to_wstring (wMonth st)))
          (String.append "." (to_wstring (wYear st))))).

(** [(h < 10 ? L"0" : L"") + std::to_wstring(h)] *)
Definition hour_label (h : Z) : string :=
  String.append (if h <? 10 then "0" else "") (to_wstring h).

(** *** DrawHeader *)

(** The statistics of the summary box: [total], [peak] and [peakHour]. *)
Record HeaderStats := { hs_total : double; hs_peak : double; hs_peakHour : Z }.

(** The loop over the samples, from index [i]:
    [total += v[i]; if (v[i] > peak) { peak = v[i]; peakHour = (int)i; }] *)
Fixpoint header_loop (i : Z) (l : list double) (st : HeaderStats) : HeaderStats :=
  match l with
  | [] => st
  | v :: rest =>
      let total := fadd (hs_total st) v in
      header_loop (i + 1) rest
        (if fgt v (hs_peak st)
         then {| hs_total := total; hs_peak := v; hs_peakHour := i |}
         else {| hs_total := total; hs_peak := hs_peak st;
                 hs_peakHour := hs_peakHour st |})
  end.

Definition header_stats (hourly : list double) : HeaderStats :=
  header_loop 0 hourly {| hs_total := fzero; hs_peak := fzero; hs_peakHour := 0 |}.

Definition DrawHeader (format_fixed : nat -> double -> string)
           (g_day : EnergyDay) (area : RECT) : list DrawCmd :=
  let box := {| Rect.left := Rect.left area + 10; Rect.top := Rect.top area + 96;
                Rect.right := Rect.right area - 10;
                Rect.bottom := Rect.top area + 96 + 78 |} in
  let st := header_stats (hourlyKWh g_day) in
  let cost := fmul (hs_total st) (priceCZKPerKWh g_day) in
  let totalStr :=
    String.append "Celkem: " (String.append (format_fixed 1%nat (hs_total st)) " kWh") in
  let costStr :=
    String.append
      (String.append "Odhad nákladů: " (String.append (format_fixed 0%nat cost) " Kč ("))
      (String.append (format_fixed 2%nat (priceCZKPerKWh g_day)) " Kč/kWh)") in
  let peakStr :=
    String.append "Špička: "
      (String.append (format_fixed 1%nat (hs_peak st))
         (String.append " kWh @ "
            (String.append (hour_label (hs_peakHour st)) ":00"))) in
  section_head area "Denní energetický report"
  ++ [ DrawTextW (Rect.left area + 10) (Rect.top area + 50) (buildingName g_day) 14 true;
       DrawTextW (Rect.left area + 10) (Rect.top area + 72)
                 (String.append "Datum: " (formatDate (date g_day))) 12 false;
       Rectangle (Rect.left box) (Rect.top box) (Rect.right box) (Rect.bottom box);
       DrawTextW (Rect.left box + 10) (Rect.top box + 10) totalStr 14 true;
       DrawTextW (Rect.left box + 10) (Rect.top box + 30) costStr 12 false;
       DrawTextW (Rect.left box + 10) (Rect.top box + 50) peakStr 12 false ].

(** *** DrawTable *)

(** [struct Row { int hour; double v; }] *)
Record Row := { row_hour : Z; row_v : double }.

(** The comparison given to [std::sort]: [a.v > b.v]. *)
Definition by_v_desc (a b : Row) : bool := fgt (row_v a) (row_v b).

(** [for (i = ...; i < size; ++i) rows.push_back({ i, hourlyKWh[i] });] *)
Fixpoint table_index (i : Z) (l : list double) : list Row :=
  match l with
  | [] => []
  | x :: rest => {| row_hour := i; row_v := x |} :: table_index (i + 1) rest
  end.

(** The rows of the table: sorted, and cut to 10 when there are more. *)
Definition table_rows (sort_rows : (Row -> Row -> bool) -> list Row -> list Row)
           (hourly : list double) : list Row :=
  let rows := sort_rows by_v_desc (table_index 0 hourly) in
  if (10 <? Z.of_nat (length rows))%Z then firstn 10 rows else rows.

(** One iteration of the loop over the rows; [more] is [i < rows.size() - 1]. *)
Definition table_row (format_fixed : nat -> double -> string)
           (g_day : EnergyDay) (area : RECT) (avg : double) (y : Z) (more : bool)
           (r : Row) : list DrawCmd :=
  let hourStr := String.append (hour_label (row_hour r)) ":00" in
  let kWhStr := format_fixed 1%nat (row_v r) in
  let costStr := format_fixed 0%nat (fmul (row_v r) (priceCZKPerKWh g_day)) in
  let noteStr := if fgt (row_v r) (fmul avg (dec 15 1)) then "peak"%string
                 else EmptyString in
  [ DrawTextW (Rect.left area + 10) y hourStr 12 false;
    DrawTextW (Rect.left area + 80) y kWhStr 12 false;
    DrawTextW (Rect.left area + 160) y costStr 12 false;
    DrawTextW (Rect.left area + 280) y noteStr 12 false ]
  ++ (if more
      then [ SelectPen 1 220 220 220;
             MoveToEx (Rect.left area + 10) (y + 18);
             LineTo (Rect.right area - 10) (y + 18);
             RestorePen ]
      else []).

Fixpoint table_draw_rows (format_fixed : nat -> double -> string)
         (g_day : EnergyDay) (area : RECT) (avg : double) (y : Z) (rows : list Row)
  : list (list DrawCmd) :=
  match rows with
  | [] => []
  | r :: rest =>
      table_row format_fixed g_day area avg y
                (match rest with [] => false | _ => true end) r
      :: table_draw_rows format_fixed g_day area avg (y + 20) rest
  end.

Definition DrawTable (format_fixed : nat -> double -> string)
           (sort_rows : (Row -> Row -> bool) -> list Row -> list Row)
           (g_day : EnergyDay) (area : RECT) : list DrawCmd :=
  let avg := fdiv (sum_doubles (hourlyKWh g_day)) (dec 240 1) in
  let rows := table_rows sort_rows (hourlyKWh g_day) in
  section_head area "Tabulka (výběr hodin)"
  ++ [ DrawTextW (Rect.left area + 10) (Rect.top area + 50)
         (String.append "Průměr: "
            (String.append (format_fixed 1%nat avg)
               (String.append " kWh/h   Cena: "
                  (String.append (format_fixed 2%nat (priceCZKPerKWh g_day))
                                 " Kč/kWh")))) 12 false;
       DrawTextW (Rect.left area + 10) (Rect.top area + 78) "Hod" 12 false;
       DrawTextW (Rect.left area + 80) (Rect.top area + 78) "kWh" 12 false;
       DrawTextW (Rect.left area + 160) (Rect.top area + 78) "Kč" 12 false;
       DrawTextW (Rect.left area + 280) (Rect.top area + 78) "Pozn." 12 false;
       SelectPen 1 0 0 0;
       MoveToEx (Rect.left area + 10) (Rect.top area + 82);
       LineTo (Rect.right area - 10) (Rect.top area + 82);
       RestorePen ]
  ++ concat (table_draw_rows format_fixed g_day area avg (Rect.top area + 90) rows)
  ++ [ DrawTextW (Rect.left area + 10) (Rect.bottom area - 20)
                 "Tip: nejvyšší hodiny často souvisí s HVAC/EV." 12 false ].

(** *** Calls of GDI beyond those of [DrawCmd] *)

Inductive HatchStyle := HS_FDIAGONAL | HS_BDIAGONAL | HS_HORIZONTAL | HS_VERTICAL.

(** [FillBackground] is [FillRect] with the brush [COLOR_WINDOW + 1]. *)
Inductive GdiCmd :=
| Gdi (c : DrawCmd)
| SetBkModeTransparent
| Ellipse (l t r b : Z)
| SelectHatchBrush (style : HatchStyle)
| Pie (l t r b xr1 yr1 xr2 yr2 : Z)
| FillBackground (r : RECT).

(** [ceil] of the C library: the least integer that is not below [x], which
    is a double whenever [x] is one; a negative [x] above -1 gives -0.0. *)
Definition ceil (x : double) : double :=
  match x with
  | S754_finite s m (Zneg n) =>
      let q := Z.shiftr (Zpos m) (Zpos n) in
      if s then (if q =? 0 then S754_zero true
                 else binary_normalize prec emax (- q) 0 true)
      else of_Z (if Zpos m =? Z.shiftl q (Zpos n) then q else q + 1)
  | _ => x
  end.

(** *** DrawLineChart *)

Definition line_plot (area : RECT) : RECT :=
  {| Rect.left := Rect.left area + 36; Rect.top := Rect.top area + 60;
     Rect.right := Rect.right area - 16; Rect.bottom := Rect.top area + 210 |}.

(** [maxV = 10.0; for (v : hourlyKWh) if (v > maxV) maxV = v;] *)
Definition line_maxV (hourly : list double) : double :=
  fold_left (fun maxV v => if fgt v maxV then v else maxV) hourly (dec 100 1).

(** [yMax = ceil(maxV / 5.0) * 5.0] *)
Definition line_yMax (hourly : list double) : double :=
  fmul (ceil (fdiv (line_maxV hourly) (dec 50 1))) (dec 50 1).

(** The result of an operation on [int] or [LONG] values.  A result outside
    the 32-bit range is undefined in C++; the model gives what the compiled
    code computes, the value wrapped around modulo 2^32. *)
Definition wrap_int (z : Z) : Z := (z + 2 ^ 31) mod 2 ^ 32 - 2 ^ 31.

(** [plot.left + (plot.right - plot.left) * h / 23], in 32-bit arithmetic:
    the difference, the product and the sum wrap around, and the quotient is
    truncated. *)
Definition plot_x (plot : RECT) (h : Z) : Z :=
  wrap_int (Rect.left plot
            + Z.quot (wrap_int (wrap_int (Rect.right plot - Rect.left plot) * h)) 23).

(** [plot.top + (int)((plot.bottom - plot.top) * (1.0 - val / yMax))] *)
Definition plot_y (plot : RECT) (yMax val : double) : Z :=
  Rect.top plot
  + double_to_int (fmul (of_Z (Rect.bottom plot - Rect.top plot))
                        (fsub (dec 10 1) (fdiv val yMax))).

(** One iteration of the loop over the grid lines, [i] from 0 to 5. *)
Definition grid_line (format_fixed : nat -> double -> string)
           (plot : RECT) (yMax : double) (i : Z) : list GdiCmd :=
  let y := Rect.top plot + Z.quot ((Rect.bottom plot - Rect.top plot) * i) 5 in
  let val := fmul yMax (fsub (dec 10 1) (fdiv (of_Z i) (dec 50 1))) in
  let txt := format_fixed 0%nat val in
  [ Gdi (MoveToEx (Rect.left plot) y);
    Gdi (LineTo (Rect.right plot) y);
    Gdi (TextOutW (Rect.left plot - 8 - Z.of_nat (String.length txt) * 7) (y - 6) txt) ].

(** One iteration of the loop over [ticks]. *)
Definition x_tick (plot : RECT) (t : Z) : list GdiCmd :=
  let x := plot_x plot t in
  [ Gdi (MoveToEx x (Rect.bottom plot));
    Gdi (LineTo x (Rect.bottom plot + 4));
    Gdi (TextOutW (x - 8) (Rect.bottom plot + 6) (hour_label t)) ].

(** The loop over the samples, from hour [h]: the first point is moved to,
    the others are joined by segments. *)
Fixpoint curve (plot : RECT) (yMax : double) (h : Z) (l : list double)
  : list GdiCmd :=
  match l with
  | [] => []
  | val :: rest =>
      let x := plot_x plot h in
      let y := plot_y plot yMax val in
      Gdi (if h =? 0 then MoveToEx x y else LineTo x y)
      :: curve plot yMax (h + 1) rest
  end.

(** The loop of the peak marker, from index [i]:
    [if (v[i] > peak) { peak = v[i]; peakHour = i; }] *)
Fixpoint peak_loop (i : Z) (l : list double) (st : double * Z) : double * Z :=
  match l with
  | [] => st
  | v :: rest => peak_loop (i + 1) rest (if fgt v (fst st) then (v, i) else st)
  end.

Definition DrawLineChart (format_fixed : nat -> double -> string)
           (g_day : EnergyDay) (area : RECT) : list GdiCmd :=
  let plot := line_plot area in
  let yMax := line_yMax (hourlyKWh g_day) in
  let '(peak, peakHour) := peak_loop 0 (hourlyKWh g_day) (fzero, 0) in
  let px := plot_x plot peakHour in
  let py := plot_y plot yMax peak in
  map Gdi (section_head area "Časová osa (kWh/h)")
  ++ [ Gdi (Rectangle (Rect.left plot) (Rect.top plot) (Rect.right plot)
                      (Rect.bottom plot));
       Gdi (SelectPen 1 200 200 200);
       SetBkModeTransparent ]
  ++ concat (map (grid_line format_fixed plot yMax) [0; 1; 2; 3; 4; 5])
  ++ [ Gdi RestorePen ]
  ++ concat (map (x_tick plot) [0; 6; 12; 18; 23])
  ++ [ Gdi (SelectPen 2 0 0 0) ]
  ++ curve plot yMax 0 (hourlyKWh g_day)
  ++ [ Gdi RestorePen;
       Gdi (SelectBrush BLACK_BRUSH);
       Ellipse (px - 3) (py - 3) (px + 3) (py + 3);
       Gdi RestoreBrush;
       Gdi (TextOutW (px + 6) (py - 10)
                     (String.append "peak " (format_fixed 1%nat peak))) ].

(** *** DrawPieChart *)

(** [patterns[i % 4]] *)
Definition pie_pattern (i : Z) : HatchStyle :=
  nth (Z.to_nat (Z.rem i 4))
      [HS_FDIAGONAL; HS_BDIAGONAL; HS_HORIZONTAL; HS_VERTICAL] HS_FDIAGONAL.

(** [cx + (int)(radius * cos(angle))] and [cy + (int)(radius * sin(angle))] *)
Definition pie_point (cos sin : double -> double) (cx cy radius : Z)
           (angle : double) : Z * Z :=
  (cx + double_to_int (fmul (of_Z radius) (cos angle)),
   cy + double_to_int (fmul (of_Z radius) (sin angle))).

(** The loop over the slices, from index [i] and angle [currentAngle]. *)
Fixpoint pie_slices (cos sin : double -> double) (cx cy radius : Z)
         (total : double) (i : Z) (currentAngle : double) (l : list Category)
  : list (list GdiCmd) :=
  match l with
  | [] => []
  | cat :: rest =>
      let frac := fdiv (cat_kWh cat) total in
      let endAngle := fadd currentAngle (fmul (fmul frac (of_Z 2)) PI_literal) in
      let p1 := pie_point cos sin cx cy radius currentAngle in
      let p2 := pie_point cos sin cx cy radius endAngle in
      [ SelectHatchBrush (pie_pattern i);
        Gdi (SelectPen 1 0 0 0);
        Pie (cx - radius) (cy - radius) (cx + radius) (cy + radius)
            (fst p1) (snd p1) (fst p2) (snd p2);
        Gdi RestorePen;
        Gdi RestoreBrush ]
      :: pie_slices cos sin cx cy radius total (i + 1) endAngle rest
  end.

(** One iteration of the loop over the legend lines. *)
Definition legend_row (format_fixed : nat -> double -> string) (area : RECT)
           (total : double) (i : Z) (legendY : Z) (cat : Category) : list GdiCmd :=
  let pct := fdiv (fmul (dec 1000 1) (cat_kWh cat)) total in
  let idx := to_wstring (i + 1) in
  let line :=
    String.append idx
      (String.append ") "
         (String.append (cat_name cat)
            (String.append "  " (String.append (format_fixed 0%nat pct) "%")))) in
  [ Gdi (Rectangle (Rect.left area + 200) legendY (Rect.left area + 212) (legendY + 12));
    Gdi (TextOutW (Rect.left area + 202) (legendY - 1) idx);
    Gdi (TextOutW (Rect.left area + 218) (legendY - 1) line) ].

Fixpoint legend_rows (format_fixed : nat -> double -> string) (area : RECT)
         (total : double) (i : Z) (legendY : Z) (l : list Category)
  : list (list GdiCmd) :=
  match l with
  | [] => []
  | cat :: rest =>
      legend_row format_fixed area total i legendY cat
      :: legend_rows format_fixed area total (i + 1) (legendY + 22) rest
  end.

Definition DrawPieChart (format_fixed : nat -> double -> string)
           (cos sin : double -> double) (g_day : EnergyDay) (area : RECT)
  : list GdiCmd :=
  let total := pie_total g_day in
  let cx := Rect.left area + 100 in
  let cy := Rect.top area + 170 in
  let radius := 70 in
  let startAngle := fdiv (SFopp PI_literal) (of_Z 2) in
  let cats := categoryBreakdown g_day in
  map Gdi (section_head area "Rozpad kategorií (podíl)")
  ++ concat (pie_slices cos sin cx cy radius total 0 startAngle cats)
  ++ concat (legend_rows format_fixed area total 0 (Rect.top area + 90) cats)
  ++ [ Gdi (TextOutW (Rect.left area + 200)
                     (Rect.top area + 90 + 22 * Z.of_nat (length cats) + 4)
                     "Pozn.: vzory = index 1..N") ].

(** *** The paint handler *)

(** What [WM_PAINT] draws: the background of the invalid rectangle, then
    the six sections, each in its region. *)
Definition OnPaint (format_fixed : nat -> double -> string)
           (text_extent : string -> Z) (cos sin : double -> double)
           (sort_rows : (Row -> Row -> bool) -> list Row -> list Row)
           (g_day : EnergyDay) (client rcPaint : RECT) : list GdiCmd :=
  let r := paint_regions client in
  FillBackground rcPaint
  :: map Gdi (DrawHeader format_fixed g_day (headerArea r))
  ++ DrawLineChart format_fixed g_day (lineArea r)
  ++ map Gdi (DrawBarChart format_fixed text_extent g_day (barArea r))
  ++ DrawPieChart format_fixed cos sin g_day (pieArea r)
  ++ map Gdi (DrawTable format_fixed sort_rows g_day (tableArea r))
  ++ map Gdi (DrawChecklist g_day (checkArea r)).

(** ** Part II: definitions of the verification

    The quantities the statements are written in: the recurrence and the
    hourly formula as the specification words them, the value of a double as
    a scaled integer, rounding to nearest even on integers, intervals of
    doubles, and the contract of [std::sort]. *)

(** *** Doubles as scaled integers

    Every finite double is an integer multiple of [2^-1074]; multiplied by
    [2^scale] it is an integer, and so are the exact sum, difference and
    product (divided by [2^scale]) of two doubles. *)
Definition scale : Z := 2200.

(** The exponent of the grid of doubles around the scaled value [X]: 53
    significant bits, and never finer than [2^-1074]. *)
Definition gexp (X : Z) : Z := Z.max (Z.log2 X - 52) (scale - 1074).

(** [X / G] rounded to the nearest integer, ties to even. *)
Definition rne (X G : Z) : Z :=
  let q := X / G in
  let r := X mod G in
  if 2 * r <? G then q
  else if G <? 2 * r then q + 1
  else if Z.even q then q else q + 1.

(** Rounding of a non-negative scaled value to the grid of doubles. *)
Definition rnd (X : Z) : Z := rne X (2 ^ gexp X) * 2 ^ gexp X.

(** Rounding of a scaled value of either sign. *)
Definition rndS (z : Z) : Z := Z.sgn z * rnd (Z.abs z).

(** The record [shr_1] builds after [k] shifts of [M]: the quotient, the
    last bit shifted out and whether any bit before it was set. *)
Definition srec (M k : Z) : shr_record :=
  if k =? 0 then Build_shr_record M false false
  else Build_shr_record (M / 2 ^ k) (Z.testbit M (k - 1))
                        (negb (M mod 2 ^ (k - 1) =? 0)).

(** The scaled value from which rounding overflows to an infinity. *)
Definition OVF : Z := 2 ^ (1024 + scale).

(** The scaled value of a double (an infinity counts as [OVF]). *)
Definition val (x : spec_float) : Z :=
  match x with
  | S754_zero _ => 0
  | S754_infinity s => if s then - OVF else OVF
  | S754_nan => 0
  | S754_finite s m e => (if s then -1 else 1) * (Zpos m * 2 ^ (e + scale))
  end.

(** [r] is the double of sign [s] and scaled magnitude [Y]. *)
Definition rounds_to (s : bool) (Y : Z) (r : spec_float) : Prop :=
  match r with
  | S754_zero s' => s' = s /\ Y = 0
  | S754_finite s' m e =>
      s' = s /\ bounded prec emax m e = true /\ Zpos m * 2 ^ (e + scale) = Y
  | S754_infinity s' => s' = s /\ OVF <= Y
  | S754_nan => False
  end.

(** Zeros and finite numbers. *)
Definition is_finite (x : spec_float) : bool :=
  match x with
  | S754_zero _ | S754_finite _ _ _ => true
  | _ => false
  end.

(** A well-formed finite double. *)
Definition finb (x : spec_float) : bool := valid_binary prec emax x && is_finite x.

(** A well-formed double that is not a NaN. *)
Definition wfb (x : spec_float) : bool :=
  valid_binary prec emax x && match x with S754_nan => false | _ => true end.

(** A zero of either sign. *)
Definition is_zero (x : spec_float) : Prop := exists s, x = S754_zero s.

(** The exact product of two values, on the common scale. *)
Definition vmul (a b : Z) : Z := a * b / 2 ^ scale.

(** [x] is a finite double between [lo] and [hi]. *)
Definition within (lo hi x : spec_float) : Prop :=
  finb x = true /\ fle lo x = true /\ fle x hi = true.

(** The double [2^53]. *)
Definition two53 : spec_float := S754_finite false 4503599627370496 1.

(** *** The generator and the hour of the specification

    The exact rational value of a finite double. *)
Definition B2Q (x : spec_float) : Q :=
  match x with
  | S754_finite s m e => (inject_Z (if s then Zneg m else Zpos m) * Qpower 2 e)%Q
  | _ => 0%Q
  end.

(** The recurrence of the specification. *)
Definition lcg_step (s : Z) : Z := (s * 6364136223846793005 + 1) mod 2 ^ 64.

(** The reference sequence: the first [n] iterates of the recurrence. *)
Fixpoint reference_sequence (n : nat) (s : Z) : list Z :=
  match n with
  | O => []
  | S n' => lcg_step s :: reference_sequence n' (lcg_step s)
  end.

(** [(r >> 11) / 2^53] for an output [r] of the generator. *)
Definition unit_of (r : Z) : double := fdiv (of_Z (Z.shiftr r 11)) (of_Z (2 ^ 53)).

(** The base load by the band of the hour, as the specification lists it. *)
Definition spec_base (h : Z) : double :=
  if (h <? 6) || (23 <=? h) then dec 65 1
  else if (6 <=? h) && (h <? 8) then dec 95 1
  else if (8 <=? h) && (h <=? 18) then dec 160 1
  else if (19 <=? h) && (h <=? 22) then dec 100 1
  else S754_nan.

(** The wave: [7.0 * sin((h - 8) / 10 * pi)] for the hours 8 to 18. *)
Definition spec_wave (sin : double -> double) (h : Z) : double :=
  if (8 <=? h) && (h <=? 18)
  then fmul (dec 70 1)
            (sin (fmul (fdiv (fsub (of_Z h) (dec 80 1)) (dec 100 1)) PI_literal))
  else fzero.

(** The argument of [sin] at hour [h]: [(h - 8.0) / 10.0 * pi]. *)
Definition wave_argument (h : Z) : double :=
  fmul (fdiv (fsub (of_Z h) (dec 80 1)) (dec 100 1)) PI_literal.

(** The noise of a draw [u1]: [(u1 - 0.5) * 2]. *)
Definition spec_noise (u1 : double) : double := fmul (fsub u1 (dec 5 1)) (dec 20 1).

(** The spike of a draw [u3]: [5 + 10 * u3]. *)
Definition spec_spike (u3 : double) : double := fadd (dec 50 1) (fmul (dec 100 1) u3).

(** One hour: a first draw for the noise, a second one to decide the spike,
    a third one only when the second is below 0.08; the value is clamped to
    3.0 from below.  The result is the value and the state of the generator
    after the hour. *)
Definition spec_hour (sin : double -> double) (h : Z) (s : Z) : double * Z :=
  let r1 := lcg_step s in
  let r2 := lcg_step r1 in
  let r3 := lcg_step r2 in
  let noise := spec_noise (unit_of r1) in
  let spiked := flt (unit_of r2) (dec 8 2) in
  let spike := if spiked then spec_spike (unit_of r3) else fzero in
  (std_max (dec 30 1)
           (fadd (fadd (fadd (spec_base h) (spec_wave sin h)) noise) spike),
   if spiked then r3 else r2).

(** The values of [n] hours from hour [h] on, and the state after them. *)
Fixpoint spec_day (sin : double -> double) (n : nat) (h : Z) (s : Z)
  : list double * Z :=
  match n with
  | O => ([], s)
  | S n' =>
      let '(v, s') := spec_hour sin h s in
      let '(rest, s'') := spec_day sin n' (h + 1) s' in
      (v :: rest, s'')
  end.

(** *** Intervals of doubles

    [within] as a test. *)
Definition withinb (lo hi x : spec_float) : bool :=
  finb x && fle lo x && fle x hi.

(** An interval is a pair of a lower and an upper bound. *)
Definition iv : Type := (spec_float * spec_float)%type.

(** Both bounds are finite doubles. *)
Definition iv_ok (i : iv) : bool := finb (fst i) && finb (snd i).

(** Membership. *)
Definition iv_in (i : iv) (x : spec_float) : Prop := within (fst i) (snd i) x.

(** The interval of a constant. *)
Definition iv_point (c : spec_float) : iv := (c, c).

(** Sum and difference of intervals: the operations of doubles are
    monotone, so the bounds are the operations on the bounds. *)
Definition iv_add (i j : iv) : iv := (fadd (fst i) (fst j), fadd (snd i) (snd j)).

Definition iv_sub (i j : iv) : iv := (fsub (fst i) (snd j), fsub (snd i) (fst j)).

(** [x * c] and [c * x] for a non-negative constant [c]. *)
Definition iv_mul_r (i : iv) (c : spec_float) : iv := (fmul (fst i) c, fmul (snd i) c).

Definition iv_mul_l (c : spec_float) (i : iv) : iv := (fmul c (fst i), fmul c (snd i)).

(** A finite double that is not negative. *)
Definition nonneg_const (c : spec_float) : bool := finb c && (0 <=? val c).

(** [std::max(c, x)] for a constant [c]. *)
Definition iv_max (c : spec_float) (i : iv) : iv := (c, std_max c (snd i)).

(** The sum of a vector whose entries lie in given intervals. *)
Fixpoint iv_sum (ivs : list iv) (acc : iv) : iv :=
  match ivs with
  | [] => acc
  | i :: rest => iv_sum rest (iv_add acc i)
  end.

(** All bounds met while summing are finite. *)
Fixpoint iv_sum_ok (ivs : list iv) (acc : iv) : bool :=
  match ivs with
  | [] => iv_ok acc
  | i :: rest => iv_ok acc && iv_ok i && iv_sum_ok rest (iv_add acc i)
  end.

(** *** Bounds on an hour and on the daily total

    The draw of [k]: [k / 2^53]. *)
Definition ratio (k : Z) : spec_float := fdiv (of_Z k) two53.

(** The largest draw. *)
Definition umax : spec_float := ratio (2 ^ 53 - 1).

(** The noise of a draw in [0, hi], and the side conditions of the interval
    operations it uses. *)
Definition noise_iv (hi : spec_float) : iv :=
  iv_mul_r (iv_sub (fzero, hi) (iv_point (dec 5 1))) (dec 20 1).

Definition noise_chk (hi : spec_float) : bool :=
  iv_ok (fzero, hi) && iv_ok (iv_point (dec 5 1)) &&
  iv_ok (iv_sub (fzero, hi) (iv_point (dec 5 1))) &&
  nonneg_const (dec 20 1) && iv_ok (noise_iv hi).

(** The spike of a draw in [0, hi], and its side conditions. *)
Definition spike_iv (hi : spec_float) : iv :=
  iv_add (iv_point (dec 50 1)) (iv_mul_l (dec 100 1) (fzero, hi)).

Definition spike_chk (hi : spec_float) : bool :=
  iv_ok (fzero, hi) && iv_ok (iv_point (dec 50 1)) && nonneg_const (dec 100 1) &&
  iv_ok (iv_mul_l (dec 100 1) (fzero, hi)) && iv_ok (spike_iv hi) &&
  fle fzero (fst (spike_iv hi)).

(** The wave, for a sine in [-1, 1]. *)
Definition wave_iv : iv := iv_mul_l (dec 70 1) (SFopp (dec 10 1), dec 10 1).

(** The value of an hour from the intervals of its four terms. *)
Definition hour_sum_iv (bi wi ni si : iv) : iv :=
  iv_max (dec 30 1) (iv_add (iv_add (iv_add bi wi) ni) si).

(** The spike, taken or not. *)
Definition spike_any_iv (hi : spec_float) : iv := (fzero, snd (spike_iv hi)).

(** The bound of an hour by interval arithmetic alone. *)
Definition hour_iv_of (base : spec_float) (work : bool) : iv :=
  hour_sum_iv (iv_point base) (if work then wave_iv else iv_point fzero)
              (noise_iv umax) (spike_any_iv umax).

(** The side conditions of [hour_sum_iv]. *)
Definition hour_chk (bi wi ni si : iv) : bool :=
  iv_ok bi && iv_ok wi && iv_ok ni && iv_ok si &&
  iv_ok (iv_add bi wi) && iv_ok (iv_add (iv_add bi wi) ni) &&
  iv_ok (iv_add (iv_add (iv_add bi wi) ni) si) && finb (dec 30 1).

(** The two draws that could push an hour up to 39.0 never come together:
    when the first draw of an hour is among the 8 largest, the third is not
    among the 4 largest. *)
Definition worst_case_free (j : nat) : bool :=
  Z.shiftr (lcg_step (lcg_step (2 ^ 64 - Z.of_nat j))) 11 <=? 2 ^ 53 - 5.

(** What is assumed of the C library's [sin]: a finite result in [-1, 1]. *)
Definition sin_ok (sin : double -> double) : Prop :=
  forall x, iv_in (SFopp (dec 10 1), dec 10 1) (sin x).

(** The largest double below 39.0. *)
Definition pred39 : spec_float := S754_finite false 5488762045857791 (-47).

(** The hours with a wave. *)
Definition is_work (h : Z) : bool := (8 <=? h) && (h <=? 18).

Definition hour_iv (h : Z) : iv := hour_iv_of (spec_base h) (is_work h).

(** The bound of an hour: below 39.0 in the working hours. *)
Definition hour_bound (h : Z) : iv :=
  if is_work h then (dec 30 1, pred39) else hour_iv h.

(** The hours [h, h + 1, ..., h + n - 1]. *)
Fixpoint zseq (h : Z) (n : nat) : list Z :=
  match n with
  | O => []
  | S n' => h :: zseq (h + 1) n'
  end.

(** The bounds on the daily total: the sum of the 24 hourly bounds in the
    order of the loop. *)
Definition day_total_iv : iv := iv_sum (map hour_bound (zseq 0 24)) (iv_point fzero).

(** The bounds on the category values and on their sum. *)
Definition share_ivs (t : iv) : list iv := map (fun c => iv_mul_r t (snd c)) cats.

Definition pie_iv : iv := iv_sum (share_ivs day_total_iv) (iv_point fzero).

(** What the C++ library promises of [std::sort(first, last, comp)] when
    [comp] is a strict weak ordering (here: the keys are numbers): the result
    is a rearrangement of the input in which no element is ordered by [comp]
    before one that precedes it.  The order of equivalent elements is not
    specified. *)
Definition no_inversion (cmp : Consumer -> Consumer -> bool) (l : list Consumer) : Prop :=
  StronglySorted (fun a b => cmp b a = false) l.

Definition numeric_keys (l : list Consumer) : Prop :=
  Forall (fun c => wfb (cons_kWh c) = true) l.

Definition std_sort_ok
           (sort : (Consumer -> Consumer -> bool) -> list Consumer -> list Consumer)
  : Prop :=
  forall l, numeric_keys l ->
    Permutation (sort by_kWh_desc l) l /\ no_inversion by_kWh_desc (sort by_kWh_desc l).

(** Two insertion sorts: the first keeps equal elements in their original
    order (a stable sort); the second reverses them. *)
Fixpoint insert_after (cmp : Consumer -> Consumer -> bool) (x : Consumer)
         (l : list Consumer) : list Consumer :=
  match l with
  | [] => [x]
  | y :: t => if cmp x y then x :: y :: t else y :: insert_after cmp x t
  end.

Fixpoint insert_before (cmp : Consumer -> Consumer -> bool) (x : Consumer)
         (l : list Consumer) : list Consumer :=
  match l with
  | [] => [x]
  | y :: t => if cmp y x then y :: insert_before cmp x t else x :: y :: t
  end.

Definition stable_sort (cmp : Consumer -> Consumer -> bool) (l : list Consumer)
  : list Consumer :=
  fold_left (fun acc x => insert_after cmp x acc) l [].

Definition tie_reversing_sort (cmp : Consumer -> Consumer -> bool) (l : list Consumer)
  : list Consumer :=
  fold_left (fun acc x => insert_before cmp x acc) l [].

(** [std::sort] on a short range.  The implementations of the C++ library
    sort a range of fewer than 16 elements (32 in the library of Visual C++)
    by insertion: each element in turn is moved toward the front, past the
    elements it is ordered before.  [unguarded_insert] is the scan from the
    hole toward the front; its argument and its result hold the sorted
    elements in reverse order, the one next to the hole first. *)
Fixpoint unguarded_insert (cmp : Consumer -> Consumer -> bool) (val : Consumer)
         (before : list Consumer) : list Consumer :=
  match before with
  | [] => [val]
  | prev :: rest =>
      if cmp val prev then prev :: unguarded_insert cmp val rest
      else val :: prev :: rest
  end.

(** One step of the insertion: an element ordered before the first one is
    moved to the front, any other is inserted by the scan. *)
Definition linear_insert (cmp : Consumer -> Consumer -> bool) (val : Consumer)
           (sorted : list Consumer) : list Consumer :=
  match sorted with
  | [] => [val]
  | first :: _ =>
      if cmp val first then val :: sorted
      else rev (unguarded_insert cmp val (rev sorted))
  end.

Definition std_sort (cmp : Consumer -> Consumer -> bool) (l : list Consumer)
  : list Consumer :=
  fold_left (fun sorted val => linear_insert cmp val sorted) l [].

(** The key of a consumer, as a scaled integer. *)
Definition key (c : Consumer) : Z := val (cons_kWh c).

(** *** Layout and renderers

    The default of [nth] on lists of regions. *)
Definition empty_rect : RECT :=
  {| Rect.left := 0; Rect.top := 0; Rect.right := 0; Rect.bottom := 0 |}.

(** Region [a] lies above region [b]. *)
Definition above (a b : RECT) : Prop := Rect.bottom a <= Rect.top b.

(** The quantities of the checklist, as the specification words them. *)
Definition night_average (hourly : list double) : double :=
  fdiv (sum_doubles (firstn 6 hourly)) (dec 60 1).

Definition daily_average (hourly : list double) : double :=
  fdiv (sum_doubles hourly) (dec 240 1).

(** The largest sample (the first one among equal ones). *)
Definition max_of (l : list double) : double :=
  match l with
  | [] => fzero
  | x :: t => fold_left (fun m v => if fgt v m then v else m) t x
  end.

(** Two doubles that are equal or both zero compare alike with any third. *)
Definition zeq (a b : double) : Prop :=
  a = b \/ ((exists s, a = S754_zero s) /\ (exists s, b = S754_zero s)).

(** The fill width with the maximum taken among the listed consumers only,
    as the specification words it. *)
Definition spec_bar_fill_width (barW : Z) (l : list Consumer) (it : Consumer) : Z :=
  double_to_int
    (fmul (of_Z barW) (fdiv (cons_kWh it) (max_of (map cons_kWh l)))).

(** A consumer of 0.5 kWh. *)
Definition small_consumer : Consumer :=
  {| cons_name := "X"; cons_kWh := dec 5 1 |}.

(** A table of [sin] at the arguments [(h - 8.0) / 10.0 * pi] of the hours
    9 to 18, rounded to nearest; zero elsewhere (which is [sin] at hour 8).
    It stands for the C library where a concrete day is computed. *)
Definition sf_eqb (x y : spec_float) : bool :=
  match x, y with
  | S754_zero a, S754_zero b => Bool.eqb a b
  | S754_infinity a, S754_infinity b => Bool.eqb a b
  | S754_nan, S754_nan => true
  | S754_finite a m e, S754_finite b m' e' =>
      Bool.eqb a b && Pos.eqb m m' && Z.eqb e e'
  | _, _ => false
  end.

(** The table: pairs of an argument and the sine at it. *)
Definition sin_values : list (spec_float * spec_float) :=
  [ (S754_finite false 5659390201622752 (-54), S754_finite false 5566755282872655 (-54));
    (S754_finite false 5659390201622752 (-53), S754_finite false 5294298886396510 (-53));
    (S754_finite false 8489085302434128 (-53), S754_finite false 7286977268806824 (-53));
    (S754_finite false 5659390201622752 (-52), S754_finite false 8566355544790271 (-53));
    (S754_finite false 7074237752028440 (-52), S754_finite false 4503599627370496 (-52));
    (S754_finite false 8489085302434128 (-52), S754_finite false 8566355544790272 (-53));
    (S754_finite false 4951966426419908 (-51), S754_finite false 7286977268806824 (-53));
    (S754_finite false 5659390201622752 (-51), S754_finite false 5294298886396511 (-53));
    (S754_finite false 6366813976825596 (-51), S754_finite false 5566755282872657 (-54));
    (S754_finite false 7074237752028440 (-51), S754_finite false 4967757600021511 (-105)) ].

Fixpoint lookup (x : spec_float) (tbl : list (spec_float * spec_float)) : spec_float :=
  match tbl with
  | [] => fzero
  | (a, v) :: rest => if sf_eqb a x then v else lookup x rest
  end.

Definition sin_table (x : double) : double := lookup x sin_values.

(** A reference date. *)
Definition noon : SYSTEMTIME :=
  {| wYear := 2026; wMonth := 1; wDayOfWeek := 4; wDay := 1;
     wHour := 12; wMinute := 0; wSecond := 0; wMilliseconds := 0 |}.

(** A second table of [sin]: the same values at the arguments of the hours
    8 to 18, and no number elsewhere. *)
Definition sin_table_nan (x : double) : double :=
  if existsb (sf_eqb x) (wave_argument 8 :: map fst sin_values)
  then sin_table x else S754_nan.

(** The same day, six hours later. *)
Definition evening : SYSTEMTIME :=
  {| wYear := 2026; wMonth := 1; wDayOfWeek := 4; wDay := 1;
     wHour := 18; wMinute := 0; wSecond := 0; wMilliseconds := 0 |}.

(** The seven raw consumers in the order of their values; [swap] exchanges
    the two entries of share 0.17. *)
Definition sorted_raw (total : double) (swap : bool) : list Consumer :=
  let vzt := {| cons_name := "VZT jednotky"; cons_kWh := fmul total (dec 17 2) |} in
  let ost := {| cons_name := "Ostatní"; cons_kWh := fmul total (dec 17 2) |} in
  [ {| cons_name := "Chiller / tepelné čerpadlo"; cons_kWh := fmul total (dec 22 2) |};
    if swap then ost else vzt;
    if swap then vzt else ost;
    {| cons_name := "Osvětlení open-space"; cons_kWh := fmul total (dec 15 2) |};
    {| cons_name := "Serverovna UPS"; cons_kWh := fmul total (dec 14 2) |};
    {| cons_name := "EV nabíjení"; cons_kWh := fmul total (dec 10 2) |};
    {| cons_name := "Výtahy"; cons_kWh := fmul total (dec 5 2) |} ].

(** *** The generator, the date, the charts and the table *)

(** The state before a call of [next]: the multiplier is odd, so it has an
    inverse modulo 2^64. *)
Definition lcg_prev (s : Z) : Z := ((s - 1) * 13877824140714322085) mod 2 ^ 64.

(** The state after [n] calls of [next]. *)
Definition state_after (n : N) (s : Z) : Z :=
  N.iter n (fun st => snd (SeededRNG.next st)) s.

(** [1 + a + ... + a^(n-1)] for the multiplier [a]. *)
Definition geo (n : N) : Z := N.iter n (fun g => SeededRNG.a * g + 1) 0.

(** Reading a date back: the text before the first dot and what follows
    it. *)
Fixpoint split_dot (s : string) : string * option string :=
  match s with
  | EmptyString => (EmptyString, None)
  | String c r =>
      if Ascii.eqb c "." then (EmptyString, Some r)
      else let '(a, b) := split_dot r in (String c a, b)
  end.

(** The number written by a non-empty text of decimal digits. *)
Definition read_number (s : string) : option Z :=
  match s with
  | EmptyString => None
  | _ => option_map Z.of_uint (NilEmpty.uint_of_string s)
  end.

(** The day, the month and the year read from a text of three numbers
    separated by dots. *)
Definition parse_date (s : string) : option (Z * Z * Z) :=
  match split_dot s with
  | (d, Some r) =>
      match split_dot r with
      | (m, Some y) =>
          match read_number d, read_number m, read_number y with
          | Some a, Some b, Some c => Some (a, b, c)
          | _, _, _ => None
          end
      | _ => None
      end
  | _ => None
  end.

(** A text of decimal digits, possibly with zeros in front. *)
Definition digits_of (k : nat) (d : Decimal.uint) : string :=
  String.append (fill_chars k "0") (NilEmpty.string_of_uint d).

(** What the peak loops establish on the samples read so far: either no
    sample has exceeded 0.0, or the peak is the sample of the peak hour,
    which is the first among the largest samples. *)
Definition first_peak (l : list double) (peak : double) (peakHour : Z) : Prop :=
  (Forall (fun v => fgt v fzero = false) l /\ peak = fzero /\ peakHour = 0) \/
  (exists k : nat,
     peakHour = Z.of_nat k /\ (k < length l)%nat /\
     nth k l fzero = peak /\ fgt peak fzero = true /\
     Forall (fun v => fle v peak = true) l /\
     (forall j, (j < k)%nat -> flt (nth j l fzero) peak = true)).

(** What the C++ library promises of [std::sort] on the rows of the table,
    whose values are numbers: a rearrangement of the input in which no row
    comes after one it is ordered before. *)
Definition std_sort_rows_ok
           (sort_rows : (Row -> Row -> bool) -> list Row -> list Row) : Prop :=
  forall l, Forall (fun r => wfb (row_v r) = true) l ->
    Permutation (sort_rows by_v_desc l) l /\
    StronglySorted (fun a b => by_v_desc b a = false) (sort_rows by_v_desc l).

(** Insertion of a row after the rows that are not smaller, and the sort by
    insertion built on it. *)
Fixpoint insert_row (cmp : Row -> Row -> bool) (x : Row) (l : list Row) : list Row :=
  match l with
  | [] => [x]
  | y :: t => if cmp x y then x :: y :: t else y :: insert_row cmp x t
  end.

(** The rows sorted by insertion, one after the other. *)
Definition insertion_sort_rows (cmp : Row -> Row -> bool) (l : list Row) : list Row :=
  fold_left (fun acc x => insert_row cmp x acc) l [].

(** The record [shr_1] builds after [k] shifts of the quotient [N / D]: the
    quotient by [D * 2^k], whether the remainder reaches one half of the
    divisor and whether it differs from nothing and from one half. *)
Definition qrec (N D k : Z) : shr_record :=
  let G := D * 2 ^ k in
  Build_shr_record (N / G) (G <=? 2 * (N mod G))
                   (negb ((2 * (N mod G)) mod G =? 0)).

(** Rounding of the quotient [A / B] to the grid of doubles. *)
Definition rndq (A B : Z) : Z :=
  rne A (B * 2 ^ gexp (A / B)) * 2 ^ gexp (A / B).

(** A sample the charts are made for: a number that is not negative and
    below 2^40. *)
Definition plain_sample (v : double) : Prop :=
  finb v = true /\ 0 <= val v < 2 ^ 40 * 2 ^ scale.

(** A point of the curve inside the plot rectangle. *)
Definition point_in (plot : RECT) (c : GdiCmd) : Prop :=
  exists x y, (c = Gdi (MoveToEx x y) \/ c = Gdi (LineTo x y)) /\
              Rect.left plot <= x <= Rect.right plot /\
              Rect.top plot <= y <= Rect.bottom plot.

(** The angles at which the slices begin and end: the start angle, and
    after each category the angle advanced by its share of the full turn. *)
Fixpoint pie_angles (total : double) (currentAngle : double) (l : list Category)
  : list double :=
  currentAngle ::
  match l with
  | [] => []
  | cat :: rest =>
      pie_angles total
        (fadd currentAngle
              (fmul (fmul (fdiv (cat_kWh cat) total) (of_Z 2)) PI_literal))
        rest
  end.

(** What is assumed of the C library's [cos]: for a finite argument, a
    finite result in [-1, 1]. *)
Definition cos_ok (cos : double -> double) : Prop :=
  forall x, finb x = true -> iv_in (SFopp (dec 10 1), dec 10 1) (cos x).

(** The shares of the five categories, each with a lower and an upper bound
    of the quotient [cat.kWh / total] (the share up to 2^-27) and of the
    percentage [100.0 * cat.kWh / total] (the percentage up to 2^-17). *)
Definition share_bounds : list (iv * iv) :=
  [ ((S754_finite false 7566047238422528 (-54), S754_finite false 7566047523635200 (-54)),
     (S754_finite false 5910973437181952 (-47), S754_finite false 5910975584665600 (-47)));
    ((S754_finite false 7926335066341376 (-55), S754_finite false 7926335636766720 (-55)),
     (S754_finite false 6192447340150784 (-48), S754_finite false 6192451635118080 (-48)));
    ((S754_finite false 6485183184240640 (-55), S754_finite false 6485183754665984 (-55)),
     (S754_finite false 5066547433308160 (-48), S754_finite false 5066551728275456 (-48)));
    ((S754_finite false 7205758840078336 (-56), S754_finite false 7205759980929024 (-56)),
     (S754_finite false 5629495239245824 (-49), S754_finite false 5629503829180416 (-49)));
    ((S754_finite false 5764606924423168 (-56), S754_finite false 5764608065273856 (-56)),
     (S754_finite false 9007190664806400 (-50), S754_finite false 4503603922337792 (-49))) ].

(** The quotient and the percentage of a category lie within their bounds. *)
Definition share_in (total : double) (c : Category) (b : iv * iv) : Prop :=
  iv_in (fst b) (fdiv (cat_kWh c) total) /\
  iv_in (snd b) (fdiv (fmul (dec 1000 1) (cat_kWh c)) total).

(** The bounds of a percentage are within 1/100000 of the integer [k]. *)
Definition percent_near (b : iv * iv) (k : Z) : bool :=
  iv_ok (snd b)
  && ((k * 2 ^ scale - val (fst (snd b))) * 100000 <? 2 ^ scale)
  && ((val (snd (snd b)) - k * 2 ^ scale) * 100000 <? 2 ^ scale)
  && (Z.abs k <? 2 ^ 53).

(** Bounds of the angles of the slices, from bounds of the quotients. *)
Fixpoint angle_bounds (cur : iv) (bs : list (iv * iv)) : list iv :=
  cur ::
  match bs with
  | [] => []
  | b :: rest =>
      angle_bounds (iv_add cur (iv_mul_r (iv_mul_r (fst b) (of_Z 2)) PI_literal)) rest
  end.

(** All the bounds met on the way are finite. *)
Fixpoint angle_bounds_ok (cur : iv) (bs : list (iv * iv)) : bool :=
  iv_ok cur &&
  match bs with
  | [] => true
  | b :: rest =>
      let f2 := iv_mul_r (fst b) (of_Z 2) in
      let sweep := iv_mul_r f2 PI_literal in
      iv_ok (fst b) && iv_ok f2 && iv_ok sweep
      && angle_bounds_ok (iv_add cur sweep) rest
  end.

(** One interval lies within another. *)
Definition iv_subset (i j : iv) : bool :=
  iv_ok i && iv_ok j && fle (fst j) (fst i) && fle (snd i) (snd j).

(** The angles of the slices of a simulated day, to five decimals: -pi/2,
    then advanced by 0.42, 0.22, 0.18, 0.10 and 0.08 of the full turn. *)
Definition simulated_angles : list iv :=
  [ (SFopp (dec 157080 5), SFopp (dec 157079 5));
    (dec 106814 5, dec 106815 5);
    (dec 245044 5, dec 245045 5);
    (dec 358141 5, dec 358142 5);
    (dec 420973 5, dec 420974 5);
    (dec 471238 5, dec 471239 5) ].

(** The two radial end points of a [Pie] call lie in its bounding
    rectangle; every other command passes. *)
Definition radials_in_box (c : GdiCmd) : Prop :=
  match c with
  | Pie l t r b xr1 yr1 xr2 yr2 =>
      (l <= xr1 <= r /\ t <= yr1 <= b) /\ (l <= xr2 <= r /\ t <= yr2 <= b)
  | _ => True
  end.

(** Three samples: 3.0, 12.5 and 8.0 kWh. *)
Definition sample_hours : list double := [dec 30 1; dec 125 1; dec 80 1].

(** Two consumers, of 12.5 and 3.0 kWh. *)
Definition sample_consumers : list Consumer :=
  [ {| cons_name := "A"; cons_kWh := dec 125 1 |};
    {| cons_name := "B"; cons_kWh := dec 30 1 |} ].

(** A section of 400 by 300 pixels. *)
Definition sample_area : RECT :=
  {| Rect.left := 0; Rect.top := 0; Rect.right := 400; Rect.bottom := 300 |}.

(** A cosine read from the table of sines: [cos x = sin (x + pi/2)]. *)
Definition cos_table (x : double) : double :=
  sin_table (fadd x (fdiv PI_literal (of_Z 2))).

(** ** Part III: theorems *)

(** *** Rounding to nearest even on integers *)

Lemma rne_cases (X G : Z) :
  0 < G ->
  exists q r, X = G * q + r /\ 0 <= r < G /\
    ((2 * r < G /\ rne X G = q) \/
     (G < 2 * r /\ rne X G = q + 1) \/
     (2 * r = G /\ Z.even q = true /\ rne X G = q) \/
     (2 * r = G /\ Z.even q = false /\ rne X G = q + 1)).
Proof.
  intros HG. exists (X / G), (X mod G).
  split. { apply Z.div_mod. lia. }
  split. { apply Z.mod_pos_bound. lia. }
  unfold rne. cbv zeta.
  destruct (Z.ltb_spec (2 * (X mod G)) G) as [H1|H1]; [left; split; [lia|reflexivity]|].
  destruct (Z.ltb_spec G (2 * (X mod G))) as [H2|H2]; [right; left; split; [lia|reflexivity]|].
  destruct (Z.even (X / G)) eqn:E.
  - right; right; left. repeat split; try lia. 
  - right; right; right. repeat split; try lia.
Qed.

Lemma div_mod_unique' (G q r q' r' : Z) :
  0 < G -> 0 <= r < G -> 0 <= r' < G -> G * q + r = G * q' + r' -> q = q' /\ r = r'.
Proof.
  intros HG Hr Hr' E.
  assert (q = q') by nia. subst. split; [reflexivity|lia].
Qed.

Lemma rne_mono (X Y G : Z) : 0 < G -> X <= Y -> rne X G <= rne Y G.
Proof.
  intros HG HXY.
  destruct (rne_cases X G HG) as (q & r & EX & Hr & HX).
  destruct (rne_cases Y G HG) as (q' & r' & EY & Hr' & HY).
  assert (Hq : q <= q') by nia.
  destruct (Z.eq_dec q q') as [->|Hne].
  - assert (r <= r') by lia.
    destruct HX as [[? ->]|[[? ->]|[(? & E1 & ->)|(? & E1 & ->)]]];
    destruct HY as [[? ->]|[[? ->]|[(? & E2 & ->)|(? & E2 & ->)]]]; try lia;
    congruence.
  - assert (q + 1 <= q') by lia.
    destruct HX as [[? ->]|[[? ->]|[(? & E1 & ->)|(? & E1 & ->)]]];
    destruct HY as [[? ->]|[[? ->]|[(? & E2 & ->)|(? & E2 & ->)]]]; lia.
Qed.

Lemma rne_mul (k G : Z) : 0 < G -> rne (k * G) G = k.
Proof.
  intros HG. unfold rne. cbv zeta.
  rewrite Z.mod_mul by lia. rewrite Z.div_mul by lia.
  destruct (Z.ltb_spec (2 * 0) G); [reflexivity|lia].
Qed.

Lemma rne_err (X G : Z) : 0 < G -> 2 * Z.abs (rne X G * G - X) <= G.
Proof.
  intros HG.
  destruct (rne_cases X G HG) as (q & r & EX & Hr & HX).
  destruct HX as [[? ->]|[[? ->]|[(? & E1 & ->)|(? & E1 & ->)]]]; nia.
Qed.

Lemma rne_scale (X G c : Z) : 0 < G -> 0 < c -> rne (X * c) (G * c) = rne X G.
Proof.
  intros HG Hc.
  assert (HGc : 0 < G * c) by nia.
  destruct (rne_cases X G HG) as (q & r & EX & Hr & HX).
  destruct (rne_cases (X * c) (G * c) HGc) as (q' & r' & EX' & Hr' & HX').
  assert (E : G * c * q + r * c = G * c * q' + r') by nia.
  destruct (div_mod_unique' (G * c) q (r * c) q' r' HGc) as [-> <-]; try nia.
  destruct HX as [[? ->]|[[? ->]|[(? & E1 & ->)|(? & E1 & ->)]]];
  destruct HX' as [[? ->]|[[? ->]|[(? & E2 & ->)|(? & E2 & ->)]]]; try nia; congruence.
Qed.

Lemma rne_nonneg (X G : Z) : 0 < G -> 0 <= X -> 0 <= rne X G.
Proof.
  intros HG HX. rewrite <- (rne_mul 0 G HG). apply rne_mono; lia.
Qed.

(** *** The grid of doubles: monotonicity, exactness and error of rounding *)

Lemma pow2_pos (k : Z) : 0 <= k -> 0 < 2 ^ k.
Proof. intros. apply Z.pow_pos_nonneg; lia. Qed.

Lemma pow2_split (a b : Z) : 0 <= a <= b -> 2 ^ b = 2 ^ (b - a) * 2 ^ a.
Proof. intros. rewrite <- Z.pow_add_r by lia. f_equal. lia. Qed.

Lemma pow2_le (a b : Z) : 0 <= a <= b -> 2 ^ a <= 2 ^ b.
Proof. intros. apply Z.pow_le_mono_r; lia. Qed.

Lemma pow2_lt (a b : Z) : 0 <= a < b -> 2 ^ a < 2 ^ b.
Proof. intros. apply Z.pow_lt_mono_r; lia. Qed.

Lemma gexp_ge (X : Z) : scale - 1074 <= gexp X.
Proof. unfold gexp. lia. Qed.

Lemma gexp_pos (X : Z) : 0 < gexp X.
Proof. pose proof (gexp_ge X). unfold scale in *. lia. Qed.

Lemma gexp_mono (X Y : Z) : X <= Y -> gexp X <= gexp Y.
Proof.
  intros H. unfold gexp. pose proof (Z.log2_le_mono X Y H). lia.
Qed.

Lemma grid_pos (X : Z) : 0 < 2 ^ gexp X.
Proof. apply pow2_pos. pose proof (gexp_pos X). lia. Qed.

Lemma rne_0 (G : Z) : 0 < G -> rne 0 G = 0.
Proof. intros H. exact (rne_mul 0 G H). Qed.

Lemma rnd_0 : rnd 0 = 0.
Proof. unfold rnd. rewrite rne_0; [reflexivity|apply grid_pos]. Qed.

Lemma rnd_nonneg (X : Z) : 0 <= X -> 0 <= rnd X.
Proof.
  intros. unfold rnd. pose proof (grid_pos X).
  pose proof (rne_nonneg X _ H0 H). nia.
Qed.

Lemma rnd_le_pow (X k : Z) : 0 <= X <= 2 ^ k -> gexp X <= k -> rnd X <= 2 ^ k.
Proof.
  intros HX Hk. unfold rnd. pose proof (grid_pos X) as HG. pose proof (gexp_pos X).
  rewrite (pow2_split (gexp X) k) in * by lia.
  pose proof (rne_mono X _ _ HG (proj2 HX)) as Hm.
  rewrite rne_mul in Hm by lia. nia.
Qed.

Lemma rnd_ge_pow (X k : Z) : 2 ^ k <= X -> gexp X <= k -> 2 ^ k <= rnd X.
Proof.
  intros HX Hk. unfold rnd. pose proof (grid_pos X) as HG. pose proof (gexp_pos X).
  rewrite (pow2_split (gexp X) k) in * by lia.
  pose proof (rne_mono _ X _ HG HX) as Hm.
  rewrite rne_mul in Hm by lia. nia.
Qed.

Lemma rnd_mono (X Y : Z) : 0 <= X <= Y -> rnd X <= rnd Y.
Proof.
  intros [HX HXY].
  destruct (Z.eq_dec X 0) as [->|HX0].
  { rewrite rnd_0. apply rnd_nonneg. lia. }
  pose proof (gexp_mono X Y HXY) as Hg.
  destruct (Z.eq_dec (gexp X) (gexp Y)) as [E|NE].
  - unfold rnd. rewrite E. pose proof (grid_pos Y) as HG.
    pose proof (rne_mono X Y _ HG HXY). nia.
  - assert (HgY : gexp Y = Z.log2 Y - 52).
    { pose proof (gexp_ge X). unfold gexp in *. lia. }
    assert (Hl : Z.log2 X < Z.log2 Y).
    { unfold gexp in *. lia. }
    pose proof (Z.log2_spec X ltac:(lia)) as [HX1 HX2].
    pose proof (Z.log2_spec Y ltac:(lia)) as [HY1 HY2].
    pose proof (Z.log2_nonneg X). pose proof (gexp_pos X). pose proof (gexp_pos Y).
    transitivity (2 ^ Z.log2 Y).
    + set (k := Z.max (Z.log2 X + 1) (gexp X)).
      transitivity (2 ^ k).
      * apply rnd_le_pow; [|unfold k; lia].
        split; [lia|]. unfold Z.succ in HX2.
        pose proof (pow2_le (Z.log2 X + 1) k ltac:(unfold k; lia)). lia.
      * apply pow2_le. unfold k. lia.
    + apply rnd_ge_pow; lia.
Qed.

Lemma rnd_exact (X m g : Z) : 0 <= X -> X = m * 2 ^ g -> gexp X <= g -> rnd X = X.
Proof.
  intros HX E Hg. unfold rnd. pose proof (gexp_pos X). pose proof (grid_pos X).
  rewrite (pow2_split (gexp X) g) in E by lia.
  assert (E' : X = (m * 2 ^ (g - gexp X)) * 2 ^ gexp X) by lia.
  rewrite E' at 1. rewrite rne_mul by lia. lia.
Qed.

Lemma rnd_err (X k : Z) :
  0 <= X < 2 ^ k -> scale - 1074 <= k - 53 -> 2 * Z.abs (rnd X - X) <= 2 ^ (k - 53).
Proof.
  intros HX Hk. unfold rnd. pose proof (grid_pos X) as HG. pose proof (gexp_pos X).
  pose proof (rne_err X _ HG).
  assert (gexp X <= k - 53).
  { unfold gexp. destruct (Z.eq_dec X 0) as [->|]. { simpl. unfold scale in *; lia. }
    pose proof (Z.log2_lt_pow2 X k ltac:(lia)). lia. }
  pose proof (pow2_le (gexp X) (k - 53) ltac:(lia)). lia.
Qed.

Lemma rndS_opp (X : Z) : rndS (- X) = - rndS X.
Proof. unfold rndS. rewrite Z.sgn_opp, Z.abs_opp. lia. Qed.

Lemma rndS_nonneg (X : Z) : 0 <= X -> rndS X = rnd X.
Proof.
  intros H. unfold rndS. destruct (Z.eq_dec X 0) as [->|].
  - rewrite rnd_0. reflexivity.
  - rewrite Z.sgn_pos, Z.abs_eq by lia. lia.
Qed.

Lemma rndS_neg (X : Z) : X <= 0 -> rndS X = - rnd (- X).
Proof.
  intros H. rewrite <- (Z.opp_involutive X) at 1. rewrite rndS_opp.
  rewrite rndS_nonneg by lia. reflexivity.
Qed.

Lemma rndS_mono (X Y : Z) : X <= Y -> rndS X <= rndS Y.
Proof.
  intros H.
  destruct (Z_le_gt_dec 0 X); destruct (Z_le_gt_dec 0 Y).
  - rewrite !rndS_nonneg by lia. apply rnd_mono. lia.
  - lia.
  - rewrite rndS_neg, rndS_nonneg by lia.
    pose proof (rnd_nonneg (- X) ltac:(lia)). pose proof (rnd_nonneg Y ltac:(lia)). lia.
  - rewrite !rndS_neg by lia.
    pose proof (rnd_mono (- Y) (- X) ltac:(lia)). lia.
Qed.

Lemma rndS_err (X k : Z) :
  Z.abs X < 2 ^ k -> scale - 1074 <= k - 53 -> 2 * Z.abs (rndS X - X) <= 2 ^ (k - 53).
Proof.
  intros HX Hk.
  destruct (Z_le_gt_dec 0 X).
  - rewrite rndS_nonneg by lia. apply rnd_err; lia.
  - rewrite rndS_neg by lia.
    pose proof (rnd_err (- X) k ltac:(lia) Hk). lia.
Qed.

Lemma rndS_exact (X m g : Z) : X = m * 2 ^ g -> gexp (Z.abs X) <= g -> rndS X = X.
Proof.
  intros E Hg.
  destruct (Z_le_gt_dec 0 X).
  - rewrite rndS_nonneg by lia. rewrite Z.abs_eq in Hg by lia. eapply rnd_exact; eauto.
  - rewrite rndS_neg by lia. rewrite Z.abs_neq in Hg by lia.
    rewrite (rnd_exact (- X) (- m) g); lia.
Qed.

(** *** The shifts of [SpecFloat] *)

Lemma digits2_size (p : positive) : digits2_pos p = Pos.size p.
Proof. induction p; simpl; congruence. Qed.

Lemma Zdigits2_log2 (m : Z) : 0 < m -> Zdigits2 m = Z.log2 m + 1.
Proof.
  intros H. destruct m as [|p|p]; try lia.
  destruct p; simpl; rewrite ?digits2_size; lia.
Qed.

Lemma fexp_eq (z : Z) : fexp prec emax z = Z.max (z - 53) (-1074).
Proof. reflexivity. Qed.

Lemma shr_1_nonneg (m : Z) (r s : bool) :
  0 <= m ->
  shr_1 (Build_shr_record m r s) = Build_shr_record (m / 2) (Z.odd m) (r || s).
Proof.
  intros H. rewrite <- Z.div2_div.
  destruct m as [|p|p]; try lia; [reflexivity|].
  destruct p; reflexivity.
Qed.

Lemma mod_pow2_succ (M k : Z) :
  0 <= k ->
  M mod 2 ^ (k + 1) = M mod 2 ^ k + 2 ^ k * Z.b2z (Z.testbit M k).
Proof.
  intros Hk. rewrite Z.pow_add_r by lia. change (2 ^ 1) with 2.
  rewrite Z.rem_mul_r by (try apply Z.pow_nonzero; lia).
  rewrite Z.testbit_spec' by lia. reflexivity.
Qed.

Lemma shr_1_srec (M k : Z) :
  0 <= M -> 0 <= k -> shr_1 (srec M k) = srec M (k + 1).
Proof.
  intros HM Hk. unfold srec.
  destruct (Z.eqb_spec k 0) as [->|Hk0].
  - rewrite shr_1_nonneg by lia. simpl (0 + 1 =? 0). cbv iota.
    change (0 + 1 - 1) with 0. change (2 ^ (0 + 1)) with 2. change (2 ^ 0) with 1.
    rewrite Z.bit0_odd, Z.mod_1_r. reflexivity.
  - destruct (Z.eqb_spec (k + 1) 0) as [?|_]; [lia|].
    assert (0 < 2 ^ k) by (apply pow2_pos; lia).
    rewrite shr_1_nonneg by (apply Z.div_pos; lia).
    f_equal.
    + rewrite Z.div_div by lia. rewrite Z.pow_add_r by lia. reflexivity.
    + rewrite <- Z.bit0_odd. rewrite Z.div_pow2_bits by lia. f_equal. lia.
    + replace (k + 1 - 1) with ((k - 1) + 1) by lia.
      rewrite mod_pow2_succ by lia.
      assert (0 < 2 ^ (k - 1)) by (apply pow2_pos; lia).
      pose proof (Z.mod_pos_bound M (2 ^ (k - 1)) ltac:(lia)).
      destruct (Z.testbit M (k - 1)); simpl Z.b2z;
      destruct (Z.eqb_spec (M mod 2 ^ (k - 1)) 0);
      destruct (Z.eqb_spec (M mod 2 ^ (k - 1) + 2 ^ (k - 1) * 1) 0);
      destruct (Z.eqb_spec (M mod 2 ^ (k - 1) + 2 ^ (k - 1) * 0) 0); simpl; try reflexivity; lia.
Qed.

Lemma iter_shr_1 (p : positive) :
  forall M k, 0 <= M -> 0 <= k ->
  iter_pos shr_1 p (srec M k) = srec M (k + Zpos p).
Proof.
  induction p as [p IH|p IH|]; intros M k HM Hk; simpl iter_pos.
  - rewrite shr_1_srec, IH, IH by lia. f_equal. lia.
  - rewrite IH, IH by lia. f_equal. lia.
  - apply shr_1_srec; assumption.
Qed.

Lemma shr_fexp_exact (m e : Z) :
  0 <= m ->
  shr_fexp prec emax m e loc_Exact =
  (srec m (Z.max (fexp prec emax (Zdigits2 m + e) - e) 0),
   e + Z.max (fexp prec emax (Zdigits2 m + e) - e) 0).
Proof.
  intros Hm. unfold shr_fexp, shr. simpl shr_record_of_loc.
  destruct (fexp prec emax (Zdigits2 m + e) - e) as [|p|p] eqn:E.
  - simpl Z.max. rewrite Z.add_0_r. reflexivity.
  - rewrite Z.max_l by lia.
    change (Build_shr_record m false false) with (srec m 0).
    rewrite iter_shr_1 by lia. reflexivity.
  - rewrite Z.max_r by lia. rewrite Z.add_0_r. reflexivity.
Qed.

Lemma round_srec (M n : Z) :
  0 <= M -> 0 <= n ->
  round_nearest_even (shr_m (srec M n)) (loc_of_shr_record (srec M n)) = rne M (2 ^ n).
Proof.
  intros HM Hn. unfold srec.
  destruct (Z.eqb_spec n 0) as [->|Hn0].
  - simpl. change (2 ^ 0) with 1. unfold rne. cbv zeta.
    rewrite Z.mod_1_r, Z.div_1_r. reflexivity.
  - assert (HG : 0 < 2 ^ n) by (apply pow2_pos; lia).
    destruct (rne_cases M (2 ^ n) HG) as (q & r & EX & Hr & HX).
    assert (Hq : q = M / 2 ^ n /\ r = M mod 2 ^ n).
    { pose proof (Z.div_mod M (2 ^ n) ltac:(lia)).
      pose proof (Z.mod_pos_bound M (2 ^ n) ltac:(lia)).
      apply (div_mod_unique' (2 ^ n)); lia. }
    destruct Hq as [Hq Hr'].
    assert (Hm : M mod 2 ^ n = M mod 2 ^ (n - 1) + 2 ^ (n - 1) * Z.b2z (Z.testbit M (n - 1))).
    { replace n with ((n - 1) + 1) at 1 by lia. apply mod_pow2_succ. lia. }
    assert (HP : 2 ^ n = 2 * 2 ^ (n - 1)).
    { replace n with ((n - 1) + 1) at 1 by lia. rewrite Z.pow_add_r by lia. lia. }
    assert (0 < 2 ^ (n - 1)) by (apply pow2_pos; lia).
    pose proof (Z.mod_pos_bound M (2 ^ (n - 1)) ltac:(lia)) as HL.
    rewrite <- Hq. simpl shr_m.
    destruct (Z.testbit M (n - 1)); simpl Z.b2z in Hm;
    destruct (Z.eqb_spec (M mod 2 ^ (n - 1)) 0) as [E0|E0]; simpl;
    destruct HX as [[? ->]|[[? ->]|[(? & E1 & ->)|(? & E1 & ->)]]]; try lia;
    try (rewrite E1; reflexivity); try reflexivity.
Qed.

(** *** Correctness of [binary_round_aux] *)

Lemma scale_val : scale = 2200.
Proof. reflexivity. Qed.

Lemma bounded_spec (m : positive) (e : Z) :
  bounded prec emax m e = true <->
  Z.max (Z.log2 (Zpos m) + 1 + e - 53) (-1074) = e /\ e <= 971.
Proof.
  unfold bounded, canonical_mantissa.
  rewrite andb_true_iff, Z.eqb_eq, Z.leb_le, fexp_eq.
  change (Zpos (digits2_pos m)) with (Zdigits2 (Zpos m)).
  rewrite Zdigits2_log2 by lia. unfold emax, prec. lia.
Qed.

Lemma rne_le_mult (X G k : Z) : 0 < G -> X <= k * G -> rne X G <= k.
Proof.
  intros HG H. rewrite <- (rne_mul k G HG). apply rne_mono; assumption.
Qed.

Lemma rne_ge_mult (X G k : Z) : 0 < G -> k * G <= X -> k <= rne X G.
Proof.
  intros HG H. rewrite <- (rne_mul k G HG). apply rne_mono; assumption.
Qed.

Lemma binary_round_aux_correct (sx : bool) (M : positive) (e : Z) :
  - scale <= e ->
  e <= fexp prec emax (Zpos (digits2_pos M) + e) ->
  rounds_to sx (rnd (Zpos M * 2 ^ (e + scale)))
            (binary_round_aux prec emax sx (Zpos M) e loc_Exact).
Proof.
  intros He Hn. pose proof scale_val as Hsc.
  change (Zpos (digits2_pos M)) with (Zdigits2 (Zpos M)) in Hn.
  assert (Hd : Zdigits2 (Zpos M) = Z.log2 (Zpos M) + 1) by (apply Zdigits2_log2; lia).
  unfold binary_round_aux.
  rewrite shr_fexp_exact by lia.
  rewrite Hd in *. set (d := Z.log2 (Zpos M) + 1) in *.
  rewrite fexp_eq in *.
  set (e1 := Z.max (d + e - 53) (-1074)) in *.
  rewrite Z.max_l by lia.
  replace (e + (e1 - e)) with e1 by lia.
  rewrite round_srec by lia.
  set (n1 := e1 - e). set (q := rne (Zpos M) (2 ^ n1)).
  assert (HG1 : 0 < 2 ^ n1) by (apply pow2_pos; unfold n1; lia).
  assert (Hq0 : 0 <= q) by (apply rne_nonneg; lia).
  rewrite shr_fexp_exact by lia. rewrite fexp_eq.
  set (X := Zpos M * 2 ^ (e + scale)).
  assert (HP : 0 < 2 ^ (e + scale)) by (apply pow2_pos; lia).
  assert (HgX : gexp X = e1 + scale).
  { unfold gexp, X. rewrite Z.log2_mul_pow2 by lia. unfold e1, d. lia. }
  assert (HY : rnd X = q * 2 ^ (e1 + scale)).
  { unfold rnd. rewrite HgX.
    replace (e1 + scale) with (n1 + (e + scale)) by (unfold n1; lia).
    rewrite Z.pow_add_r by (unfold n1; lia).
    unfold X. rewrite rne_scale by lia. reflexivity. }
  rewrite HY.
  destruct (Z.log2_spec (Zpos M) ltac:(lia)) as [HM1 HM2].
  fold (Z.succ (Z.log2 (Zpos M))) in d. 
  assert (Hd1 : 1 <= d) by (pose proof (Z.log2_nonneg (Zpos M)); unfold d; lia).
  assert (Hq53 : q <= 2 ^ 53).
  { apply rne_le_mult; [lia|].
    rewrite <- Z.pow_add_r by (unfold n1; lia).
    pose proof (pow2_le (Z.succ (Z.log2 (Zpos M))) (53 + n1)
                  ltac:(unfold n1, e1, d in *; lia)). lia. }
  assert (Hq52 : -1074 < e1 -> 2 ^ 52 <= q).
  { intros Hnorm. apply rne_ge_mult; [lia|].
    rewrite <- Z.pow_add_r by (unfold n1; lia).
    replace (52 + n1) with (Z.log2 (Zpos M)) by (unfold n1, e1, d in *; lia).
    lia. }
  assert (Hqsub : e1 = -1074 -> d + e - 53 < -1074 -> q <= 2 ^ 52).
  { intros E1 E2. apply rne_le_mult; [lia|].
    rewrite <- Z.pow_add_r by (unfold n1; lia).
    pose proof (pow2_le (Z.succ (Z.log2 (Zpos M))) (52 + n1)
                  ltac:(unfold n1, d in *; lia)). lia. }
  destruct (Z.eq_dec q 0) as [Eq0|Hqn0].
  { rewrite Eq0. simpl Zdigits2.
    rewrite (Z.max_r _ 0) by (unfold e1; lia).
    simpl. split; [reflexivity|lia]. }
  assert (Hdq : Zdigits2 q = Z.log2 q + 1) by (apply Zdigits2_log2; lia).
  rewrite Hdq.
  destruct (Z.log2_spec q ltac:(lia)) as [Hl1 Hl2].
  destruct (Z.eq_dec q (2 ^ 53)) as [Eq53|Hqn53].
  - assert (Hnorm : e1 = d + e - 53).
    { destruct (Z_lt_ge_dec (d + e - 53) (-1074)); [|unfold e1; lia].
      assert (q <= 2 ^ 52) by (apply Hqsub; unfold e1; lia).
      rewrite Eq53 in *. pose proof (pow2_lt 52 53 ltac:(lia)). lia. }
    rewrite Eq53. rewrite Z.log2_pow2 by lia.
    replace (Z.max (Z.max (53 + 1 + e1 - 53) (-1074) - e1) 0) with 1
      by (unfold e1 in *; lia).
    change (shr_m (srec (2 ^ 53) 1)) with 4503599627370496.
    destruct (Z.leb_spec (e1 + 1) (emax - prec)) as [Hle|Hgt].
    + split; [reflexivity|]. split.
      * apply bounded_spec. change (Z.log2 4503599627370496) with 52.
        unfold emax, prec in *. unfold e1 in *. lia.
      * change 4503599627370496 with (2 ^ 52).
        rewrite <- !Z.pow_add_r by (unfold e1 in *; lia).
        f_equal. lia.
    + split; [reflexivity|]. unfold OVF.
      rewrite <- Z.pow_add_r by (unfold e1 in *; lia).
      apply pow2_le. unfold emax, prec, e1 in *. lia.
  - assert (Hlt : q < 2 ^ 53) by lia.
    assert (Hlq : Z.log2 q < 53) by (apply Z.log2_lt_pow2; lia).
    replace (Z.max (Z.max (Z.log2 q + 1 + e1 - 53) (-1074) - e1) 0) with 0
      by (unfold e1 in *; lia).
    unfold srec. simpl (0 =? 0). cbv iota. simpl shr_m.
    rewrite Z.add_0_r.
    destruct q as [|p|p] eqn:Eq; try lia.
    assert (Hcanon : -1074 < e1 -> Z.log2 (Zpos p) = 52).
    { intros Hn1. specialize (Hq52 Hn1).
      pose proof (Z.log2_le_mono _ _ Hq52) as Hlm.
      rewrite Z.log2_pow2 in Hlm by lia. lia. }
    destruct (Z.leb_spec e1 (emax - prec)) as [Hle|Hgt].
    + split; [reflexivity|]. split; [|reflexivity].
      apply bounded_spec. unfold emax, prec in *.
      destruct (Z.eq_dec e1 (-1074)) as [E|NE].
      * rewrite E. lia.
      * rewrite Hcanon by (unfold e1 in *; lia). lia.
    + split; [reflexivity|]. unfold OVF.
      assert (2 ^ 52 <= Zpos p) by (apply Hq52; unfold emax, prec in *; lia).
      assert (0 < 2 ^ (e1 + scale)) by (apply pow2_pos; unfold e1; lia).
      transitivity (2 ^ 52 * 2 ^ (e1 + scale)); [|nia].
      rewrite <- Z.pow_add_r by (unfold e1 in *; lia).
      apply pow2_le. unfold emax, prec, e1 in *. lia.
Qed.

(** *** Normalisation and finite results *)

Lemma iter_xO (d m : positive) : Zpos (Pos.iter xO m d) = Zpos m * 2 ^ Zpos d.
Proof.
  induction d as [|d IH] using Pos.peano_ind.
  - simpl. lia.
  - rewrite Pos.iter_succ, Pos2Z.inj_xO, IH, Pos2Z.inj_succ, Z.pow_succ_r by lia. lia.
Qed.

Lemma shl_align_spec (mx : positive) (ex ex' : Z) :
  - scale <= ex' ->
  let '(m', e') := shl_align mx ex ex' in
  Zpos m' * 2 ^ (e' + scale) = Zpos mx * 2 ^ (ex + scale) /\
  ((ex' < ex /\ e' = ex' /\ Zpos m' = Zpos mx * 2 ^ (ex - ex')) \/
   (ex <= ex' /\ e' = ex /\ m' = mx)).
Proof.
  intros H. unfold shl_align.
  destruct (ex' - ex) as [|p|p] eqn:E.
  - split; [reflexivity|]. right. repeat split; lia.
  - split; [reflexivity|]. right. repeat split; lia.
  - rewrite iter_xO. replace (Zpos p) with (ex - ex') by lia.
    split.
    + rewrite <- Z.mul_assoc, <- Z.pow_add_r by lia. do 2 f_equal. lia.
    + left. repeat split; lia.
Qed.

Lemma binary_round_correct (sx : bool) (mx : positive) (ex : Z) :
  - scale <= ex ->
  rounds_to sx (rnd (Zpos mx * 2 ^ (ex + scale))) (binary_round prec emax sx mx ex).
Proof.
  intros He. pose proof scale_val as Hsc. unfold binary_round.
  pose proof (shl_align_spec mx ex (fexp prec emax (Zpos (digits2_pos mx) + ex))) as HS.
  rewrite fexp_eq in *.
  change (Zpos (digits2_pos mx)) with (Zdigits2 (Zpos mx)) in *.
  rewrite Zdigits2_log2 in * by lia.
  destruct (shl_align mx ex _) as [mz ez].
  destruct HS as [EV HC]; [lia|].
  rewrite <- EV.
  apply binary_round_aux_correct.
  - destruct HC as [(? & -> & ?)|(? & -> & ?)]; lia.
  - rewrite fexp_eq.
    change (Zpos (digits2_pos mz)) with (Zdigits2 (Zpos mz)).
    rewrite Zdigits2_log2 by lia.
    destruct HC as [(Hlt & -> & Em)|(Hle & -> & ->)]; [|lia].
    rewrite Em. rewrite Z.log2_mul_pow2 by lia. lia.
Qed.

Lemma binary_normalize_correct (m e : Z) (sz : bool) :
  - scale <= e ->
  (m = 0 -> binary_normalize prec emax m e sz = S754_zero sz) /\
  (m <> 0 ->
   rounds_to (m <? 0) (rnd (Z.abs (m * 2 ^ (e + scale))))
             (binary_normalize prec emax m e sz)).
Proof.
  intros He. split.
  - intros ->. reflexivity.
  - intros Hm. pose proof scale_val.
    assert (0 < 2 ^ (e + scale)) by (apply pow2_pos; lia).
    destruct m as [|p|p]; [congruence| |]; simpl binary_normalize.
    + rewrite Z.abs_eq by lia. apply binary_round_correct. assumption.
    + rewrite Z.abs_neq by lia.
      replace (- (Zneg p * 2 ^ (e + scale))) with (Zpos p * 2 ^ (e + scale)) by lia.
      apply binary_round_correct. assumption.
Qed.

(** Facts on valid finite numbers. *)

Lemma bounded_range (m : positive) (e : Z) :
  bounded prec emax m e = true ->
  -1074 <= e <= 971 /\ Zpos m < 2 ^ 53 /\ (-1074 < e -> 2 ^ 52 <= Zpos m).
Proof.
  intros H. apply bounded_spec in H. destruct H as [H1 H2].
  destruct (Z.log2_spec (Zpos m) ltac:(lia)) as [L1 L2].
  pose proof (Z.log2_nonneg (Zpos m)).
  split; [lia|]. split.
  - pose proof (pow2_le (Z.succ (Z.log2 (Zpos m))) 53 ltac:(lia)). lia.
  - intros Hn. replace 52 with (Z.log2 (Zpos m)) by lia. assumption.
Qed.

Lemma bounded_val_lt (m : positive) (e : Z) :
  bounded prec emax m e = true -> Zpos m * 2 ^ (e + scale) < OVF.
Proof.
  intros H. apply bounded_range in H. destruct H as (He & Hm & _).
  pose proof scale_val. unfold OVF.
  assert (0 < 2 ^ (e + scale)) by (apply pow2_pos; lia).
  apply Z.lt_le_trans with (2 ^ 53 * 2 ^ (e + scale)); [nia|].
  rewrite <- Z.pow_add_r by lia. apply pow2_le. lia.
Qed.

Lemma finb_val_lt (x : spec_float) : finb x = true -> Z.abs (val x) < OVF.
Proof.
  unfold finb. pose proof scale_val.
  assert (0 < OVF) by (unfold OVF; apply pow2_pos; lia).
  destruct x as [s|s| |s m e]; cbn [valid_binary is_finite val];
    try discriminate; try lia.
  rewrite andb_true_r. intros Hb. pose proof (bounded_val_lt m e Hb).
  assert (0 < 2 ^ (e + scale)).
  { apply pow2_pos. apply bounded_range in Hb. lia. }
  destruct s; lia.
Qed.

Lemma rounds_to_fin (s : bool) (Y : Z) (r : spec_float) :
  rounds_to s Y r -> Y < OVF ->
  finb r = true /\ val r = (if s then - Y else Y).
Proof.
  destruct r as [s'|s'| |s' m e]; unfold finb;
    cbn [rounds_to valid_binary is_finite val].
  - intros [-> ->] _. split; [reflexivity|]. destruct s; reflexivity.
  - intros [_ H] H'. lia.
  - intros [].
  - intros (-> & Hb & <-) _. rewrite Hb. split; [reflexivity|]. destruct s; lia.
Qed.

Lemma rounds_to_val (s : bool) (Y : Z) (r : spec_float) :
  rounds_to s Y r -> finb r = true ->
  val r = (if s then - Y else Y) /\ Y < OVF.
Proof.
  destruct r as [s'|s'| |s' m e]; unfold finb;
    cbn [rounds_to valid_binary is_finite val andb]; try discriminate.
  - intros [-> ->] _. pose proof scale_val.
    assert (0 < OVF) by (unfold OVF; apply pow2_pos; lia).
    split; [destruct s; reflexivity|lia].
  - intros (-> & Hb & <-) _. split; [destruct s; lia|].
    apply bounded_val_lt; assumption.
Qed.

Lemma rounds_to_wf (s : bool) (Y : Z) (r : spec_float) :
  rounds_to s Y r -> wfb r = true.
Proof.
  destruct r as [s'|s'| |s' m e]; simpl; unfold wfb; simpl; try reflexivity.
  - intros [].
  - intros (_ & -> & _). reflexivity.
Qed.

Lemma finb_wfb (x : spec_float) : finb x = true -> wfb x = true.
Proof.
  unfold finb, wfb. destruct x; simpl; try discriminate; auto.
Qed.

(** *** Comparison of doubles is comparison of their values *)

Lemma OVF_pos : 0 < OVF.
Proof. unfold OVF. apply pow2_pos. pose proof scale_val. lia. Qed.

Lemma finite_val_pos (m : positive) (e : Z) :
  bounded prec emax m e = true -> 0 < Zpos m * 2 ^ (e + scale).
Proof.
  intros H. apply bounded_range in H. pose proof scale_val.
  assert (0 < 2 ^ (e + scale)) by (apply pow2_pos; lia). nia.
Qed.

Lemma finite_lt (m1 m2 : positive) (e1 e2 : Z) :
  bounded prec emax m1 e1 = true -> bounded prec emax m2 e2 = true ->
  e1 < e2 -> Zpos m1 * 2 ^ (e1 + scale) < Zpos m2 * 2 ^ (e2 + scale).
Proof.
  intros H1 H2 Hlt. apply bounded_range in H1, H2. pose proof scale_val.
  destruct H1 as (He1 & Hm1 & _). destruct H2 as (He2 & _ & Hm2).
  specialize (Hm2 ltac:(lia)).
  assert (P1 : 0 < 2 ^ (e1 + scale)) by (apply pow2_pos; lia).
  assert (P2 : 0 < 2 ^ (e2 + scale)) by (apply pow2_pos; lia).
  apply Z.lt_le_trans with (2 ^ 53 * 2 ^ (e1 + scale)); [nia|].
  apply Z.le_trans with (2 ^ 52 * 2 ^ (e2 + scale)); [|nia].
  rewrite <- !Z.pow_add_r by lia. apply pow2_le. lia.
Qed.

Ltac solve_cmp :=
  first [ apply Z.compare_eq_iff; lia
        | apply Z.compare_lt_iff; lia
        | apply Z.compare_gt_iff; lia ].

Lemma SFcompare_val (x y : spec_float) :
  wfb x = true -> wfb y = true -> SFcompare x y = Some (val x ?= val y).
Proof.
  intros Hx Hy. pose proof OVF_pos as HO.
  assert (Fx : forall s m e, x = S754_finite s m e ->
               bounded prec emax m e = true).
  { intros s m e ->. unfold wfb in Hx. simpl in Hx. rewrite andb_true_r in Hx. exact Hx. }
  assert (Fy : forall s m e, y = S754_finite s m e ->
               bounded prec emax m e = true).
  { intros s m e ->. unfold wfb in Hy. simpl in Hy. rewrite andb_true_r in Hy. exact Hy. }
  destruct x as [sx|sx| |sx mx ex]; try discriminate;
  destruct y as [sy|sy| |sy my ey]; try discriminate;
  cbn [SFcompare val]; f_equal; symmetry;
  try (specialize (Fx _ _ _ eq_refl));
  try (specialize (Fy _ _ _ eq_refl));
  try (pose proof (finite_val_pos _ _ Fx));
  try (pose proof (finite_val_pos _ _ Fy));
  try (pose proof (bounded_val_lt _ _ Fx));
  try (pose proof (bounded_val_lt _ _ Fy)).
  all: try (destruct sx; try destruct sy; solve_cmp).
  all: try (destruct sy; solve_cmp).
  destruct sx, sy.
    + destruct (Z.compare_spec ex ey) as [E|L|G].
      * subst ey. rewrite Pos.compare_cont_spec. simpl Pos.switch_Eq.
        assert (0 < 2 ^ (ex + scale)).
        { apply pow2_pos. apply bounded_range in Fx. pose proof scale_val. lia. }
        destruct (Pos.compare_spec mx my) as [E|L|G]; simpl CompOpp.
        -- subst. apply Z.compare_eq_iff. reflexivity.
        -- apply Z.compare_gt_iff. nia.
        -- apply Z.compare_lt_iff. nia.
      * apply Z.compare_gt_iff. pose proof (finite_lt _ _ _ _ Fx Fy L). lia.
      * apply Z.compare_lt_iff. pose proof (finite_lt _ _ _ _ Fy Fx G). lia.
    + apply Z.compare_lt_iff. lia.
    + apply Z.compare_gt_iff. lia.
    + destruct (Z.compare_spec ex ey) as [E|L|G].
      * subst ey. rewrite Pos.compare_cont_spec. simpl Pos.switch_Eq.
        assert (0 < 2 ^ (ex + scale)).
        { apply pow2_pos. apply bounded_range in Fx. pose proof scale_val. lia. }
        destruct (Pos.compare_spec mx my) as [E|L|G].
        -- subst. apply Z.compare_eq_iff. reflexivity.
        -- apply Z.compare_lt_iff. nia.
        -- apply Z.compare_gt_iff. nia.
      * apply Z.compare_lt_iff. pose proof (finite_lt _ _ _ _ Fx Fy L). lia.
      * apply Z.compare_gt_iff. pose proof (finite_lt _ _ _ _ Fy Fx G). lia.
Qed.

Lemma fle_val (x y : spec_float) :
  wfb x = true -> wfb y = true -> (fle x y = true <-> val x <= val y).
Proof.
  intros Hx Hy. unfold fle, SFleb. rewrite (SFcompare_val x y Hx Hy).
  destruct (Z.compare_spec (val x) (val y)); split; intros; try lia; try reflexivity;
    discriminate.
Qed.

Lemma flt_val (x y : spec_float) :
  wfb x = true -> wfb y = true -> (flt x y = true <-> val x < val y).
Proof.
  intros Hx Hy. unfold flt, SFltb. rewrite (SFcompare_val x y Hx Hy).
  destruct (Z.compare_spec (val x) (val y)); split; intros; try lia; try reflexivity;
    discriminate.
Qed.

(** *** Addition and subtraction *)

Lemma finb_finite (s : bool) (m : positive) (e : Z) :
  finb (S754_finite s m e) = true <-> bounded prec emax m e = true.
Proof. unfold finb. simpl. rewrite andb_true_r. reflexivity. Qed.

Lemma finite_rnd_self (m : positive) (e : Z) :
  bounded prec emax m e = true ->
  rnd (Zpos m * 2 ^ (e + scale)) = Zpos m * 2 ^ (e + scale).
Proof.
  intros Hb. pose proof (finite_val_pos m e Hb). pose proof scale_val.
  apply (rnd_exact _ (Zpos m) (e + scale)); [lia|reflexivity|].
  apply bounded_spec in Hb. unfold gexp.
  rewrite Z.log2_mul_pow2 by lia. lia.
Qed.

Lemma finite_rounds_self (s : bool) (m : positive) (e : Z) :
  bounded prec emax m e = true ->
  rounds_to s (rnd (Zpos m * 2 ^ (e + scale))) (S754_finite s m e).
Proof.
  intros Hb. rewrite finite_rnd_self by assumption.
  simpl. auto.
Qed.

Lemma val_finite_sign (s : bool) (m : positive) (e : Z) :
  bounded prec emax m e = true ->
  (val (S754_finite s m e) <? 0) = s /\
  Z.abs (val (S754_finite s m e)) = Zpos m * 2 ^ (e + scale) /\
  val (S754_finite s m e) <> 0.
Proof.
  intros Hb. pose proof (finite_val_pos m e Hb). cbn [val].
  destruct s.
  - split; [apply Z.ltb_lt; lia|]. split; lia.
  - split; [apply Z.ltb_ge; lia|]. split; lia.
Qed.

Lemma aligned_val (s : bool) (m : positive) (e ez : Z) :
  bounded prec emax m e = true -> -1074 <= ez <= e ->
  cond_Zopp s (Zpos (fst (shl_align m e ez))) * 2 ^ (ez + scale)
  = val (S754_finite s m e).
Proof.
  intros Hb Hez. pose proof scale_val.
  pose proof (shl_align_spec m e ez ltac:(lia)) as HS.
  destruct (shl_align m e ez) as [m' e']. cbn [fst val].
  destruct HS as [EV HC].
  assert (e' = ez) by (destruct HC as [(? & ? & ?)|(? & ? & ?)]; lia). subst e'.
  destruct s; unfold cond_Zopp; lia.
Qed.

Lemma add_core (sx : bool) (mx : positive) (ex : Z) (sy : bool) (my : positive) (ey : Z) :
  bounded prec emax mx ex = true -> bounded prec emax my ey = true ->
  let z := val (S754_finite sx mx ex) + val (S754_finite sy my ey) in
  let r := binary_normalize prec emax
             (cond_Zopp sx (Zpos (fst (shl_align mx ex (Z.min ex ey)))) +
              cond_Zopp sy (Zpos (fst (shl_align my ey (Z.min ex ey)))))
             (Z.min ex ey) false in
  (z = 0 -> r = S754_zero false) /\
  (z <> 0 -> rounds_to (z <? 0) (rnd (Z.abs z)) r).
Proof.
  intros Hx Hy z r. pose proof scale_val.
  pose proof (bounded_range _ _ Hx) as (Rx & _).
  pose proof (bounded_range _ _ Hy) as (Ry & _).
  set (ez := Z.min ex ey) in *.
  pose proof (aligned_val sx mx ex ez Hx ltac:(unfold ez; lia)) as Ax.
  pose proof (aligned_val sy my ey ez Hy ltac:(unfold ez; lia)) as Ay.
  set (a := cond_Zopp sx _) in *. set (b := cond_Zopp sy _) in *.
  assert (HP : 0 < 2 ^ (ez + scale)) by (apply pow2_pos; unfold ez; lia).
  assert (Ez : (a + b) * 2 ^ (ez + scale) = z) by (unfold z; lia).
  destruct (binary_normalize_correct (a + b) ez false ltac:(unfold ez; lia)) as [N0 N1].
  split.
  - intros Hz. apply N0. nia.
  - intros Hz. assert (a + b <> 0) by nia.
    specialize (N1 ltac:(assumption)). rewrite Ez in N1.
    replace (z <? 0) with (a + b <? 0); [exact N1|].
    destruct (Z.ltb_spec (a + b) 0); destruct (Z.ltb_spec z 0); try reflexivity; nia.
Qed.

Lemma fadd_rounds (x y : spec_float) :
  finb x = true -> finb y = true ->
  let z := val x + val y in
  (z = 0 -> is_zero (fadd x y)) /\
  (z <> 0 -> rounds_to (z <? 0) (rnd (Z.abs z)) (fadd x y)).
Proof.
  intros Hx Hy.
  destruct x as [sx|sx| |sx mx ex]; try discriminate;
  destruct y as [sy|sy| |sy my ey]; try discriminate.
  - split; [|cbn [val]; lia]. intros _. unfold fadd, SFadd.
    destruct sx, sy; eexists; reflexivity.
  - apply finb_finite in Hy. pose proof (val_finite_sign sy my ey Hy) as (S1 & S2 & S3).
    cbv zeta. rewrite Z.add_0_l. split; [intros; contradiction|]. intros _.
    rewrite S1, S2. apply finite_rounds_self. assumption.
  - apply finb_finite in Hx. pose proof (val_finite_sign sx mx ex Hx) as (S1 & S2 & S3).
    cbv zeta. change (val (S754_zero sy)) with 0. rewrite Z.add_0_r.
    split; [intros; contradiction|]. intros _.
    rewrite S1, S2. apply finite_rounds_self. assumption.
  - apply finb_finite in Hx, Hy.
    pose proof (add_core sx mx ex sy my ey Hx Hy) as [C0 C1].
    split.
    + intros Hz. exists false. apply C0. exact Hz.
    + intros Hz. apply C1. exact Hz.
Qed.

Lemma cond_Zopp_negb (s : bool) (p : Z) : - cond_Zopp s p = cond_Zopp (negb s) p.
Proof. destruct s; simpl; lia. Qed.

Lemma val_opp_finite (s : bool) (m : positive) (e : Z) :
  val (S754_finite (negb s) m e) = - val (S754_finite s m e).
Proof. destruct s; cbn [val negb]; lia. Qed.

Lemma fsub_rounds (x y : spec_float) :
  finb x = true -> finb y = true ->
  let z := val x - val y in
  (z = 0 -> is_zero (fsub x y)) /\
  (z <> 0 -> rounds_to (z <? 0) (rnd (Z.abs z)) (fsub x y)).
Proof.
  intros Hx Hy.
  destruct x as [sx|sx| |sx mx ex]; try discriminate;
  destruct y as [sy|sy| |sy my ey]; try discriminate.
  - split; [|cbn [val]; lia]. intros _. unfold fsub, SFsub.
    destruct sx, sy; eexists; reflexivity.
  - apply finb_finite in Hy.
    assert (Hy' : bounded prec emax my ey = true) by assumption.
    pose proof (val_finite_sign (negb sy) my ey Hy) as (S1 & S2 & S3).
    cbv zeta. change (val (S754_zero sx)) with 0. rewrite Z.sub_0_l.
    rewrite <- val_opp_finite.
    split; [intros; contradiction|]. intros _.
    rewrite S1, S2. apply finite_rounds_self. assumption.
  - apply finb_finite in Hx. pose proof (val_finite_sign sx mx ex Hx) as (S1 & S2 & S3).
    cbv zeta. change (val (S754_zero sy)) with 0. rewrite Z.sub_0_r.
    split; [intros; contradiction|]. intros _.
    rewrite S1, S2. apply finite_rounds_self. assumption.
  - apply finb_finite in Hx, Hy.
    pose proof (add_core sx mx ex (negb sy) my ey Hx Hy) as [C0 C1].
    cbv zeta in *. rewrite val_opp_finite in C0, C1.
    unfold fsub, SFsub.
    replace (cond_Zopp sx (Zpos (fst (shl_align mx ex (Z.min ex ey)))) -
             cond_Zopp sy (Zpos (fst (shl_align my ey (Z.min ex ey)))))
      with (cond_Zopp sx (Zpos (fst (shl_align mx ex (Z.min ex ey)))) +
            cond_Zopp (negb sy) (Zpos (fst (shl_align my ey (Z.min ex ey)))))
      by (rewrite <- cond_Zopp_negb; lia).
    split.
    + intros Hz. exists false. apply C0. lia.
    + intros Hz. replace (val (S754_finite sx mx ex) - val (S754_finite sy my ey))
        with (val (S754_finite sx mx ex) + - val (S754_finite sy my ey)) by lia.
      apply C1. lia.
Qed.

(** *** Multiplication, and the operations on bounded arguments *)

Lemma scale_pow_pos : 0 < 2 ^ scale.
Proof. apply pow2_pos. pose proof scale_val. lia. Qed.

Lemma mul_core_cond (mx my : positive) (ex ey : Z) :
  bounded prec emax mx ex = true -> bounded prec emax my ey = true ->
  ex + ey <= fexp prec emax (Zpos (digits2_pos (mx * my)) + (ex + ey)).
Proof.
  intros Hx Hy. rewrite fexp_eq.
  change (Zpos (digits2_pos (mx * my))) with (Zdigits2 (Zpos (mx * my))).
  rewrite Zdigits2_log2 by lia. rewrite Pos2Z.inj_mul.
  pose proof (Z.log2_mul_below (Zpos mx) (Zpos my) ltac:(lia) ltac:(lia)).
  pose proof (Z.log2_nonneg (Zpos mx)). pose proof (Z.log2_nonneg (Zpos my)).
  apply bounded_spec in Hx, Hy. lia.
Qed.

Lemma fmul_rounds (x y : spec_float) :
  finb x = true -> finb y = true ->
  let w := vmul (val x) (val y) in
  (val x * val y = w * 2 ^ scale) /\
  (w = 0 -> is_zero (fmul x y)) /\
  (w <> 0 -> rounds_to (w <? 0) (rnd (Z.abs w)) (fmul x y)).
Proof.
  intros Hx Hy. pose proof scale_pow_pos as HS. pose proof scale_val as Hsc.
  destruct x as [sx|sx| |sx mx ex]; try discriminate;
  destruct y as [sy|sy| |sy my ey]; try discriminate; cbv zeta; unfold vmul;
  try (cbn [val]; rewrite ?Z.mul_0_l, ?Z.mul_0_r, Z.div_0_l by lia;
       split; [reflexivity|]; split; [intros _; eexists; reflexivity|congruence]).
  apply finb_finite in Hx, Hy.
  pose proof (bounded_range _ _ Hx) as (Rx & _).
  pose proof (bounded_range _ _ Hy) as (Ry & _).
  set (X := Zpos (mx * my) * 2 ^ (ex + ey + scale)).
  assert (HX : 0 < X).
  { unfold X. assert (0 < 2 ^ (ex + ey + scale)) by (apply pow2_pos; lia). nia. }
  assert (E : val (S754_finite sx mx ex) * val (S754_finite sy my ey)
              = (if xorb sx sy then - X else X) * 2 ^ scale).
  { cbn [val]. unfold X. rewrite Pos2Z.inj_mul.
    replace (ex + ey + scale) with ((ex + scale) + (ey + scale) - scale) by lia.
    assert (2 ^ (ex + scale + (ey + scale) - scale) * 2 ^ scale
            = 2 ^ (ex + scale) * 2 ^ (ey + scale)) as EP.
    { rewrite <- !Z.pow_add_r by lia. f_equal. lia. }
    destruct sx, sy; simpl xorb; cbv iota; nia. }
  rewrite E. rewrite Z.div_mul by lia.
  split; [reflexivity|]. split; [destruct (xorb sx sy); lia|]. intros _.
  replace ((if xorb sx sy then - X else X) <? 0) with (xorb sx sy)
    by (destruct (xorb sx sy); symmetry; [apply Z.ltb_lt|apply Z.ltb_ge]; lia).
  replace (Z.abs (if xorb sx sy then - X else X)) with X
    by (destruct (xorb sx sy); lia).
  unfold fmul, SFmul, X. apply binary_round_aux_correct; [lia|].
  apply mul_core_cond; assumption.
Qed.

(** From the rounding relation to values. *)

Lemma rndS_sign (z : Z) : rndS z = if z <? 0 then - rnd (Z.abs z) else rnd (Z.abs z).
Proof.
  destruct (Z.ltb_spec z 0).
  - rewrite rndS_neg by lia. rewrite Z.abs_neq by lia. reflexivity.
  - rewrite rndS_nonneg by lia. rewrite Z.abs_eq by lia. reflexivity.
Qed.

Lemma rndS_0 : rndS 0 = 0.
Proof. rewrite rndS_nonneg by lia. apply rnd_0. Qed.

Lemma rounded_val (z : Z) (r : spec_float) :
  (z = 0 -> is_zero r) ->
  (z <> 0 -> rounds_to (z <? 0) (rnd (Z.abs z)) r) ->
  (finb r = true -> val r = rndS z) /\
  (Z.abs (rndS z) < OVF -> finb r = true) /\
  wfb r = true.
Proof.
  intros H0 H1. destruct (Z.eq_dec z 0) as [->|Hz].
  - destruct (H0 eq_refl) as [s ->]. rewrite rndS_0. repeat split; reflexivity.
  - specialize (H1 Hz). rewrite rndS_sign.
    pose proof (rnd_nonneg (Z.abs z) ltac:(lia)).
    repeat split.
    + intros Hf. apply (rounds_to_val _ _ _ H1 Hf).
    + intros Hlt. apply (rounds_to_fin _ _ _ H1). destruct (z <? 0); lia.
    + apply (rounds_to_wf _ _ _ H1).
Qed.

Lemma fadd_val (x y : spec_float) :
  finb x = true -> finb y = true ->
  (finb (fadd x y) = true -> val (fadd x y) = rndS (val x + val y)) /\
  (Z.abs (rndS (val x + val y)) < OVF -> finb (fadd x y) = true) /\
  wfb (fadd x y) = true.
Proof.
  intros Hx Hy. destruct (fadd_rounds x y Hx Hy) as [H0 H1].
  apply rounded_val; assumption.
Qed.

Lemma fsub_val (x y : spec_float) :
  finb x = true -> finb y = true ->
  (finb (fsub x y) = true -> val (fsub x y) = rndS (val x - val y)) /\
  (Z.abs (rndS (val x - val y)) < OVF -> finb (fsub x y) = true) /\
  wfb (fsub x y) = true.
Proof.
  intros Hx Hy. destruct (fsub_rounds x y Hx Hy) as [H0 H1].
  apply rounded_val; assumption.
Qed.

Lemma fmul_val (x y : spec_float) :
  finb x = true -> finb y = true ->
  (finb (fmul x y) = true -> val (fmul x y) = rndS (vmul (val x) (val y))) /\
  (Z.abs (rndS (vmul (val x) (val y))) < OVF -> finb (fmul x y) = true) /\
  wfb (fmul x y) = true.
Proof.
  intros Hx Hy. destruct (fmul_rounds x y Hx Hy) as (_ & H0 & H1).
  apply rounded_val; assumption.
Qed.

Lemma within_vals (lo hi x : spec_float) :
  finb lo = true -> finb hi = true -> within lo hi x ->
  val lo <= val x <= val hi.
Proof.
  intros Hlo Hhi (Hx & H1 & H2).
  apply fle_val in H1, H2; auto using finb_wfb.
Qed.

Lemma within_of_vals (lo hi x : spec_float) :
  finb lo = true -> finb hi = true -> finb x = true ->
  val lo <= val x <= val hi -> within lo hi x.
Proof.
  intros Hlo Hhi Hx H. split; [assumption|].
  split; apply fle_val; auto using finb_wfb; lia.
Qed.

Lemma op_within (op : spec_float -> spec_float -> spec_float) (f : Z -> Z -> Z)
      (x y l h : spec_float) :
  (finb (op x y) = true -> val (op x y) = rndS (f (val x) (val y))) ->
  (Z.abs (rndS (f (val x) (val y))) < OVF -> finb (op x y) = true) ->
  finb l = true -> finb h = true ->
  val l <= rndS (f (val x) (val y)) <= val h ->
  within l h (op x y).
Proof.
  intros Hv Hf Hl Hh Hb.
  pose proof (finb_val_lt l Hl). pose proof (finb_val_lt h Hh).
  assert (Hfin : finb (op x y) = true) by (apply Hf; lia).
  apply within_of_vals; auto. rewrite (Hv Hfin). exact Hb.
Qed.

Lemma fadd_within (a b c d x y : spec_float) :
  finb a = true -> finb b = true -> finb c = true -> finb d = true ->
  finb (fadd a c) = true -> finb (fadd b d) = true ->
  within a b x -> within c d y ->
  within (fadd a c) (fadd b d) (fadd x y).
Proof.
  intros Ha Hb Hc Hd Hac Hbd Hx Hy.
  pose proof (within_vals _ _ _ Ha Hb Hx). pose proof (within_vals _ _ _ Hc Hd Hy).
  destruct Hx as (Fx & _). destruct Hy as (Fy & _).
  destruct (fadd_val x y Fx Fy) as (V & F & _).
  destruct (fadd_val a c Ha Hc) as (Vac & _).
  destruct (fadd_val b d Hb Hd) as (Vbd & _).
  apply (op_within fadd Z.add); auto.
  rewrite (Vac Hac), (Vbd Hbd). split; apply rndS_mono; lia.
Qed.

Lemma fsub_within (a b c d x y : spec_float) :
  finb a = true -> finb b = true -> finb c = true -> finb d = true ->
  finb (fsub a d) = true -> finb (fsub b c) = true ->
  within a b x -> within c d y ->
  within (fsub a d) (fsub b c) (fsub x y).
Proof.
  intros Ha Hb Hc Hd Hac Hbd Hx Hy.
  pose proof (within_vals _ _ _ Ha Hb Hx). pose proof (within_vals _ _ _ Hc Hd Hy).
  destruct Hx as (Fx & _). destruct Hy as (Fy & _).
  destruct (fsub_val x y Fx Fy) as (V & F & _).
  destruct (fsub_val a d Ha Hd) as (Vac & _).
  destruct (fsub_val b c Hb Hc) as (Vbd & _).
  apply (op_within fsub Z.sub); auto.
  rewrite (Vac Hac), (Vbd Hbd). split; apply rndS_mono; lia.
Qed.

Lemma vmul_mono_r (c a b : Z) : 0 <= c -> a <= b -> vmul a c <= vmul b c.
Proof.
  intros Hc H. unfold vmul. apply Z.div_le_mono; [apply scale_pow_pos|nia].
Qed.

Lemma vmul_comm (a b : Z) : vmul a b = vmul b a.
Proof. unfold vmul. f_equal. lia. Qed.

(** [x * c] for a non-negative constant [c]. *)
Lemma fmul_within_r (a b c x : spec_float) :
  finb a = true -> finb b = true -> finb c = true -> 0 <= val c ->
  finb (fmul a c) = true -> finb (fmul b c) = true ->
  within a b x ->
  within (fmul a c) (fmul b c) (fmul x c).
Proof.
  intros Ha Hb Hc Hc0 Hac Hbc Hx.
  pose proof (within_vals _ _ _ Ha Hb Hx).
  destruct Hx as (Fx & _).
  destruct (fmul_val x c Fx Hc) as (V & F & _).
  destruct (fmul_val a c Ha Hc) as (Vac & _).
  destruct (fmul_val b c Hb Hc) as (Vbc & _).
  apply (op_within fmul vmul); auto.
  rewrite (Vac Hac), (Vbc Hbc). split; apply rndS_mono; apply vmul_mono_r; lia.
Qed.

(** [c * x] for a non-negative constant [c]. *)
Lemma fmul_within_l (a b c x : spec_float) :
  finb a = true -> finb b = true -> finb c = true -> 0 <= val c ->
  finb (fmul c a) = true -> finb (fmul c b) = true ->
  within a b x ->
  within (fmul c a) (fmul c b) (fmul c x).
Proof.
  intros Ha Hb Hc Hc0 Hac Hbc Hx.
  pose proof (within_vals _ _ _ Ha Hb Hx).
  destruct Hx as (Fx & _).
  destruct (fmul_val c x Hc Fx) as (V & F & _).
  destruct (fmul_val c a Hc Ha) as (Vac & _).
  destruct (fmul_val c b Hc Hb) as (Vbc & _).
  apply (op_within fmul vmul); auto.
  rewrite (Vac Hac), (Vbc Hbc), !(vmul_comm (val c)).
  split; apply rndS_mono; apply vmul_mono_r; lia.
Qed.

(** *** Conversion of integers and division by [2^53] *)

Lemma of_Z_two53 : of_Z (Z.shiftl 1 53) = two53.
Proof. vm_compute. reflexivity. Qed.

(** Integers below 2^53 convert exactly. *)
Lemma of_Z_exact (z : Z) :
  Z.abs z < 2 ^ 53 ->
  finb (of_Z z) = true /\ val (of_Z z) = z * 2 ^ scale.
Proof.
  intros Hz. pose proof scale_val as Hsc. pose proof scale_pow_pos as HP.
  pose proof OVF_pos.
  destruct (binary_normalize_correct z 0 false ltac:(lia)) as [N0 N1].
  destruct (Z.eq_dec z 0) as [->|Hn].
  - unfold of_Z. rewrite N0 by reflexivity. split; reflexivity.
  - specialize (N1 Hn). fold (of_Z z) in N1. rewrite Z.add_0_l in N1.
    assert (E : rnd (Z.abs (z * 2 ^ scale)) = Z.abs z * 2 ^ scale).
    { rewrite Z.abs_mul, (Z.abs_eq (2 ^ scale)) by lia.
      apply (rnd_exact _ (Z.abs z) scale); [nia|reflexivity|].
      unfold gexp. rewrite Z.log2_mul_pow2 by lia.
      pose proof (proj1 (Z.log2_lt_pow2 (Z.abs z) 53 ltac:(lia)) Hz). lia. }
    rewrite E in N1.
    assert (Hlt : Z.abs z * 2 ^ scale < OVF).
    { unfold OVF. apply Z.lt_le_trans with (2 ^ 53 * 2 ^ scale); [nia|].
      rewrite <- Z.pow_add_r by lia. apply pow2_le. lia. }
    destruct (rounds_to_fin _ _ _ N1 Hlt) as [F V].
    split; [exact F|]. rewrite V.
    destruct (Z.ltb_spec z 0); lia.
Qed.

Lemma div_eucl_eq (a b : Z) : Z.div_eucl a b = (a / b, a mod b).
Proof. unfold Z.div, Z.modulo. destruct (Z.div_eucl a b). reflexivity. Qed.

(** Division of a normal number by 2^53 only lowers the exponent. *)
Lemma fdiv_two53_finite (s : bool) (m : positive) (e : Z) :
  bounded prec emax m e = true -> -1020 <= e ->
  finb (fdiv (S754_finite s m e) two53) = true /\
  val (fdiv (S754_finite s m e) two53) * 2 ^ 53 = val (S754_finite s m e).
Proof.
  intros Hb He. pose proof scale_val as Hsc.
  pose proof (bounded_range _ _ Hb) as (Re & Rm & Rn). specialize (Rn ltac:(lia)).
  assert (Hlog : Z.log2 (Zpos m) = 52).
  { apply bounded_spec in Hb. lia. }
  unfold fdiv, two53, SFdiv, SFdiv_core_binary.
  rewrite fexp_eq. rewrite !Zdigits2_log2 by lia. rewrite Hlog.
  change (Z.log2 4503599627370496) with 52.
  replace (Z.min (Z.max (52 + 1 + e - (52 + 1 + 1) - 53) (-1074)) (e - 1))
    with (e - 54) by lia.
  replace (e - 1 - (e - 54)) with 53 by lia.
  rewrite Z.shiftl_mul_pow2 by lia. rewrite div_eucl_eq.
  replace (Zpos m * 2 ^ 53) with ((2 * Zpos m) * 4503599627370496) by lia.
  rewrite Z.div_mul, Z.mod_mul by lia.
  change (new_location 4503599627370496 0) with loc_Exact.
  rewrite xorb_false_r.
  change (2 * Zpos m) with (Zpos (m~0)).
  pose proof (binary_round_aux_correct s (m~0) (e - 54) ltac:(lia)) as HR.
  assert (Hc : e - 54 <= fexp prec emax (Zpos (digits2_pos m~0) + (e - 54))).
  { rewrite fexp_eq. change (Zpos (digits2_pos m~0)) with (Zdigits2 (Zpos m~0)).
    rewrite Zdigits2_log2 by lia. change (Zpos m~0) with (2 * Zpos m).
    rewrite Z.log2_double by lia. lia. }
  specialize (HR Hc).
  assert (HP : 0 < 2 ^ (e - 53 + scale)) by (apply pow2_pos; lia).
  assert (EX : Zpos m~0 * 2 ^ (e - 54 + scale) = Zpos m * 2 ^ (e - 53 + scale)).
  { change (Zpos m~0) with (2 * Zpos m).
    replace (e - 53 + scale) with (1 + (e - 54 + scale)) by lia.
    rewrite (Z.pow_add_r 2 1 (e - 54 + scale)) by lia. change (2 ^ 1) with 2. ring. }
  rewrite EX in HR.
  assert (ER : rnd (Zpos m * 2 ^ (e - 53 + scale)) = Zpos m * 2 ^ (e - 53 + scale)).
  { apply (rnd_exact _ (Zpos m) (e - 53 + scale)); [nia|reflexivity|].
    unfold gexp. rewrite Z.log2_mul_pow2 by lia. lia. }
  rewrite ER in HR.
  assert (Hlt : Zpos m * 2 ^ (e - 53 + scale) < OVF).
  { pose proof (bounded_val_lt m e Hb).
    pose proof (pow2_le (e - 53 + scale) (e + scale) ltac:(lia)). nia. }
  destruct (rounds_to_fin _ _ _ HR Hlt) as [F V].
  split; [exact F|]. rewrite V. cbn [val].
  replace (e + scale) with (53 + (e - 53 + scale)) by lia.
  rewrite (Z.pow_add_r 2 53 (e - 53 + scale)) by lia. destruct s; ring.
Qed.

Lemma finb_inv (x : spec_float) :
  finb x = true ->
  (exists s, x = S754_zero s) \/
  (exists s m e, x = S754_finite s m e /\ bounded prec emax m e = true).
Proof.
  destruct x as [s|s| |s m e]; try discriminate.
  - left. eexists. reflexivity.
  - intros H. right. exists s, m, e. split; [reflexivity|]. apply (finb_finite s). exact H.
Qed.

(** [(double)v / (double)(1ULL << 53)] for [v] below 2^53. *)
Lemma ratio53 (v : Z) :
  0 <= v < 2 ^ 53 ->
  finb (fdiv (of_Z v) two53) = true /\
  val (fdiv (of_Z v) two53) * 2 ^ 53 = v * 2 ^ scale.
Proof.
  intros Hv. pose proof scale_val as Hsc. pose proof scale_pow_pos as HP.
  destruct (of_Z_exact v ltac:(lia)) as [F V].
  destruct (finb_inv _ F) as [[s E]|(s & m & e & E & Hb)].
  - rewrite E in *. cbn [val] in V. assert (v = 0) by nia. subst v.
    split; reflexivity.
  - rewrite E in *.
    assert (He : -1020 <= e).
    { pose proof (bounded_range _ _ Hb) as (Re & Rm & _).
      pose proof (finite_val_pos m e Hb).
      cbn [val] in V.
      assert (s = false) by (destruct s; [nia|reflexivity]). subst s.
      assert (1 <= v) by nia.
      destruct (Z_lt_ge_dec e (-1020)); [|lia].
      assert (Zpos m * 2 ^ (e + scale) < 2 ^ scale); [|nia].
      assert (0 < 2 ^ (e + scale)) by (apply pow2_pos; lia).
      apply Z.lt_le_trans with (2 ^ 53 * 2 ^ (e + scale)); [nia|].
      rewrite <- Z.pow_add_r by lia. apply pow2_le. lia. }
    destruct (fdiv_two53_finite s m e Hb He) as [F' V'].
    split; [exact F'|]. rewrite V'. exact V.
Qed.

(** *** The generator (C1) *)

Lemma B2Q_val (x : spec_float) :
  finb x = true -> (B2Q x * inject_Z (2 ^ scale) == inject_Z (val x))%Q.
Proof.
  intros H. pose proof scale_val as Hsc.
  destruct (finb_inv x H) as [[s ->]|(s & m & e & -> & Hb)].
  - simpl. ring.
  - pose proof (bounded_range _ _ Hb) as (Re & _).
    cbn [B2Q val].
    rewrite (Zpower_Qpower 2 scale) by lia.
    replace ((if s then -1 else 1) * (Zpos m * 2 ^ (e + scale)))%Z
      with ((if s then Zneg m else Zpos m) * 2 ^ (e + scale))%Z by (destruct s; lia).
    rewrite inject_Z_mult, (Zpower_Qpower 2 (e + scale)) by lia.
    rewrite Qpower_plus by discriminate.
    change (inject_Z 2) with 2%Q. ring.
Qed.

Lemma next_lcg (state : Z) : SeededRNG.next state = (lcg_step state, lcg_step state).
Proof.
  unfold SeededRNG.next, lcg_step, wrap64, SeededRNG.a, SeededRNG.c.
  rewrite Z.add_mod_idemp_l by lia. reflexivity.
Qed.

Lemma lcg_range (s : Z) : 0 <= lcg_step s < 2 ^ 64.
Proof. unfold lcg_step. apply Z.mod_pos_bound. lia. Qed.

Lemma shiftr11_range (r : Z) : 0 <= r < 2 ^ 64 -> 0 <= Z.shiftr r 11 < 2 ^ 53.
Proof.
  intros H. rewrite Z.shiftr_div_pow2 by lia. split.
  - apply Z.div_pos; lia.
  - apply Z.div_lt_upper_bound; lia.
Qed.

(** What [nextDouble01] returns, in terms of values. *)
Lemma nextDouble01_val (state : Z) :
  exists u, SeededRNG.nextDouble01 state = (u, lcg_step state) /\
            u = fdiv (of_Z (Z.shiftr (lcg_step state) 11)) two53 /\
            finb u = true /\
            val u * 2 ^ 53 = Z.shiftr (lcg_step state) 11 * 2 ^ scale.
Proof.
  unfold SeededRNG.nextDouble01, SeededRNG.bind, SeededRNG.ret.
  rewrite next_lcg. rewrite of_Z_two53.
  eexists. split; [reflexivity|]. split; [reflexivity|].
  apply ratio53. apply shiftr11_range. apply lcg_range.
Qed.

Lemma make_mod (seed : Z) : SeededRNG.make seed = seed mod 2 ^ 64.
Proof.
  unfold SeededRNG.make. change (Z.shiftl 1 64 - 1) with (Z.ones 64).
  apply Z.land_ones. lia.
Qed.

Lemma lcg_step_mod (s : Z) : lcg_step (s mod 2 ^ 64) = lcg_step s.
Proof.
  unfold lcg_step.
  rewrite <- Z.add_mod_idemp_l by lia.
  rewrite Z.mul_mod_idemp_l by lia.
  rewrite Z.add_mod_idemp_l by lia. reflexivity.
Qed.

Lemma outputs_reference (n : nat) :
  forall s, SeededRNG.outputs n s = reference_sequence n s.
Proof.
  induction n as [|n IH]; intros s; [reflexivity|].
  cbn [SeededRNG.outputs reference_sequence]. rewrite next_lcg, IH. reflexivity.
Qed.

(** Claim C1.  For every state [s], one call of [next] updates the state to
    [(s * 6364136223846793005 + 1) mod 2^64] and returns that new state.
    Every call of [nextDouble01] advances the state in the same way and
    returns a finite double whose exact value is [(next() >> 11) / 2^53];
    that value lies in [0, 1), both as a rational number and under the
    comparisons of doubles.  For every seed and every [N], the first [N]
    outputs of [next] are the reference sequence of the recurrence. *)
Theorem C1_generator :
  (forall state, SeededRNG.next state = (lcg_step state, lcg_step state)) /\
  (forall state,
     let '(u, state') := SeededRNG.nextDouble01 state in
     state' = lcg_step state /\
     finb u = true /\
     (B2Q u == inject_Z (Z.shiftr (lcg_step state) 11) / inject_Z (2 ^ 53))%Q /\
     (0 <= B2Q u)%Q /\ (B2Q u < 1)%Q /\
     fle fzero u = true /\ flt u (dec 10 1) = true) /\
  (forall seed N,
     SeededRNG.outputs N (SeededRNG.make seed) = reference_sequence N seed).
Proof.
  split; [exact next_lcg|]. split.
  - intros state. destruct (nextDouble01_val state) as (u & -> & _ & F & V).
    pose proof (shiftr11_range _ (lcg_range state)) as Hv.
    set (v := Z.shiftr (lcg_step state) 11) in *.
    pose proof scale_pow_pos as HP. pose proof (B2Q_val u F) as HQ.
    assert (HP' : (0 < inject_Z (2 ^ scale))%Q).
    { change 0%Q with (inject_Z 0). rewrite <- Zlt_Qlt. exact HP. }
    assert (E : (B2Q u == inject_Z v / inject_Z (2 ^ 53))%Q).
    { apply (Qmult_inj_r _ _ (inject_Z (2 ^ scale))); [lra|].
      rewrite HQ.
      assert (HV : (inject_Z (val u) * inject_Z (2 ^ 53) == inject_Z v * inject_Z (2 ^ scale))%Q).
      { rewrite <- !inject_Z_mult. rewrite V. reflexivity. }
      apply (Qmult_inj_r _ _ (inject_Z (2 ^ 53))); [discriminate|].
      rewrite HV. field. discriminate. }
    split; [reflexivity|]. split; [exact F|]. split; [exact E|].
    assert (Hval : 0 <= val u < 2 ^ scale) by nia.
    split; [|split; [|split]].
    + rewrite E. apply Qle_shift_div_l; [reflexivity|].
      rewrite Qmult_0_l. change 0%Q with (inject_Z 0). rewrite <- Zle_Qle. lia.
    + rewrite E. apply Qlt_shift_div_r; [reflexivity|].
      rewrite Qmult_1_l. rewrite <- Zlt_Qlt. lia.
    + apply fle_val; [reflexivity|apply finb_wfb; exact F|]. cbn [val fzero]. lia.
    + apply flt_val; [apply finb_wfb; exact F|reflexivity|].
      replace (val (dec 10 1)) with (2 ^ scale) by (vm_compute; reflexivity). lia.
  - intros seed N. rewrite outputs_reference, make_mod.
    destruct N as [|n]; [reflexivity|].
    cbn [reference_sequence]. rewrite lcg_step_mod. reflexivity.
Qed.

(** *** The hourly loop and its floor (C5) *)

Lemma fmul_comm (x y : spec_float) : fmul x y = fmul y x.
Proof.
  unfold fmul, SFmul.
  destruct x as [sx|sx| |sx mx ex], y as [sy|sy| |sy my ey];
    try reflexivity; try (rewrite xorb_comm; reflexivity).
  rewrite xorb_comm, Pos.mul_comm, Z.add_comm. reflexivity.
Qed.

Lemma spec_base_eq (h : Z) : base_load h = spec_base h.
Proof.
  unfold base_load, spec_base.
  destruct (Z.ltb_spec h 6), (Z.leb_spec 23 h), (Z.geb_spec h 23),
    (Z.leb_spec 6 h), (Z.ltb_spec h 8), (Z.leb_spec 8 h), (Z.leb_spec h 18),
    (Z.leb_spec 19 h), (Z.leb_spec h 22); simpl; try lia;
    try reflexivity; vm_compute; reflexivity.
Qed.

Lemma spec_wave_eq (sin : double -> double) (h : Z) : wave_term sin h = spec_wave sin h.
Proof.
  unfold wave_term, spec_wave.
  destruct (Z.geb_spec h 8), (Z.leb_spec 8 h); try lia; reflexivity.
Qed.

Lemma nextDouble01_unit (s : Z) :
  SeededRNG.nextDouble01 s = (unit_of (lcg_step s), lcg_step s).
Proof.
  unfold SeededRNG.nextDouble01, SeededRNG.bind, SeededRNG.ret.
  rewrite next_lcg. reflexivity.
Qed.

Lemma simulate_hour_spec (sin : double -> double) (h s : Z) :
  simulate_hour sin h s = spec_hour sin h s.
Proof.
  unfold simulate_hour, spec_hour, SeededRNG.bind, SeededRNG.ret.
  rewrite !nextDouble01_unit.
  rewrite spec_base_eq, spec_wave_eq.
  unfold spec_noise, spec_spike.
  destruct (flt (unit_of (lcg_step (lcg_step s))) (dec 8 2)).
  - rewrite nextDouble01_unit. rewrite (fmul_comm (dec 100 1)). reflexivity.
  - reflexivity.
Qed.

Lemma update_app {A : Type} (pre : list A) (x y : A) (rest : list A) :
  update (pre ++ x :: rest) (length pre) y = pre ++ y :: rest.
Proof. induction pre as [|a pre IH]; simpl; [reflexivity|]. rewrite IH. reflexivity. Qed.

Lemma hours_loop_spec (sin : double -> double) (n : nat) :
  forall h pre rest s,
    0 <= h -> length pre = Z.to_nat h -> length rest = n ->
    hours_loop sin n h (pre ++ rest) s =
    (pre ++ fst (spec_day sin n h s), snd (spec_day sin n h s)).
Proof.
  induction n as [|n IH]; intros h pre rest s Hh Hpre Hrest.
  - destruct rest; [|discriminate]. reflexivity.
  - destruct rest as [|x rest]; [discriminate|].
    cbn [hours_loop spec_day]. unfold SeededRNG.bind.
    rewrite simulate_hour_spec.
    destruct (spec_hour sin h s) as [v s'].
    rewrite <- Hpre, update_app.
    replace (pre ++ v :: rest) with ((pre ++ [v]) ++ rest)
      by (rewrite <- app_assoc; reflexivity).
    rewrite IH.
    + destruct (spec_day sin n (h + 1) s') as [l s'']. cbn [fst snd].
      rewrite <- app_assoc. reflexivity.
    + lia.
    + rewrite length_app. simpl. lia.
    + simpl in Hrest. lia.
Qed.

Lemma hourly_spec (sin : double -> double) sort (seed : Z) (t : SYSTEMTIME) :
  hourlyKWh (simulateEnergyDayFrom sin sort seed t)
  = fst (spec_day sin 24 0 (SeededRNG.make seed)).
Proof.
  unfold simulateEnergyDayFrom.
  pose proof (hours_loop_spec sin 24 0 [] (repeat fzero 24) (SeededRNG.make seed)
                ltac:(lia) eq_refl eq_refl) as H.
  rewrite app_nil_l in H. rewrite H. reflexivity.
Qed.

Lemma spec_day_length (sin : double -> double) (n : nat) :
  forall h s, length (fst (spec_day sin n h s)) = n.
Proof.
  induction n as [|n IH]; intros h s; [reflexivity|].
  cbn [spec_day]. destruct (spec_hour sin h s) as [v s'].
  specialize (IH (h + 1) s'). destruct (spec_day sin n (h + 1) s'). simpl in *. lia.
Qed.

(** The state of the generator before hour [k] and the value of that hour. *)
Lemma spec_day_nth (sin : double -> double) (n : nat) :
  forall (k : nat) h s, (k < n)%nat ->
    nth k (fst (spec_day sin n h s)) fzero
    = fst (spec_hour sin (h + Z.of_nat k) (snd (spec_day sin k h s))).
Proof.
  induction n as [|n IH]; intros k h s Hk; [lia|].
  cbn [spec_day]. destruct (spec_hour sin h s) as [v s'] eqn:E.
  destruct k as [|k].
  - destruct (spec_day sin n (h + 1) s'). cbn [fst snd nth spec_day].
    change (Z.of_nat 0) with 0. rewrite Z.add_0_r, E. reflexivity.
  - specialize (IH k (h + 1) s' ltac:(lia)).
    cbn [spec_day]. rewrite E.
    destruct (spec_day sin n (h + 1) s') as [l s2].
    destruct (spec_day sin k (h + 1) s') as [l' s3].
    cbn [fst snd nth] in *. rewrite IH.
    replace (h + Z.of_nat (S k)) with (h + 1 + Z.of_nat k) by lia. reflexivity.
Qed.

Lemma SFltb_SFleb (x y : spec_float) : SFltb x y = true -> SFleb x y = true.
Proof. unfold SFltb, SFleb. destruct (SFcompare x y) as [[ | | ]|]; congruence. Qed.

Lemma std_max_ge (a b : double) : fle a a = true -> fle a (std_max a b) = true.
Proof.
  intros Ha. unfold std_max. destruct (flt a b) eqn:E; [|exact Ha].
  apply SFltb_SFleb. exact E.
Qed.

Lemma spec_day_floor (sin : double -> double) (n : nat) :
  forall h s, Forall (fun v => fle (dec 30 1) v = true) (fst (spec_day sin n h s)).
Proof.
  induction n as [|n IH]; intros h s; [constructor|].
  cbn [spec_day]. destruct (spec_hour sin h s) as [v s'] eqn:E.
  specialize (IH (h + 1) s'). destruct (spec_day sin n (h + 1) s'). cbn [fst] in *.
  constructor; [|exact IH].
  unfold spec_hour in E. injection E as <- _. apply std_max_ge. reflexivity.
Qed.

(** Claim C5.  For every simulated day, [hourlyKWh] has exactly 24 elements
    and each of them is at least 3.0. *)
Theorem C5_hourly_floor (sin : double -> double) sort (seed : Z) (t : SYSTEMTIME) :
  length (hourlyKWh (simulateEnergyDayFrom sin sort seed t)) = 24%nat /\
  Forall (fun v => fle (dec 30 1) v = true)
         (hourlyKWh (simulateEnergyDayFrom sin sort seed t)).
Proof.
  rewrite hourly_spec. split; [apply spec_day_length|apply spec_day_floor].
Qed.

(** *** Interval arithmetic *)

Lemma withinb_within (lo hi x : spec_float) :
  withinb lo hi x = true -> within lo hi x.
Proof.
  unfold withinb, within. rewrite !andb_true_iff. tauto.
Qed.

Lemma iv_point_in (c : spec_float) : finb c = true -> iv_in (iv_point c) c.
Proof.
  intros H. unfold iv_in, iv_point. cbn [fst snd].
  apply within_of_vals; auto. lia.
Qed.

Lemma iv_add_in (i j : iv) (x y : spec_float) :
  iv_ok i = true -> iv_ok j = true -> iv_ok (iv_add i j) = true ->
  iv_in i x -> iv_in j y -> iv_in (iv_add i j) (fadd x y).
Proof.
  unfold iv_ok, iv_in, iv_add. destruct i as [a b], j as [c d]. cbn [fst snd].
  rewrite !andb_true_iff. intros [? ?] [? ?] [? ?] Hx Hy.
  apply fadd_within; assumption.
Qed.

Lemma iv_sub_in (i j : iv) (x y : spec_float) :
  iv_ok i = true -> iv_ok j = true -> iv_ok (iv_sub i j) = true ->
  iv_in i x -> iv_in j y -> iv_in (iv_sub i j) (fsub x y).
Proof.
  unfold iv_ok, iv_in, iv_sub. destruct i as [a b], j as [c d]. cbn [fst snd].
  rewrite !andb_true_iff. intros [? ?] [? ?] [? ?] Hx Hy.
  apply fsub_within; assumption.
Qed.

Lemma iv_mul_r_in (i : iv) (c x : spec_float) :
  iv_ok i = true -> nonneg_const c = true -> iv_ok (iv_mul_r i c) = true ->
  iv_in i x -> iv_in (iv_mul_r i c) (fmul x c).
Proof.
  unfold iv_ok, iv_in, iv_mul_r, nonneg_const. destruct i as [a b]. cbn [fst snd].
  rewrite !andb_true_iff, Z.leb_le. intros [? ?] [? ?] [? ?] Hx.
  apply fmul_within_r; assumption.
Qed.

Lemma iv_mul_l_in (i : iv) (c x : spec_float) :
  iv_ok i = true -> nonneg_const c = true -> iv_ok (iv_mul_l c i) = true ->
  iv_in i x -> iv_in (iv_mul_l c i) (fmul c x).
Proof.
  unfold iv_ok, iv_in, iv_mul_l, nonneg_const. destruct i as [a b]. cbn [fst snd].
  rewrite !andb_true_iff, Z.leb_le. intros [? ?] [? ?] [? ?] Hx.
  apply fmul_within_l; assumption.
Qed.

(** Widening an interval. *)
Lemma iv_in_weaken (i j : iv) (x : spec_float) :
  iv_ok i = true -> iv_ok j = true ->
  fle (fst j) (fst i) = true -> fle (snd i) (snd j) = true ->
  iv_in i x -> iv_in j x.
Proof.
  unfold iv_ok, iv_in. destruct i as [a b], j as [c d]. cbn [fst snd].
  rewrite !andb_true_iff. intros [Ha Hb] [Hc Hd] H1 H2 Hx.
  pose proof (within_vals _ _ _ Ha Hb Hx). destruct Hx as (Fx & _).
  apply fle_val in H1, H2; auto using finb_wfb.
  apply within_of_vals; auto. lia.
Qed.

Lemma iv_max_in (c : spec_float) (i : iv) (x : spec_float) :
  finb c = true -> iv_ok i = true -> iv_in i x ->
  iv_in (iv_max c i) (std_max c x).
Proof.
  unfold iv_ok, iv_in, iv_max. destruct i as [a b]. cbn [fst snd].
  rewrite andb_true_iff. intros Hc [Ha Hb] Hx.
  pose proof (within_vals _ _ _ Ha Hb Hx) as Hv. destruct Hx as (Fx & _).
  assert (Fm : forall y, finb y = true ->
               finb (std_max c y) = true /\ val (std_max c y) = Z.max (val c) (val y)).
  { intros y Fy. unfold std_max. destruct (flt c y) eqn:E.
    - apply flt_val in E; auto using finb_wfb. split; [assumption|lia].
    - split; [assumption|].
      destruct (Z_lt_ge_dec (val c) (val y)) as [L|G]; [|lia].
      apply (flt_val c y) in L; auto using finb_wfb. congruence. }
  destruct (Fm x Fx) as [F1 V1]. destruct (Fm b Hb) as [F2 V2].
  apply within_of_vals; auto. lia.
Qed.

Lemma iv_sum_in (ivs : list iv) :
  forall (vs : list spec_float) (acc : iv) (a : spec_float),
    iv_sum_ok ivs acc = true -> Forall2 iv_in ivs vs -> iv_in acc a ->
    iv_in (iv_sum ivs acc) (fold_left fadd vs a).
Proof.
  induction ivs as [|i ivs IH]; intros vs acc a Hok HF Ha.
  - inversion HF; subst. exact Ha.
  - inversion HF as [|? v ? vs' Hv HF']; subst.
    cbn [iv_sum_ok] in Hok. rewrite !andb_true_iff in Hok.
    destruct Hok as [[O1 O2] O3].
    cbn [iv_sum fold_left]. apply IH; [exact O3|exact HF'|].
    apply iv_add_in; auto.
    destruct ivs; cbn [iv_sum_ok] in O3; rewrite ?andb_true_iff in O3; tauto.
Qed.

(** Order facts on finite doubles. *)
Lemma fle_flt_trans (x y z : spec_float) :
  wfb x = true -> wfb y = true -> wfb z = true ->
  fle x y = true -> flt y z = true -> flt x z = true.
Proof.
  intros Hx Hy Hz H1 H2. apply fle_val in H1; auto. apply flt_val in H2; auto.
  apply flt_val; auto. lia.
Qed.

Lemma flt_fle_trans (x y z : spec_float) :
  wfb x = true -> wfb y = true -> wfb z = true ->
  flt x y = true -> fle y z = true -> flt x z = true.
Proof.
  intros Hx Hy Hz H1 H2. apply flt_val in H1; auto. apply fle_val in H2; auto.
  apply flt_val; auto. lia.
Qed.

Lemma fle_trans (x y z : spec_float) :
  wfb x = true -> wfb y = true -> wfb z = true ->
  fle x y = true -> fle y z = true -> fle x z = true.
Proof.
  intros Hx Hy Hz H1 H2. apply fle_val in H1; auto. apply fle_val in H2; auto.
  apply fle_val; auto. lia.
Qed.

Lemma unit_of_in (r k : Z) :
  0 <= r < 2 ^ 64 -> Z.shiftr r 11 <= k -> k < 2 ^ 53 ->
  iv_in (fzero, ratio k) (unit_of r).
Proof.
  intros Hr Hk Hk'. pose proof (shiftr11_range r Hr) as Hv.
  unfold unit_of. change (of_Z (2 ^ 53)) with (of_Z (Z.shiftl 1 53)).
  rewrite of_Z_two53.
  destruct (ratio53 (Z.shiftr r 11) Hv) as [F V].
  destruct (ratio53 k ltac:(lia)) as [Fk Vk].
  unfold iv_in. cbn [fst snd]. fold (ratio k) in *.
  apply within_of_vals; auto. cbn [val fzero].
  pose proof scale_pow_pos. nia.
Qed.

(** *** The terms of an hour *)

Lemma noise_in (hi u : spec_float) :
  noise_chk hi = true -> iv_in (fzero, hi) u -> iv_in (noise_iv hi) (spec_noise u).
Proof.
  unfold noise_chk. rewrite !andb_true_iff. intros ((((C1 & C2) & C3) & C4) & C5) Hu.
  unfold noise_iv, spec_noise.
  apply iv_mul_r_in; auto.
  apply iv_sub_in; auto.
  apply iv_point_in. unfold iv_ok, iv_point in C2. cbn [fst snd] in C2.
  rewrite andb_true_iff in C2. tauto.
Qed.

Lemma spike_in (hi u : spec_float) :
  spike_chk hi = true -> iv_in (fzero, hi) u -> iv_in (spike_iv hi) (spec_spike u).
Proof.
  unfold spike_chk. rewrite !andb_true_iff.
  intros (((((C1 & C2) & C3) & C4) & C5) & C6) Hu.
  unfold spike_iv, spec_spike.
  apply iv_add_in; auto.
  - apply iv_point_in. unfold iv_ok, iv_point in C2. cbn [fst snd] in C2.
    rewrite andb_true_iff in C2. tauto.
  - apply iv_mul_l_in; auto.
Qed.

Lemma spike_any_in (hi u : spec_float) (spiked : bool) :
  spike_chk hi = true -> iv_in (fzero, hi) u ->
  iv_in (spike_any_iv hi) (if spiked then spec_spike u else fzero).
Proof.
  intros C Hu. pose proof (spike_in hi u C Hu) as H.
  unfold spike_chk in C. rewrite !andb_true_iff in C.
  destruct C as (((((C1 & C2) & C3) & C4) & C5) & C6).
  assert (O : iv_ok (spike_any_iv hi) = true).
  { unfold iv_ok, spike_any_iv in *. cbn [fst snd] in *.
    rewrite andb_true_iff in C5. rewrite andb_true_iff. split; [reflexivity|tauto]. }
  destruct spiked.
  - apply (iv_in_weaken (spike_iv hi)); [exact C5|exact O|exact C6| |exact H].
    unfold spike_any_iv. cbn [fst snd]. unfold iv_ok in C5.
    rewrite andb_true_iff in C5. apply fle_val; auto using finb_wfb; try tauto. lia.
  - unfold iv_in, spike_any_iv in *. cbn [fst snd] in *.
    unfold iv_ok in O, C5. cbn [fst snd] in O. rewrite andb_true_iff in O, C5.
    destruct O as [O1 O2]. destruct C5 as [C5a C5b].
    destruct H as (F & L1 & L2).
    apply within_of_vals; auto.
    apply (fle_val fzero) in C6; auto using finb_wfb.
    apply (fle_val (fst (spike_iv hi))) in L1; auto using finb_wfb.
    apply (fle_val (spec_spike u)) in L2; auto using finb_wfb.
    cbn [val fzero] in *. lia.
Qed.

Lemma hour_sum_in (bi wi ni si : iv) (b w n sp : spec_float) :
  hour_chk bi wi ni si = true ->
  iv_in bi b -> iv_in wi w -> iv_in ni n -> iv_in si sp ->
  iv_in (hour_sum_iv bi wi ni si)
        (std_max (dec 30 1) (fadd (fadd (fadd b w) n) sp)).
Proof.
  unfold hour_chk. rewrite !andb_true_iff.
  intros (((((((C1 & C2) & C3) & C4) & C5) & C6) & C7) & C8) Hb Hw Hn Hs.
  unfold hour_sum_iv. apply iv_max_in; auto.
  repeat (apply iv_add_in; auto).
Qed.

Lemma worst_case_scan : forallb worst_case_free (seq 1 (Z.to_nat 16384)) = true.
Proof. vm_compute. reflexivity. Qed.

Lemma worst_case (r1 : Z) :
  0 <= r1 < 2 ^ 64 -> 2 ^ 53 - 8 <= Z.shiftr r1 11 ->
  Z.shiftr (lcg_step (lcg_step r1)) 11 <= 2 ^ 53 - 5.
Proof.
  intros Hr Hk. rewrite Z.shiftr_div_pow2 in Hk by lia.
  assert (Hlow : 2 ^ 64 - 16384 <= r1).
  { pose proof (Z.mul_div_le r1 (2 ^ 11) ltac:(lia)). lia. }
  pose proof worst_case_scan as HS. rewrite forallb_forall in HS.
  specialize (HS (Z.to_nat (2 ^ 64 - r1))).
  unfold worst_case_free in HS. rewrite Z2Nat.id in HS by lia.
  replace (2 ^ 64 - (2 ^ 64 - r1)) with r1 in HS by lia.
  apply Z.leb_le. apply HS. apply in_seq. lia.
Qed.

(** *** Bounds on the hours of a day *)

Lemma spec_base_cases (h : Z) :
  (is_work h = true /\ spec_base h = dec 160 1) \/
  (is_work h = false /\
   (spec_base h = dec 65 1 \/ spec_base h = dec 95 1 \/ spec_base h = dec 100 1)).
Proof.
  unfold is_work, spec_base.
  destruct (Z.ltb_spec h 6), (Z.leb_spec 23 h), (Z.leb_spec 6 h), (Z.ltb_spec h 8),
    (Z.leb_spec 8 h), (Z.leb_spec h 18), (Z.leb_spec 19 h), (Z.leb_spec h 22);
    cbn [andb orb]; try lia; auto.
Qed.

Section HourBounds.

Variable sin : double -> double.

Hypothesis Hsin : sin_ok sin.

Lemma wave_in (h : Z) :
  iv_in (if is_work h then wave_iv else iv_point fzero) (spec_wave sin h).
Proof.
  unfold spec_wave. fold (is_work h). destruct (is_work h).
  - unfold wave_iv.
    apply iv_mul_l_in;
      [vm_compute; reflexivity|vm_compute; reflexivity|vm_compute; reflexivity|].
    apply Hsin.
  - apply iv_point_in. reflexivity.
Qed.

Lemma draws_in (s : Z) (k : Z) :
  Z.shiftr (lcg_step s) 11 <= k -> k < 2 ^ 53 ->
  iv_in (fzero, ratio k) (unit_of (lcg_step s)).
Proof. intros. apply unit_of_in; auto. apply lcg_range. Qed.

Lemma draw_max (s : Z) : iv_in (fzero, umax) (unit_of (lcg_step s)).
Proof.
  apply draws_in; [|lia].
  pose proof (shiftr11_range _ (lcg_range s)). lia.
Qed.

Lemma hour_in (h s : Z) : iv_in (hour_iv h) (fst (spec_hour sin h s)).
Proof.
  unfold spec_hour, hour_iv, hour_iv_of. cbn [fst].
  pose proof (wave_in h) as Hw.
  destruct (spec_base_cases h) as [[W B]|[W [B|[B|B]]]]; rewrite W in *; rewrite B;
    (apply hour_sum_in;
     [ vm_compute; reflexivity
     | apply iv_point_in; reflexivity
     | exact Hw
     | apply noise_in; [vm_compute; reflexivity|apply draw_max]
     | apply spike_any_in; [vm_compute; reflexivity|apply draw_max] ]).
Qed.

Lemma work_hour_strict (h s : Z) :
  is_work h = true -> iv_in (dec 30 1, pred39) (fst (spec_hour sin h s)).
Proof.
  intros W. unfold spec_hour. cbn [fst].
  pose proof (wave_in h) as Hw. rewrite W in Hw.
  destruct (spec_base_cases h) as [[_ B]|[W' _]]; [|congruence]. rewrite B.
  set (r1 := lcg_step s). set (r2 := lcg_step r1). set (r3 := lcg_step r2).
  destruct (Z_le_gt_dec (Z.shiftr r1 11) (2 ^ 53 - 9)) as [Hk|Hk].
  - apply (iv_in_weaken
             (hour_sum_iv (iv_point (dec 160 1)) wave_iv
                          (noise_iv (ratio (2 ^ 53 - 9))) (spike_any_iv umax)));
      [vm_compute; reflexivity|vm_compute; reflexivity|vm_compute; reflexivity
      |vm_compute; reflexivity|].
    apply hour_sum_in;
      [ vm_compute; reflexivity
      | apply iv_point_in; reflexivity
      | exact Hw
      | apply noise_in; [vm_compute; reflexivity|apply draws_in; [exact Hk|lia]]
      | apply spike_any_in; [vm_compute; reflexivity|apply draw_max] ].
  - assert (H3 : Z.shiftr r3 11 <= 2 ^ 53 - 5).
    { apply worst_case; [apply lcg_range|lia]. }
    apply (iv_in_weaken
             (hour_sum_iv (iv_point (dec 160 1)) wave_iv
                          (noise_iv umax) (spike_any_iv (ratio (2 ^ 53 - 5)))));
      [vm_compute; reflexivity|vm_compute; reflexivity|vm_compute; reflexivity
      |vm_compute; reflexivity|].
    apply hour_sum_in;
      [ vm_compute; reflexivity
      | apply iv_point_in; reflexivity
      | exact Hw
      | apply noise_in; [vm_compute; reflexivity|apply draw_max]
      | apply spike_any_in; [vm_compute; reflexivity|apply draws_in; [exact H3|lia]] ].
Qed.

Lemma hour_bound_in (h s : Z) : iv_in (hour_bound h) (fst (spec_hour sin h s)).
Proof.
  unfold hour_bound. destruct (is_work h) eqn:W.
  - apply work_hour_strict. exact W.
  - apply hour_in.
Qed.

Lemma hour_bound_lt39 (h : Z) :
  iv_ok (hour_bound h) = true /\ flt (snd (hour_bound h)) (dec 390 1) = true /\
  fle (dec 30 1) (fst (hour_bound h)) = true.
Proof.
  unfold hour_bound, hour_iv.
  destruct (spec_base_cases h) as [[W B]|[W [B|[B|B]]]]; rewrite W, ?B;
    vm_compute; auto.
Qed.

Lemma spec_day_in (n : nat) :
  forall h s, Forall2 iv_in (map hour_bound (zseq h n)) (fst (spec_day sin n h s)).
Proof.
  induction n as [|n IH]; intros h s; [constructor|].
  cbn [spec_day zseq map].
  pose proof (hour_bound_in h s) as Hh.
  destruct (spec_hour sin h s) as [v s']. cbn [fst] in Hh.
  specialize (IH (h + 1) s'). destruct (spec_day sin n (h + 1) s').
  cbn [fst] in *. constructor; assumption.
Qed.

End HourBounds.

(** *** Relative error of the sums and products *)

(** Rounding errors of sums and of products with a share, for values below
    2^10 (1024 kWh). *)

Lemma OVF_big : 2 ^ (scale + 11) < OVF.
Proof. unfold OVF. pose proof scale_val. apply pow2_lt. lia. Qed.

Lemma rndS_small (X : Z) :
  Z.abs X < 2 ^ (scale + 10) ->
  2 * Z.abs (rndS X - X) <= 2 ^ (scale - 43) /\ Z.abs (rndS X) < OVF.
Proof.
  intros HX. pose proof scale_val as Hsc.
  pose proof (rndS_err X (scale + 10) HX ltac:(lia)) as HE.
  replace (scale + 10 - 53) with (scale - 43) in HE by lia.
  split; [exact HE|].
  pose proof OVF_big.
  pose proof (pow2_lt (scale - 43) (scale + 10) ltac:(lia)).
  pose proof (pow2_pos (scale - 43) ltac:(lia)).
  replace (scale + 11) with (1 + (scale + 10)) in * by lia.
  rewrite (Z.pow_add_r 2 1 (scale + 10)) in * by lia. change (2 ^ 1) with 2 in *.
  lia.
Qed.

Lemma fadd_err (x y : spec_float) :
  finb x = true -> finb y = true ->
  Z.abs (val x + val y) < 2 ^ (scale + 10) ->
  finb (fadd x y) = true /\
  2 * Z.abs (val (fadd x y) - (val x + val y)) <= 2 ^ (scale - 43).
Proof.
  intros Hx Hy Hb. destruct (rndS_small _ Hb) as [HE HO].
  destruct (fadd_val x y Hx Hy) as (V & F & _).
  specialize (F HO). split; [exact F|]. rewrite (V F). exact HE.
Qed.

(** The product of a value below 2^10 with a share [m * 2^e] below 1. *)
Lemma fmul_share_err (t : spec_float) (m : positive) (e : Z) :
  finb t = true -> 0 <= val t < 2 ^ (scale + 10) ->
  bounded prec emax m e = true -> -60 <= e <= -53 ->
  let c := fmul t (S754_finite false m e) in
  exists X,
    finb c = true /\
    2 ^ (- e) * X <= val t * Zpos m < 2 ^ (- e) * (X + 1) /\
    0 <= X < 2 ^ (scale + 10) /\
    2 * Z.abs (val c - X) <= 2 ^ (scale - 43).
Proof.
  intros Ht Hv Hb He c. pose proof scale_val as Hsc.
  pose proof (bounded_range _ _ Hb) as (_ & Hm & _).
  assert (Hs : finb (S754_finite false m e) = true) by (apply finb_finite; exact Hb).
  assert (HP : 0 < 2 ^ (- e)) by (apply pow2_pos; lia).
  assert (HP2 : 0 < 2 ^ (e + scale)) by (apply pow2_pos; lia).
  set (X := val t * Zpos m / 2 ^ (- e)).
  assert (EX : vmul (val t) (val (S754_finite false m e)) = X).
  { unfold vmul, X. cbn [val].
    replace (2 ^ scale) with (2 ^ (- e) * 2 ^ (e + scale))
      by (rewrite <- Z.pow_add_r by lia; f_equal; lia).
    replace (val t * (1 * (Zpos m * 2 ^ (e + scale))))
      with (val t * Zpos m * 2 ^ (e + scale)) by ring.
    apply Z.div_mul_cancel_r; lia. }
  assert (HX1 : 2 ^ (- e) * X <= val t * Zpos m) by (apply Z.mul_div_le; lia).
  assert (HX2 : val t * Zpos m < 2 ^ (- e) * (X + 1)).
  { pose proof (Z.mul_succ_div_gt (val t * Zpos m) (2 ^ (- e)) HP). fold X in H. lia. }
  assert (HX0 : 0 <= X) by (apply Z.div_pos; nia).
  assert (HXT : X <= val t).
  { apply Z.div_le_upper_bound; [lia|].
    pose proof (pow2_le 53 (- e) ltac:(lia)). nia. }
  exists X.
  destruct (rndS_small X ltac:(lia)) as [HE HO].
  destruct (fmul_val t _ Ht Hs) as (V & F & _). rewrite EX in V, F.
  specialize (F HO). split; [exact F|]. split; [lia|]. split; [lia|].
  unfold c. rewrite (V F). exact HE.
Qed.

(** Closeness of two doubles, in rational terms. *)
Lemma B2Q_close (a b : spec_float) (p : positive) :
  finb a = true -> finb b = true ->
  Z.abs (val a - val b) * Zpos p < 2 ^ scale ->
  (Qabs (B2Q a - B2Q b) < 1 # p)%Q.
Proof.
  intros Ha Hb H. pose proof scale_pow_pos as HP.
  pose proof (B2Q_val a Ha) as Ea. pose proof (B2Q_val b Hb) as Eb.
  assert (HP' : (0 < inject_Z (2 ^ scale))%Q).
  { change 0%Q with (inject_Z 0). rewrite <- Zlt_Qlt. exact HP. }
  assert (E : (B2Q a - B2Q b == inject_Z (val a - val b) / inject_Z (2 ^ scale))%Q).
  { unfold Z.sub. rewrite inject_Z_plus, inject_Z_opp, <- Ea, <- Eb.
    field. lra. }
  rewrite E. unfold Qdiv. rewrite Qabs_Qmult.
  rewrite (Qabs_pos (/ inject_Z (2 ^ scale))) by (apply Qlt_le_weak, Qinv_lt_0_compat; exact HP').
  apply Qlt_shift_div_r; [exact HP'|].
  change (Qabs (inject_Z (val a - val b))) with (inject_Z (Z.abs (val a - val b))).
  setoid_replace ((1 # p) * inject_Z (2 ^ scale))%Q with (inject_Z (2 ^ scale) / inject_Z (Zpos p))%Q
    by (unfold Qdiv; rewrite Qmult_comm; apply Qmult_comp; [reflexivity|]; reflexivity).
  apply Qlt_shift_div_l; [reflexivity|].
  rewrite <- inject_Z_mult, <- Zlt_Qlt. exact H.
Qed.

(** *** The hour of the specification (C2) and the upper bounds (C10) *)

(** Claim C2.  The body of the hourly loop computes
    [max(3.0, base + wave + noise + spike)], where [base] is 6.5, 9.5, 16.0
    or 10.0 by the band of the hour, [wave] is [7.0 * sin((h - 8) / 10 * pi)]
    for the hours 8 to 18 and zero otherwise, [noise = (u1 - 0.5) * 2] of a
    first draw lies in [-1, 1), and [spike = 5 + 10 * u3] of a third draw
    lies in [5, 15) and is taken only when the second draw is below 0.08
    (otherwise the spike is zero and no third draw is made).  The generator
    is advanced twice per hour and a third time on the spike branch only,
    and the value stored for hour [k] of a simulated day is the value of
    that body at hour [k], started in the state left by the hours before. *)
Theorem C2_simulate_hour (sin : double -> double) :
  (forall h s, simulate_hour sin h s = spec_hour sin h s) /\
  (forall s, SeededRNG.nextDouble01 s = (unit_of (lcg_step s), lcg_step s)) /\
  (forall s, let noise := spec_noise (unit_of (lcg_step s)) in
             fle (SFopp (dec 10 1)) noise = true /\ flt noise (dec 10 1) = true) /\
  (forall s, let spike := spec_spike (unit_of (lcg_step s)) in
             fle (dec 50 1) spike = true /\ flt spike (dec 150 1) = true) /\
  (forall h s,
     snd (simulate_hour sin h s) =
     if flt (unit_of (lcg_step (lcg_step s))) (dec 8 2)
     then lcg_step (lcg_step (lcg_step s))
     else lcg_step (lcg_step s)) /\
  (forall sort seed t (k : nat), (k < 24)%nat ->
     nth k (hourlyKWh (simulateEnergyDayFrom sin sort seed t)) fzero
     = fst (spec_hour sin (Z.of_nat k)
                      (snd (spec_day sin k 0 (SeededRNG.make seed))))).
Proof.
  split; [apply simulate_hour_spec|].
  split; [apply nextDouble01_unit|].
  split; [|split; [|split]].
  - intros s noise.
    pose proof (noise_in umax _ ltac:(vm_compute; reflexivity) (draw_max s)) as (F & L & U).
    fold noise in F, L, U. split; [exact L|].
    apply (fle_flt_trans _ (snd (noise_iv umax)));
      [apply finb_wfb; exact F|reflexivity|reflexivity|exact U|reflexivity].
  - intros s spike.
    pose proof (spike_in umax _ ltac:(vm_compute; reflexivity) (draw_max s)) as (F & L & U).
    fold spike in F, L, U. split; [exact L|].
    apply (fle_flt_trans _ (snd (spike_iv umax)));
      [apply finb_wfb; exact F|reflexivity|reflexivity|exact U|reflexivity].
  - intros h s. rewrite simulate_hour_spec. reflexivity.
  - intros sort seed t k Hk. rewrite hourly_spec.
    rewrite (spec_day_nth sin 24 k 0 _ Hk). reflexivity.
Qed.

Lemma bounds_lt39 (hs : list Z) (vs : list spec_float) :
  Forall2 iv_in (map hour_bound hs) vs ->
  Forall (fun v => flt v (dec 390 1) = true) vs.
Proof.
  revert vs. induction hs as [|h hs IH]; intros vs HF; inversion HF; subst; constructor.
  - destruct (hour_bound_lt39 h) as (O & L & _).
    unfold iv_ok in O. rewrite andb_true_iff in O.
    match goal with H : iv_in _ _ |- _ => destruct H as (F & _ & U) end.
    apply (fle_flt_trans _ (snd (hour_bound h))); auto using finb_wfb; try tauto.
    apply finb_wfb. tauto.
  - apply IH. assumption.
Qed.

Lemma fold_left_map_kWh (l : list Category) (a : double) :
  fold_left (fun total c => fadd total (cat_kWh c)) l a
  = fold_left fadd (map cat_kWh l) a.
Proof. revert a. induction l as [|c l IH]; intros a; simpl; auto. Qed.

Lemma categories_in (t : iv) (total : spec_float) :
  iv_ok t = true ->
  forallb (fun c => nonneg_const (snd c) && iv_ok (iv_mul_r t (snd c))) cats = true ->
  iv_in t total ->
  Forall2 iv_in (share_ivs t) (map cat_kWh (derive_categories total)).
Proof.
  intros Ht Hc Hin. unfold share_ivs, derive_categories. rewrite map_map. cbn [cat_kWh].
  induction cats as [|c l IH]; [constructor|].
  cbn [forallb] in Hc. rewrite !andb_true_iff in Hc. destruct Hc as [[C1 C2] C3].
  cbn [map]. constructor; [|apply IH; exact C3].
  apply iv_mul_r_in; auto.
Qed.

Lemma day_fields (sin : double -> double) sort (seed : Z) (t : SYSTEMTIME) :
  let day := simulateEnergyDayFrom sin sort seed t in
  let total := sum_doubles (hourlyKWh day) in
  categoryBreakdown day = derive_categories total /\
  topConsumers day = firstn 6 (sort by_kWh_desc (derive_consumers total)) /\
  date day = t /\
  priceCZKPerKWh day = dec 320 2.
Proof.
  unfold simulateEnergyDayFrom.
  destruct (hours_loop sin 24 0 (repeat fzero 24) (SeededRNG.make seed)) as [hourly s'].
  cbn. auto.
Qed.

(** Claim C10.  For every simulated day (with a [sin] of absolute value at
    most 1, so that the wave is at most 7.0) each hourly value is strictly
    below 39.0, the daily total is at least 72 and strictly below 936, the
    total and the sum of the categories are finite and strictly positive,
    so that no division by them is a division by zero. *)
Theorem C10_hourly_upper_bound (sin : double -> double) sort (seed : Z) (t : SYSTEMTIME) :
  sin_ok sin ->
  let day := simulateEnergyDayFrom sin sort seed t in
  let total := sum_doubles (hourlyKWh day) in
  Forall (fun v => flt v (dec 390 1) = true) (hourlyKWh day) /\
  fle (dec 720 1) total = true /\ flt total (dec 9360 1) = true /\
  flt fzero total = true /\
  flt fzero (pie_total day) = true /\
  finb total = true /\ finb (pie_total day) = true.
Proof.
  intros Hsin day total.
  pose proof (spec_day_in sin Hsin 24 0 (SeededRNG.make seed)) as HF.
  rewrite <- (hourly_spec sin sort seed t) in HF. fold day in HF.
  assert (HT : iv_in day_total_iv total).
  { unfold day_total_iv, total, sum_doubles.
    apply iv_sum_in; [vm_compute; reflexivity|exact HF|].
    apply iv_point_in. reflexivity. }
  assert (HP : iv_in pie_iv (pie_total day)).
  { unfold pie_total, pie_iv. rewrite fold_left_map_kWh.
    apply iv_sum_in; [vm_compute; reflexivity| |apply iv_point_in; reflexivity].
    destruct (day_fields sin sort seed t) as (E & _).
    fold day in E. fold total in E. rewrite E.
    apply categories_in; [vm_compute; reflexivity|vm_compute; reflexivity|exact HT]. }
  destruct HT as (FT & LT & UT). destruct HP as (FP & LP & UP).
  split; [apply (bounds_lt39 (zseq 0 24)); exact HF|].
  split; [exact LT|].
  split.
  { apply (fle_flt_trans _ (snd day_total_iv));
      [apply finb_wfb; exact FT|reflexivity|reflexivity|exact UT|reflexivity]. }
  split.
  { apply (flt_fle_trans _ (fst day_total_iv));
      [reflexivity|reflexivity|apply finb_wfb; exact FT|reflexivity|exact LT]. }
  split.
  { apply (flt_fle_trans _ (fst pie_iv));
      [reflexivity|reflexivity|apply finb_wfb; exact FP|reflexivity|exact LP]. }
  split; assumption.
Qed.

(** *** Categories (C6) *)

Lemma day_total_vals (total : spec_float) :
  iv_in day_total_iv total ->
  finb total = true /\ 72 * 2 ^ scale <= val total <= 742 * 2 ^ scale.
Proof.
  intros H.
  assert (O1 : finb (fst day_total_iv) = true) by (vm_compute; reflexivity).
  assert (O2 : finb (snd day_total_iv) = true) by (vm_compute; reflexivity).
  pose proof (within_vals _ _ _ O1 O2 H) as [L U].
  destruct H as (F & _). split; [exact F|].
  assert (E1 : val (fst day_total_iv) = 72 * 2 ^ scale) by (vm_compute; reflexivity).
  assert (E2 : val (snd day_total_iv) <= 742 * 2 ^ scale)
    by (vm_compute; discriminate).
  lia.
Qed.

Lemma scale_atoms :
  exists U, 0 < U /\ 2 ^ scale = 2 ^ 60 * U /\ 2 ^ (scale - 43) = 2 ^ 17 * U /\
            2 ^ (scale + 10) = 2 ^ 70 * U.
Proof.
  pose proof scale_val as Hsc. exists (2 ^ (scale - 60)).
  split; [apply pow2_pos; lia|].
  rewrite <- !Z.pow_add_r by lia. repeat split; f_equal; lia.
Qed.

(** The sum of the five category values is the total, up to rounding. *)
Lemma categories_sum_close (total : spec_float) :
  finb total = true -> 72 * 2 ^ scale <= val total <= 742 * 2 ^ scale ->
  let s := fold_left fadd (map cat_kWh (derive_categories total)) fzero in
  finb s = true /\ Z.abs (val s - val total) * 1000000 < 2 ^ scale.
Proof.
  intros Ft Hv.
  destruct scale_atoms as (U & HU & E0 & E43 & E10).
  unfold derive_categories, cats. cbn [map fold_left fst snd cat_kWh].
  change (dec 42 2) with (S754_finite false 7566047373982433 (-54)).
  change (dec 22 2) with (S754_finite false 7926335344172073 (-55)).
  change (dec 18 2) with (S754_finite false 6485183463413514 (-55)).
  change (dec 10 2) with (S754_finite false 7205759403792794 (-56)).
  change (dec 8 2) with (S754_finite false 5764607523034235 (-56)).
  assert (Hv' : 0 <= val total < 2 ^ (scale + 10)) by lia.
  destruct (fmul_share_err total 7566047373982433 (-54) Ft Hv' eq_refl ltac:(lia))
    as (X1 & F1 & B1 & R1 & D1).
  destruct (fmul_share_err total 7926335344172073 (-55) Ft Hv' eq_refl ltac:(lia))
    as (X2 & F2 & B2 & R2 & D2).
  destruct (fmul_share_err total 6485183463413514 (-55) Ft Hv' eq_refl ltac:(lia))
    as (X3 & F3 & B3 & R3 & D3).
  destruct (fmul_share_err total 7205759403792794 (-56) Ft Hv' eq_refl ltac:(lia))
    as (X4 & F4 & B4 & R4 & D4).
  destruct (fmul_share_err total 5764607523034235 (-56) Ft Hv' eq_refl ltac:(lia))
    as (X5 & F5 & B5 & R5 & D5).
  cbv zeta in *.
  set (c1 := fmul total (S754_finite false 7566047373982433 (-54))) in *.
  set (c2 := fmul total (S754_finite false 7926335344172073 (-55))) in *.
  set (c3 := fmul total (S754_finite false 6485183463413514 (-55))) in *.
  set (c4 := fmul total (S754_finite false 7205759403792794 (-56))) in *.
  set (c5 := fmul total (S754_finite false 5764607523034235 (-56))) in *.
  change (2 ^ (- (-54))) with 18014398509481984 in *.
  change (2 ^ (- (-55))) with 36028797018963968 in *.
  change (2 ^ (- (-56))) with 72057594037927936 in *.
  change (2 ^ 60) with 1152921504606846976 in *.
  change (2 ^ 17) with 131072 in *.
  change (2 ^ 70) with 1180591620717411303424 in *.
  assert (Z0 : val fzero = 0) by reflexivity.
  destruct (fadd_err fzero c1 eq_refl F1 ltac:(lia)) as [G1 A1].
  destruct (fadd_err _ c2 G1 F2 ltac:(lia)) as [G2 A2].
  destruct (fadd_err _ c3 G2 F3 ltac:(lia)) as [G3 A3].
  destruct (fadd_err _ c4 G3 F4 ltac:(lia)) as [G4 A4].
  destruct (fadd_err _ c5 G4 F5 ltac:(lia)) as [G5 A5].
  split; [exact G5|]. lia.
Qed.

(** Claim C6.  For every simulated day there are exactly 5 categories, in
    the declared order, each with [kWh = total * share] for the shares 0.42,
    0.22, 0.18, 0.10, 0.08; the sum of the category values differs from the
    sum of the hourly values by less than 1e-6; and the shares applied to a
    total of 100 give exactly 42, 22, 18, 10 and 8. *)
Theorem C6_categories (sin : double -> double) sort (seed : Z) (t : SYSTEMTIME) :
  sin_ok sin ->
  let day := simulateEnergyDayFrom sin sort seed t in
  let total := sum_doubles (hourlyKWh day) in
  map cat_name (categoryBreakdown day) =
    [ "HVAC (chlazení + VZT)"%string; "Osvětlení"%string; "IT + serverovna"%string;
      "Zásuvky / kuchyňky"%string; "Ostatní"%string ] /\
  map cat_kWh (categoryBreakdown day) =
    map (fmul total) [dec 42 2; dec 22 2; dec 18 2; dec 10 2; dec 8 2] /\
  (Qabs (B2Q (pie_total day) - B2Q total) < 1 # 1000000)%Q /\
  map cat_kWh (derive_categories (dec 1000 1)) =
    [dec 420 1; dec 220 1; dec 180 1; dec 100 1; dec 80 1].
Proof.
  intros Hsin day total.
  destruct (day_fields sin sort seed t) as (E & _). fold day in E. fold total in E.
  rewrite E. split; [reflexivity|]. split; [reflexivity|].
  split; [|vm_compute; reflexivity].
  assert (HT : iv_in day_total_iv total).
  { pose proof (spec_day_in sin Hsin 24 0 (SeededRNG.make seed)) as HF.
    rewrite <- (hourly_spec sin sort seed t) in HF. fold day in HF.
    unfold day_total_iv, total, sum_doubles.
    apply iv_sum_in; [vm_compute; reflexivity|exact HF|].
    apply iv_point_in. reflexivity. }
  destruct (day_total_vals total HT) as [Ft Hv].
  destruct (categories_sum_close total Ft Hv) as [Fs Hc].
  unfold pie_total. rewrite E, fold_left_map_kWh.
  apply B2Q_close; assumption.
Qed.

(** *** The contract of [std::sort] and two sorts that meet it *)

Lemma cmp_key (a b : Consumer) :
  wfb (cons_kWh a) = true -> wfb (cons_kWh b) = true ->
  (by_kWh_desc a b = true <-> key b < key a).
Proof.
  intros Ha Hb. unfold by_kWh_desc, fgt. fold (flt (cons_kWh b) (cons_kWh a)).
  apply flt_val; assumption.
Qed.

Lemma cmp_key_false (a b : Consumer) :
  wfb (cons_kWh a) = true -> wfb (cons_kWh b) = true ->
  (by_kWh_desc a b = false <-> key a <= key b).
Proof.
  intros Ha Hb. pose proof (cmp_key a b Ha Hb) as H.
  destruct (by_kWh_desc a b) eqn:E.
  - assert (key b < key a) by (apply H; reflexivity). split; [discriminate|lia].
  - split; [intros _|reflexivity].
    destruct (Z_lt_ge_dec (key b) (key a)) as [L|G]; [|lia].
    apply H in L. discriminate.
Qed.

Lemma no_inversion_keys (l : list Consumer) :
  numeric_keys l ->
  (no_inversion by_kWh_desc l <-> StronglySorted (fun a b => key b <= key a) l).
Proof.
  unfold numeric_keys, no_inversion. induction l as [|x l IH]; intros HN.
  - split; constructor.
  - inversion HN as [|? ? Hx Hl]; subst. specialize (IH Hl).
    split; intros HS; inversion HS as [|? ? HS' HF]; subst; constructor;
      try (apply IH; assumption).
    + rewrite Forall_forall in *. intros y Hy.
      apply cmp_key_false; auto.
    + rewrite Forall_forall in *. intros y Hy.
      apply cmp_key_false; auto.
Qed.

Section Insertion.

Variable ins : Consumer -> list Consumer -> list Consumer.

Hypothesis ins_perm : forall x l, Permutation (ins x l) (x :: l).

Hypothesis ins_sorted :
  forall x l, numeric_keys (x :: l) ->
    StronglySorted (fun a b => key b <= key a) l ->
    StronglySorted (fun a b => key b <= key a) (ins x l).

Lemma fold_ins_ok (l : list Consumer) :
  forall acc, numeric_keys (acc ++ l) ->
    StronglySorted (fun a b => key b <= key a) acc ->
    Permutation (fold_left (fun acc x => ins x acc) l acc) (acc ++ l) /\
    StronglySorted (fun a b => key b <= key a)
                   (fold_left (fun acc x => ins x acc) l acc).
Proof.
  induction l as [|x l IH]; intros acc HN HS.
  - cbn [fold_left]. rewrite app_nil_r. split; [reflexivity|exact HS].
  - cbn [fold_left].
    assert (HP : Permutation (ins x acc ++ l) (acc ++ x :: l)).
    { rewrite ins_perm. cbn [app]. apply Permutation_middle. }
    assert (HN' : numeric_keys (ins x acc ++ l)).
    { unfold numeric_keys in *. eapply Permutation_Forall; [symmetry; exact HP|exact HN]. }
    destruct (IH (ins x acc) HN') as [P S].
    + apply ins_sorted; [|exact HS].
      unfold numeric_keys in *. rewrite Forall_app in HN. destruct HN as [H1 H2].
      inversion H2; subst. constructor; assumption.
    + split; [|exact S]. rewrite P. exact HP.
Qed.

End Insertion.

Lemma insert_after_perm (x : Consumer) (l : list Consumer) :
  Permutation (insert_after by_kWh_desc x l) (x :: l).
Proof.
  induction l as [|y t IH]; cbn [insert_after]; [reflexivity|].
  destruct (by_kWh_desc x y); [reflexivity|].
  rewrite IH. apply perm_swap.
Qed.

Lemma insert_before_perm (x : Consumer) (l : list Consumer) :
  Permutation (insert_before by_kWh_desc x l) (x :: l).
Proof.
  induction l as [|y t IH]; cbn [insert_before]; [reflexivity|].
  destruct (by_kWh_desc y x); [|reflexivity].
  rewrite IH. apply perm_swap.
Qed.

Lemma insert_after_sorted (x : Consumer) (l : list Consumer) :
  numeric_keys (x :: l) ->
  StronglySorted (fun a b => key b <= key a) l ->
  StronglySorted (fun a b => key b <= key a) (insert_after by_kWh_desc x l).
Proof.
  intros HN. inversion HN as [|? ? Hx Hl]; subst. clear HN.
  induction l as [|y t IH]; intros HS; cbn [insert_after].
  - repeat constructor.
  - inversion Hl as [|? ? Hy Ht]; subst.
    inversion HS as [|? ? HS' HF]; subst.
    destruct (by_kWh_desc x y) eqn:E.
    + apply cmp_key in E; auto. constructor; [exact HS|].
      constructor; [lia|]. rewrite Forall_forall in *. intros z Hz.
      specialize (HF z Hz). lia.
    + apply cmp_key_false in E; auto. constructor; [apply IH; assumption|].
      eapply Permutation_Forall; [symmetry; apply insert_after_perm|].
      constructor; assumption.
Qed.

Lemma insert_before_sorted (x : Consumer) (l : list Consumer) :
  numeric_keys (x :: l) ->
  StronglySorted (fun a b => key b <= key a) l ->
  StronglySorted (fun a b => key b <= key a) (insert_before by_kWh_desc x l).
Proof.
  intros HN. inversion HN as [|? ? Hx Hl]; subst. clear HN.
  induction l as [|y t IH]; intros HS; cbn [insert_before].
  - repeat constructor.
  - inversion Hl as [|? ? Hy Ht]; subst.
    inversion HS as [|? ? HS' HF]; subst.
    destruct (by_kWh_desc y x) eqn:E.
    + apply cmp_key in E; auto. constructor; [apply IH; assumption|].
      eapply Permutation_Forall; [symmetry; apply insert_before_perm|].
      constructor; [lia|assumption].
    + apply cmp_key_false in E; auto. constructor; [exact HS|].
      constructor; [lia|]. rewrite Forall_forall in *. intros z Hz.
      specialize (HF z Hz). lia.
Qed.

Lemma stable_sort_ok : std_sort_ok stable_sort.
Proof.
  intros l HN. unfold stable_sort.
  destruct (fold_ins_ok (insert_after by_kWh_desc) insert_after_perm
                        insert_after_sorted l [] HN ltac:(constructor)) as [P S].
  split; [exact P|]. apply no_inversion_keys; [|exact S].
  unfold numeric_keys in *. eapply Permutation_Forall; [symmetry; exact P|exact HN].
Qed.

Lemma tie_reversing_sort_ok : std_sort_ok tie_reversing_sort.
Proof.
  intros l HN. unfold tie_reversing_sort.
  destruct (fold_ins_ok (insert_before by_kWh_desc) insert_before_perm
                        insert_before_sorted l [] HN ltac:(constructor)) as [P S].
  split; [exact P|]. apply no_inversion_keys; [|exact S].
  unfold numeric_keys in *. eapply Permutation_Forall; [symmetry; exact P|exact HN].
Qed.

(** The head of a sorted rearrangement has the largest key. *)
Lemma sorted_head_max (x : Consumer) (res l : list Consumer) :
  Permutation (x :: res) l ->
  StronglySorted (fun a b => key b <= key a) (x :: res) ->
  In x l /\ forall y, In y l -> key y <= key x.
Proof.
  intros P S. split.
  - eapply Permutation_in; [exact P|left; reflexivity].
  - intros y Hy. apply (Permutation_in _ (Permutation_sym P)) in Hy.
    inversion S as [|? ? _ HF]; subst. destruct Hy as [->|Hy]; [lia|].
    rewrite Forall_forall in HF. apply HF. exact Hy.
Qed.

(** When one element of the input has a strictly largest key, it comes
    first. *)
Lemma sorted_unique_max (x m : Consumer) (res l1 l2 : list Consumer) :
  Permutation (x :: res) (l1 ++ m :: l2) ->
  StronglySorted (fun a b => key b <= key a) (x :: res) ->
  (forall y, In y (l1 ++ l2) -> key y < key m) ->
  x = m /\ Permutation res (l1 ++ l2) /\
  StronglySorted (fun a b => key b <= key a) res.
Proof.
  intros P S Hm.
  destruct (sorted_head_max x res _ P S) as [Hin Hmax].
  assert (Hmm : key m <= key x).
  { apply Hmax. apply in_or_app. right. left. reflexivity. }
  assert (Hx : x = m).
  { apply in_app_or in Hin. destruct Hin as [H|[H|H]]; auto.
    - assert (key x < key m) by (apply Hm; apply in_or_app; left; exact H). lia.
    - assert (key x < key m) by (apply Hm; apply in_or_app; right; exact H). lia. }
  subst x. split; [reflexivity|]. split.
  - eapply Permutation_cons_app_inv. exact P.
  - inversion S; assumption.
Qed.

(** *** The values of the seven raw consumers *)

(** The seven products of the total with the shares are ordered like the
    shares. *)
Lemma consumer_values_ordered (total : spec_float) :
  finb total = true -> 72 * 2 ^ scale <= val total <= 742 * 2 ^ scale ->
  let v := fun s => fmul total s in
  Forall (fun s => finb (v s) = true)
         [dec 22 2; dec 17 2; dec 15 2; dec 14 2; dec 10 2; dec 5 2] /\
  val (v (dec 17 2)) < val (v (dec 22 2)) /\
  val (v (dec 15 2)) < val (v (dec 17 2)) /\
  val (v (dec 14 2)) < val (v (dec 15 2)) /\
  val (v (dec 10 2)) < val (v (dec 14 2)) /\
  val (v (dec 5 2)) < val (v (dec 10 2)) /\
  2 ^ scale < val (v (dec 22 2)).
Proof.
  intros Ft Hv.
  destruct scale_atoms as (U & HU & E0 & E43 & E10).
  change (dec 22 2) with (S754_finite false 7926335344172073 (-55)).
  change (dec 17 2) with (S754_finite false 6124895493223875 (-55)).
  change (dec 15 2) with (S754_finite false 5404319552844595 (-55)).
  change (dec 14 2) with (S754_finite false 5044031582654956 (-55)).
  change (dec 10 2) with (S754_finite false 7205759403792794 (-56)).
  change (dec 5 2) with (S754_finite false 7205759403792794 (-57)).
  assert (Hv' : 0 <= val total < 2 ^ (scale + 10)) by lia.
  destruct (fmul_share_err total 7926335344172073 (-55) Ft Hv' eq_refl ltac:(lia))
    as (X1 & F1 & B1 & R1 & D1).
  destruct (fmul_share_err total 6124895493223875 (-55) Ft Hv' eq_refl ltac:(lia))
    as (X2 & F2 & B2 & R2 & D2).
  destruct (fmul_share_err total 5404319552844595 (-55) Ft Hv' eq_refl ltac:(lia))
    as (X3 & F3 & B3 & R3 & D3).
  destruct (fmul_share_err total 5044031582654956 (-55) Ft Hv' eq_refl ltac:(lia))
    as (X4 & F4 & B4 & R4 & D4).
  destruct (fmul_share_err total 7205759403792794 (-56) Ft Hv' eq_refl ltac:(lia))
    as (X5 & F5 & B5 & R5 & D5).
  destruct (fmul_share_err total 7205759403792794 (-57) Ft Hv' eq_refl ltac:(lia))
    as (X6 & F6 & B6 & R6 & D6).
  cbv zeta in *.
  change (2 ^ (- (-55))) with 36028797018963968 in *.
  change (2 ^ (- (-56))) with 72057594037927936 in *.
  change (2 ^ (- (-57))) with 144115188075855872 in *.
  change (2 ^ 60) with 1152921504606846976 in *.
  change (2 ^ 17) with 131072 in *.
  change (2 ^ 70) with 1180591620717411303424 in *.
  split; [repeat constructor; assumption|].
  repeat split; lia.
Qed.

(** The sorted rearrangements of seven elements whose keys are ordered as
    k0 > k1 = k6 > k2 > k3 > k4 > k5. *)
Lemma sorted_seven (c0 c1 c2 c3 c4 c5 c6 : Consumer) (res : list Consumer) :
  key c1 < key c0 -> key c6 = key c1 -> key c2 < key c1 -> key c3 < key c2 ->
  key c4 < key c3 -> key c5 < key c4 ->
  Permutation res [c0; c1; c2; c3; c4; c5; c6] ->
  StronglySorted (fun a b => key b <= key a) res ->
  res = [c0; c1; c6; c2; c3; c4; c5] \/ res = [c0; c6; c1; c2; c3; c4; c5].
Proof.
  intros K0 K6 K2 K3 K4 K5 P S.
  assert (Hlen : length res = 7%nat) by (rewrite (Permutation_length P); reflexivity).
  destruct res as [|x0 [|x1 [|x2 [|x3 [|x4 [|x5 [|x6 [|x7 r]]]]]]]]; try discriminate.
  destruct (sorted_unique_max x0 c0 _ [] [c1; c2; c3; c4; c5; c6] P S) as (-> & P1 & S1).
  { cbn [app In]. intros y Hy. intuition (subst; lia). }
  cbn [app] in P1.
  destruct (sorted_head_max x1 _ _ P1 S1) as [Hin Hmax].
  assert (Hx1 : x1 = c1 \/ x1 = c6).
  { pose proof (Hmax c1 (or_introl eq_refl)).
    cbn [In] in Hin. intuition (subst; auto; lia). }
  destruct Hx1 as [-> | ->].
  - apply Permutation_cons_inv in P1. inversion S1 as [|? ? S2 _]; subst.
    destruct (sorted_unique_max x2 c6 _ [c2; c3; c4; c5] [] P1 S2) as (-> & P2 & S3).
    { cbn [app In]. intros y Hy. intuition (subst; lia). }
    cbn [app] in P2.
    destruct (sorted_unique_max x3 c2 _ [] [c3; c4; c5] P2 S3) as (-> & P3 & S4).
    { cbn [app In]. intros y Hy. intuition (subst; lia). }
    cbn [app] in P3.
    destruct (sorted_unique_max x4 c3 _ [] [c4; c5] P3 S4) as (-> & P4 & S5).
    { cbn [app In]. intros y Hy. intuition (subst; lia). }
    cbn [app] in P4.
    destruct (sorted_unique_max x5 c4 _ [] [c5] P4 S5) as (-> & P5 & S6).
    { cbn [app In]. intros y Hy. intuition (subst; lia). }
    cbn [app] in P5.
    apply Permutation_length_1 in P5. subst. left. reflexivity.
  - change [c1; c2; c3; c4; c5; c6] with ([c1; c2; c3; c4; c5] ++ c6 :: []) in P1.
    apply Permutation_cons_app_inv in P1. cbn [app] in P1.
    inversion S1 as [|? ? S2 _]; subst.
    destruct (sorted_unique_max x2 c1 _ [] [c2; c3; c4; c5] P1 S2) as (-> & P2 & S3).
    { cbn [app In]. intros y Hy. intuition (subst; lia). }
    cbn [app] in P2.
    destruct (sorted_unique_max x3 c2 _ [] [c3; c4; c5] P2 S3) as (-> & P3 & S4).
    { cbn [app In]. intros y Hy. intuition (subst; lia). }
    cbn [app] in P3.
    destruct (sorted_unique_max x4 c3 _ [] [c4; c5] P3 S4) as (-> & P4 & S5).
    { cbn [app In]. intros y Hy. intuition (subst; lia). }
    cbn [app] in P4.
    destruct (sorted_unique_max x5 c4 _ [] [c5] P4 S5) as (-> & P5 & S6).
    { cbn [app In]. intros y Hy. intuition (subst; lia). }
    cbn [app] in P5.
    apply Permutation_length_1 in P5. subst. right. reflexivity.
Qed.

(** *** Layout (C7) *)

Ltac rect_simpl :=
  cbn [Rect.left Rect.right Rect.top Rect.bottom map
       headerArea lineArea barArea pieArea tableArea checkArea].

Lemma above_no_overlap (a b : RECT) : above a b -> ~ overlap a b /\ ~ overlap b a.
Proof.
  unfold above, overlap. intros H. split; intros (x & y & H1); lia.
Qed.

Lemma regions_tops (margin : Z) (client : RECT) :
  let r := computeRegions margin client in
  map Rect.top (regions_list r) =
    [ Rect.top client + margin + 40;
      Rect.top client + 2 * margin + 230;
      Rect.top client + 3 * margin + 490;
      Rect.top client + 4 * margin + 740;
      Rect.top client + 5 * margin + 1040;
      Rect.top client + 6 * margin + 1360 ] /\
  map Rect.bottom (regions_list r) =
    [ Rect.top client + margin + 230;
      Rect.top client + 2 * margin + 490;
      Rect.top client + 3 * margin + 740;
      Rect.top client + 4 * margin + 1040;
      Rect.top client + 5 * margin + 1360;
      Rect.top client + 6 * margin + 1600 ].
Proof.
  cbv zeta. unfold computeRegions, regions_list. cbn [map Rect.top Rect.bottom
    headerArea lineArea barArea pieArea tableArea checkArea].
  split; repeat (f_equal; try lia).
Qed.

Lemma regions_above (margin : Z) (client : RECT) (i j : nat) :
  0 <= margin -> (i < j < 6)%nat ->
  above (nth i (regions_list (computeRegions margin client)) empty_rect)
        (nth j (regions_list (computeRegions margin client)) empty_rect).
Proof.
  intros Hm Hij. unfold above.
  destruct (regions_tops margin client) as [HT HB]. cbv zeta in HT, HB.
  rewrite <- (map_nth Rect.bottom), <- (map_nth Rect.top), HT, HB.
  do 6 (destruct i as [|i]; [do 6 (destruct j as [|j]; [cbn [nth]; lia|]); lia|]). lia.
Qed.

(** Claim C7.  For every canvas width and height and every margin (a
    distance, so not negative) the layout gives six regions: the header
    starts at [margin + 40], every later region starts exactly [margin]
    below the bottom of the one before, the heights are 190, 260, 250, 300,
    320 and 240, every region spans from [margin] to [canvasWidth - margin],
    so [canvasWidth - 2 * margin] across, and of two regions the earlier one
    lies wholly above the later one, so that no two overlap. *)
Theorem C7_layout (canvasWidth canvasHeight margin : Z) :
  0 <= margin ->
  let r := computeRegions margin (client_rect canvasWidth canvasHeight) in
  Rect.top (headerArea r) = margin + 40 /\
  Rect.top (lineArea r) = Rect.bottom (headerArea r) + margin /\
  Rect.top (barArea r) = Rect.bottom (lineArea r) + margin /\
  Rect.top (pieArea r) = Rect.bottom (barArea r) + margin /\
  Rect.top (tableArea r) = Rect.bottom (pieArea r) + margin /\
  Rect.top (checkArea r) = Rect.bottom (tableArea r) + margin /\
  map Rect.height (regions_list r) = [190; 260; 250; 300; 320; 240] /\
  Forall (fun a => Rect.left a = margin /\ Rect.right a = canvasWidth - margin /\
                   Rect.width a = canvasWidth - 2 * margin) (regions_list r) /\
  (forall i j, (i < j < 6)%nat ->
     above (nth i (regions_list r) empty_rect) (nth j (regions_list r) empty_rect) /\
     ~ overlap (nth i (regions_list r) empty_rect) (nth j (regions_list r) empty_rect) /\
     ~ overlap (nth j (regions_list r) empty_rect) (nth i (regions_list r) empty_rect)).
Proof.
  intros Hm r.
  split; [unfold r, computeRegions, client_rect;
          cbn [Rect.top headerArea]; lia|].
  do 5 (split; [reflexivity|]).
  split.
  { unfold r, computeRegions, regions_list, Rect.height, client_rect.
    cbn [map Rect.left Rect.right Rect.top Rect.bottom
         headerArea lineArea barArea pieArea tableArea checkArea].
    repeat (f_equal; try lia). }
  split.
  { unfold r, computeRegions, regions_list, Rect.width, client_rect.
    repeat (apply Forall_cons; [rect_simpl; lia|]).
    apply Forall_nil. }
  intros i j Hij.
  pose proof (regions_above margin (client_rect canvasWidth canvasHeight) i j Hm Hij) as H.
  split; [exact H|]. apply above_no_overlap. exact H.
Qed.

(** The margin of the source is 10, and no coordinate leaves the range of
    [int] for a client area that fits in it. *)
Lemma paint_regions_range (canvasWidth canvasHeight : Z) :
  0 <= canvasWidth <= int_max -> 0 <= canvasHeight <= int_max ->
  Forall (fun a => in_int_range (Rect.left a) /\ in_int_range (Rect.top a) /\
                   in_int_range (Rect.right a) /\ in_int_range (Rect.bottom a))
         (regions_list (paint_regions (client_rect canvasWidth canvasHeight))).
Proof.
  intros Hw Hh. unfold paint_regions, computeRegions, regions_list, in_int_range,
    int_min, int_max, client_rect in *.
  repeat (apply Forall_cons; [rect_simpl; lia|]).
  apply Forall_nil.
Qed.

(** *** Checklist (C8) *)

Lemma zeq_refl (a : double) : zeq a a.
Proof. left. reflexivity. Qed.

Lemma zeq_compare_l (a b v : double) : zeq a b -> SFcompare a v = SFcompare b v.
Proof.
  intros [->|[[s ->] [s' ->]]]; [reflexivity|]. destruct v; reflexivity.
Qed.

Lemma zeq_compare_r (a b v : double) : zeq a b -> SFcompare v a = SFcompare v b.
Proof.
  intros [->|[[s ->] [s' ->]]]; [reflexivity|]. destruct v; reflexivity.
Qed.

Lemma zeq_fgt (a b t : double) : zeq a b -> fgt a t = fgt b t.
Proof. intros H. unfold fgt, SFltb. rewrite (zeq_compare_r a b t H). reflexivity. Qed.

Lemma fold_max_zeq (l : list double) :
  forall p q, zeq p q ->
    zeq (fold_left (fun m v => if fgt v m then v else m) l p)
        (fold_left (fun m v => if fgt v m then v else m) l q).
Proof.
  induction l as [|v l IH]; intros p q H; [exact H|].
  cbn [fold_left]. apply IH.
  unfold fgt, SFltb. rewrite (zeq_compare_l p q v H).
  destruct (SFcompare q v) as [[ | | ]|]; auto using zeq_refl.
Qed.

Lemma nonneg_first_step (x : double) :
  fle fzero x = true -> zeq (if fgt x fzero then x else fzero) x.
Proof.
  unfold fle, fgt, SFleb, SFltb, fzero.
  destruct x as [s|s| |s m e]; cbn [SFcompare].
  - intros _. right. split; eexists; reflexivity.
  - destruct s; intros H; [discriminate|left; reflexivity].
  - discriminate.
  - destruct s; intros H; [discriminate|left; reflexivity].
Qed.

(** With a non-negative first sample the running peak from 0.0 is the
    maximum of the samples. *)
Lemma peak_is_max (hourly : list double) :
  hourly <> [] -> Forall (fun v => fle fzero v = true) hourly ->
  zeq (peak_of hourly) (max_of hourly).
Proof.
  intros Hne HF. destruct hourly as [|x t]; [congruence|].
  inversion HF; subst. unfold peak_of, max_of. cbn [fold_left].
  apply fold_max_zeq. apply nonneg_first_step. assumption.
Qed.

Lemma skipn_nth_cons (l : list double) :
  forall i, (i < length l)%nat -> skipn i l = nth i l fzero :: skipn (S i) l.
Proof.
  induction l as [|x l IH]; intros i Hi; [simpl in Hi; lia|].
  destruct i as [|i]; [reflexivity|].
  cbn [skipn nth]. rewrite IH by (simpl in Hi; lia). reflexivity.
Qed.

Lemma night_loop_fold (hourly : list double) (n : nat) :
  forall (i : nat) (acc : double), (i + n = 6)%nat ->
    night_loop n (Z.of_nat i) hourly acc
    = fold_left fadd (firstn n (skipn i hourly)) acc.
Proof.
  induction n as [|n IH]; intros i acc Hi; [reflexivity|].
  cbn [night_loop].
  destruct (Z.ltb_spec (Z.of_nat i) 6); [|lia].
  destruct (Z.ltb_spec (Z.of_nat i) (Z.of_nat (length hourly))) as [Hl|Hl]; cbn [andb].
  - rewrite Nat2Z.id. rewrite (skipn_nth_cons hourly i) by lia.
    cbn [firstn fold_left].
    replace (Z.of_nat i + 1) with (Z.of_nat (S i)) by lia.
    apply IH. lia.
  - rewrite skipn_all2 by lia. reflexivity.
Qed.

Lemma night_loop_average (hourly : list double) :
  fdiv (night_loop 6 0 hourly fzero) (dec 60 1) = night_average hourly.
Proof.
  unfold night_average, sum_doubles.
  pose proof (night_loop_fold hourly 6 0 fzero eq_refl) as H.
  change (Z.of_nat 0) with 0 in H. rewrite H. reflexivity.
Qed.

(** The calls of the loop over five alerts, written out. *)
Lemma alert_rows_five (area : RECT) (y : Z) (a1 a2 a3 a4 a5 : Alert) :
  let check_glyph := fun y : Z =>
    [ SelectPen 2 0 0 0;
      MoveToEx (Rect.left area + 12) (y + 9);
      LineTo (Rect.left area + 15) (y + 13);
      LineTo (Rect.left area + 21) (y + 3);
      RestorePen ] in
  let cross_glyph := fun y : Z =>
    [ SelectPen 2 0 0 0;
      MoveToEx (Rect.left area + 12) (y + 3);
      LineTo (Rect.left area + 21) (y + 13);
      MoveToEx (Rect.left area + 21) (y + 3);
      LineTo (Rect.left area + 12) (y + 13);
      RestorePen ] in
  let row := fun (y : Z) (failed : bool) (label : string) =>
    Rectangle (Rect.left area + 10) (y + 2) (Rect.left area + 22) (y + 14)
    :: (if failed then cross_glyph y else check_glyph y)
    ++ [ DrawTextW (Rect.left area + 30) (y + 2) label 13 failed ] in
  concat (alert_rows area y [a1; a2; a3; a4; a5])
  = row y (negb (ok a1)) (text a1)
    ++ row (y + 26) (negb (ok a2)) (text a2)
    ++ row (y + 26 + 26) (negb (ok a3)) (text a3)
    ++ row (y + 26 + 26 + 26) (negb (ok a4)) (text a4)
    ++ row (y + 26 + 26 + 26 + 26) (negb (ok a5)) (text a5).
Proof.
  cbv zeta. cbn [alert_rows concat]. rewrite app_nil_r.
  unfold alert_row, check_mark, cross_mark.
  destruct (ok a1), (ok a2), (ok a3), (ok a4), (ok a5); reflexivity.
Qed.

(** Claim C8.  For every [EnergyDay] the checklist has exactly 5 alerts with
    the fixed texts.  The first fails exactly when the average of the hours
    0 to 5 (the sum of the first six samples divided by 6) exceeds 0.75
    times the daily average (the sum of all samples divided by 24).  The
    second fails exactly when the peak exceeds 2.0 times the daily average;
    the peak is the largest sample whenever there are samples and none is
    negative, as in every [EnergyDay] of the data model.  The third passes
    exactly when there are 24 samples.  The two recommendations always
    pass.  What [DrawChecklist] draws is the title and, for each of the five
    alerts in turn, 26 pixels apart: a box; in it a cross (two strokes) when
    the alert failed and a check mark (one bent stroke) when it passed; and
    the text of the alert, bold exactly when the alert failed. *)
Theorem C8_checklist (g_day : EnergyDay) (area : RECT) :
  let hourly := hourlyKWh g_day in
  let avg := daily_average hourly in
  let alerts := checklist_alerts g_day in
  let check_glyph := fun y : Z =>
    [ SelectPen 2 0 0 0;
      MoveToEx (Rect.left area + 12) (y + 9);
      LineTo (Rect.left area + 15) (y + 13);
      LineTo (Rect.left area + 21) (y + 3);
      RestorePen ] in
  let cross_glyph := fun y : Z =>
    [ SelectPen 2 0 0 0;
      MoveToEx (Rect.left area + 12) (y + 3);
      LineTo (Rect.left area + 21) (y + 13);
      MoveToEx (Rect.left area + 21) (y + 3);
      LineTo (Rect.left area + 12) (y + 13);
      RestorePen ] in
  let row := fun (y : Z) (failed : bool) (label : string) =>
    Rectangle (Rect.left area + 10) (y + 2) (Rect.left area + 22) (y + 14)
    :: (if failed then cross_glyph y else check_glyph y)
    ++ [ DrawTextW (Rect.left area + 30) (y + 2) label 13 failed ] in
  let y0 := Rect.top area + 60 in
  map text alerts =
    [ "Noční zátěž v normě"%string;
      "Žádná extrémní špička (> 2.0× průměr)"%string;
      "Křivka bez výpadků (24/24)"%string;
      "Doporučení: zkontrolovat HVAC plán"%string;
      "Doporučení: audit osvětlení (zóny)"%string ] /\
  (exists a1 a2 a3 a4 a5,
     alerts = [a1; a2; a3; a4; a5] /\
     (ok a1 = false <-> fgt (night_average hourly) (fmul (dec 75 2) avg) = true) /\
     (ok a2 = false <-> fgt (peak_of hourly) (fmul (dec 20 1) avg) = true) /\
     (hourly <> [] -> Forall (fun v => fle fzero v = true) hourly ->
      (ok a2 = false <-> fgt (max_of hourly) (fmul (dec 20 1) avg) = true)) /\
     (ok a3 = true <-> length hourly = 24%nat) /\
     ok a4 = true /\ ok a5 = true /\
     DrawChecklist g_day area =
       [ FillRect area WHITE_BRUSH;
         DrawTextW (Rect.left area + 10) (Rect.top area + 10) "Checklist / Alerts" 18 true;
         SelectPen 1 0 0 0;
         MoveToEx (Rect.left area + 10) (Rect.top area + 36);
         LineTo (Rect.right area - 10) (Rect.top area + 36);
         RestorePen ]
       ++ row y0 (negb (ok a1)) (text a1)
       ++ row (y0 + 26) (negb (ok a2)) (text a2)
       ++ row (y0 + 26 + 26) (negb (ok a3)) (text a3)
       ++ row (y0 + 26 + 26 + 26) (negb (ok a4)) (text a4)
       ++ row (y0 + 26 + 26 + 26 + 26) (negb (ok a5)) (text a5)).
Proof.
  intros hourly avg alerts check_glyph cross_glyph row y0.
  split; [reflexivity|].
  unfold alerts, checklist_alerts.
  fold hourly. rewrite night_loop_average.
  change (fdiv (sum_doubles hourly) (dec 240 1)) with avg.
  rewrite !(fmul_comm avg).
  do 5 eexists. split; [reflexivity|]. cbn [ok].
  split; [apply negb_false_iff|].
  split; [apply negb_false_iff|].
  split.
  { intros Hne HF. rewrite negb_false_iff.
    rewrite (zeq_fgt _ _ _ (peak_is_max hourly Hne HF)). reflexivity. }
  split; [apply Nat.eqb_eq|]. split; [reflexivity|]. split; [reflexivity|].
  unfold DrawChecklist, section_head. apply f_equal.
  unfold checklist_alerts. fold hourly. rewrite night_loop_average.
  change (fdiv (sum_doubles hourly) (dec 240 1)) with avg.
  rewrite !(fmul_comm avg).
  exact (alert_rows_five area y0 _ _ _ _ _).
Qed.

(** *** Bar chart (C9) *)

Lemma bar_maxV_fold (l : list Consumer) (a : double) :
  fold_left (fun maxV c => if fgt (cons_kWh c) maxV then cons_kWh c else maxV) l a
  = fold_left (fun m v => if fgt v m then v else m) (map cons_kWh l) a.
Proof. revert a. induction l as [|c l IH]; intros a; simpl; auto. Qed.

Lemma bar_rows_length (format_fixed : nat -> double -> string)
      (text_extent : string -> Z) (area : RECT) (maxV : double) (l : list Consumer) :
  forall y, length (bar_rows format_fixed text_extent area maxV y l) = length l.
Proof. induction l as [|c l IH]; intros y; simpl; auto. Qed.

Lemma bar_rows_nth (format_fixed : nat -> double -> string)
      (text_extent : string -> Z) (area : RECT) (maxV : double) (l : list Consumer) :
  forall (i : nat) y d, (i < length l)%nat ->
    nth i (bar_rows format_fixed text_extent area maxV y l) []
    = bar_row format_fixed text_extent area maxV (y + 28 * Z.of_nat i)
              (Nat.ltb (S i) (length l)) (nth i l d).
Proof.
  induction l as [|c l IH]; intros i y d Hi; [simpl in Hi; lia|].
  destruct i as [|i].
  - cbn [bar_rows nth]. rewrite Z.mul_0_r, Z.add_0_r.
    destruct l; reflexivity.
  - cbn [bar_rows nth]. rewrite (IH i (y + 28) d) by (simpl in Hi; lia).
    replace (y + 28 + 28 * Z.of_nat i) with (y + 28 * Z.of_nat (S i)) by lia.
    reflexivity.
Qed.

(** Claim C9 as stated fails on a list whose largest value is below 1.0: for
    a single consumer of 0.5 kWh and a bar of width 100 the program fills 50
    pixels, where the quotient by the largest listed value fills 100. *)
Lemma C9_floor_of_the_maximum :
  bar_fill_width 100 (bar_maxV [small_consumer]) small_consumer = 50 /\
  spec_bar_fill_width 100 [small_consumer] small_consumer = 100 /\
  ~ (forall (l : list Consumer) (barW : Z) (it : Consumer),
       In it l ->
       bar_fill_width barW (bar_maxV l) it = spec_bar_fill_width barW l it).
Proof.
  split; [vm_compute; reflexivity|]. split; [vm_compute; reflexivity|].
  intros H. specialize (H [small_consumer] 100 small_consumer (or_introl eq_refl)).
  vm_compute in H. discriminate.
Qed.

(** Claim C9, amended.  The bar chart draws one row per listed consumer,
    28 pixels apart: the name on the left, the frame of the bar, a filled
    part of width [(int)(barW * (kWh / maxV))] and the value with one
    decimal, right-aligned.  The divisor [maxV] is the largest of 1.0 and
    the listed values; it is the largest listed value whenever the first
    listed value exceeds 1.0. *)
Theorem C9_bar_chart (format_fixed : nat -> double -> string)
        (text_extent : string -> Z) (g_day : EnergyDay) (area : RECT) :
  let l := topConsumers g_day in
  let maxV := bar_maxV l in
  let barX := Rect.left area + 170 in
  let barW := Rect.right area - barX - 10 in
  let rows := bar_rows format_fixed text_extent area maxV (Rect.top area + 60) l in
  DrawBarChart format_fixed text_extent g_day area
    = section_head area "Top spotřebiče (kWh/den)" ++ concat rows /\
  length rows = length l /\
  maxV = fold_left (fun m v => if fgt v m then v else m) (map cons_kWh l) (dec 10 1) /\
  (forall x t, l = x :: t -> fgt (cons_kWh x) (dec 10 1) = true ->
     maxV = max_of (map cons_kWh l)) /\
  (forall (i : nat) it, nth_error l i = Some it ->
     let y := Rect.top area + 60 + 28 * Z.of_nat i in
     let w := double_to_int (fmul (of_Z barW) (fdiv (cons_kWh it) maxV)) in
     let valStr := format_fixed 1%nat (cons_kWh it) in
     exists sep,
       nth i rows [] =
         [ DrawTextW (Rect.left area + 10) (y + 2) (cons_name it) 12 false;
           Rectangle barX y (barX + barW) (y + 18);
           SelectBrush BLACK_BRUSH;
           FillRect {| Rect.left := barX; Rect.top := y;
                       Rect.right := barX + w; Rect.bottom := y + 18 |} BLACK_BRUSH;
           RestoreBrush;
           TextOutW (Rect.right area - 10 - text_extent valStr) (y + 2) valStr ]
         ++ sep).
Proof.
  intros l maxV barX barW rows.
  split; [reflexivity|].
  split; [apply bar_rows_length|].
  split; [apply bar_maxV_fold|].
  split.
  - intros x t E Hx. unfold maxV, bar_maxV. rewrite bar_maxV_fold, E.
    cbn [map fold_left max_of]. rewrite Hx. reflexivity.
  - intros i it Hi y w valStr.
    assert (Hlt : (i < length l)%nat) by (apply nth_error_Some; congruence).
    unfold rows. rewrite (bar_rows_nth _ _ _ _ _ i _ it Hlt).
    rewrite (nth_error_nth l i it Hi).
    unfold bar_row. eexists. reflexivity.
Qed.

(** *** Top consumers (C4) *)

Lemma lookup_in (P : spec_float -> Prop) (tbl : list (spec_float * spec_float)) :
  P fzero -> Forall (fun p => P (snd p)) tbl -> forall x, P (lookup x tbl).
Proof.
  intros H0 HF x. induction HF as [|[a v] rest Hv HF IH]; cbn [lookup]; [exact H0|].
  destruct (sf_eqb a x); [exact Hv|exact IH].
Qed.

Lemma sin_table_ok : sin_ok sin_table.
Proof.
  intros x. unfold sin_table. apply lookup_in.
  - apply withinb_within. vm_compute. reflexivity.
  - unfold sin_values.
    repeat (apply Forall_cons; [apply withinb_within; vm_compute; reflexivity|]).
    apply Forall_nil.
Qed.

(** The arguments of the table are those of the simulator. *)
Lemma sin_table_arguments :
  map (fun h => fmul (fdiv (fsub (of_Z h) (dec 80 1)) (dec 100 1)) PI_literal)
      [9; 10; 11; 12; 13; 14; 15; 16; 17; 18]
  = map fst sin_values.
Proof. vm_compute. reflexivity. Qed.

Lemma derive_consumers_keys (total : spec_float) :
  finb total = true -> 72 * 2 ^ scale <= val total <= 742 * 2 ^ scale ->
  numeric_keys (derive_consumers total).
Proof.
  intros Ft Hv.
  destruct (consumer_values_ordered total Ft Hv) as (HF & _).
  cbv zeta in HF. rewrite Forall_forall in HF.
  unfold numeric_keys, derive_consumers, consumersRaw. cbn [map fst snd].
  repeat (apply Forall_cons; [cbn [cons_kWh]; apply finb_wfb; apply HF;
                              cbn [In]; tauto|]).
  apply Forall_nil.
Qed.

(** The total of a simulated day is a finite number between 72 and 742. *)
Lemma simulated_total (sin : double -> double)
      (sort : (Consumer -> Consumer -> bool) -> list Consumer -> list Consumer)
      (seed : Z) (t : SYSTEMTIME) :
  sin_ok sin ->
  let total := sum_doubles (hourlyKWh (simulateEnergyDayFrom sin sort seed t)) in
  finb total = true /\ 72 * 2 ^ scale <= val total <= 742 * 2 ^ scale.
Proof.
  intros Hsin total. apply day_total_vals.
  pose proof (spec_day_in sin Hsin 24 0 (SeededRNG.make seed)) as HF.
  rewrite <- (hourly_spec sin sort seed t) in HF.
  unfold day_total_iv, total, sum_doubles.
  apply iv_sum_in; [vm_compute; reflexivity|exact HF|].
  apply iv_point_in. reflexivity.
Qed.

(** What [std::sort] may return on the seven raw consumers: the entries in
    the order of their values, the two entries of share 0.17 either way
    round. *)
Lemma sorted_consumers
      (sort : (Consumer -> Consumer -> bool) -> list Consumer -> list Consumer)
      (total : spec_float) :
  std_sort_ok sort ->
  finb total = true -> 72 * 2 ^ scale <= val total <= 742 * 2 ^ scale ->
  sort by_kWh_desc (derive_consumers total) = sorted_raw total false \/
  sort by_kWh_desc (derive_consumers total) = sorted_raw total true.
Proof.
  intros Hsort Ft Hv.
  destruct (consumer_values_ordered total Ft Hv) as (HF & K1 & K2 & K3 & K4 & K5 & _).
  cbv zeta in HF, K1, K2, K3, K4, K5.
  pose proof (derive_consumers_keys total Ft Hv) as HN.
  destruct (Hsort _ HN) as [P NI].
  assert (HN' : numeric_keys (sort by_kWh_desc (derive_consumers total))).
  { unfold numeric_keys in *. eapply Permutation_Forall; [symmetry; exact P|exact HN]. }
  apply (no_inversion_keys _ HN') in NI.
  set (res := sort by_kWh_desc (derive_consumers total)) in *.
  unfold derive_consumers, consumersRaw in P. cbn [map fst snd] in P.
  unfold sorted_raw.
  apply sorted_seven;
    [ exact K1 | reflexivity | exact K2 | exact K3 | exact K4 | exact K5
    | exact P | exact NI ].
Qed.

(** What the contract of [std::sort] fixes of the top consumers.  For every
    simulated day and every sort that meets the contract, [topConsumers] has
    exactly 6 entries; their values are the products of the daily total with
    the shares 0.22, 0.17, 0.17, 0.15, 0.14, 0.10, in non-increasing order and
    strictly decreasing between different shares; together with the dropped
    entry of share 0.05, which is strictly smaller, they are a rearrangement
    of the 7 raw consumers.  The contract leaves the order of the two entries
    of share 0.17 open. *)
Lemma top_consumers_contract (sin : double -> double)
        (sort : (Consumer -> Consumer -> bool) -> list Consumer -> list Consumer)
        (seed : Z) (t : SYSTEMTIME) :
  sin_ok sin -> std_sort_ok sort ->
  let day := simulateEnergyDayFrom sin sort seed t in
  let total := sum_doubles (hourlyKWh day) in
  let top := topConsumers day in
  length top = 6%nat /\
  map cons_kWh top =
    map (fmul total) [dec 22 2; dec 17 2; dec 17 2; dec 15 2; dec 14 2; dec 10 2] /\
  StronglySorted (fun a b => fle (cons_kWh b) (cons_kWh a) = true) top /\
  flt (fmul total (dec 17 2)) (fmul total (dec 22 2)) = true /\
  flt (fmul total (dec 15 2)) (fmul total (dec 17 2)) = true /\
  flt (fmul total (dec 14 2)) (fmul total (dec 15 2)) = true /\
  flt (fmul total (dec 10 2)) (fmul total (dec 14 2)) = true /\
  flt (fmul total (dec 5 2)) (fmul total (dec 10 2)) = true /\
  Permutation (top ++ [{| cons_name := "Výtahy"; cons_kWh := fmul total (dec 5 2) |}])
              (derive_consumers total) /\
  (map cons_name top =
     [ "Chiller / tepelné čerpadlo"%string; "VZT jednotky"%string; "Ostatní"%string;
       "Osvětlení open-space"%string; "Serverovna UPS"%string; "EV nabíjení"%string ]
   \/
   map cons_name top =
     [ "Chiller / tepelné čerpadlo"%string; "Ostatní"%string; "VZT jednotky"%string;
       "Osvětlení open-space"%string; "Serverovna UPS"%string; "EV nabíjení"%string ]).
Proof.
  intros Hsin Hsort day total top.
  destruct (simulated_total sin sort seed t Hsin) as [Ft Hv].
  fold day in Ft, Hv. fold total in Ft, Hv.
  destruct (consumer_values_ordered total Ft Hv) as (HF & K1 & K2 & K3 & K4 & K5 & _).
  cbv zeta in HF, K1, K2, K3, K4, K5.
  assert (W : forall s, In s [dec 22 2; dec 17 2; dec 15 2; dec 14 2; dec 10 2; dec 5 2] ->
                        wfb (fmul total s) = true).
  { rewrite Forall_forall in HF. intros s Hs. apply finb_wfb. apply HF. exact Hs. }
  assert (L : forall a b,
             In a [dec 22 2; dec 17 2; dec 15 2; dec 14 2; dec 10 2; dec 5 2] ->
             In b [dec 22 2; dec 17 2; dec 15 2; dec 14 2; dec 10 2; dec 5 2] ->
             val (fmul total a) < val (fmul total b) ->
             flt (fmul total a) (fmul total b) = true).
  { intros a b Ha Hb Hlt. apply flt_val; auto. }
  assert (LE : forall a b,
             In a [dec 22 2; dec 17 2; dec 15 2; dec 14 2; dec 10 2; dec 5 2] ->
             In b [dec 22 2; dec 17 2; dec 15 2; dec 14 2; dec 10 2; dec 5 2] ->
             val (fmul total a) <= val (fmul total b) ->
             fle (fmul total a) (fmul total b) = true).
  { intros a b Ha Hb Hle. apply fle_val; auto. }
  pose proof (derive_consumers_keys total Ft Hv) as HN.
  destruct (Hsort _ HN) as [P _].
  destruct (day_fields sin sort seed t) as (_ & ET & _). fold day in ET. fold total in ET.
  fold top in ET.
  pose proof (sorted_consumers sort total Hsort Ft Hv) as Hres.
  set (res := sort by_kWh_desc (derive_consumers total)) in *.
  unfold sorted_raw in Hres. cbn match in Hres.
  assert (EK : map cons_kWh top =
               map (fmul total) [dec 22 2; dec 17 2; dec 17 2; dec 15 2; dec 14 2; dec 10 2]).
  { rewrite ET; destruct Hres as [-> | ->]; reflexivity. }
  split; [rewrite ET; destruct Hres as [-> | ->]; reflexivity|].
  split; [exact EK|].
  split.
  { rewrite ET; destruct Hres as [-> | ->]; cbn [firstn];
      repeat first [ apply SSorted_nil | apply Forall_nil
                   | apply SSorted_cons | apply Forall_cons ];
      cbn [cons_kWh]; apply LE; cbn [In]; try tauto; lia. }
  split; [apply L; cbn [In]; tauto|].
  split; [apply L; cbn [In]; tauto|].
  split; [apply L; cbn [In]; tauto|].
  split; [apply L; cbn [In]; tauto|].
  split; [apply L; cbn [In]; tauto|].
  split.
  - rewrite ET. destruct Hres as [E | E]; rewrite E in *; cbn [firstn app]; exact P.
  - rewrite ET. destruct Hres as [-> | ->]; [left|right]; reflexivity.
Qed.

(** *** [std::sort] as the library runs it on seven elements *)

Lemma std_sort_consumers (total : spec_float) :
  finb total = true -> 72 * 2 ^ scale <= val total <= 742 * 2 ^ scale ->
  std_sort by_kWh_desc (derive_consumers total) = sorted_raw total false.
Proof.
  intros Ft Hv.
  destruct (consumer_values_ordered total Ft Hv) as (HF & K1 & K2 & K3 & K4 & K5 & _).
  cbv zeta in HF, K1, K2, K3, K4, K5.
  assert (W : forall s, In s [dec 22 2; dec 17 2; dec 15 2; dec 14 2; dec 10 2; dec 5 2] ->
                        wfb (fmul total s) = true).
  { rewrite Forall_forall in HF. intros s Hs. apply finb_wfb. apply HF. exact Hs. }
  assert (G : forall a b,
             In a [dec 22 2; dec 17 2; dec 15 2; dec 14 2; dec 10 2; dec 5 2] ->
             In b [dec 22 2; dec 17 2; dec 15 2; dec 14 2; dec 10 2; dec 5 2] ->
             val (fmul total a) <= val (fmul total b) ->
             fgt (fmul total a) (fmul total b) = false).
  { intros a b Ha Hb Hle. unfold fgt. fold (flt (fmul total b) (fmul total a)).
    destruct (flt (fmul total b) (fmul total a)) eqn:E; [|reflexivity].
    apply flt_val in E; auto. lia. }
  assert (GT : forall a b,
             In a [dec 22 2; dec 17 2; dec 15 2; dec 14 2; dec 10 2; dec 5 2] ->
             In b [dec 22 2; dec 17 2; dec 15 2; dec 14 2; dec 10 2; dec 5 2] ->
             val (fmul total b) < val (fmul total a) ->
             fgt (fmul total a) (fmul total b) = true).
  { intros a b Ha Hb Hlt. unfold fgt. fold (flt (fmul total b) (fmul total a)).
    apply flt_val; auto. }
  unfold std_sort, derive_consumers, consumersRaw, sorted_raw, by_kWh_desc.
  cbn [map fst snd fold_left linear_insert].
  repeat (cbn [cons_kWh rev app unguarded_insert linear_insert];
          first [ rewrite GT by (cbn [In]; try tauto; lia)
                | rewrite G by (cbn [In]; try tauto; lia) ]).
  reflexivity.
Qed.

Lemma SSorted_snoc {A : Type} (R : A -> A -> Prop) (l : list A) (x : A) :
  StronglySorted R l -> Forall (fun y => R y x) l -> StronglySorted R (l ++ [x]).
Proof.
  induction 1 as [|a l HS IH HF]; intros Hx; cbn [app].
  - repeat constructor.
  - inversion Hx as [|? ? Ha Hl]; subst. constructor; [apply IH; exact Hl|].
    apply Forall_app. split; [exact HF|]. constructor; [exact Ha|constructor].
Qed.

Lemma SSorted_rev {A : Type} (R : A -> A -> Prop) (l : list A) :
  StronglySorted R l -> StronglySorted (fun a b => R b a) (rev l).
Proof.
  induction 1 as [|a l HS IH HF]; cbn [rev]; [constructor|].
  apply SSorted_snoc; [exact IH|]. apply Forall_rev. exact HF.
Qed.

Lemma unguarded_insert_perm (x : Consumer) (l : list Consumer) :
  Permutation (unguarded_insert by_kWh_desc x l) (x :: l).
Proof.
  induction l as [|y t IH]; cbn [unguarded_insert]; [reflexivity|].
  destruct (by_kWh_desc x y); [|reflexivity].
  rewrite IH. apply perm_swap.
Qed.

Lemma linear_insert_perm (x : Consumer) (l : list Consumer) :
  Permutation (linear_insert by_kWh_desc x l) (x :: l).
Proof.
  destruct l as [|y t]; cbn [linear_insert]; [reflexivity|].
  destruct (by_kWh_desc x y); [reflexivity|].
  rewrite <- Permutation_rev, unguarded_insert_perm.
  constructor. symmetry. apply Permutation_rev.
Qed.

Lemma unguarded_insert_sorted (x : Consumer) (l : list Consumer) :
  numeric_keys (x :: l) ->
  StronglySorted (fun a b => key a <= key b) l ->
  StronglySorted (fun a b => key a <= key b) (unguarded_insert by_kWh_desc x l).
Proof.
  intros HN. inversion HN as [|? ? Hx Hl]; subst. clear HN.
  induction l as [|y t IH]; intros HS; cbn [unguarded_insert].
  - repeat constructor.
  - inversion Hl as [|? ? Hy Ht]; subst.
    inversion HS as [|? ? HS' HF]; subst.
    destruct (by_kWh_desc x y) eqn:E.
    + apply cmp_key in E; auto. constructor; [apply IH; assumption|].
      eapply Permutation_Forall; [symmetry; apply unguarded_insert_perm|].
      constructor; [lia|assumption].
    + apply cmp_key_false in E; auto. constructor; [exact HS|].
      constructor; [lia|]. rewrite Forall_forall in *. intros z Hz.
      specialize (HF z Hz). lia.
Qed.

Lemma linear_insert_sorted (x : Consumer) (l : list Consumer) :
  numeric_keys (x :: l) ->
  StronglySorted (fun a b => key b <= key a) l ->
  StronglySorted (fun a b => key b <= key a) (linear_insert by_kWh_desc x l).
Proof.
  intros HN HS. destruct l as [|y t]; cbn [linear_insert]; [repeat constructor|].
  inversion HN as [|? ? Hx Hl]; subst. inversion Hl as [|? ? Hy Ht]; subst.
  destruct (by_kWh_desc x y) eqn:E.
  - apply cmp_key in E; auto. constructor; [exact HS|].
    inversion HS as [|? ? HS' HF]; subst.
    constructor; [lia|]. rewrite Forall_forall in *. intros z Hz.
    specialize (HF z Hz). lia.
  - apply (SSorted_rev (fun a b => key a <= key b)).
    apply unguarded_insert_sorted.
    + unfold numeric_keys in *. constructor; [exact Hx|].
      apply Forall_rev. exact Hl.
    + apply (SSorted_rev (fun a b => key b <= key a)). exact HS.
Qed.

(** The insertion sort is a [std::sort]: it meets the contract. *)
Lemma std_sort_meets_contract : std_sort_ok std_sort.
Proof.
  intros l HN. unfold std_sort.
  destruct (fold_ins_ok (linear_insert by_kWh_desc) linear_insert_perm
                        linear_insert_sorted l [] HN ltac:(constructor)) as [P S].
  split; [exact P|]. apply no_inversion_keys; [|exact S].
  unfold numeric_keys in *. eapply Permutation_Forall; [symmetry; exact P|exact HN].
Qed.

(** Claim C4.  For every simulated day, [topConsumers] has exactly 6
    entries: the 6 entries of highest value among the 7 raw consumers, whose
    values are the products of the daily total with the shares 0.22, 0.17,
    0.15, 0.14, 0.10, 0.05 and 0.17, in non-increasing order of value and
    strictly decreasing between different shares.  The two entries of share
    0.17 have the same value and stay in the order of the raw list, "VZT
    jednotky" (second there) before "Ostatní" (last there); the dropped entry
    of share 0.05 is strictly smaller than every entry kept.  The sort is
    [std::sort] as the library runs it on seven elements, by insertion; any
    sort that meets the contract of [std::sort] gives the same six values. *)
Theorem C4_top_consumers (sin : double -> double) (seed : Z) (t : SYSTEMTIME) :
  sin_ok sin ->
  let day := simulateEnergyDayFrom sin std_sort seed t in
  let total := sum_doubles (hourlyKWh day) in
  let raw := derive_consumers total in
  let top := topConsumers day in
  let none := {| cons_name := EmptyString; cons_kWh := fzero |} in
  map cons_name raw =
    [ "Chiller / tepelné čerpadlo"%string; "VZT jednotky"%string;
      "Osvětlení open-space"%string; "Serverovna UPS"%string; "EV nabíjení"%string;
      "Výtahy"%string; "Ostatní"%string ] /\
  map cons_kWh raw =
    map (fmul total)
        [dec 22 2; dec 17 2; dec 15 2; dec 14 2; dec 10 2; dec 5 2; dec 17 2] /\
  length top = 6%nat /\
  top = [ nth 0 raw none; nth 1 raw none; nth 6 raw none;
          nth 2 raw none; nth 3 raw none; nth 4 raw none ] /\
  map cons_name top =
    [ "Chiller / tepelné čerpadlo"%string; "VZT jednotky"%string; "Ostatní"%string;
      "Osvětlení open-space"%string; "Serverovna UPS"%string; "EV nabíjení"%string ] /\
  map cons_kWh top =
    map (fmul total) [dec 22 2; dec 17 2; dec 17 2; dec 15 2; dec 14 2; dec 10 2] /\
  StronglySorted (fun a b => fle (cons_kWh b) (cons_kWh a) = true) top /\
  flt (fmul total (dec 17 2)) (fmul total (dec 22 2)) = true /\
  flt (fmul total (dec 15 2)) (fmul total (dec 17 2)) = true /\
  flt (fmul total (dec 14 2)) (fmul total (dec 15 2)) = true /\
  flt (fmul total (dec 10 2)) (fmul total (dec 14 2)) = true /\
  Forall (fun c => flt (cons_kWh (nth 5 raw none)) (cons_kWh c) = true) top /\
  Permutation (top ++ [nth 5 raw none]) raw /\
  (forall sort, std_sort_ok sort ->
     map cons_kWh (topConsumers (simulateEnergyDayFrom sin sort seed t))
     = map cons_kWh top).
Proof.
  intros Hsin day total raw top none.
  destruct (simulated_total sin std_sort seed t Hsin) as [Ft Hv].
  fold day in Ft, Hv. fold total in Ft, Hv.
  destruct (consumer_values_ordered total Ft Hv) as (HF & K1 & K2 & K3 & K4 & K5 & _).
  cbv zeta in HF, K1, K2, K3, K4, K5.
  assert (W : forall s, In s [dec 22 2; dec 17 2; dec 15 2; dec 14 2; dec 10 2; dec 5 2] ->
                        wfb (fmul total s) = true).
  { rewrite Forall_forall in HF. intros s Hs. apply finb_wfb. apply HF. exact Hs. }
  assert (L : forall a b,
             In a [dec 22 2; dec 17 2; dec 15 2; dec 14 2; dec 10 2; dec 5 2] ->
             In b [dec 22 2; dec 17 2; dec 15 2; dec 14 2; dec 10 2; dec 5 2] ->
             val (fmul total a) < val (fmul total b) ->
             flt (fmul total a) (fmul total b) = true).
  { intros a b Ha Hb Hlt. apply flt_val; auto. }
  assert (LE : forall a b,
             In a [dec 22 2; dec 17 2; dec 15 2; dec 14 2; dec 10 2; dec 5 2] ->
             In b [dec 22 2; dec 17 2; dec 15 2; dec 14 2; dec 10 2; dec 5 2] ->
             val (fmul total a) <= val (fmul total b) ->
             fle (fmul total a) (fmul total b) = true).
  { intros a b Ha Hb Hle. apply fle_val; auto. }
  destruct (day_fields sin std_sort seed t) as (_ & ET & _).
  fold day in ET. fold total in ET. fold top in ET.
  rewrite (std_sort_consumers total Ft Hv) in ET.
  unfold sorted_raw in ET. cbn [firstn] in ET.
  unfold raw, derive_consumers, consumersRaw. cbn [map fst snd nth cons_name cons_kWh].
  rewrite ET. cbn [map cons_name cons_kWh length app].
  split; [reflexivity|]. split; [reflexivity|]. split; [reflexivity|].
  split; [reflexivity|]. split; [reflexivity|]. split; [reflexivity|].
  split.
  { repeat first [ apply SSorted_nil | apply Forall_nil
                 | apply SSorted_cons | apply Forall_cons ];
      cbn [cons_kWh]; apply LE; cbn [In]; try tauto; lia. }
  split; [apply L; cbn [In]; tauto|].
  split; [apply L; cbn [In]; tauto|].
  split; [apply L; cbn [In]; tauto|].
  split; [apply L; cbn [In]; tauto|].
  split.
  { repeat (apply Forall_cons; [cbn [cons_kWh]; apply L; cbn [In]; try tauto; lia|]).
    apply Forall_nil. }
  split.
  { apply Permutation_cons; [reflexivity|]. apply Permutation_cons; [reflexivity|].
    change [ {| cons_name := "Osvětlení open-space"; cons_kWh := fmul total (dec 15 2) |};
             {| cons_name := "Serverovna UPS"; cons_kWh := fmul total (dec 14 2) |};
             {| cons_name := "EV nabíjení"; cons_kWh := fmul total (dec 10 2) |};
             {| cons_name := "Výtahy"; cons_kWh := fmul total (dec 5 2) |};
             {| cons_name := "Ostatní"; cons_kWh := fmul total (dec 17 2) |} ]
      with ([ {| cons_name := "Osvětlení open-space"; cons_kWh := fmul total (dec 15 2) |};
              {| cons_name := "Serverovna UPS"; cons_kWh := fmul total (dec 14 2) |};
              {| cons_name := "EV nabíjení"; cons_kWh := fmul total (dec 10 2) |};
              {| cons_name := "Výtahy"; cons_kWh := fmul total (dec 5 2) |} ]
            ++ [ {| cons_name := "Ostatní"; cons_kWh := fmul total (dec 17 2) |} ]).
    apply Permutation_cons_append. }
  intros sort Hsort.
  assert (Et : sum_doubles (hourlyKWh (simulateEnergyDayFrom sin sort seed t)) = total).
  { unfold total, day. rewrite !hourly_spec. reflexivity. }
  destruct (day_fields sin sort seed t) as (_ & ET' & _). rewrite Et in ET'.
  rewrite ET'.
  destruct (sorted_consumers sort total Hsort Ft Hv) as [-> | ->]; reflexivity.
Qed.

(** On a simulated day the largest listed value exceeds the initial 1.0 of
    the bar chart, so its divisor is the largest listed value. *)
Lemma simulated_bar_max (sin : double -> double)
      (sort : (Consumer -> Consumer -> bool) -> list Consumer -> list Consumer)
      (seed : Z) (t : SYSTEMTIME) :
  sin_ok sin -> std_sort_ok sort ->
  let day := simulateEnergyDayFrom sin sort seed t in
  let total := sum_doubles (hourlyKWh day) in
  bar_maxV (topConsumers day) = max_of (map cons_kWh (topConsumers day)) /\
  fgt (max_of (map cons_kWh (topConsumers day))) (dec 10 1) = true.
Proof.
  intros Hsin Hsort day total.
  destruct (simulated_total sin sort seed t Hsin) as [Ft Hv].
  fold day in Ft, Hv. fold total in Ft, Hv.
  destruct (consumer_values_ordered total Ft Hv) as (HF & K1 & K2 & K3 & K4 & K5 & K0).
  cbv zeta in HF, K1, K2, K3, K4, K5, K0.
  assert (W : forall s, In s [dec 22 2; dec 17 2; dec 15 2; dec 14 2; dec 10 2; dec 5 2] ->
                        wfb (fmul total s) = true).
  { rewrite Forall_forall in HF. intros s Hs. apply finb_wfb. apply HF. exact Hs. }
  assert (G : forall a b,
             In a [dec 22 2; dec 17 2; dec 15 2; dec 14 2; dec 10 2; dec 5 2] ->
             In b [dec 22 2; dec 17 2; dec 15 2; dec 14 2; dec 10 2; dec 5 2] ->
             val (fmul total a) <= val (fmul total b) ->
             fgt (fmul total a) (fmul total b) = false).
  { intros a b Ha Hb Hle. unfold fgt. fold (flt (fmul total b) (fmul total a)).
    destruct (flt (fmul total b) (fmul total a)) eqn:E; [|reflexivity].
    apply flt_val in E; auto. lia. }
  assert (G0 : fgt (fmul total (dec 22 2)) (dec 10 1) = true).
  { unfold fgt. fold (flt (dec 10 1) (fmul total (dec 22 2))).
    apply flt_val; [reflexivity|apply W; cbn [In]; tauto|].
    change (val (dec 10 1)) with (2 ^ scale). exact K0. }
  destruct (day_fields sin sort seed t) as (_ & ET & _). fold day in ET. fold total in ET.
  pose proof (sorted_consumers sort total Hsort Ft Hv) as Hres.
  unfold sorted_raw in Hres. cbn match in Hres.
  rewrite ET.
  destruct Hres as [-> | ->]; cbn [firstn]; unfold bar_maxV;
    cbn [fold_left map max_of cons_kWh];
    rewrite G0;
    rewrite !G by (cbn [In]; try tauto; lia);
    split; reflexivity || exact G0.
Qed.

(** The contract of [std::sort] alone does not fix the order of equal
    values: a sort that meets it and puts the later of two equal values first
    lists "Ostatní" before "VZT jednotky" on the day simulated from the seed
    of the program, where a sort that keeps equal values in their order lists
    them as the raw list does. *)
Lemma sort_contract_leaves_ties_open :
  let day := simulateEnergyDay sin_table tie_reversing_sort noon in
  let raw := derive_consumers (sum_doubles (hourlyKWh day)) in
  sin_ok sin_table /\ std_sort_ok tie_reversing_sort /\
  map cons_name (topConsumers day) =
    [ "Chiller / tepelné čerpadlo"%string; "Ostatní"%string; "VZT jednotky"%string;
      "Osvětlení open-space"%string; "Serverovna UPS"%string; "EV nabíjení"%string ] /\
  map cons_name (firstn 6 (stable_sort by_kWh_desc raw)) =
    [ "Chiller / tepelné čerpadlo"%string; "VZT jednotky"%string; "Ostatní"%string;
      "Osvětlení open-space"%string; "Serverovna UPS"%string; "EV nabíjení"%string ] /\
  topConsumers day <> firstn 6 (stable_sort by_kWh_desc raw) /\
  ~ (forall sin sort seed t,
       sin_ok sin -> std_sort_ok sort ->
       topConsumers (simulateEnergyDayFrom sin sort seed t)
       = firstn 6 (stable_sort by_kWh_desc
                     (derive_consumers
                        (sum_doubles (hourlyKWh (simulateEnergyDayFrom sin sort seed t)))))).
Proof.
  cbv zeta.
  split; [exact sin_table_ok|]. split; [exact tie_reversing_sort_ok|].
  split; [vm_compute; reflexivity|]. split; [vm_compute; reflexivity|].
  split.
  - intros H. apply (f_equal (map cons_name)) in H. vm_compute in H. discriminate.
  - intros H.
    specialize (H sin_table tie_reversing_sort 12648430 noon
                  sin_table_ok tie_reversing_sort_ok).
    apply (f_equal (map cons_name)) in H. vm_compute in H. discriminate.
Qed.

(** *** Determinism (C3) and the day of the program *)

(** The simulated day, field by field. *)
Lemma simulated_fields (sin : double -> double)
      (sort : (Consumer -> Consumer -> bool) -> list Consumer -> list Consumer)
      (seed : Z) (t : SYSTEMTIME) :
  let hourly := fst (spec_day sin 24 0 (SeededRNG.make seed)) in
  simulateEnergyDayFrom sin sort seed t =
  {| buildingName := "Kancelářská budova A (menší)";
     date := t;
     hourlyKWh := hourly;
     topConsumers := firstn 6 (sort by_kWh_desc (derive_consumers (sum_doubles hourly)));
     categoryBreakdown := derive_categories (sum_doubles hourly);
     priceCZKPerKWh := dec 320 2 |}.
Proof.
  unfold simulateEnergyDayFrom.
  pose proof (hours_loop_spec sin 24 0 [] (repeat fzero 24) (SeededRNG.make seed)
                ltac:(lia) eq_refl eq_refl) as H.
  rewrite app_nil_l in H. rewrite H. reflexivity.
Qed.

(** The hours depend on [sin] through its values at the arguments of the
    hours 8 to 18 only. *)
Lemma spec_day_sin_ext (sin1 sin2 : double -> double) :
  (forall h, 8 <= h <= 18 -> sin1 (wave_argument h) = sin2 (wave_argument h)) ->
  forall n h s, spec_day sin1 n h s = spec_day sin2 n h s.
Proof.
  intros H.
  assert (Hw : forall h, spec_wave sin1 h = spec_wave sin2 h).
  { intros h. unfold spec_wave. destruct ((8 <=? h) && (h <=? 18)) eqn:E; [|reflexivity].
    apply andb_true_iff in E. destruct E as [E1 E2].
    apply Z.leb_le in E1, E2. fold (wave_argument h). rewrite H by lia. reflexivity. }
  induction n as [|n IH]; intros h s; [reflexivity|].
  cbn [spec_day]. unfold spec_hour. rewrite Hw, IH. reflexivity.
Qed.

(** Claim C3.  Two runs of the simulation from the same seed give the same
    building name, the same 24 hourly values, the same 5 categories, the
    same top consumers (6 of them) and the same price, whatever the clock
    reads at either run and whatever the library's [sin] returns outside the
    eleven arguments of the hours 8 to 18; the date of a run is what the
    clock read.  So two runs from the same seed are equal in every field
    exactly when they read the same date. *)
Theorem C3_determinism (sin1 sin2 : double -> double)
        (sort : (Consumer -> Consumer -> bool) -> list Consumer -> list Consumer)
        (S : Z) (D1 D2 : SYSTEMTIME) :
  (forall h, 8 <= h <= 18 -> sin1 (wave_argument h) = sin2 (wave_argument h)) ->
  let run1 := simulateEnergyDayFrom sin1 sort S D1 in
  let run2 := simulateEnergyDayFrom sin2 sort S D2 in
  buildingName run1 = buildingName run2 /\
  hourlyKWh run1 = hourlyKWh run2 /\
  length (hourlyKWh run1) = 24%nat /\
  categoryBreakdown run1 = categoryBreakdown run2 /\
  length (categoryBreakdown run1) = 5%nat /\
  topConsumers run1 = topConsumers run2 /\
  (sin_ok sin1 -> std_sort_ok sort -> length (topConsumers run1) = 6%nat) /\
  priceCZKPerKWh run1 = priceCZKPerKWh run2 /\
  date run1 = D1 /\ date run2 = D2 /\
  (run1 = run2 <-> D1 = D2).
Proof.
  intros Hsin. cbv zeta.
  assert (T : sin_ok sin1 -> std_sort_ok sort ->
              length (topConsumers (simulateEnergyDayFrom sin1 sort S D1)) = 6%nat).
  { intros Hok Hsort.
    destruct (simulated_total sin1 sort S D1 Hok) as [Ft Hv].
    destruct (day_fields sin1 sort S D1) as (_ & ET & _).
    rewrite ET.
    destruct (sorted_consumers sort _ Hsort Ft Hv) as [-> | ->]; reflexivity. }
  assert (L : length (hourlyKWh (simulateEnergyDayFrom sin1 sort S D1)) = 24%nat).
  { rewrite hourly_spec. apply spec_day_length. }
  revert T L.
  rewrite (simulated_fields sin1 sort S D1), (simulated_fields sin2 sort S D2).
  cbv zeta. rewrite <- (spec_day_sin_ext sin1 sin2 Hsin).
  generalize (fst (spec_day sin1 24 0 (SeededRNG.make S))). intros hourly.
  generalize (firstn 6 (sort by_kWh_desc (derive_consumers (sum_doubles hourly)))).
  intros top.
  cbn [buildingName hourlyKWh categoryBreakdown topConsumers priceCZKPerKWh date].
  intros T L.
  split; [reflexivity|]. split; [reflexivity|]. split; [exact L|].
  split; [reflexivity|]. split; [reflexivity|]. split; [reflexivity|].
  split; [exact T|]. split; [reflexivity|]. split; [reflexivity|]. split; [reflexivity|].
  split.
  - intros H. injection H as H. exact H.
  - intros ->. reflexivity.
Qed.

Lemma simulateEnergyDay_seed (sin : double -> double) sort (t : SYSTEMTIME) :
  simulateEnergyDay sin sort t = simulateEnergyDayFrom sin sort 12648430 t /\
  12648430 = 0xC0FFEE.
Proof. split; reflexivity. Qed.

(** A day computed with the table of sines: the simulated values. *)
Example simulated_day :
  let day := simulateEnergyDay sin_table stable_sort noon in
  firstn 3 (hourlyKWh day) =
    [ S754_finite false 4823944186597177 (-48);
      S754_finite false 7369793811904592 (-50);
      S754_finite false 8872733050978538 (-49) ] /\
  nth 13 (hourlyKWh day) fzero = S754_finite false 6408643625793290 (-48) /\
  sum_doubles (hourlyKWh day) = S754_finite false 6505416130692539 (-44) /\
  pie_total day = sum_doubles (hourlyKWh day) /\
  map cons_name (topConsumers day) =
    [ "Chiller / tepelné čerpadlo"%string; "VZT jednotky"%string; "Ostatní"%string;
      "Osvětlení open-space"%string; "Serverovna UPS"%string; "EV nabíjení"%string ].
Proof. vm_compute. repeat split; reflexivity. Qed.

(** *** The theorems at the day of the program *)

Lemma sin_tables_agree (h : Z) :
  8 <= h <= 18 -> sin_table (wave_argument h) = sin_table_nan (wave_argument h).
Proof.
  intros H.
  assert (C : h = 8 \/ h = 9 \/ h = 10 \/ h = 11 \/ h = 12 \/ h = 13 \/ h = 14 \/
              h = 15 \/ h = 16 \/ h = 17 \/ h = 18) by lia.
  repeat (destruct C as [-> | C]; [vm_compute; reflexivity|]).
  subst h. vm_compute. reflexivity.
Qed.

(** Two runs from the seed of the program, at noon and in the evening of the
    same day, with two tables of [sin]. *)
Lemma C3_determinism_witness :
  (forall h, 8 <= h <= 18 ->
     sin_table (wave_argument h) = sin_table_nan (wave_argument h)) /\
  (let run1 := simulateEnergyDayFrom sin_table std_sort 12648430 noon in
   let run2 := simulateEnergyDayFrom sin_table_nan std_sort 12648430 evening in
   buildingName run1 = buildingName run2 /\
   hourlyKWh run1 = hourlyKWh run2 /\
   length (hourlyKWh run1) = 24%nat /\
   categoryBreakdown run1 = categoryBreakdown run2 /\
   length (categoryBreakdown run1) = 5%nat /\
   topConsumers run1 = topConsumers run2 /\
   (sin_ok sin_table -> std_sort_ok std_sort -> length (topConsumers run1) = 6%nat) /\
   priceCZKPerKWh run1 = priceCZKPerKWh run2 /\
   date run1 = noon /\ date run2 = evening /\
   (run1 = run2 <-> noon = evening)).
Proof.
  split; [exact sin_tables_agree|].
  exact (C3_determinism sin_table sin_table_nan std_sort 12648430 noon evening
                        sin_tables_agree).
Defined.

(** The six top consumers of the day simulated from the seed of the program. *)
Lemma C4_top_consumers_witness :
  sin_ok sin_table /\
  (let day := simulateEnergyDayFrom sin_table std_sort 12648430 noon in
   let total := sum_doubles (hourlyKWh day) in
   let raw := derive_consumers total in
   let top := topConsumers day in
   let none := {| cons_name := EmptyString; cons_kWh := fzero |} in
   map cons_name raw =
     [ "Chiller / tepelné čerpadlo"%string; "VZT jednotky"%string;
       "Osvětlení open-space"%string; "Serverovna UPS"%string; "EV nabíjení"%string;
       "Výtahy"%string; "Ostatní"%string ] /\
   map cons_kWh raw =
     map (fmul total)
         [dec 22 2; dec 17 2; dec 15 2; dec 14 2; dec 10 2; dec 5 2; dec 17 2] /\
   length top = 6%nat /\
   top = [ nth 0 raw none; nth 1 raw none; nth 6 raw none;
           nth 2 raw none; nth 3 raw none; nth 4 raw none ] /\
   map cons_name top =
     [ "Chiller / tepelné čerpadlo"%string; "VZT jednotky"%string; "Ostatní"%string;
       "Osvětlení open-space"%string; "Serverovna UPS"%string; "EV nabíjení"%string ] /\
   map cons_kWh top =
     map (fmul total) [dec 22 2; dec 17 2; dec 17 2; dec 15 2; dec 14 2; dec 10 2] /\
   StronglySorted (fun a b => fle (cons_kWh b) (cons_kWh a) = true) top /\
   flt (fmul total (dec 17 2)) (fmul total (dec 22 2)) = true /\
   flt (fmul total (dec 15 2)) (fmul total (dec 17 2)) = true /\
   flt (fmul total (dec 14 2)) (fmul total (dec 15 2)) = true /\
   flt (fmul total (dec 10 2)) (fmul total (dec 14 2)) = true /\
   Forall (fun c => flt (cons_kWh (nth 5 raw none)) (cons_kWh c) = true) top /\
   Permutation (top ++ [nth 5 raw none]) raw /\
   (forall sort, std_sort_ok sort ->
      map cons_kWh (topConsumers (simulateEnergyDayFrom sin_table sort 12648430 noon))
      = map cons_kWh top)).
Proof.
  split; [exact sin_table_ok|].
  exact (C4_top_consumers sin_table 12648430 noon sin_table_ok).
Defined.

(** The categories of the day simulated from the seed of the program. *)
Lemma C6_categories_witness :
  sin_ok sin_table /\
  (let day := simulateEnergyDay sin_table stable_sort noon in
  let total := sum_doubles (hourlyKWh day) in
  map cat_name (categoryBreakdown day) =
    [ "HVAC (chlazení + VZT)"%string; "Osvětlení"%string; "IT + serverovna"%string;
      "Zásuvky / kuchyňky"%string; "Ostatní"%string ] /\
  map cat_kWh (categoryBreakdown day) =
    map (fmul total) [dec 42 2; dec 22 2; dec 18 2; dec 10 2; dec 8 2] /\
  (Qabs (B2Q (pie_total day) - B2Q total) < 1 # 1000000)%Q /\
  map cat_kWh (derive_categories (dec 1000 1)) =
    [dec 420 1; dec 220 1; dec 180 1; dec 100 1; dec 80 1]).
Proof.
  split; [exact sin_table_ok|].
  exact (C6_categories sin_table stable_sort 12648430 noon sin_table_ok).
Defined.

(** The layout of the program: margin 10 on a canvas of 820 by 1700. *)
Lemma C7_layout_witness :
  0 <= 10 /\
  (let r := computeRegions 10 (client_rect 820 1700) in
  Rect.top (headerArea r) = 10 + 40 /\
  Rect.top (lineArea r) = Rect.bottom (headerArea r) + 10 /\
  Rect.top (barArea r) = Rect.bottom (lineArea r) + 10 /\
  Rect.top (pieArea r) = Rect.bottom (barArea r) + 10 /\
  Rect.top (tableArea r) = Rect.bottom (pieArea r) + 10 /\
  Rect.top (checkArea r) = Rect.bottom (tableArea r) + 10 /\
  map Rect.height (regions_list r) = [190; 260; 250; 300; 320; 240] /\
  Forall (fun a => Rect.left a = 10 /\ Rect.right a = 820 - 10 /\
                   Rect.width a = 820 - 2 * 10) (regions_list r) /\
  (forall i j, (i < j < 6)%nat ->
     above (nth i (regions_list r) empty_rect) (nth j (regions_list r) empty_rect) /\
     ~ overlap (nth i (regions_list r) empty_rect) (nth j (regions_list r) empty_rect) /\
     ~ overlap (nth j (regions_list r) empty_rect) (nth i (regions_list r) empty_rect))).
Proof.
  split; [lia|].
  apply (C7_layout 820 1700 10). lia.
Defined.

(** The checklist of the day simulated from the seed of the program: its
    samples are 24 non-negative numbers, and all five alerts pass. *)
Lemma C8_checklist_witness :
  let sample_day := simulateEnergyDay sin_table std_sort noon in
  let area := checkArea (paint_regions (client_rect 820 1700)) in
  hourlyKWh sample_day <> [] /\
  Forall (fun v => fle fzero v = true) (hourlyKWh sample_day) /\
  map ok (checklist_alerts sample_day) = [true; true; true; true; true] /\
  (let hourly := hourlyKWh sample_day in
   let avg := daily_average hourly in
   let alerts := checklist_alerts sample_day in
   let check_glyph := fun y : Z =>
     [ SelectPen 2 0 0 0;
       MoveToEx (Rect.left area + 12) (y + 9);
       LineTo (Rect.left area + 15) (y + 13);
       LineTo (Rect.left area + 21) (y + 3);
       RestorePen ] in
   let cross_glyph := fun y : Z =>
     [ SelectPen 2 0 0 0;
       MoveToEx (Rect.left area + 12) (y + 3);
       LineTo (Rect.left area + 21) (y + 13);
       MoveToEx (Rect.left area + 21) (y + 3);
       LineTo (Rect.left area + 12) (y + 13);
       RestorePen ] in
   let row := fun (y : Z) (failed : bool) (label : string) =>
     Rectangle (Rect.left area + 10) (y + 2) (Rect.left area + 22) (y + 14)
     :: (if failed then cross_glyph y else check_glyph y)
     ++ [ DrawTextW (Rect.left area + 30) (y + 2) label 13 failed ] in
   let y0 := Rect.top area + 60 in
   map text alerts =
     [ "Noční zátěž v normě"%string;
       "Žádná extrémní špička (> 2.0× průměr)"%string;
       "Křivka bez výpadků (24/24)"%string;
       "Doporučení: zkontrolovat HVAC plán"%string;
       "Doporučení: audit osvětlení (zóny)"%string ] /\
   (exists a1 a2 a3 a4 a5,
      alerts = [a1; a2; a3; a4; a5] /\
      (ok a1 = false <-> fgt (night_average hourly) (fmul (dec 75 2) avg) = true) /\
      (ok a2 = false <-> fgt (peak_of hourly) (fmul (dec 20 1) avg) = true) /\
      (hourly <> [] -> Forall (fun v => fle fzero v = true) hourly ->
       (ok a2 = false <-> fgt (max_of hourly) (fmul (dec 20 1) avg) = true)) /\
      (ok a3 = true <-> length hourly = 24%nat) /\
      ok a4 = true /\ ok a5 = true /\
      DrawChecklist sample_day area =
        [ FillRect area WHITE_BRUSH;
          DrawTextW (Rect.left area + 10) (Rect.top area + 10) "Checklist / Alerts" 18 true;
          SelectPen 1 0 0 0;
          MoveToEx (Rect.left area + 10) (Rect.top area + 36);
          LineTo (Rect.right area - 10) (Rect.top area + 36);
          RestorePen ]
        ++ row y0 (negb (ok a1)) (text a1)
        ++ row (y0 + 26) (negb (ok a2)) (text a2)
        ++ row (y0 + 26 + 26) (negb (ok a3)) (text a3)
        ++ row (y0 + 26 + 26 + 26) (negb (ok a4)) (text a4)
        ++ row (y0 + 26 + 26 + 26 + 26) (negb (ok a5)) (text a5))).
Proof.
  intros sample_day area.
  split; [vm_compute; discriminate|].
  split; [vm_compute; repeat constructor|].
  split; [vm_compute; reflexivity|].
  exact (C8_checklist sample_day area).
Defined.

(** The bounds on the day simulated from the seed of the program. *)
Lemma C10_hourly_upper_bound_witness :
  sin_ok sin_table /\
  (let day := simulateEnergyDay sin_table stable_sort noon in
  let total := sum_doubles (hourlyKWh day) in
  Forall (fun v => flt v (dec 390 1) = true) (hourlyKWh day) /\
  fle (dec 720 1) total = true /\ flt total (dec 9360 1) = true /\
  flt fzero total = true /\
  flt fzero (pie_total day) = true /\
  finb total = true /\ finb (pie_total day) = true).
Proof.
  split; [exact sin_table_ok|].
  exact (C10_hourly_upper_bound sin_table stable_sort 12648430 noon sin_table_ok).
Defined.

(** The divisor of the bar chart on the day of the program. *)
Lemma simulated_bar_max_witness :
  sin_ok sin_table /\ std_sort_ok stable_sort /\
  (let day := simulateEnergyDay sin_table stable_sort noon in
   bar_maxV (topConsumers day) = max_of (map cons_kWh (topConsumers day)) /\
   fgt (max_of (map cons_kWh (topConsumers day))) (dec 10 1) = true).
Proof.
  split; [exact sin_table_ok|]. split; [exact stable_sort_ok|].
  exact (simulated_bar_max sin_table stable_sort 12648430 noon
                           sin_table_ok stable_sort_ok).
Defined.

(** The coordinates of the regions on a canvas of 820 by 1700. *)
Lemma paint_regions_range_witness :
  0 <= 820 <= int_max /\ 0 <= 1700 <= int_max /\
  Forall (fun a => in_int_range (Rect.left a) /\ in_int_range (Rect.top a) /\
                   in_int_range (Rect.right a) /\ in_int_range (Rect.bottom a))
         (regions_list (paint_regions (client_rect 820 1700))).
Proof.
  assert (Hw : 0 <= 820 <= int_max) by (unfold int_max; lia).
  assert (Hh : 0 <= 1700 <= int_max) by (unfold int_max; lia).
  split; [exact Hw|]. split; [exact Hh|].
  exact (paint_regions_range 820 1700 Hw Hh).
Defined.

(** *** The generator: inverse step and period *)

Lemma snd_next (s : Z) : snd (SeededRNG.next s) = lcg_step s.
Proof. rewrite next_lcg. reflexivity. Qed.

Lemma fst_next (s : Z) : fst (SeededRNG.next s) = lcg_step s.
Proof. rewrite next_lcg. reflexivity. Qed.

Lemma lcg_prev_step (s : Z) : 0 <= s < 2 ^ 64 -> lcg_prev (lcg_step s) = s.
Proof.
  intros H. unfold lcg_prev, lcg_step.
  rewrite <- Zmult_mod_idemp_l, Zminus_mod_idemp_l, Zmult_mod_idemp_l.
  replace ((s * 6364136223846793005 + 1 - 1) * 13877824140714322085)
    with (s + s * 4787856489426250814 * 2 ^ 64) by lia.
  rewrite Z.mod_add by lia. apply Z.mod_small. exact H.
Qed.

Lemma lcg_step_prev (s : Z) : 0 <= s < 2 ^ 64 -> lcg_step (lcg_prev s) = s.
Proof.
  intros H. unfold lcg_prev, lcg_step.
  rewrite <- Zplus_mod_idemp_l, Zmult_mod_idemp_l, Zplus_mod_idemp_l.
  replace ((s - 1) * 13877824140714322085 * 6364136223846793005 + 1)
    with (s + (s - 1) * 4787856489426250814 * 2 ^ 64) by lia.
  rewrite Z.mod_add by lia. apply Z.mod_small. exact H.
Qed.

Lemma geo_succ (n : N) : geo (N.succ n) = SeededRNG.a * geo n + 1.
Proof. unfold geo. rewrite N.iter_succ. reflexivity. Qed.

Lemma state_after_succ (n : N) (s : Z) :
  state_after (N.succ n) s = lcg_step (state_after n s).
Proof. unfold state_after. rewrite N.iter_succ. apply snd_next. Qed.

Lemma pow_geo (n : N) : SeededRNG.a ^ Z.of_N n - 1 = (SeededRNG.a - 1) * geo n.
Proof.
  induction n as [|n IH] using N.peano_ind; [reflexivity|].
  rewrite geo_succ, N2Z.inj_succ, Z.pow_succ_r by lia. lia.
Qed.

Lemma geo_add (n m : N) :
  geo (n + m) = geo n + SeededRNG.a ^ Z.of_N n * geo m.
Proof.
  induction m as [|m IH] using N.peano_ind.
  - rewrite N.add_0_r. change (geo 0) with 0. lia.
  - rewrite N.add_succ_r, !geo_succ, IH.
    pose proof (pow_geo n) as Hn. lia.
Qed.

Lemma pow_a_mod4 (n : N) : exists u, SeededRNG.a ^ Z.of_N n = 4 * u + 1.
Proof.
  induction n as [|n [u IH]] using N.peano_ind; [exists 0; reflexivity|].
  rewrite N2Z.inj_succ, Z.pow_succ_r, IH by lia.
  exists (SeededRNG.a * u + 1591034055961698251). unfold SeededRNG.a. lia.
Qed.

Lemma geo_double (m : N) : exists u, geo (2 * m) = 2 * (2 * u + 1) * geo m.
Proof.
  replace (2 * m)%N with (m + m)%N by lia. rewrite geo_add.
  destruct (pow_a_mod4 m) as [u ->]. exists u. lia.
Qed.

Lemma geo_odd (m : N) : exists u, geo (2 * m + 1) = 2 * u + 1.
Proof.
  replace (2 * m + 1)%N with (N.succ (2 * m)) by lia. rewrite geo_succ.
  destruct (geo_double m) as [u ->].
  exists (3182068111923396502 * (2 * (2 * u + 1) * geo m) + (2 * u + 1) * geo m).
  unfold SeededRNG.a. lia.
Qed.

Lemma pow2_divide_odd (k u x : Z) :
  0 <= k -> (2 ^ k | (2 * u + 1) * x) -> (2 ^ k | x).
Proof.
  intros Hk. revert x. pattern k. apply natlike_ind; [| |exact Hk].
  - intros x _. exists x. lia.
  - clear k Hk. intros k Hk IH x [q Hq]. rewrite Z.pow_succ_r in * by lia.
    assert (Hx : exists x', x = 2 * x').
    { exists (x / 2). pose proof (Z.div_mod x 2 ltac:(lia)) as D.
      pose proof (Z.mod_pos_bound x 2 ltac:(lia)) as B.
      assert (x mod 2 = 0); [|lia].
      destruct (Z.eq_dec (x mod 2) 0) as [E|E]; [exact E|].
      assert (E1 : x mod 2 = 1) by lia. exfalso.
      assert (Hodd : (2 * u + 1) * x = 2 * (u * x + x / 2 + q * 0) + 1) by nia.
      assert (Hev : (2 * u + 1) * x = 2 * (q * 2 ^ k)) by lia. lia. }
    destruct Hx as [x' ->].
    destruct (IH x') as [q' Hq'].
    { exists q. nia. }
    exists q'. lia.
Qed.

Lemma pow2_divide_geo (k : Z) :
  0 <= k -> forall n : N, (2 ^ k | geo n) <-> (2 ^ k | Z.of_N n).
Proof.
  intros Hk. pattern k. apply natlike_ind; [| |exact Hk].
  - intros n. split; intros _; [exists (Z.of_N n)|exists (geo n)]; lia.
  - clear k Hk. intros k Hk IH n.
    rewrite Z.pow_succ_r by lia.
    assert (Hp : 0 < 2 ^ k) by (apply Z.pow_pos_nonneg; lia).
    destruct (N.even n) eqn:Ev.
    + assert (Hn : exists m, n = (2 * m)%N).
      { apply N.even_spec in Ev. destruct Ev as [m ->]. exists m. reflexivity. }
      destruct Hn as [m ->]. destruct (geo_double m) as [u ->].
      rewrite N2Z.inj_mul. change (Z.of_N 2) with 2.
      split; intros [q Hq].
      * destruct (proj1 (IH m)) as [q' Hq'].
        { apply (pow2_divide_odd k u); [lia|]. exists q. nia. }
        exists q'. lia.
      * destruct (proj2 (IH m)) as [q' Hq'].
        { exists q. nia. }
        exists ((2 * u + 1) * q'). nia.
    + assert (Hn : exists m, n = (2 * m + 1)%N).
      { assert (Od : N.odd n = true) by (rewrite <- N.negb_even, Ev; reflexivity).
        apply N.odd_spec in Od. destruct Od as [m ->]. exists m. reflexivity. }
      destruct Hn as [m ->]. destruct (geo_odd m) as [u Hu].
      split; intros [q Hq]; exfalso.
      * rewrite Hu in Hq. lia.
      * rewrite N2Z.inj_add, N2Z.inj_mul in Hq.
        change (Z.of_N 2) with 2 in Hq. change (Z.of_N 1) with 1 in Hq. lia.
Qed.

Lemma state_after_closed (n : N) (s : Z) :
  0 <= s < 2 ^ 64 ->
  state_after n s = (SeededRNG.a ^ Z.of_N n * s + geo n) mod 2 ^ 64.
Proof.
  intros Hs. induction n as [|n IH] using N.peano_ind.
  - change (geo 0) with 0. change (state_after 0 s) with s.
    rewrite Z.pow_0_r, Z.mul_1_l, Z.add_0_r. symmetry. apply Z.mod_small. exact Hs.
  - rewrite state_after_succ, IH, lcg_step_mod, geo_succ, N2Z.inj_succ.
    rewrite Z.pow_succ_r by lia. unfold lcg_step, SeededRNG.a. f_equal. lia.
Qed.

(** The step of the generator is a bijection of the 64-bit states: the
    state before a call of [next] is recovered from the state after it, so
    two different states never give the same result of [next]. *)
Theorem next_invertible :
  (forall s, 0 <= s < 2 ^ 64 ->
     lcg_prev (snd (SeededRNG.next s)) = s /\
     snd (SeededRNG.next (lcg_prev s)) = s /\ 0 <= lcg_prev s < 2 ^ 64) /\
  (forall s1 s2, 0 <= s1 < 2 ^ 64 -> 0 <= s2 < 2 ^ 64 ->
     fst (SeededRNG.next s1) = fst (SeededRNG.next s2) -> s1 = s2).
Proof.
  split.
  - intros s Hs. rewrite !snd_next.
    split; [apply lcg_prev_step; exact Hs|].
    split; [apply lcg_step_prev; exact Hs|].
    unfold lcg_prev. apply Z.mod_pos_bound. lia.
  - intros s1 s2 H1 H2 E.
    rewrite <- (lcg_prev_step s1 H1), <- (lcg_prev_step s2 H2).
    rewrite <- !fst_next, E. reflexivity.
Qed.

(** The generator has the full period 2^64: from every state, the state
    comes back after [n] calls of [next] exactly when [n] is a multiple of
    2^64. *)
Theorem generator_full_period (s : Z) (n : N) :
  0 <= s < 2 ^ 64 ->
  (state_after n s = s <-> (2 ^ 64 | Z.of_N n)).
Proof.
  intros Hs. rewrite (state_after_closed n s Hs).
  rewrite <- (pow2_divide_geo 64 ltac:(lia) n).
  pose proof (pow_geo n) as Hp.
  assert (E : SeededRNG.a ^ Z.of_N n * s + geo n - s
              = (2 * (3182068111923396502 * s) + 1) * geo n).
  { unfold SeededRNG.a in *. nia. }
  split.
  - intros H. apply (pow2_divide_odd 64 (3182068111923396502 * s)); [lia|].
    rewrite <- E.
    exists ((SeededRNG.a ^ Z.of_N n * s + geo n) / 2 ^ 64).
    pose proof (Z.div_mod (SeededRNG.a ^ Z.of_N n * s + geo n) (2 ^ 64) ltac:(lia)).
    lia.
  - intros [q Hq].
    replace (SeededRNG.a ^ Z.of_N n * s + geo n)
      with (s + ((2 * (3182068111923396502 * s) + 1) * q) * 2 ^ 64) by (rewrite Hq in E; lia).
    rewrite Z.mod_add by lia. apply Z.mod_small. exact Hs.
Qed.

(** *** The date of the header *)

Lemma to_wstring_digits (n : Z) :
  0 <= n ->
  exists d, d <> Decimal.Nil /\ to_wstring n = NilEmpty.string_of_uint d /\
            Z.of_uint d = n.
Proof.
  intros Hn. unfold to_wstring. destruct n as [|p|p]; [| |lia].
  - exists (Decimal.D0 Decimal.Nil). repeat split. discriminate.
  - assert (E : Z.of_uint (Pos.to_uint p) = Z.pos p)
      by exact (DecimalZ.of_to (Z.pos p)).
    exists (Pos.to_uint p). split; [|split; [|exact E]].
    + intros H. rewrite H in E. discriminate.
    + cbn [Z.to_int NilZero.string_of_int]. unfold NilZero.string_of_uint.
      destruct (Pos.to_uint p) eqn:Ep; try reflexivity. discriminate.
Qed.

Lemma split_dot_digits (d : Decimal.uint) (r : string) :
  split_dot (String.append (NilEmpty.string_of_uint d) (String "." r))
  = (NilEmpty.string_of_uint d, Some r).
Proof.
  induction d; cbn [NilEmpty.string_of_uint String.append split_dot];
    try reflexivity; rewrite IHd; reflexivity.
Qed.

Lemma append_assoc (a b c : string) :
  String.append (String.append a b) c = String.append a (String.append b c).
Proof. induction a as [|x a IH]; cbn; [reflexivity|]. rewrite IH. reflexivity. Qed.

Lemma split_dot_padded (k : nat) (d : Decimal.uint) (r : string) :
  split_dot (String.append (digits_of k d) (String "." r)) = (digits_of k d, Some r).
Proof.
  unfold digits_of. rewrite append_assoc.
  induction k as [|k IH]; cbn [fill_chars String.append].
  - apply split_dot_digits.
  - cbn [split_dot]. change (Ascii.eqb "0" ".") with false. cbv iota.
    rewrite IH. reflexivity.
Qed.

Lemma read_digits (d : Decimal.uint) :
  d <> Decimal.Nil ->
  forall k, read_number (digits_of k d) = Some (Z.of_uint d).
Proof.
  intros Hd k.
  assert (E : NilEmpty.uint_of_string (digits_of k d)
              = Some (Nat.iter k Decimal.D0 d)).
  { unfold digits_of. induction k as [|k IH]; cbn [fill_chars String.append Nat.iter].
    - apply NilEmpty.usu.
    - cbn [NilEmpty.uint_of_string]. rewrite IH. reflexivity. }
  assert (V : Z.of_uint (Nat.iter k Decimal.D0 d) = Z.of_uint d).
  { clear E. induction k as [|k IH]; [reflexivity|]. cbn [Nat.iter]. exact IH. }
  unfold read_number. rewrite E. cbn [option_map]. rewrite V.
  unfold digits_of.
  destruct k; cbn [fill_chars String.append]; [|reflexivity].
  destruct d; try reflexivity. congruence.
Qed.

Lemma setw_digits (w : nat) (d : Decimal.uint) :
  setw_fill w "0" (NilEmpty.string_of_uint d)
  = digits_of (w - String.length (NilEmpty.string_of_uint d)) d.
Proof. reflexivity. Qed.

Lemma zseq_forallb (P : Z -> bool) (n : nat) :
  forall lo, forallb P (zseq lo n) = true ->
  forall z, lo <= z < lo + Z.of_nat n -> P z = true.
Proof.
  induction n as [|n IH]; intros lo H z Hz; [lia|].
  cbn [zseq forallb] in H. apply andb_true_iff in H. destruct H as [H0 H1].
  destruct (Z.eq_dec z lo) as [->|Hne]; [exact H0|].
  apply (IH (lo + 1) H1). lia.
Qed.

Lemma zrange_forallb (P : Z -> bool) (lo n : Z) :
  forallb P (zseq lo (Z.to_nat n)) = true ->
  forall z, lo <= z < lo + n -> P z = true.
Proof.
  intros H z Hz. apply (zseq_forallb P (Z.to_nat n) lo H). lia.
Qed.

Lemma two_digits (n : Z) :
  0 <= n <= 99 -> String.length (setw_fill 2 "0" (to_wstring n)) = 2%nat.
Proof.
  intros H.
  apply Nat.eqb_eq.
  apply (zrange_forallb
           (fun z => Nat.eqb (String.length (setw_fill 2 "0" (to_wstring z))) 2)
           0 100); [vm_compute; reflexivity|lia].
Qed.

Lemma four_digits (n : Z) :
  1000 <= n <= 9999 -> String.length (to_wstring n) = 4%nat.
Proof.
  intros H.
  apply Nat.eqb_eq.
  apply (zrange_forallb (fun z => Nat.eqb (String.length (to_wstring z)) 4)
                        1000 9000); [vm_compute; reflexivity|lia].
Qed.

Lemma date_shape (a b c : string) :
  String.length a = 2%nat -> String.length b = 2%nat -> String.length c = 4%nat ->
  let s := String.append a (String.append "." (String.append b (String.append "." c))) in
  String.length s = 10%nat /\ String.get 2 s = Some "."%char /\
  String.get 5 s = Some "."%char.
Proof.
  intros Ha Hb Hc.
  destruct a as [|a1 [|a2 [|? ?]]]; try discriminate.
  destruct b as [|b1 [|b2 [|? ?]]]; try discriminate.
  destruct c as [|c1 [|c2 [|c3 [|c4 [|? ?]]]]]; try discriminate.
  cbn. auto.
Qed.

(** [formatDate] writes a date that can be read back: the text splits at
    its two dots into the day, the month and the year.  For a day and a
    month below 100 and a year of four digits the text has the form
    dd.mm.yyyy: ten characters, with the dots third and sixth. *)
Theorem formatDate_roundtrip (st : SYSTEMTIME) :
  0 <= wDay st -> 0 <= wMonth st -> 0 <= wYear st ->
  parse_date (formatDate st) = Some (wDay st, wMonth st, wYear st) /\
  (wDay st <= 99 -> wMonth st <= 99 -> 1000 <= wYear st <= 9999 ->
   String.length (formatDate st) = 10%nat /\
   String.get 2 (formatDate st) = Some "."%char /\
   String.get 5 (formatDate st) = Some "."%char).
Proof.
  intros Hd Hm Hy. split.
  - destruct (to_wstring_digits _ Hd) as (dd & Nd & Ed & Vd).
    destruct (to_wstring_digits _ Hm) as (dm & Nm & Em & Vm).
    destruct (to_wstring_digits _ Hy) as (dy & Ny & Ey & Vy).
    unfold formatDate, parse_date. rewrite Ed, Em, Ey, !setw_digits.
    cbn [String.append].
    rewrite split_dot_padded. rewrite split_dot_padded.
    rewrite !read_digits by assumption.
    pose proof (read_digits dy Ny 0) as Ry. unfold digits_of in Ry.
    cbn [fill_chars String.append] in Ry. rewrite Ry.
    rewrite Vd, Vm, Vy. reflexivity.
  - intros Hd' Hm' Hy'. unfold formatDate.
    apply date_shape; [apply two_digits; lia|apply two_digits; lia|apply four_digits; lia].
Qed.

(** *** The statistics of the header *)

Lemma fgt_false_fle (a b : spec_float) :
  wfb a = true -> wfb b = true -> fgt a b = false -> fle a b = true.
Proof.
  intros Ha Hb H. apply fle_val; auto.
  destruct (Z_le_gt_dec (val a) (val b)) as [L|G]; [exact L|].
  assert (F : flt b a = true) by (apply flt_val; auto; lia).
  unfold fgt in H. unfold flt in F. congruence.
Qed.

Lemma fgt_val (a b : spec_float) :
  wfb a = true -> wfb b = true -> (fgt a b = true <-> val b < val a).
Proof. intros Ha Hb. unfold fgt. apply (flt_val b a Hb Ha). Qed.

Lemma first_peak_step (l : list double) (peak v : double) (peakHour : Z) :
  Forall (fun x => wfb x = true) l -> wfb v = true ->
  first_peak l peak peakHour ->
  first_peak (l ++ [v]) (if fgt v peak then v else peak)
             (if fgt v peak then Z.of_nat (length l) else peakHour).
Proof.
  intros Wl Wv H.
  assert (W0 : wfb fzero = true) by reflexivity.
  assert (Wp : wfb peak = true).
  { destruct H as [(_ & -> & _)|(k & _ & Hk & <- & _)]; [reflexivity|].
    rewrite Forall_forall in Wl. apply Wl. apply nth_In. exact Hk. }
  destruct (fgt v peak) eqn:G.
  - right. exists (length l). split; [reflexivity|].
    apply (fgt_val v peak Wv Wp) in G.
    split; [rewrite length_app; cbn; lia|].
    split; [rewrite app_nth2, Nat.sub_diag by lia; reflexivity|].
    assert (Hall : forall x, In x l -> val x < val v).
    { intros x Hx. assert (Wx : wfb x = true) by (rewrite Forall_forall in Wl; auto).
      destruct H as [(HF & -> & _)|(k & _ & _ & _ & _ & HF & _)];
        rewrite Forall_forall in HF; specialize (HF x Hx); cbv beta in HF.
      - apply (fgt_false_fle x fzero Wx W0) in HF.
        apply (fle_val x fzero Wx W0) in HF. lia.
      - apply (fle_val x peak Wx Wp) in HF. lia. }
    assert (P0 : val fzero < val v).
    { destruct H as [(_ & -> & _)|(k & _ & _ & _ & Gp & _)]; [exact G|].
      apply (fgt_val peak fzero Wp W0) in Gp. lia. }
    split; [apply (fgt_val v fzero Wv W0); exact P0|].
    split.
    + apply Forall_app. split.
      * rewrite Forall_forall. intros x Hx.
        assert (Wx : wfb x = true) by (rewrite Forall_forall in Wl; auto).
        apply (fle_val x v Wx Wv). specialize (Hall x Hx). lia.
      * constructor; [|constructor]. apply (fle_val v v Wv Wv). lia.
    + intros j Hj. rewrite app_nth1 by exact Hj.
      assert (Hin : In (nth j l fzero) l) by (apply nth_In; exact Hj).
      assert (Wx : wfb (nth j l fzero) = true) by (rewrite Forall_forall in Wl; auto).
      apply (flt_val _ v Wx Wv). apply Hall. exact Hin.
  - destruct H as [(HF & -> & ->)|(k & -> & Hk & Hn & Gp & HF & Hlt)].
    + left. split; [|split; reflexivity].
      apply Forall_app. split; [exact HF|]. constructor; [exact G|constructor].
    + right. exists k. split; [reflexivity|].
      split; [rewrite length_app; cbn; lia|].
      split; [rewrite app_nth1 by exact Hk; exact Hn|].
      split; [exact Gp|].
      split.
      * apply Forall_app. split; [exact HF|].
        constructor; [|constructor]. apply fgt_false_fle; assumption.
      * intros j Hj. rewrite app_nth1 by lia. apply Hlt. exact Hj.
Qed.

Lemma sum_doubles_snoc (l : list double) (v : double) :
  sum_doubles (l ++ [v]) = fadd (sum_doubles l) v.
Proof. unfold sum_doubles. rewrite fold_left_app. reflexivity. Qed.

Lemma peak_of_snoc (l : list double) (v : double) :
  peak_of (l ++ [v]) = if fgt v (peak_of l) then v else peak_of l.
Proof. unfold peak_of. rewrite fold_left_app. reflexivity. Qed.

(** The loop of the header after the samples [done], on the samples
    [rest] that follow them. *)
Lemma header_loop_spec (rest : list double) :
  forall (done : list double) (st : HeaderStats),
    hs_total st = sum_doubles done -> hs_peak st = peak_of done ->
    let r := header_loop (Z.of_nat (length done)) rest st in
    hs_total r = sum_doubles (done ++ rest) /\
    hs_peak r = peak_of (done ++ rest) /\
    (Forall (fun x => wfb x = true) (done ++ rest) ->
     first_peak done (hs_peak st) (hs_peakHour st) ->
     first_peak (done ++ rest) (hs_peak r) (hs_peakHour r)).
Proof.
  induction rest as [|v rest IH]; intros done st Ht Hp.
  - cbn [header_loop]. rewrite app_nil_r. auto.
  - cbn [header_loop].
    replace (Z.of_nat (length done) + 1) with (Z.of_nat (length (done ++ [v])))
      by (rewrite length_app; cbn; lia).
    replace (done ++ v :: rest) with ((done ++ [v]) ++ rest)
      by (rewrite <- app_assoc; reflexivity).
    set (st' := if fgt v (hs_peak st) then _ else _).
    assert (Ht' : hs_total st' = sum_doubles (done ++ [v])).
    { rewrite sum_doubles_snoc, <- Ht. unfold st'. destruct (fgt v (hs_peak st)); reflexivity. }
    assert (Hp' : hs_peak st' = peak_of (done ++ [v])).
    { rewrite peak_of_snoc, <- Hp. unfold st'. destruct (fgt v (hs_peak st)); reflexivity. }
    destruct (IH (done ++ [v]) st' Ht' Hp') as (R1 & R2 & R3).
    split; [exact R1|]. split; [exact R2|].
    intros W F. apply R3; [exact W|].
    assert (Wd : Forall (fun x => wfb x = true) done /\ wfb v = true).
    { rewrite <- app_assoc in W. apply Forall_app in W. destruct W as [W1 W2].
      inversion W2; subst. auto. }
    destruct Wd as [Wd Wv].
    pose proof (first_peak_step done (hs_peak st) v (hs_peakHour st) Wd Wv F) as S.
    unfold st'. destruct (fgt v (hs_peak st)); exact S.
Qed.

Lemma peak_loop_header (l : list double) :
  forall i st,
    peak_loop i l (hs_peak st, hs_peakHour st)
    = (hs_peak (header_loop i l st), hs_peakHour (header_loop i l st)).
Proof.
  induction l as [|v l IH]; intros i st; [reflexivity|].
  cbn [peak_loop header_loop fst].
  destruct (fgt v (hs_peak st)); apply (IH (i + 1) (Build_HeaderStats _ _ _)).
Qed.

(** The statistics of the header.  The total is the sum of the samples in
    their order, and the peak is the value the checklist tests.  When the
    samples are numbers, either none exceeds 0.0 (then the peak is 0.0 at
    hour 0), or the peak hour is the first hour that holds the largest
    sample: no sample is larger, and every earlier one is strictly smaller.
    The marker of the line chart is computed at the same hour and value. *)
Theorem header_stats_first_peak (hourly : list double) :
  let st := header_stats hourly in
  hs_total st = sum_doubles hourly /\
  hs_peak st = peak_of hourly /\
  peak_loop 0 hourly (fzero, 0) = (hs_peak st, hs_peakHour st) /\
  (Forall (fun v => wfb v = true) hourly ->
   first_peak hourly (hs_peak st) (hs_peakHour st)).
Proof.
  intros st.
  destruct (header_loop_spec hourly []
              {| hs_total := fzero; hs_peak := fzero; hs_peakHour := 0 |}
              eq_refl eq_refl) as (R1 & R2 & R3).
  cbn [length Z.of_nat app] in R1, R2, R3. fold (header_stats hourly) in R1, R2, R3.
  fold st in R1, R2, R3.
  split; [exact R1|]. split; [exact R2|].
  split.
  - apply (peak_loop_header hourly 0
             {| hs_total := fzero; hs_peak := fzero; hs_peakHour := 0 |}).
  - intros W. apply R3; [exact W|].
    left. split; [constructor|split; reflexivity].
Qed.

(** *** The rows of the table *)

Lemma table_index_length (l : list double) :
  forall i, length (table_index i l) = length l.
Proof. induction l as [|x l IH]; intros i; cbn; auto. Qed.

Lemma table_index_in (l : list double) :
  forall i r, In r (table_index i l) <->
    exists k : nat, (k < length l)%nat /\
      r = {| row_hour := i + Z.of_nat k; row_v := nth k l fzero |}.
Proof.
  induction l as [|x l IH]; intros i r; cbn [table_index In length].
  - split; [tauto|]. intros (k & Hk & _). lia.
  - rewrite IH. split.
    + intros [<-|(k & Hk & ->)].
      * exists 0%nat. split; [lia|]. cbn. f_equal. lia.
      * exists (S k). split; [lia|]. cbn [nth]. f_equal. lia.
    + intros (k & Hk & ->). destruct k as [|k].
      * left. cbn. f_equal. lia.
      * right. exists k. split; [lia|]. cbn [nth]. f_equal. lia.
Qed.

Lemma table_index_hours (l : list double) :
  forall i, map row_hour (table_index i l) = zseq i (length l).
Proof. induction l as [|x l IH]; intros i; cbn; [reflexivity|]. rewrite IH. reflexivity. Qed.

Lemma zseq_in (n : nat) : forall i z, In z (zseq i n) -> i <= z < i + Z.of_nat n.
Proof.
  induction n as [|n IH]; intros i z H; cbn in H; [tauto|].
  destruct H as [<-|H]; [lia|]. apply IH in H. lia.
Qed.

Lemma zseq_NoDup (n : nat) : forall i, NoDup (zseq i n).
Proof.
  induction n as [|n IH]; intros i; cbn; constructor; [|apply IH].
  intros H. apply zseq_in in H. lia.
Qed.

Lemma sorted_app {A : Type} (R : A -> A -> Prop) (l1 l2 : list A) :
  StronglySorted R (l1 ++ l2) ->
  StronglySorted R l1 /\ (forall x y, In x l1 -> In y l2 -> R x y).
Proof.
  induction l1 as [|a l1 IH]; cbn [app]; intros H.
  - split; [constructor|]. intros x y [].
  - inversion H as [|? ? S F]; subst. destruct (IH S) as [S1 C].
    rewrite Forall_app in F. destruct F as [F1 F2]. split.
    + constructor; assumption.
    + intros x y [<-|Hx] Hy; [|apply C; assumption].
      rewrite Forall_forall in F2. apply F2. exact Hy.
Qed.

Lemma table_rows_firstn
      (sort_rows : (Row -> Row -> bool) -> list Row -> list Row)
      (hourly : list double) :
  table_rows sort_rows hourly
  = firstn 10 (sort_rows by_v_desc (table_index 0 hourly)).
Proof.
  unfold table_rows.
  destruct (10 <? Z.of_nat (length (sort_rows by_v_desc (table_index 0 hourly)))) eqn:E;
    [reflexivity|].
  apply Z.ltb_ge in E. symmetry. apply firstn_all2. lia.
Qed.

(** The table shows the ten hours of highest consumption (all the hours
    when there are at most ten): each row is an hour of the day with its
    value, no hour comes twice, the rows are in non-increasing order of
    their values, and no hour that is left out has a larger value than a
    row that is shown. *)
Theorem table_rows_top
        (sort_rows : (Row -> Row -> bool) -> list Row -> list Row)
        (hourly : list double) :
  std_sort_rows_ok sort_rows ->
  Forall (fun v => wfb v = true) hourly ->
  let rows := table_rows sort_rows hourly in
  length rows = Nat.min 10 (length hourly) /\
  NoDup (map row_hour rows) /\
  Forall (fun r => exists k : nat, (k < length hourly)%nat /\
                     row_hour r = Z.of_nat k /\ row_v r = nth k hourly fzero) rows /\
  StronglySorted (fun a b => fle (row_v b) (row_v a) = true) rows /\
  (forall k : nat, (k < length hourly)%nat ->
     ~ In (Z.of_nat k) (map row_hour rows) ->
     Forall (fun r => fle (nth k hourly fzero) (row_v r) = true) rows).
Proof.
  intros Hsort W rows. unfold rows. rewrite table_rows_firstn.
  set (idx := table_index 0 hourly).
  assert (Widx : Forall (fun r => wfb (row_v r) = true) idx).
  { rewrite Forall_forall. intros r Hr. apply table_index_in in Hr.
    destruct Hr as (k & Hk & ->). cbn. rewrite Forall_forall in W. apply W.
    apply nth_In. exact Hk. }
  destruct (Hsort idx Widx) as [P S].
  set (sorted := sort_rows by_v_desc idx) in *.
  assert (WS : forall r, In r sorted -> wfb (row_v r) = true).
  { intros r Hr. rewrite Forall_forall in Widx. apply Widx.
    apply (Permutation_in _ P). exact Hr. }
  assert (Hlen : length sorted = length hourly).
  { rewrite (Permutation_length P). apply table_index_length. }
  rewrite <- (firstn_skipn 10 sorted) in S.
  apply sorted_app in S. destruct S as [S1 C].
  assert (Hin : forall r, In r (firstn 10 sorted) -> In r sorted).
  { intros r Hr. rewrite <- (firstn_skipn 10 sorted). apply in_or_app. left. exact Hr. }
  split; [rewrite length_firstn, Hlen; reflexivity|].
  split.
  { assert (ND : NoDup (map row_hour sorted)).
    { apply (Permutation_NoDup (l := map row_hour idx)).
      - apply Permutation_map. symmetry. exact P.
      - unfold idx. rewrite table_index_hours. apply zseq_NoDup. }
    rewrite <- (firstn_skipn 10 sorted), map_app in ND.
    apply NoDup_app_remove_r in ND. exact ND. }
  split.
  { rewrite Forall_forall. intros r Hr. apply Hin in Hr.
    apply (Permutation_in _ P) in Hr. apply table_index_in in Hr.
    destruct Hr as (k & Hk & ->). exists k. cbn. auto. }
  split.
  { clear C. induction S1 as [|a l Sl IH F]; constructor.
    - apply IH. intros r Hr. apply Hin. right. exact Hr.
    - rewrite Forall_forall in *. intros b Hb. specialize (F b Hb). cbv beta in F.
      apply fgt_false_fle; [apply WS, Hin; right; exact Hb
                           |apply WS, Hin; left; reflexivity|exact F]. }
  intros k Hk Hout. rewrite Forall_forall. intros r Hr.
  set (rk := {| row_hour := Z.of_nat k; row_v := nth k hourly fzero |}).
  assert (Hrk : In rk sorted).
  { apply (Permutation_in _ (Permutation_sym P)). apply table_index_in.
    exists k. split; [exact Hk|reflexivity]. }
  rewrite <- (firstn_skipn 10 sorted) in Hrk. apply in_app_or in Hrk.
  destruct Hrk as [Hrk|Hrk].
  - exfalso. apply Hout. change (Z.of_nat k) with (row_hour rk).
    apply in_map. exact Hrk.
  - specialize (C r rk Hr Hrk). cbv beta in C.
    change (nth k hourly fzero) with (row_v rk).
    apply fgt_false_fle; [|apply WS, Hin; exact Hr|exact C].
    apply WS. rewrite <- (firstn_skipn 10 sorted). apply in_or_app. right. exact Hrk.
Qed.

Lemma insert_row_perm (x : Row) (l : list Row) :
  Permutation (insert_row by_v_desc x l) (x :: l).
Proof.
  induction l as [|y t IH]; cbn [insert_row]; [reflexivity|].
  destruct (by_v_desc x y); [reflexivity|].
  rewrite IH. apply perm_swap.
Qed.

Lemma insert_row_sorted (x : Row) (l : list Row) :
  wfb (row_v x) = true -> Forall (fun r => wfb (row_v r) = true) l ->
  StronglySorted (fun a b => by_v_desc b a = false) l ->
  StronglySorted (fun a b => by_v_desc b a = false) (insert_row by_v_desc x l).
Proof.
  intros Wx W S. induction S as [|y t St IH F]; cbn [insert_row].
  - constructor; constructor.
  - inversion W as [|? ? Wy Wt]; subst.
    destruct (by_v_desc x y) eqn:E.
    + apply (fgt_val _ _ Wx Wy) in E.
      constructor; [constructor; assumption|].
      constructor.
      * unfold by_v_desc. destruct (fgt (row_v y) (row_v x)) eqn:G; [|reflexivity].
        apply (fgt_val _ _ Wy Wx) in G. lia.
      * rewrite Forall_forall in *. intros z Hz.
        specialize (F z Hz). specialize (Wt z Hz). cbv beta in F.
        unfold by_v_desc in *. destruct (fgt (row_v z) (row_v x)) eqn:G; [|reflexivity].
        apply (fgt_val _ _ Wt Wx) in G.
        apply (fgt_false_fle _ _ Wt Wy) in F. apply (fle_val _ _ Wt Wy) in F. lia.
    + constructor; [apply IH; exact Wt|].
      apply (Permutation_Forall (Permutation_sym (insert_row_perm x t))).
      constructor; [exact E|exact F].
Qed.

Lemma insertion_sort_rows_ok : std_sort_rows_ok insertion_sort_rows.
Proof.
  intros l W. unfold insertion_sort_rows.
  assert (G : forall acc : list Row,
             Forall (fun r => wfb (row_v r) = true) acc ->
             StronglySorted (fun a b => by_v_desc b a = false) acc ->
             Permutation (fold_left (fun a x => insert_row by_v_desc x a) l acc)
                         (l ++ acc) /\
             StronglySorted (fun a b => by_v_desc b a = false)
                            (fold_left (fun a x => insert_row by_v_desc x a) l acc)).
  { induction W as [|x l Wx Wl IH]; intros acc Wa Sa; cbn [fold_left app].
    - split; [reflexivity|exact Sa].
    - destruct (IH (insert_row by_v_desc x acc)) as [P S].
      + apply (Permutation_Forall (Permutation_sym (insert_row_perm x acc))).
        constructor; assumption.
      + apply insert_row_sorted; assumption.
      + split; [|exact S]. rewrite P.
        rewrite (insert_row_perm x acc). apply Permutation_sym, Permutation_middle. }
  destruct (G [] (Forall_nil _) (SSorted_nil _)) as [P S].
  rewrite app_nil_r in P. split; assumption.
Qed.

(** *** Division of doubles: the quotient and its shifts *)

Lemma mod_double (N G : Z) :
  0 <= N -> 0 < G ->
  N / (G * 2) = N / G / 2 /\
  N mod (G * 2) = N mod G + G * Z.b2z (Z.odd (N / G)).
Proof.
  intros HN HG.
  pose proof (Z.div_mod N G ltac:(lia)) as D1.
  pose proof (Z.mod_pos_bound N G ltac:(lia)) as B1.
  pose proof (Z.div_mod (N / G) 2 ltac:(lia)) as D2.
  pose proof (Z.mod_pos_bound (N / G) 2 ltac:(lia)) as B2.
  assert (Ho : (N / G) mod 2 = Z.b2z (Z.odd (N / G))).
  { rewrite <- Z.bit0_odd, Z.bit0_mod. reflexivity. }
  rewrite <- Ho.
  pose proof (Z.div_mod N (G * 2) ltac:(lia)) as D3.
  pose proof (Z.mod_pos_bound N (G * 2) ltac:(lia)) as B3.
  apply (div_mod_unique' (G * 2)); [lia|lia|nia|nia].
Qed.

Lemma shr_1_qrec (N D k : Z) :
  0 <= N -> 0 < D -> 0 <= k -> shr_1 (qrec N D k) = qrec N D (k + 1).
Proof.
  intros HN HD Hk. unfold qrec. cbv zeta.
  assert (HP : 0 < 2 ^ k) by (apply pow2_pos; lia).
  assert (HG : 0 < D * 2 ^ k) by nia.
  rewrite Z.pow_add_r by lia. change (2 ^ 1) with 2.
  rewrite Z.mul_assoc. set (G := D * 2 ^ k) in *.
  destruct (mod_double N G HN HG) as [E1 E2].
  rewrite shr_1_nonneg by (apply Z.div_pos; lia).
  rewrite E1, E2.
  pose proof (Z.mod_pos_bound N G ltac:(lia)) as B.
  set (r := N mod G) in *.
  f_equal.
  - destruct (Z.odd (N / G)); cbn [Z.b2z];
      [apply eq_sym, Z.leb_le|apply eq_sym, Z.leb_gt]; lia.
  - assert (M2 : (2 * (r + G * Z.b2z (Z.odd (N / G)))) mod (G * 2) = 0 <-> r = 0).
    { destruct (Z.odd (N / G)); cbn [Z.b2z]; split; intros H.
      - replace (2 * (r + G * 1)) with (2 * r + 1 * (G * 2)) in H by lia.
        rewrite Z.mod_add in H by lia.
        rewrite Z.mod_small in H by lia. lia.
      - subst r. rewrite H. replace (2 * (0 + G * 1)) with (1 * (G * 2)) by lia.
        apply Z.mod_mul. lia.
      - rewrite Z.mod_small in H by lia. lia.
      - rewrite H. replace (2 * (0 + G * 0)) with 0 by lia. apply Z.mod_0_l. lia. }
    destruct (Z.eqb_spec ((2 * (r + G * Z.b2z (Z.odd (N / G)))) mod (G * 2)) 0) as [E|E].
    + apply M2 in E. rewrite E. cbn [negb].
      rewrite Z.mul_0_r, Z.mod_0_l by lia.
      replace (G <=? 0) with false by (symmetry; apply Z.leb_gt; lia). reflexivity.
    + assert (Hr : r <> 0) by (intros H; apply E, M2, H).
      cbn [negb].
      destruct (Z.leb_spec G (2 * r)) as [L|L]; [reflexivity|].
      rewrite Z.mod_small by lia.
      destruct (Z.eqb_spec (2 * r) 0); [lia|reflexivity].
Qed.

Lemma iter_shr_1_qrec (p : positive) :
  forall N D k, 0 <= N -> 0 < D -> 0 <= k ->
  iter_pos shr_1 p (qrec N D k) = qrec N D (k + Zpos p).
Proof.
  induction p as [p IH|p IH|]; intros N D k HN HD Hk; cbn [iter_pos].
  - rewrite shr_1_qrec, IH, IH by lia. f_equal. lia.
  - rewrite IH, IH by lia. f_equal. lia.
  - apply shr_1_qrec; assumption.
Qed.

Lemma new_location_qrec (N D : Z) :
  0 <= N -> 0 < D ->
  shr_record_of_loc (N / D) (new_location D (N mod D)) = qrec N D 0.
Proof.
  intros HN HD. unfold qrec. cbv zeta. change (2 ^ 0) with 1.
  rewrite Z.mul_1_r.
  pose proof (Z.mod_pos_bound N D ltac:(lia)) as B. set (r := N mod D) in *.
  assert (Z0 : shr_record_of_loc (N / D) loc_Exact
               = Build_shr_record (N / D) (D <=? 2 * 0) (negb ((2 * 0) mod D =? 0))).
  { cbn [shr_record_of_loc]. rewrite Z.mul_0_r, Z.mod_0_l by lia.
    replace (D <=? 0) with false by (symmetry; apply Z.leb_gt; lia). reflexivity. }
  unfold new_location. destruct (Z.even D) eqn:Ev.
  - unfold new_location_even. destruct (Z.eqb_spec r 0) as [E|E].
    { rewrite E. exact Z0. }
    destruct (Z.compare_spec (2 * r) D) as [C|C|C]; cbn [shr_record_of_loc].
    + rewrite C, Z.mod_same by lia. rewrite Z.leb_refl. reflexivity.
    + rewrite Z.mod_small by lia.
      replace (D <=? 2 * r) with false by (symmetry; apply Z.leb_gt; lia).
      destruct (Z.eqb_spec (2 * r) 0); [lia|reflexivity].
    + replace (D <=? 2 * r) with true by (symmetry; apply Z.leb_le; lia).
      replace (2 * r) with ((2 * r - D) + 1 * D) by lia.
      rewrite Z.mod_add, Z.mod_small by lia.
      destruct (Z.eqb_spec (2 * r - D) 0); [lia|reflexivity].
  - unfold new_location_odd. destruct (Z.eqb_spec r 0) as [E|E].
    { rewrite E. exact Z0. }
    assert (Od : 2 * r <> D).
    { intros H. rewrite <- H in Ev. rewrite Z.even_mul in Ev. discriminate. }
    destruct (Z.compare_spec (2 * r + 1) D) as [C|C|C]; cbn [shr_record_of_loc].
    + rewrite Z.mod_small by lia.
      replace (D <=? 2 * r) with false by (symmetry; apply Z.leb_gt; lia).
      destruct (Z.eqb_spec (2 * r) 0); [lia|reflexivity].
    + rewrite Z.mod_small by lia.
      replace (D <=? 2 * r) with false by (symmetry; apply Z.leb_gt; lia).
      destruct (Z.eqb_spec (2 * r) 0); [lia|reflexivity].
    + replace (D <=? 2 * r) with true by (symmetry; apply Z.leb_le; lia).
      replace (2 * r) with ((2 * r - D) + 1 * D) by lia.
      rewrite Z.mod_add, Z.mod_small by lia.
      destruct (Z.eqb_spec (2 * r - D) 0); [lia|reflexivity].
Qed.

Lemma round_qrec (N D k : Z) :
  0 <= N -> 0 < D -> 0 <= k ->
  round_nearest_even (shr_m (qrec N D k)) (loc_of_shr_record (qrec N D k))
  = rne N (D * 2 ^ k).
Proof.
  intros HN HD Hk. unfold qrec, rne. cbv zeta.
  assert (HP : 0 < 2 ^ k) by (apply pow2_pos; lia).
  assert (HG : 0 < D * 2 ^ k) by nia.
  set (G := D * 2 ^ k) in *.
  pose proof (Z.mod_pos_bound N G ltac:(lia)) as B. set (r := N mod G) in *.
  cbn [shr_m loc_of_shr_record].
  destruct (Z.ltb_spec (2 * r) G) as [L|L].
  - replace (G <=? 2 * r) with false by (symmetry; apply Z.leb_gt; lia).
    destruct (negb (2 * r mod G =? 0)); reflexivity.
  - replace (G <=? 2 * r) with true by (symmetry; apply Z.leb_le; lia).
    destruct (Z.ltb_spec G (2 * r)) as [L'|L'].
    + replace (2 * r) with ((2 * r - G) + 1 * G) by lia.
      rewrite Z.mod_add, Z.mod_small by lia.
      destruct (Z.eqb_spec (2 * r - G) 0); [lia|reflexivity].
    + assert (E : 2 * r = G) by lia. rewrite E, Z.mod_same by lia.
      cbn [negb Z.eqb round_nearest_even]. reflexivity.
Qed.

(** *** Division of doubles: rounding of the quotient *)

Lemma shr_fexp_quot (N D e : Z) :
  0 <= N -> 0 < D ->
  shr_fexp prec emax (N / D) e (new_location D (N mod D)) =
  (qrec N D (Z.max (fexp prec emax (Zdigits2 (N / D) + e) - e) 0),
   e + Z.max (fexp prec emax (Zdigits2 (N / D) + e) - e) 0).
Proof.
  intros HN HD. unfold shr_fexp, shr. rewrite new_location_qrec by assumption.
  destruct (fexp prec emax (Zdigits2 (N / D) + e) - e) as [|p|p] eqn:E.
  - simpl Z.max. rewrite Z.add_0_r. reflexivity.
  - rewrite Z.max_l by lia. rewrite iter_shr_1_qrec by lia. reflexivity.
  - rewrite Z.max_r by lia. rewrite Z.add_0_r. reflexivity.
Qed.

(** The end of [binary_round_aux]: a rounded mantissa [q] at the exponent
    [e1] is normalised into the double of the same value. *)
Lemma round_finish (sx : bool) (q e1 : Z) :
  -1074 <= e1 -> 0 <= q <= 2 ^ 53 -> (-1074 < e1 -> 2 ^ 52 <= q) ->
  rounds_to sx (q * 2 ^ (e1 + scale))
    (let '(mrs, e2) := shr_fexp prec emax q e1 loc_Exact in
     match shr_m mrs with
     | Z0 => S754_zero sx
     | Zpos m => if e2 <=? emax - prec then S754_finite sx m e2 else S754_infinity sx
     | Zneg _ => S754_nan
     end).
Proof.
  intros He1 [Hq0 Hq53] Hq52. pose proof scale_val as Hsc.
  rewrite shr_fexp_exact by lia. rewrite fexp_eq.
  destruct (Z.eq_dec q 0) as [Eq0|Hqn0].
  { rewrite Eq0. simpl Zdigits2.
    rewrite (Z.max_r _ 0) by lia.
    simpl. split; [reflexivity|lia]. }
  assert (Hdq : Zdigits2 q = Z.log2 q + 1) by (apply Zdigits2_log2; lia).
  rewrite Hdq.
  destruct (Z.log2_spec q ltac:(lia)) as [Hl1 Hl2].
  destruct (Z.eq_dec q (2 ^ 53)) as [Eq53|Hqn53].
  - rewrite Eq53. rewrite Z.log2_pow2 by lia.
    replace (Z.max (Z.max (53 + 1 + e1 - 53) (-1074) - e1) 0) with 1 by lia.
    change (shr_m (srec (2 ^ 53) 1)) with 4503599627370496.
    destruct (Z.leb_spec (e1 + 1) (emax - prec)) as [Hle|Hgt].
    + split; [reflexivity|]. split.
      * apply bounded_spec. change (Z.log2 4503599627370496) with 52.
        unfold emax, prec in *. lia.
      * change 4503599627370496 with (2 ^ 52).
        rewrite <- !Z.pow_add_r by lia. f_equal. lia.
    + split; [reflexivity|]. unfold OVF.
      rewrite <- Z.pow_add_r by lia.
      apply pow2_le. unfold emax, prec in *. lia.
  - assert (Hlt : q < 2 ^ 53) by lia.
    assert (Hlq : Z.log2 q < 53) by (apply Z.log2_lt_pow2; lia).
    replace (Z.max (Z.max (Z.log2 q + 1 + e1 - 53) (-1074) - e1) 0) with 0.
    2:{ destruct (Z.eq_dec e1 (-1074)) as [E|NE]; [lia|].
        specialize (Hq52 ltac:(lia)).
        pose proof (Z.log2_le_mono _ _ Hq52) as Hlm.
        rewrite Z.log2_pow2 in Hlm by lia. lia. }
    unfold srec. simpl (0 =? 0). cbv iota. simpl shr_m.
    rewrite Z.add_0_r.
    destruct q as [|p|p] eqn:Eq; try lia.
    assert (Hcanon : -1074 < e1 -> Z.log2 (Zpos p) = 52).
    { intros Hn1. specialize (Hq52 Hn1).
      pose proof (Z.log2_le_mono _ _ Hq52) as Hlm.
      rewrite Z.log2_pow2 in Hlm by lia. lia. }
    destruct (Z.leb_spec e1 (emax - prec)) as [Hle|Hgt].
    + split; [reflexivity|]. split; [|reflexivity].
      apply bounded_spec. unfold emax, prec in *.
      destruct (Z.eq_dec e1 (-1074)) as [E|NE].
      * rewrite E. lia.
      * rewrite Hcanon by lia. lia.
    + split; [reflexivity|]. unfold OVF.
      assert (2 ^ 52 <= Zpos p) by (apply Hq52; unfold emax, prec in *; lia).
      assert (0 < 2 ^ (e1 + scale)) by (apply pow2_pos; lia).
      transitivity (2 ^ 52 * 2 ^ (e1 + scale)); [|nia].
      rewrite <- Z.pow_add_r by lia.
      apply pow2_le. unfold emax, prec in *. lia.
Qed.

Lemma Zdigits2_bounds (M : Z) :
  0 <= M -> M < 2 ^ Zdigits2 M /\ 0 <= Zdigits2 M /\
            (0 < M -> 2 ^ (Zdigits2 M - 1) <= M).
Proof.
  intros HM. destruct (Z.eq_dec M 0) as [->|Hn].
  - simpl. lia.
  - rewrite Zdigits2_log2 by lia.
    destruct (Z.log2_spec M ltac:(lia)) as [H1 H2].
    pose proof (Z.log2_nonneg M).
    replace (Z.log2 M + 1 - 1) with (Z.log2 M) by lia.
    unfold Z.succ in H2. lia.
Qed.

Lemma log2_quot (X M j : Z) :
  0 < M -> 0 <= j -> M * 2 ^ j <= X < (M + 1) * 2 ^ j ->
  Z.log2 X = Z.log2 M + j.
Proof.
  intros HM Hj [H1 H2].
  destruct (Z.log2_spec M HM) as [L1 L2]. pose proof (Z.log2_nonneg M) as L0.
  assert (HP : 0 < 2 ^ j) by (apply pow2_pos; lia).
  apply Z.log2_unique; [lia|]. unfold Z.succ in *.
  rewrite !Z.pow_add_r by lia. change (2 ^ 1) with 2.
  split; [nia|].
  assert (M + 1 <= 2 ^ Z.log2 M * 2) by (rewrite Z.pow_add_r in L2 by lia; lia).
  nia.
Qed.

(** [binary_round_aux] on a quotient with its remainder rounds the exact
    quotient. *)
Lemma binary_round_aux_quot (sx : bool) (N D e : Z) :
  0 <= N -> 0 < D -> - scale <= e ->
  e <= fexp prec emax (Zdigits2 (N / D) + e) ->
  rounds_to sx (rndq (N * 2 ^ (e + scale)) D)
            (binary_round_aux prec emax sx (N / D) e (new_location D (N mod D))).
Proof.
  intros HN HD He Hn. pose proof scale_val as Hsc.
  unfold binary_round_aux. rewrite shr_fexp_quot by assumption.
  set (M := N / D) in *.
  assert (HM : 0 <= M) by (apply Z.div_pos; lia).
  destruct (Zdigits2_bounds M HM) as (Hd1 & Hd0 & Hd2).
  set (d := Zdigits2 M) in *.
  rewrite fexp_eq in *.
  set (e1 := Z.max (d + e - 53) (-1074)) in *.
  rewrite Z.max_l by lia.
  replace (e + (e1 - e)) with e1 by lia.
  rewrite round_qrec by lia.
  set (n1 := e1 - e). set (q := rne N (D * 2 ^ n1)).
  assert (HP1 : 0 < 2 ^ n1) by (apply pow2_pos; unfold n1; lia).
  assert (HG1 : 0 < D * 2 ^ n1) by nia.
  pose proof (Z.div_mod N D ltac:(lia)) as DM.
  pose proof (Z.mod_pos_bound N D ltac:(lia)) as BM. fold M in DM.
  assert (Hq0 : 0 <= q) by (apply rne_nonneg; lia).
  assert (Hq53 : q <= 2 ^ 53).
  { apply rne_le_mult; [lia|].
    pose proof (pow2_le d (53 + n1) ltac:(unfold n1, e1 in *; lia)) as P.
    rewrite Z.pow_add_r in P by (unfold n1; lia).
    assert (A1 : N <= D * (M + 1)) by nia.
    assert (A2 : D * (M + 1) <= D * 2 ^ d) by (apply Z.mul_le_mono_nonneg_l; lia).
    assert (A3 : D * 2 ^ d <= D * (2 ^ 53 * 2 ^ n1))
      by (apply Z.mul_le_mono_nonneg_l; lia).
    replace (2 ^ 53 * (D * 2 ^ n1)) with (D * (2 ^ 53 * 2 ^ n1)) by ring. lia. }
  assert (Hq52 : -1074 < e1 -> 2 ^ 52 <= q).
  { intros Hnorm. apply rne_ge_mult; [lia|].
    assert (Hdd : d - 1 = 52 + n1) by (unfold n1, e1 in *; lia).
    assert (HMpos : 0 < M).
    { destruct (Z.eq_dec M 0) as [E0|]; [|lia].
      assert (Hz : d = 0) by (unfold d; rewrite E0; reflexivity).
      unfold n1 in *. lia. }
    specialize (Hd2 HMpos). rewrite Hdd in Hd2.
    rewrite Z.pow_add_r in Hd2 by (unfold n1; lia).
    assert (A1 : D * (2 ^ 52 * 2 ^ n1) <= D * M)
      by (apply Z.mul_le_mono_nonneg_l; lia).
    replace (2 ^ 52 * (D * 2 ^ n1)) with (D * (2 ^ 52 * 2 ^ n1)) by ring. lia. }
  set (c := 2 ^ (e + scale)).
  assert (HPc : 0 < c) by (apply pow2_pos; lia).
  set (X := (N * c) / D).
  assert (HX : M * c <= X < (M + 1) * c).
  { unfold X. split.
    - apply Z.div_le_lower_bound; [lia|nia].
    - apply Z.div_lt_upper_bound; [lia|nia]. }
  assert (HgX : gexp X = e1 + scale).
  { unfold gexp. destruct (Z.eq_dec M 0) as [E0|HM0].
    - assert (d = 0) by (unfold d; rewrite E0; reflexivity).
      assert (HX0 : X < 2 ^ (e + scale)) by (fold c; lia).
      assert (0 <= X) by lia.
      destruct (Z.eq_dec X 0) as [->|HXn]; [simpl; unfold e1; lia|].
      assert (Z.log2 X < e + scale) by (apply Z.log2_lt_pow2; lia).
      unfold e1 in *. lia.
    - rewrite (log2_quot X M (e + scale)) by (fold c; lia).
      assert (Hdl : d = Z.log2 M + 1) by (unfold d; apply Zdigits2_log2; lia).
      unfold e1. lia. }
  assert (HY : rndq (N * c) D = q * 2 ^ (e1 + scale)).
  { unfold rndq. fold X. rewrite HgX.
    replace (e1 + scale) with (n1 + (e + scale)) by (unfold n1; lia).
    rewrite Z.pow_add_r by (unfold n1; lia). fold c.
    rewrite (Z.mul_assoc D (2 ^ n1) c), rne_scale by lia. reflexivity. }
  rewrite HY.
  apply round_finish; [unfold e1; lia|lia|exact Hq52].
Qed.

(** *** Division of doubles: the result *)

Lemma rndq_scale (A B C : Z) :
  0 < B -> 0 < C -> rndq (A * C) (B * C) = rndq A B.
Proof.
  intros HB HC. unfold rndq.
  rewrite Z.div_mul_cancel_r by lia.
  pose proof (grid_pos (A / B)) as HG.
  replace (B * C * 2 ^ gexp (A / B)) with (B * 2 ^ gexp (A / B) * C) by ring.
  rewrite rne_scale by nia. reflexivity.
Qed.

Lemma div_core_exponent (mx my : positive) (ex ey : Z) :
  let d1 := Zdigits2 (Zpos mx) in
  let d2 := Zdigits2 (Zpos my) in
  let e' := Z.min (fexp prec emax (d1 + ex - (d2 + ey))) (ex - ey) in
  let s := ex - ey - e' in
  0 <= s /\
  e' <= fexp prec emax (Zdigits2 (Zpos mx * 2 ^ s / Zpos my) + e').
Proof.
  cbv zeta. rewrite !fexp_eq.
  set (d1 := Zdigits2 (Zpos mx)). set (d2 := Zdigits2 (Zpos my)).
  set (e' := Z.min (Z.max (d1 + ex - (d2 + ey) - 53) (-1074)) (ex - ey)).
  set (s := ex - ey - e').
  assert (Hs : 0 <= s) by (unfold s, e'; lia).
  split; [exact Hs|].
  destruct (Z_le_gt_dec e' (-1074)) as [L|G]; [lia|].
  destruct (Zdigits2_bounds (Zpos mx) ltac:(lia)) as (A1 & A0 & A2).
  destruct (Zdigits2_bounds (Zpos my) ltac:(lia)) as (B1 & B0 & B2).
  specialize (A2 ltac:(lia)). specialize (B2 ltac:(lia)).
  fold d1 in A1, A0, A2. fold d2 in B1, B0, B2.
  assert (D1 : 1 <= d1).
  { unfold d1. rewrite Zdigits2_log2 by lia. pose proof (Z.log2_nonneg (Zpos mx)). lia. }
  assert (D2 : 1 <= d2).
  { unfold d2. rewrite Zdigits2_log2 by lia. pose proof (Z.log2_nonneg (Zpos my)). lia. }
  set (k := d1 - 1 + s - d2).
  assert (Hk : 52 <= k) by (unfold k, s, e' in *; lia).
  assert (HPs : 0 < 2 ^ s) by (apply pow2_pos; lia).
  assert (HPk : 0 < 2 ^ k) by (apply pow2_pos; lia).
  set (q := Zpos mx * 2 ^ s / Zpos my).
  assert (Hq : 2 ^ k <= q).
  { unfold q. apply Z.div_le_lower_bound; [lia|].
    assert (E : 2 ^ (d1 - 1) * 2 ^ s = 2 ^ k * 2 ^ d2).
    { rewrite <- !Z.pow_add_r by lia. f_equal. unfold k. lia. }
    assert (Zpos my * 2 ^ k <= 2 ^ d2 * 2 ^ k) by (apply Z.mul_le_mono_nonneg_r; lia).
    assert (2 ^ (d1 - 1) * 2 ^ s <= Zpos mx * 2 ^ s)
      by (apply Z.mul_le_mono_nonneg_r; lia).
    lia. }
  assert (Hdq : k + 1 <= Zdigits2 q).
  { rewrite Zdigits2_log2 by lia.
    pose proof (Z.log2_le_mono _ _ Hq) as Hl. rewrite Z.log2_pow2 in Hl by lia. lia. }
  unfold k, s, e' in *. lia.
Qed.

(** Division of doubles rounds the exact quotient. *)
Lemma fdiv_rounds (sx sy : bool) (mx my : positive) (ex ey : Z) :
  bounded prec emax mx ex = true -> bounded prec emax my ey = true ->
  rounds_to (xorb sx sy)
            (rndq (Zpos mx * 2 ^ (ex + scale) * 2 ^ scale) (Zpos my * 2 ^ (ey + scale)))
            (fdiv (S754_finite sx mx ex) (S754_finite sy my ey)).
Proof.
  intros Bx By. pose proof scale_val as Hsc.
  apply bounded_range in Bx, By.
  destruct Bx as (Ex & _). destruct By as (Ey & _).
  unfold fdiv, SFdiv, SFdiv_core_binary.
  destruct (div_core_exponent mx my ex ey) as [Hs Hn]. cbv zeta in Hs, Hn.
  set (e' := Z.min (fexp prec emax (Zdigits2 (Zpos mx) + ex - (Zdigits2 (Zpos my) + ey)))
                   (ex - ey)) in *.
  set (s := ex - ey - e') in *.
  assert (He' : - scale <= e').
  { unfold e'. rewrite fexp_eq. lia. }
  assert (Em : match s with
               | 0 => Zpos mx
               | Zpos _ => Z.shiftl (Zpos mx) s
               | Zneg _ => 0
               end = Zpos mx * 2 ^ s).
  { destruct s as [|p|p] eqn:Es; [rewrite Z.pow_0_r; lia| |lia].
    apply Z.shiftl_mul_pow2. lia. }
  rewrite Em. set (N := Zpos mx * 2 ^ s) in *.
  assert (HN : 0 <= N).
  { unfold N. assert (0 < 2 ^ s) by (apply pow2_pos; lia). lia. }
  change (Z.div_eucl N (Zpos my)) with (Z.div_eucl N (Zpos my)).
  assert (Ed : Z.div_eucl N (Zpos my) = (N / Zpos my, N mod Zpos my)).
  { unfold Z.div, Z.modulo. destruct (Z.div_eucl N (Zpos my)). reflexivity. }
  rewrite Ed.
  pose proof (binary_round_aux_quot (xorb sx sy) N (Zpos my) e' HN ltac:(lia) He' Hn) as R.
  assert (EA : Zpos mx * 2 ^ (ex + scale) * 2 ^ scale
               = N * 2 ^ (e' + scale) * 2 ^ (ey + scale)).
  { unfold N. rewrite <- !Z.mul_assoc, <- !Z.pow_add_r by lia.
    f_equal. f_equal. unfold s. lia. }
  rewrite EA, rndq_scale by (try apply pow2_pos; lia).
  exact R.
Qed.

Lemma rndq_nonneg (A B : Z) : 0 <= A -> 0 < B -> 0 <= rndq A B.
Proof.
  intros HA HB. unfold rndq. pose proof (grid_pos (A / B)).
  assert (0 <= rne A (B * 2 ^ gexp (A / B))) by (apply rne_nonneg; nia). nia.
Qed.

(** A rounded quotient does not pass a double that bounds the exact
    quotient. *)
Lemma rndq_le_grid (A B Y m g : Z) :
  0 <= A -> 0 < B -> Y = m * 2 ^ g -> gexp Y <= g -> A <= Y * B ->
  rndq A B <= Y.
Proof.
  intros HA HB EY Hg H.
  assert (HY0 : 0 <= Y) by nia.
  assert (HX : A / B <= Y) by (apply Z.div_le_upper_bound; [lia|nia]).
  pose proof (gexp_mono _ _ HX) as Hm. pose proof (gexp_pos (A / B)) as Hp.
  unfold rndq. set (gx := gexp (A / B)) in *.
  assert (HPx : 0 < 2 ^ gx) by (apply pow2_pos; lia).
  assert (Ek : Y = (m * 2 ^ (g - gx)) * 2 ^ gx).
  { rewrite EY, <- Z.mul_assoc, <- Z.pow_add_r by lia. f_equal. f_equal. lia. }
  assert (R : rne A (B * 2 ^ gx) <= m * 2 ^ (g - gx)).
  { apply rne_le_mult; [nia|]. rewrite Ek in H. nia. }
  rewrite Ek. apply Z.mul_le_mono_nonneg_r; lia.
Qed.

Lemma rndq_ge_grid (A B Y m g : Z) :
  0 < B -> 0 <= Y -> Y = m * 2 ^ g -> gexp Y = g -> Y * B <= A ->
  Y <= rndq A B.
Proof.
  intros HB HY0 EY Hg H.
  assert (HX : Y <= A / B) by (apply Z.div_le_lower_bound; [lia|nia]).
  pose proof (gexp_mono _ _ HX) as Hm. pose proof (gexp_pos Y) as Hp.
  unfold rndq. set (X := A / B) in *. set (gx := gexp X) in *.
  assert (HPx : 0 < 2 ^ gx) by (apply pow2_pos; lia).
  pose proof (Z.div_mod A B ltac:(lia)) as DM.
  pose proof (Z.mod_pos_bound A B ltac:(lia)) as BM. fold X in DM.
  destruct (Z.eq_dec gx g) as [E|NE].
  - assert (R : m <= rne A (B * 2 ^ gx)).
    { apply rne_ge_mult; [nia|]. rewrite E. rewrite EY in H. nia. }
    rewrite EY, <- E. apply Z.mul_le_mono_nonneg_r; lia.
  - assert (Hgt : g < gx) by lia.
    assert (HXpos : 0 < X).
    { destruct (Z.eq_dec X 0) as [E0|]; [|lia].
      exfalso. unfold gx in Hgt. rewrite E0 in Hgt.
      pose proof (gexp_ge Y). unfold gexp in Hgt. simpl Z.log2 in Hgt. lia. }
    assert (Hl : gx = Z.log2 X - 52).
    { unfold gx, gexp in *. pose proof (gexp_ge Y). unfold gexp in *. lia. }
    destruct (Z.log2_spec X HXpos) as [L1 _].
    assert (R : 2 ^ 52 <= rne A (B * 2 ^ gx)).
    { apply rne_ge_mult; [nia|].
      assert (E2 : 2 ^ 52 * 2 ^ gx = 2 ^ Z.log2 X).
      { rewrite <- Z.pow_add_r by lia. f_equal. lia. }
      assert (B * (2 ^ 52 * 2 ^ gx) <= B * X) by (apply Z.mul_le_mono_nonneg_l; lia).
      replace (2 ^ 52 * (B * 2 ^ gx)) with (B * (2 ^ 52 * 2 ^ gx)) by ring. lia. }
    assert (HYlt : Y < 2 ^ (g + 53)).
    { destruct (Z.eq_dec Y 0) as [->|HYn]; [apply pow2_pos; lia|].
      destruct (Z.log2_spec Y ltac:(lia)) as [_ L2]. unfold Z.succ in L2.
      assert (Z.log2 Y + 1 <= g + 53) by (unfold gexp in Hg; lia).
      pose proof (pow2_le (Z.log2 Y + 1) (g + 53)
                    ltac:(pose proof (Z.log2_nonneg Y); lia)). lia. }
    assert (P : 2 ^ (g + 53) <= 2 ^ 52 * 2 ^ gx).
    { rewrite <- Z.pow_add_r by lia. apply pow2_le. lia. }
    assert (2 ^ 52 * 2 ^ gx <= rne A (B * 2 ^ gx) * 2 ^ gx)
      by (apply Z.mul_le_mono_nonneg_r; lia).
    lia.
Qed.

(** *** Bounds of a quotient, and the fill of a bar *)

(** The value of a double is a multiple of the grid around it. *)
Lemma val_grid (z : spec_float) :
  finb z = true -> 0 <= val z -> exists m, val z = m * 2 ^ gexp (val z).
Proof.
  intros F H. pose proof scale_val as Hsc.
  destruct (finb_inv z F) as [[s ->]|(s & m & e & -> & Hb)].
  - exists 0. reflexivity.
  - pose proof (finite_val_pos m e Hb) as P. cbn [val] in *.
    destruct s; [lia|]. exists (Zpos m).
    apply bounded_spec in Hb. unfold gexp.
    rewrite !Z.mul_1_l.
    assert (E : Z.max (Z.log2 (Zpos m * 2 ^ (e + scale)) - 52) (scale - 1074) = e + scale).
    { rewrite Z.log2_mul_pow2 by lia. lia. }
    rewrite E. reflexivity.
Qed.

Lemma val_pos_finite (y : spec_float) :
  finb y = true -> 0 < val y ->
  exists m e, y = S754_finite false m e /\ bounded prec emax m e = true.
Proof.
  intros F H. destruct (finb_inv y F) as [[s ->]|(s & m & e & -> & Hb)].
  - cbn in H. lia.
  - pose proof (finite_val_pos m e Hb) as P. cbn [val] in H.
    destruct s; [lia|]. exists m, e. auto.
Qed.

(** The quotient of a non-negative double by a positive one: bounds of the
    exact quotient by doubles are bounds of the rounded one. *)
Lemma fdiv_bounds (x y : spec_float) :
  finb x = true -> finb y = true -> 0 <= val x -> 0 < val y ->
  wfb (fdiv x y) = true /\
  (finb (fdiv x y) = true -> 0 <= val (fdiv x y)) /\
  (forall z, finb z = true -> 0 <= val z ->
     val x * 2 ^ scale <= val z * val y ->
     finb (fdiv x y) = true /\ val (fdiv x y) <= val z) /\
  (forall z, finb z = true -> 0 <= val z ->
     val z * val y <= val x * 2 ^ scale ->
     finb (fdiv x y) = true -> val z <= val (fdiv x y)).
Proof.
  intros Fx Fy Hx Hy.
  destruct (val_pos_finite y Fy Hy) as (my & ey & -> & By).
  destruct (finb_inv x Fx) as [[s ->]|(s & mx & ex & -> & Bx)].
  - cbn [fdiv SFdiv]. change (fdiv (S754_zero s) (S754_finite false my ey))
      with (S754_zero (xorb s false)).
    split; [reflexivity|]. split; [cbn; lia|].
    split; [intros z Fz Hz _; split; [reflexivity|cbn; lia]|].
    intros z Fz Hz H _. cbn [val] in *.
    pose proof (finite_val_pos my ey By). nia.
  - pose proof (finite_val_pos mx ex Bx) as Px.
    pose proof (finite_val_pos my ey By) as Py.
    assert (s = false) by (cbn [val] in Hx; destruct s; [lia|reflexivity]). subst s.
    pose proof (fdiv_rounds false false mx my ex ey Bx By) as R.
    cbn [xorb] in R. cbn [val] in *. rewrite !Z.mul_1_l in *.
    set (A := Zpos mx * 2 ^ (ex + scale) * 2 ^ scale) in *.
    set (B := Zpos my * 2 ^ (ey + scale)) in *.
    set (r := fdiv (S754_finite false mx ex) (S754_finite false my ey)) in *.
    pose proof scale_pow_pos as Hsp.
    assert (HA : 0 <= A) by (unfold A; nia).
    split; [exact (rounds_to_wf _ _ _ R)|].
    split.
    { intros Fr. destruct (rounds_to_val _ _ _ R Fr) as [-> _].
      apply rndq_nonneg; lia. }
    split.
    + intros z Fz Hz H.
      destruct (val_grid z Fz Hz) as [m Em].
      assert (L : rndq A B <= val z).
      { apply (rndq_le_grid A B (val z) m (gexp (val z))); try lia; unfold A; lia. }
      pose proof (finb_val_lt z Fz) as Lz.
      destruct (rounds_to_fin _ _ _ R ltac:(lia)) as [Fr Vr].
      split; [exact Fr|]. rewrite Vr. exact L.
    + intros z Fz Hz H Fr.
      destruct (val_grid z Fz Hz) as [m Em].
      destruct (rounds_to_val _ _ _ R Fr) as [-> _].
      apply (rndq_ge_grid A B (val z) m (gexp (val z))); try lia; unfold A; lia.
Qed.

(** [(int) x] for a double that is not negative and within the range of
    [int]: the integer part. *)
Lemma double_to_int_floor (x : spec_float) :
  finb x = true -> 0 <= val x -> val x / 2 ^ scale <= int_max ->
  double_to_int x = val x / 2 ^ scale.
Proof.
  intros F H Hmax. pose proof scale_val as Hsc. pose proof scale_pow_pos as Hsp.
  destruct (finb_inv x F) as [[s ->]|(s & m & e & -> & Hb)].
  - reflexivity.
  - pose proof (finite_val_pos m e Hb) as P. cbn [val] in *.
    destruct s; [lia|]. rewrite Z.mul_1_l in *.
    apply bounded_range in Hb. destruct Hb as (He & _).
    assert (Ea : match e with
                 | Zneg n => Z.shiftr (Zpos m) (Zpos n)
                 | _ => Z.shiftl (Zpos m) e
                 end = Zpos m * 2 ^ (e + scale) / 2 ^ scale).
    { destruct e as [|p|p].
      - rewrite Z.shiftl_0_r, Z.add_0_l, Z.div_mul by lia. reflexivity.
      - rewrite Z.shiftl_mul_pow2 by lia.
        rewrite Z.pow_add_r, Z.mul_assoc, Z.div_mul by lia. reflexivity.
      - rewrite Z.shiftr_div_pow2 by lia.
        assert (E : 2 ^ scale = 2 ^ (Zneg p + scale) * 2 ^ Zpos p).
        { rewrite <- Z.pow_add_r by lia. f_equal. lia. }
        assert (0 < 2 ^ (Zneg p + scale)) by (apply pow2_pos; lia).
        assert (0 < 2 ^ Zpos p) by (apply pow2_pos; lia).
        rewrite E, (Z.mul_comm (Zpos m)), Z.div_mul_cancel_l by lia. reflexivity. }
    unfold double_to_int. rewrite Ea.
    set (a := Zpos m * 2 ^ (e + scale) / 2 ^ scale) in *.
    assert (0 <= a) by (apply Z.div_pos; lia).
    replace ((int_min <=? a) && (a <=? int_max)) with true; [reflexivity|].
    symmetry. apply andb_true_iff. split; apply Z.leb_le; unfold int_min; lia.
Qed.

Lemma fmul_one (c : spec_float) :
  finb c = true -> finb (fmul c (dec 10 1)) = true /\ val (fmul c (dec 10 1)) = val c.
Proof.
  intros F. pose proof scale_pow_pos as Hsp.
  destruct (fmul_val c (dec 10 1) F eq_refl) as (V & Fin & _).
  change (val (dec 10 1)) with (2 ^ scale) in *.
  assert (E : vmul (val c) (2 ^ scale) = val c).
  { unfold vmul. apply Z.div_mul. lia. }
  rewrite E in *.
  assert (R : rndS (val c) = val c).
  { destruct (finb_inv c F) as [[s ->]|(s & m & e & -> & Hb)]; [apply rndS_0|].
    rewrite rndS_sign. destruct (val_finite_sign s m e Hb) as (S1 & S2 & _).
    rewrite S1, S2, finite_rnd_self by assumption.
    cbn [val]. destruct s; lia. }
  rewrite R in *. pose proof (finb_val_lt c F) as L.
  specialize (Fin L). split; [exact Fin|apply V; exact Fin].
Qed.

Lemma fmul_zero_r (c : spec_float) :
  finb c = true -> finb (fmul c fzero) = true /\ val (fmul c fzero) = 0.
Proof.
  intros F. destruct (finb_inv c F) as [[s ->]|(s & m & e & -> & Hb)]; split; reflexivity.
Qed.

(** The largest of 1.0 and the listed values bounds every listed value. *)
Lemma bar_maxV_bounds (l : list Consumer) :
  Forall (fun c => finb (cons_kWh c) = true) l ->
  finb (bar_maxV l) = true /\ 2 ^ scale <= val (bar_maxV l) /\
  Forall (fun c => val (cons_kWh c) <= val (bar_maxV l)) l.
Proof.
  intros W. unfold bar_maxV.
  assert (G : forall a, finb a = true ->
    let r := fold_left (fun maxV c => if fgt (cons_kWh c) maxV then cons_kWh c else maxV) l a in
    finb r = true /\ val a <= val r /\
    Forall (fun c => val (cons_kWh c) <= val r) l).
  { induction W as [|c l Wc Wl IH]; intros a Fa; cbn [fold_left].
    - split; [exact Fa|]. split; [lia|constructor].
    - destruct (fgt (cons_kWh c) a) eqn:E.
      + apply (fgt_val _ _ (finb_wfb _ Wc) (finb_wfb _ Fa)) in E.
        destruct (IH (cons_kWh c) Wc) as (R1 & R2 & R3). cbv zeta in *.
        split; [exact R1|]. split; [lia|]. constructor; [exact R2|exact R3].
      + apply (fgt_false_fle _ _ (finb_wfb _ Wc) (finb_wfb _ Fa)) in E.
        apply (fle_val _ _ (finb_wfb _ Wc) (finb_wfb _ Fa)) in E.
        destruct (IH a Fa) as (R1 & R2 & R3). cbv zeta in *.
        split; [exact R1|]. split; [exact R2|]. constructor; [lia|exact R3]. }
  destruct (G (dec 10 1) eq_refl) as (R1 & R2 & R3). cbv zeta in *.
  change (val (dec 10 1)) with (2 ^ scale) in R2. auto.
Qed.

(** The filled part of a bar never leaves its frame: for listed values
    that are non-negative numbers and a frame of non-negative width, the
    filled width lies between 0 and the width of the frame. *)
Theorem bar_fill_within_frame (l : list Consumer) (barW : Z) (it : Consumer) :
  Forall (fun c => finb (cons_kWh c) = true /\ fle fzero (cons_kWh c) = true) l ->
  0 <= barW <= int_max -> In it l ->
  0 <= bar_fill_width barW (bar_maxV l) it <= barW.
Proof.
  intros W HB Hin. pose proof scale_pow_pos as Hsp.
  assert (W1 : Forall (fun c => finb (cons_kWh c) = true) l).
  { eapply Forall_impl; [|exact W]. intros c [H _]. exact H. }
  destruct (bar_maxV_bounds l W1) as (Fm & Hm1 & Hall).
  rewrite Forall_forall in W, Hall.
  destruct (W it Hin) as [Fi Pi]. specialize (Hall it Hin).
  apply (fle_val fzero _ eq_refl (finb_wfb _ Fi)) in Pi.
  change (val fzero) with 0 in Pi.
  set (maxV := bar_maxV l) in *.
  destruct (fdiv_bounds (cons_kWh it) maxV Fi Fm Pi ltac:(lia)) as (_ & Q0 & Q1 & _).
  destruct (Q1 (dec 10 1) eq_refl ltac:(cbn; lia)) as [Ff Hf].
  { change (val (dec 10 1)) with (2 ^ scale). nia. }
  specialize (Q0 Ff). change (val (dec 10 1)) with (2 ^ scale) in Hf.
  set (frac := fdiv (cons_kWh it) maxV) in *.
  destruct (of_Z_exact barW) as [Fc Vc]; [unfold int_max in HB; lia|].
  destruct (fmul_one (of_Z barW) Fc) as [F1 V1].
  destruct (fmul_zero_r (of_Z barW) Fc) as [F0 V0].
  assert (Wi : within fzero (dec 10 1) frac).
  { apply within_of_vals; [reflexivity|reflexivity|exact Ff|].
    change (val fzero) with 0. change (val (dec 10 1)) with (2 ^ scale). lia. }
  pose proof (fmul_within_l fzero (dec 10 1) (of_Z barW) frac eq_refl eq_refl Fc
                ltac:(rewrite Vc; nia) F0 F1 Wi) as Wp.
  pose proof (within_vals _ _ _ F0 F1 Wp) as [L U].
  destruct Wp as (Fp & _). rewrite V0 in L. rewrite V1, Vc in U.
  unfold bar_fill_width. fold frac.
  set (p := fmul (of_Z barW) frac) in *.
  assert (Hq : 0 <= val p / 2 ^ scale <= barW).
  { split; [apply Z.div_pos; lia|].
    apply Z.div_le_upper_bound; [lia|]. lia. }
  rewrite double_to_int_floor; [exact Hq|exact Fp|exact L|lia].
Qed.

(** *** The scale of the line chart *)

(** [ceil] of a positive double: the least integer that is not below it. *)
Lemma ceil_pos (x : spec_float) :
  finb x = true -> 0 < val x -> val x < 2 ^ 52 * 2 ^ scale ->
  finb (ceil x) = true /\
  exists c, val (ceil x) = c * 2 ^ scale /\ 0 < c <= 2 ^ 52 /\
            (c - 1) * 2 ^ scale < val x <= c * 2 ^ scale.
Proof.
  intros F H Hlt. pose proof scale_val as Hsc. pose proof scale_pow_pos as Hsp.
  destruct (val_pos_finite x F H) as (m & e & -> & Hb).
  pose proof (bounded_range m e Hb) as (He & Hm & _).
  cbn [val] in *. rewrite Z.mul_1_l in *.
  destruct e as [|p|p].
  - cbn [ceil]. split; [exact F|]. exists (Zpos m).
    cbn [val]. change (0 + scale) with scale in *. split; [lia|]. split; nia.
  - cbn [ceil]. split; [exact F|]. exists (Zpos m * 2 ^ Zpos p).
    assert (0 < 2 ^ Zpos p) by (apply pow2_pos; lia).
    assert (E : Zpos m * 2 ^ (Zpos p + scale) = Zpos m * 2 ^ Zpos p * 2 ^ scale).
    { rewrite Z.pow_add_r by lia. ring. }
    cbn [val]. rewrite Z.mul_1_l, E in *. split; [reflexivity|]. split; nia.
  - cbn [ceil].
    assert (HP : 0 < 2 ^ Zpos p) by (apply pow2_pos; lia).
    assert (HPs : 0 < 2 ^ (Zneg p + scale)) by (apply pow2_pos; lia).
    assert (ES : 2 ^ scale = 2 ^ (Zneg p + scale) * 2 ^ Zpos p).
    { rewrite <- Z.pow_add_r by lia. f_equal. lia. }
    rewrite Z.shiftr_div_pow2, Z.shiftl_mul_pow2 by lia.
    pose proof (Z.div_mod (Zpos m) (2 ^ Zpos p) ltac:(lia)) as DM.
    pose proof (Z.mod_pos_bound (Zpos m) (2 ^ Zpos p) ltac:(lia)) as BM.
    set (q := Zpos m / 2 ^ Zpos p) in *. set (r := Zpos m mod 2 ^ Zpos p) in *.
    assert (Hq0 : 0 <= q) by (apply Z.div_pos; lia).
    assert (Hq : q < 2 ^ 52).
    { apply Z.div_lt_upper_bound; [lia|].
      assert (2 * 2 ^ 52 <= 2 ^ 52 * 2 ^ Zpos p); [|lia].
      assert (2 ^ 1 <= 2 ^ Zpos p) by (apply pow2_le; lia).
      change (2 ^ 1) with 2 in *. nia. }
    set (c := if Zpos m =? q * 2 ^ Zpos p then q else q + 1).
    assert (Hc : 0 < c <= 2 ^ 52 /\
                 (c - 1) * 2 ^ Zpos p < Zpos m <= c * 2 ^ Zpos p).
    { unfold c. destruct (Z.eqb_spec (Zpos m) (q * 2 ^ Zpos p)) as [E|E]; nia. }
    destruct (of_Z_exact c) as [Fc Vc]; [lia|].
    split; [exact Fc|]. exists c. split; [exact Vc|]. split; [lia|].
    rewrite ES. nia.
Qed.

(** Two doubles that differ are at least one step of the grid apart. *)
Lemma val_step (a b : spec_float) :
  finb a = true -> finb b = true -> 0 <= val a < val b ->
  val a + 2 ^ gexp (val a) <= val b.
Proof.
  intros Fa Fb H.
  destruct (val_grid a Fa ltac:(lia)) as [ma Ea].
  destruct (val_grid b Fb ltac:(lia)) as [mb Eb].
  pose proof (gexp_mono (val a) (val b) ltac:(lia)) as Hm.
  pose proof (gexp_pos (val a)) as Hp.
  set (g := gexp (val a)) in *. set (h := gexp (val b)) in *.
  assert (HP : 0 < 2 ^ g) by (apply pow2_pos; lia).
  assert (E : val b = (mb * 2 ^ (h - g)) * 2 ^ g).
  { rewrite Eb at 1. rewrite <- Z.mul_assoc, <- Z.pow_add_r by lia.
    f_equal. f_equal. lia. }
  set (K := mb * 2 ^ (h - g)) in *.
  assert (Hlt : ma < K) by (apply (Z.mul_lt_mono_pos_r (2 ^ g)); lia).
  assert ((ma + 1) * 2 ^ g <= K * 2 ^ g) by (apply Z.mul_le_mono_nonneg_r; lia).
  lia.
Qed.

(** [ceil(maxV / 5.0) * 5.0] is a multiple of 5 that is not below [maxV].
    The quotient is rounded, but never down onto an integer: a double above
    [5 c] is too far from it for its fifth to round to [c]. *)
Lemma yMax_bounds (maxV : spec_float) :
  finb maxV = true -> 10 * 2 ^ scale <= val maxV < 2 ^ 40 * 2 ^ scale ->
  let yMax := fmul (ceil (fdiv maxV (dec 50 1))) (dec 50 1) in
  finb yMax = true /\ val maxV <= val yMax /\
  exists c, val yMax = 5 * c * 2 ^ scale /\ 2 <= c /\
            5 * (c - 1) * 2 ^ scale < val maxV.
Proof.
  intros Fm [Hlo Hhi] yMax. pose proof scale_val as Hsc.
  pose proof scale_pow_pos as Hsp. set (S := 2 ^ scale) in *.
  set (V := val maxV) in *.
  assert (F5 : finb (dec 50 1) = true) by reflexivity.
  assert (V5 : val (dec 50 1) = 5 * S) by reflexivity.
  assert (F2 : finb (dec 20 1) = true) by reflexivity.
  assert (V2 : val (dec 20 1) = 2 * S) by reflexivity.
  assert (Fb : finb (of_Z (2 ^ 38)) = true /\ val (of_Z (2 ^ 38)) = 2 ^ 38 * S)
    by (apply of_Z_exact; lia).
  destruct Fb as [Fb Vb].
  destruct (fdiv_bounds maxV (dec 50 1) Fm F5 ltac:(fold V; lia) ltac:(rewrite V5; lia))
    as (_ & _ & Qle & Qge).
  destruct (Qle (of_Z (2 ^ 38)) Fb ltac:(rewrite Vb; lia)) as [Fq Hq1].
  { rewrite Vb, V5. fold V. fold S. nia. }
  set (q := fdiv maxV (dec 50 1)) in *.
  assert (Hq2 : 2 * S <= val q).
  { rewrite <- V2. apply (Qge (dec 20 1) F2); [rewrite V2; lia| |exact Fq].
    rewrite V2, V5. fold V. fold S. nia. }
  rewrite Vb in Hq1.
  destruct (ceil_pos q Fq ltac:(lia)) as (Fc & c & Vc & Hc & Hcq).
  { fold S. assert (2 ^ 38 < 2 ^ 52) by (apply pow2_lt; lia). nia. }
  fold S in Vc, Hcq.
  set (cq := ceil q) in *.
  assert (Hc2 : 2 <= c) by nia.
  assert (Hc38 : c <= 2 ^ 38) by nia.
  (* the product with 5.0 is exact *)
  destruct (fmul_val cq (dec 50 1) Fc F5) as (Vy & Fy & _).
  rewrite Vc, V5 in Vy, Fy.
  assert (Evm : vmul (c * S) (5 * S) = 5 * c * S).
  { unfold vmul. fold S. replace (c * S * (5 * S)) with (5 * c * S * S) by ring.
    apply Z.div_mul. lia. }
  rewrite Evm in Vy, Fy.
  assert (Erd : rndS (5 * c * S) = 5 * c * S).
  { apply (rndS_exact _ (5 * c) scale); [reflexivity|].
    rewrite Z.abs_eq by nia. unfold gexp. fold S.
    assert (Z.log2 (5 * c * S) < 53 + scale); [|lia].
    apply Z.log2_lt_pow2; [nia|].
    rewrite Z.pow_add_r by lia. fold S.
    assert (5 * c < 2 ^ 53) by (assert (2 ^ 38 * 8 = 2 ^ 41) by reflexivity;
                                assert (2 ^ 41 < 2 ^ 53) by (apply pow2_lt; lia); lia).
    nia. }
  rewrite Erd in Vy, Fy.
  assert (Fin : finb yMax = true).
  { apply Fy. rewrite Z.abs_eq by nia.
    assert (2 ^ 41 * S < OVF).
    { unfold OVF, S. rewrite <- Z.pow_add_r by lia. apply pow2_lt. lia. }
    assert (2 ^ 38 * 8 = 2 ^ 41) by reflexivity. nia. }
  specialize (Vy Fin). fold yMax in Vy.
  split; [exact Fin|].
  assert (Main : V <= 5 * c * S).
  { destruct (Z_le_gt_dec V (5 * c * S)) as [L|G]; [exact L|exfalso].
    (* the quotient has been rounded down onto the integer c *)
    assert (Eq : val q = c * S).
    { assert (c * S <= val q); [|lia].
      rewrite <- Vc. apply (Qge cq Fc); [rewrite Vc; nia| |exact Fq].
      rewrite Vc, V5. fold V. fold S. nia. }
    (* and is below the next power of two *)
    set (j := Z.log2 (c * S)).
    assert (HcS : 0 < c * S) by nia.
    destruct (Z.log2_spec (c * S) HcS) as [J1 J2]. fold j in J1, J2.
    unfold Z.succ in J2.
    assert (Hj : scale + 1 <= j).
    { unfold j. assert (2 * S <= c * S) by nia.
      assert (E : 2 * S = 2 ^ (scale + 1)) by (rewrite Z.pow_add_r by lia; fold S; lia).
      rewrite E in H. apply Z.log2_le_mono in H. rewrite Z.log2_pow2 in H by lia.
      exact H. }
    assert (Hj2 : j <= scale + 38).
    { unfold j. assert (c * S <= 2 ^ (scale + 38)).
      { rewrite Z.pow_add_r by lia. fold S. nia. }
      apply Z.log2_le_mono in H. rewrite Z.log2_pow2 in H by lia. exact H. }
    assert (Fp : finb (of_Z (2 ^ (j + 1 - scale))) = true /\
                 val (of_Z (2 ^ (j + 1 - scale))) = 2 ^ (j + 1 - scale) * S).
    { apply of_Z_exact. rewrite Z.abs_eq by (apply Z.pow_nonneg; lia).
      apply pow2_lt. lia. }
    destruct Fp as [Fp Vp].
    assert (Ep : 2 ^ (j + 1 - scale) * S = 2 ^ (j + 1)).
    { unfold S. rewrite <- Z.pow_add_r by lia. f_equal. lia. }
    rewrite Ep in Vp.
    assert (Hup : V < 5 * 2 ^ (j + 1)).
    { destruct (Z_lt_ge_dec V (5 * 2 ^ (j + 1))) as [L|G']; [exact L|exfalso].
      assert (2 ^ (j + 1) <= val q); [|lia].
      rewrite <- Vp.
      apply (Qge _ Fp); [rewrite Vp; apply Z.pow_nonneg; lia| |exact Fq].
      rewrite Vp, V5. fold V. fold S. nia. }
    (* the grid of the quotient *)
    pose proof (fdiv_rounds false false) as R.
    destruct (val_pos_finite maxV Fm ltac:(fold V; lia)) as (mm & em & Em & Bm).
    specialize (R mm 5629499534213120%positive em (-50) Bm eq_refl).
    change (fdiv _ _) with (fdiv (S754_finite false mm em) (dec 50 1)) in R.
    rewrite <- Em in R. fold q in R.
    assert (EV : Zpos mm * 2 ^ (em + scale) = V).
    { unfold V. rewrite Em. cbn [val]. lia. }
    rewrite EV in R.
    change (5629499534213120 * 2 ^ (-50 + scale)) with (5 * S) in R.
    fold S in R. rewrite rndq_scale in R by lia.
    destruct (rounds_to_val _ _ _ R Fq) as [Rv _]. cbn [xorb] in Rv.
    unfold rndq in Rv.
    assert (HX : c * S <= V / 5 < 2 ^ (j + 1)).
    { split; [apply Z.div_le_lower_bound; lia|apply Z.div_lt_upper_bound; lia]. }
    assert (Hlog : Z.log2 (V / 5) = j).
    { apply Z.log2_unique; [lia|]. unfold Z.succ. lia. }
    assert (Hg : gexp (V / 5) = j - 52).
    { unfold gexp. rewrite Hlog. lia. }
    rewrite Hg in Rv. set (g := j - 52) in *.
    assert (HPg : 0 < 2 ^ g) by (apply pow2_pos; unfold g; lia).
    pose proof (rne_err V (5 * 2 ^ g) ltac:(lia)) as Err.
    set (k := rne V (5 * 2 ^ g)) in *.
    assert (Ek : k * (5 * 2 ^ g) = 5 * c * S) by nia.
    rewrite Ek in Err. rewrite Z.abs_neq in Err by lia.
    (* the next double above 5 c *)
    pose proof (val_step yMax maxV Fin Fm ltac:(rewrite Vy; fold V; nia)) as St.
    rewrite Vy in St. fold V in St.
    assert (Hh : g + 2 <= gexp (5 * c * S)).
    { unfold gexp.
      assert (4 * 2 ^ j <= 5 * c * S) by nia.
      assert (E4 : 4 * 2 ^ j = 2 ^ (j + 2)) by (rewrite Z.pow_add_r by lia; lia).
      rewrite E4 in H. apply Z.log2_le_mono in H. rewrite Z.log2_pow2 in H by lia.
      unfold g. lia. }
    assert (P : 2 ^ (g + 2) <= 2 ^ gexp (5 * c * S)) by (apply pow2_le; lia).
    rewrite Z.pow_add_r in P by (unfold g; lia). change (2 ^ 2) with 4 in P.
    lia. }
  split; [rewrite Vy; exact Main|].
  exists c. split; [exact Vy|]. split; [exact Hc2|].
  (* the multiple below is below maxV *)
  destruct (Z_lt_ge_dec (5 * (c - 1) * S) V) as [L|G]; [exact L|exfalso].
  assert (Fc1 : finb (of_Z (c - 1)) = true /\ val (of_Z (c - 1)) = (c - 1) * S).
  { apply of_Z_exact. assert (2 ^ 38 < 2 ^ 53) by (apply pow2_lt; lia). lia. }
  destruct Fc1 as [Fc1 Vc1].
  destruct (Qle (of_Z (c - 1)) Fc1 ltac:(rewrite Vc1; nia)) as [_ Hq3].
  { rewrite Vc1, V5. fold V. fold S. nia. }
  rewrite Vc1 in Hq3. lia.
Qed.

(** *** The line chart *)

Lemma line_maxV_bounds (hourly : list double) :
  Forall plain_sample hourly ->
  finb (line_maxV hourly) = true /\
  10 * 2 ^ scale <= val (line_maxV hourly) < 2 ^ 40 * 2 ^ scale /\
  Forall (fun v => val v <= val (line_maxV hourly)) hourly.
Proof.
  intros W. unfold line_maxV. pose proof scale_pow_pos as Hsp.
  assert (G : forall a, finb a = true -> val a < 2 ^ 40 * 2 ^ scale ->
    let r := fold_left (fun maxV v => if fgt v maxV then v else maxV) hourly a in
    finb r = true /\ val a <= val r < 2 ^ 40 * 2 ^ scale /\
    Forall (fun v => val v <= val r) hourly).
  { induction W as [|v l [Fv Hv] Wl IH]; intros a Fa Ha; cbn [fold_left].
    - split; [exact Fa|]. split; [lia|constructor].
    - destruct (fgt v a) eqn:E.
      + apply (fgt_val _ _ (finb_wfb _ Fv) (finb_wfb _ Fa)) in E.
        destruct (IH v Fv ltac:(lia)) as (R1 & R2 & R3). cbv zeta in *.
        split; [exact R1|]. split; [lia|]. constructor; [lia|exact R3].
      + apply (fgt_false_fle _ _ (finb_wfb _ Fv) (finb_wfb _ Fa)) in E.
        apply (fle_val _ _ (finb_wfb _ Fv) (finb_wfb _ Fa)) in E.
        destruct (IH a Fa Ha) as (R1 & R2 & R3). cbv zeta in *.
        split; [exact R1|]. split; [exact R2|]. constructor; [lia|exact R3]. }
  destruct (G (dec 100 1) eq_refl) as (R1 & R2 & R3).
  { change (val (dec 100 1)) with (10 * 2 ^ scale). lia. }
  cbv zeta in *. change (val (dec 100 1)) with (10 * 2 ^ scale) in R2. auto.
Qed.

Lemma plot_y_within (plot : RECT) (yMax v : double) :
  finb yMax = true -> finb v = true -> 0 <= val v <= val yMax -> 0 < val yMax ->
  0 <= Rect.bottom plot - Rect.top plot <= int_max ->
  Rect.top plot <= plot_y plot yMax v <= Rect.bottom plot.
Proof.
  intros Fy Fv Hv Hy HH. pose proof scale_pow_pos as Hsp.
  destruct (fdiv_bounds v yMax Fv Fy ltac:(lia) Hy) as (_ & Q0 & Q1 & _).
  destruct (Q1 (dec 10 1) eq_refl ltac:(cbn; lia)) as [Ff Hf].
  { change (val (dec 10 1)) with (2 ^ scale). nia. }
  specialize (Q0 Ff). change (val (dec 10 1)) with (2 ^ scale) in Hf.
  set (frac := fdiv v yMax) in *.
  assert (Wf : within fzero (dec 10 1) frac).
  { apply within_of_vals; [reflexivity|reflexivity|exact Ff|].
    change (val fzero) with 0. change (val (dec 10 1)) with (2 ^ scale). lia. }
  assert (W1 : within (dec 10 1) (dec 10 1) (dec 10 1)).
  { apply within_of_vals; try reflexivity. lia. }
  pose proof (fsub_within (dec 10 1) (dec 10 1) fzero (dec 10 1) (dec 10 1) frac
                eq_refl eq_refl eq_refl eq_refl eq_refl eq_refl W1 Wf) as Wt.
  change (fsub (dec 10 1) (dec 10 1)) with fzero in Wt.
  change (fsub (dec 10 1) fzero) with (dec 10 1) in Wt.
  set (t := fsub (dec 10 1) frac) in *.
  set (H := Rect.bottom plot - Rect.top plot) in *.
  destruct (of_Z_exact H) as [Fc Vc]; [unfold int_max in HH; lia|].
  destruct (fmul_one (of_Z H) Fc) as [F1 V1].
  destruct (fmul_zero_r (of_Z H) Fc) as [F0 V0].
  pose proof (fmul_within_l fzero (dec 10 1) (of_Z H) t eq_refl eq_refl Fc
                ltac:(rewrite Vc; nia) F0 F1 Wt) as Wp.
  pose proof (within_vals _ _ _ F0 F1 Wp) as [L U].
  destruct Wp as (Fp & _). rewrite V0 in L. rewrite V1, Vc in U.
  unfold plot_y. fold H. fold frac. fold t.
  set (p := fmul (of_Z H) t) in *.
  assert (Hq : 0 <= val p / 2 ^ scale <= H).
  { split; [apply Z.div_pos; lia|]. apply Z.div_le_upper_bound; lia. }
  rewrite double_to_int_floor; [unfold H in *; lia|exact Fp|exact L|lia].
Qed.

Lemma wrap_int_id (z : Z) : int_min <= z <= int_max -> wrap_int z = z.
Proof.
  unfold wrap_int, int_min, int_max. intros H.
  rewrite Z.mod_small by lia. lia.
Qed.

(** A plot rectangle in which the abscissas are computed without overflow:
    its sides are [int] values, and 23 times its width is one. *)
Lemma plot_x_exact (plot : RECT) (h : Z) :
  int_min <= Rect.left plot -> Rect.right plot <= int_max ->
  Rect.left plot <= Rect.right plot ->
  (Rect.right plot - Rect.left plot) * 23 <= int_max -> 0 <= h <= 23 ->
  plot_x plot h = Rect.left plot + (Rect.right plot - Rect.left plot) * h / 23.
Proof.
  intros HL HR HW HO Hh. unfold plot_x. set (W := Rect.right plot - Rect.left plot) in *.
  assert (H0 : 0 <= W) by (unfold W; lia).
  assert (HI : int_min <= 0) by (unfold int_min; lia).
  assert (Hp : 0 <= W * h <= W * 23) by nia.
  rewrite (wrap_int_id W) by lia.
  rewrite (wrap_int_id (W * h)) by lia.
  rewrite Z.quot_div_nonneg by lia.
  assert (Hq : 0 <= W * h / 23 <= W).
  { split; [apply Z.div_pos; lia|]. apply Z.div_le_upper_bound; lia. }
  apply wrap_int_id. unfold W in *. lia.
Qed.

Lemma plot_x_within (plot : RECT) (h : Z) :
  int_min <= Rect.left plot -> Rect.right plot <= int_max ->
  Rect.left plot <= Rect.right plot ->
  (Rect.right plot - Rect.left plot) * 23 <= int_max -> 0 <= h <= 23 ->
  Rect.left plot <= plot_x plot h <= Rect.right plot.
Proof.
  intros HL HR HW HO Hh. rewrite plot_x_exact by assumption.
  set (W := Rect.right plot - Rect.left plot) in *.
  assert (0 <= W) by (unfold W; lia).
  assert (0 <= W * h / 23 <= W).
  { split; [apply Z.div_pos; nia|]. apply Z.div_le_upper_bound; nia. }
  unfold W in *. lia.
Qed.

Lemma plot_x_mono (plot : RECT) (h k : Z) :
  int_min <= Rect.left plot -> Rect.right plot <= int_max ->
  Rect.left plot <= Rect.right plot ->
  (Rect.right plot - Rect.left plot) * 23 <= int_max -> 0 <= h <= k -> k <= 23 ->
  plot_x plot h <= plot_x plot k.
Proof.
  intros HL HR HW HO Hh Hk. rewrite !plot_x_exact by (assumption || lia).
  set (W := Rect.right plot - Rect.left plot) in *.
  assert (0 <= W) by (unfold W; lia).
  assert (W * h / 23 <= W * k / 23) by (apply Z.div_le_mono; nia). lia.
Qed.

(** Beyond that width the product overflows: in a section 200000052 wide
    the point of hour 11 is computed to the left of the plot. *)
Lemma plot_x_overflow :
  plot_x (line_plot {| Rect.left := 0; Rect.top := 0;
                       Rect.right := 200000052; Rect.bottom := 260 |}) 11
  = -91085498.
Proof. vm_compute. reflexivity. Qed.

Lemma curve_in_plot (plot : RECT) (yMax : double) (l : list double) :
  finb yMax = true -> 0 < val yMax ->
  int_min <= Rect.left plot -> Rect.right plot <= int_max ->
  Rect.left plot <= Rect.right plot ->
  (Rect.right plot - Rect.left plot) * 23 <= int_max ->
  0 <= Rect.bottom plot - Rect.top plot <= int_max ->
  Forall (fun v => finb v = true /\ 0 <= val v <= val yMax) l ->
  forall h, 0 <= h -> h + Z.of_nat (length l) <= 24 ->
    Forall (point_in plot) (curve plot yMax h l).
Proof.
  intros Fy Hy HL HR HW HO HH W. induction W as [|v l [Fv Hv] Wl IH]; intros h Hh Hlen.
  - constructor.
  - cbn [curve]. cbn [length] in Hlen. constructor; [|apply IH; lia].
    exists (plot_x plot h), (plot_y plot yMax v).
    split; [destruct (h =? 0); auto|].
    split; [apply plot_x_within; assumption || lia|apply plot_y_within; assumption].
Qed.

Lemma peak_loop_in (l : list double) :
  forall i st,
    let r := peak_loop i l st in
    (fst r = fst st \/ In (fst r) l) /\
    (snd r = snd st \/ i <= snd r < i + Z.of_nat (length l)).
Proof.
  induction l as [|v l IH]; intros i st; cbn [peak_loop length].
  - split; left; reflexivity.
  - destruct (IH (i + 1) (if fgt v (fst st) then (v, i) else st)) as [R1 R2].
    cbv zeta in *. split.
    + destruct R1 as [R1|R1]; [|right; right; exact R1].
      rewrite R1. destruct (fgt v (fst st)); cbn [fst]; [right; left|left]; reflexivity.
    + destruct R2 as [R2|R2]; [|right; lia].
      rewrite R2. destruct (fgt v (fst st)); cbn [snd]; [right; lia|left; reflexivity].
Qed.

(** The line chart stays inside its plot rectangle.  The section is given
    by [int] coordinates, and 23 times the width of its plot does not exceed
    the largest [int], so that the abscissas are computed without overflow
    (sections up to 93368906 pixels wide).  For samples that are
    non-negative numbers, the top of the scale is the least multiple of 5
    that is neither below 10 nor below a sample; every point of the curve of
    at most 24 samples lies in the plot rectangle, the curve starts at its
    left edge, and the centre of the peak marker lies in the plot rectangle
    too. *)
Theorem line_chart_in_plot (hourly : list double) (area : RECT) :
  Forall plain_sample hourly -> (length hourly <= 24)%nat ->
  int_min <= Rect.left area -> Rect.right area <= int_max ->
  int_min <= Rect.top area -> Rect.top area + 210 <= int_max ->
  Rect.left area + 52 <= Rect.right area ->
  (Rect.right area - Rect.left area - 52) * 23 <= int_max ->
  let plot := line_plot area in
  let yMax := line_yMax hourly in
  (exists c, val yMax = 5 * c * 2 ^ scale /\ 2 <= c /\
             5 * (c - 1) * 2 ^ scale < val (line_maxV hourly) <= val yMax) /\
  Forall (fun v => fle v yMax = true) hourly /\
  Forall (point_in plot) (curve plot yMax 0 hourly) /\
  (forall v rest, hourly = v :: rest ->
     exists y, curve plot yMax 0 hourly
               = Gdi (MoveToEx (Rect.left plot) y) :: curve plot yMax 1 rest) /\
  (let '(peak, peakHour) := peak_loop 0 hourly (fzero, 0) in
   Rect.left plot <= plot_x plot peakHour <= Rect.right plot /\
   Rect.top plot <= plot_y plot yMax peak <= Rect.bottom plot).
Proof.
  intros W Hlen HL HR HT HB HA HO plot yMax. pose proof scale_pow_pos as Hsp.
  destruct (line_maxV_bounds hourly W) as (Fm & Hm & Hall).
  destruct (yMax_bounds (line_maxV hourly) Fm Hm) as (Fy & Hy & c & Vy & Hc & Hlow).
  fold (line_yMax hourly) in Fy, Hy, Vy. fold yMax in Fy, Hy, Vy.
  assert (Hy0 : 0 < val yMax) by lia.
  assert (HW : Rect.left plot <= Rect.right plot) by (cbn; lia).
  assert (HPL : int_min <= Rect.left plot)
    by (unfold plot, line_plot; cbn [Rect.left]; lia).
  assert (HPR : Rect.right plot <= int_max)
    by (unfold plot, line_plot; cbn [Rect.right]; lia).
  assert (HPO : (Rect.right plot - Rect.left plot) * 23 <= int_max)
    by (unfold plot, line_plot; cbn [Rect.left Rect.right]; lia).
  assert (HH : 0 <= Rect.bottom plot - Rect.top plot <= int_max)
    by (cbn; unfold int_max; lia).
  assert (Wv : Forall (fun v => finb v = true /\ 0 <= val v <= val yMax) hourly).
  { rewrite Forall_forall in *. intros v Hv. destruct (W v Hv) as [Fv Bv].
    specialize (Hall v Hv). cbv beta in Hall. split; [exact Fv|lia]. }
  split; [exists c; split; [exact Vy|]; split; [exact Hc|lia]|].
  split.
  { rewrite Forall_forall in *. intros v Hv. destruct (Wv v Hv) as [Fv Bv].
    apply fle_val; [apply finb_wfb; exact Fv|apply finb_wfb; exact Fy|lia]. }
  split; [apply curve_in_plot; try assumption; lia|].
  split.
  { intros v rest ->. cbn [curve]. change (0 =? 0) with true. cbv iota.
    exists (plot_y plot yMax v).
    rewrite (plot_x_exact plot 0) by (assumption || lia).
    rewrite Z.mul_0_r. change (0 / 23) with 0. rewrite Z.add_0_r. reflexivity. }
  pose proof (peak_loop_in hourly 0 (fzero, 0)) as P.
  cbv zeta in P. destruct (peak_loop 0 hourly (fzero, 0)) as [peak peakHour].
  cbn [fst snd] in P. destruct P as [P1 P2].
  split; [apply plot_x_within; assumption || lia|].
  destruct P1 as [->|Hin].
  - apply plot_y_within; try assumption; try reflexivity.
    change (val fzero) with 0. lia.
  - rewrite Forall_forall in Wv. destruct (Wv peak Hin) as [Fp Bp].
    apply plot_y_within; assumption.
Qed.

(** *** The slices of the pie *)

Lemma pie_angles_head (total cur : double) (l : list Category) :
  nth 0 (pie_angles total cur l) fzero = cur.
Proof. destruct l; reflexivity. Qed.

Lemma pie_angles_tail (total cur : double) (c : Category) (l : list Category) (i : nat) :
  nth (S i) (pie_angles total cur (c :: l)) fzero
  = nth i (pie_angles total
             (fadd cur (fmul (fmul (fdiv (cat_kWh c) total) (of_Z 2)) PI_literal)) l)
          fzero.
Proof. cbn [pie_angles nth]. reflexivity. Qed.

Lemma pie_slices_nth (cos sin : double -> double) (cx cy radius : Z) (total : double)
      (l : list Category) :
  forall (k : Z) (cur : double) (i : nat) (cat : Category),
    nth_error l i = Some cat ->
    let angles := pie_angles total cur l in
    nth (S i) angles fzero
    = fadd (nth i angles fzero)
           (fmul (fmul (fdiv (cat_kWh cat) total) (of_Z 2)) PI_literal) /\
    nth i (pie_slices cos sin cx cy radius total k cur l) []
    = [ SelectHatchBrush (pie_pattern (k + Z.of_nat i));
        Gdi (SelectPen 1 0 0 0);
        Pie (cx - radius) (cy - radius) (cx + radius) (cy + radius)
            (fst (pie_point cos sin cx cy radius (nth i angles fzero)))
            (snd (pie_point cos sin cx cy radius (nth i angles fzero)))
            (fst (pie_point cos sin cx cy radius (nth (S i) angles fzero)))
            (snd (pie_point cos sin cx cy radius (nth (S i) angles fzero)));
        Gdi RestorePen;
        Gdi RestoreBrush ].
Proof.
  induction l as [|c l IH]; intros k cur i cat H; [destruct i; discriminate|].
  cbv zeta.
  set (cur' := fadd cur (fmul (fmul (fdiv (cat_kWh c) total) (of_Z 2)) PI_literal)).
  destruct i as [|i].
  - cbn [nth_error] in H. injection H as <-.
    rewrite (pie_angles_tail total cur c l 0). fold cur'.
    rewrite !pie_angles_head. rewrite Z.add_0_r.
    split; [reflexivity|]. cbn [pie_slices nth]. fold cur'. reflexivity.
  - cbn [nth_error] in H.
    destruct (IH (k + 1) cur' i cat H) as [A B]. cbv zeta in A, B.
    rewrite (pie_angles_tail total cur c l (S i)), (pie_angles_tail total cur c l i).
    fold cur'. split; [exact A|].
    cbn [pie_slices nth]. fold cur'. rewrite B.
    replace (k + 1 + Z.of_nat i) with (k + Z.of_nat (S i)) by lia.
    reflexivity.
Qed.

Lemma pie_slices_length (cos sin : double -> double) (cx cy radius : Z)
      (total : double) (l : list Category) :
  forall k cur, length (pie_slices cos sin cx cy radius total k cur l) = length l.
Proof. induction l as [|c l IH]; intros k cur; cbn [pie_slices length]; auto. Qed.

Lemma pie_angles_length (total : double) (l : list Category) :
  forall cur, length (pie_angles total cur l) = S (length l).
Proof. induction l as [|c l IH]; intros cur; cbn [pie_angles length]; auto. Qed.

Lemma pie_pattern_mod (i : Z) :
  0 <= i ->
  pie_pattern i = nth (Z.to_nat (i mod 4))
                      [HS_FDIAGONAL; HS_BDIAGONAL; HS_HORIZONTAL; HS_VERTICAL]
                      HS_FDIAGONAL.
Proof. intros H. unfold pie_pattern. rewrite Z.rem_mod_nonneg by lia. reflexivity. Qed.

(** The slices of the pie.  There is one slice per category; the first
    begins at the start angle, every slice begins where the one before it
    ends and spans its share of the full turn.  Only four hatch patterns
    exist: two slices are hatched alike exactly when their indices differ by
    a multiple of 4, so the fifth slice repeats the pattern of the first. *)
Theorem pie_slices_structure (cos sin : double -> double) (cx cy radius : Z)
        (total start : double) (cats : list Category) :
  let slices := pie_slices cos sin cx cy radius total 0 start cats in
  let angles := pie_angles total start cats in
  length slices = length cats /\
  length angles = S (length cats) /\
  nth 0 angles fzero = start /\
  (forall (i : nat) (cat : Category),
     nth_error cats i = Some cat ->
     nth (S i) angles fzero
     = fadd (nth i angles fzero)
            (fmul (fmul (fdiv (cat_kWh cat) total) (of_Z 2)) PI_literal) /\
     nth i slices []
     = [ SelectHatchBrush (pie_pattern (Z.of_nat i));
         Gdi (SelectPen 1 0 0 0);
         Pie (cx - radius) (cy - radius) (cx + radius) (cy + radius)
             (fst (pie_point cos sin cx cy radius (nth i angles fzero)))
             (snd (pie_point cos sin cx cy radius (nth i angles fzero)))
             (fst (pie_point cos sin cx cy radius (nth (S i) angles fzero)))
             (snd (pie_point cos sin cx cy radius (nth (S i) angles fzero)));
         Gdi RestorePen;
         Gdi RestoreBrush ]) /\
  (forall i j : nat,
     pie_pattern (Z.of_nat i) = pie_pattern (Z.of_nat j) <->
     (i mod 4 = j mod 4)%nat) /\
  pie_pattern 4 = pie_pattern 0.
Proof.
  intros slices angles.
  split; [apply pie_slices_length|].
  split; [apply pie_angles_length|].
  split; [apply pie_angles_head|].
  split.
  - intros i cat H.
    destruct (pie_slices_nth cos sin cx cy radius total cats 0 start i cat H) as [A B].
    split; [exact A|]. rewrite Z.add_0_l in B. exact B.
  - split; [|reflexivity].
    intros i j. rewrite !pie_pattern_mod by lia.
    assert (Hi : (0 <= Z.of_nat i mod 4 < 4)) by (apply Z.mod_pos_bound; lia).
    assert (Hj : (0 <= Z.of_nat j mod 4 < 4)) by (apply Z.mod_pos_bound; lia).
    assert (Ei : Z.of_nat (i mod 4) = Z.of_nat i mod 4)
      by (rewrite Nat2Z.inj_mod; reflexivity).
    assert (Ej : Z.of_nat (j mod 4) = Z.of_nat j mod 4)
      by (rewrite Nat2Z.inj_mod; reflexivity).
    split.
    + intros H. apply Nat2Z.inj. rewrite Ei, Ej.
      set (a := Z.of_nat i mod 4) in *. set (b := Z.of_nat j mod 4) in *.
      assert (Ha : a = 0 \/ a = 1 \/ a = 2 \/ a = 3) by lia.
      assert (Hb : b = 0 \/ b = 1 \/ b = 2 \/ b = 3) by lia.
      destruct Ha as [Ha|[Ha|[Ha|Ha]]]; destruct Hb as [Hb|[Hb|[Hb|Hb]]];
        rewrite Ha, Hb in H |- *; try reflexivity; cbn in H; discriminate.
    + intros H. rewrite <- Ei, <- Ej, H. reflexivity.
Qed.

(** *** The shares of the categories *)

Lemma fdiv_between (x y lo hi : spec_float) :
  finb x = true -> finb y = true -> 0 <= val x -> 0 < val y ->
  finb lo = true -> finb hi = true -> 0 <= val lo -> 0 <= val hi ->
  val lo * val y <= val x * 2 ^ scale -> val x * 2 ^ scale <= val hi * val y ->
  within lo hi (fdiv x y).
Proof.
  intros Fx Fy Hx Hy Fl Fh Hl Hh H1 H2.
  destruct (fdiv_bounds x y Fx Fy Hx Hy) as (_ & _ & Q1 & Q2).
  destruct (Q1 hi Fh Hh H2) as [Fq Hq].
  specialize (Q2 lo Fl Hl H1 Fq).
  apply within_of_vals; auto.
Qed.

Lemma scale_atoms80 :
  exists U, 0 < U /\ 2 ^ scale = 2 ^ 80 * U /\ 2 ^ (scale - 43) = 2 ^ 37 * U /\
            2 ^ (scale + 10) = 2 ^ 90 * U /\ 2 ^ (scale - 36) = 2 ^ 44 * U /\
            forall k, -80 <= k -> 2 ^ (k + scale) = 2 ^ (k + 80) * U.
Proof.
  pose proof scale_val as Hsc. exists (2 ^ (scale - 80)).
  split; [apply pow2_pos; lia|].
  repeat split; try intros k Hk; rewrite <- !Z.pow_add_r by lia; f_equal; lia.
Qed.

(** [100.0 * c] for a value below 2^10. *)
Lemma fmul_hundred (c : spec_float) :
  finb c = true -> 0 <= val c < 2 ^ (scale + 10) ->
  finb (fmul (dec 1000 1) c) = true /\
  2 * Z.abs (val (fmul (dec 1000 1) c) - 100 * val c) <= 2 ^ (scale - 36).
Proof.
  intros Fc Hc. pose proof scale_val as Hsc. pose proof scale_pow_pos as HP.
  destruct (fmul_val (dec 1000 1) c eq_refl Fc) as (V & F & _).
  change (val (dec 1000 1)) with (100 * 2 ^ scale) in *.
  assert (E : vmul (100 * 2 ^ scale) (val c) = 100 * val c).
  { unfold vmul. replace (100 * 2 ^ scale * val c) with (100 * val c * 2 ^ scale) by ring.
    apply Z.div_mul. lia. }
  rewrite E in *.
  assert (HB : Z.abs (100 * val c) < 2 ^ (scale + 17)).
  { replace (scale + 17) with (7 + (scale + 10)) by lia.
    rewrite Z.pow_add_r by lia. change (2 ^ 7) with 128. lia. }
  pose proof (rndS_err (100 * val c) (scale + 17) HB ltac:(lia)) as HE.
  replace (scale + 17 - 53) with (scale - 36) in HE by lia.
  assert (HO : Z.abs (rndS (100 * val c)) < OVF).
  { assert (2 ^ (scale - 36) < 2 ^ (scale + 17)) by (apply pow2_lt; lia).
    assert (2 ^ (scale + 18) < OVF) by (unfold OVF; apply pow2_lt; lia).
    replace (scale + 18) with (1 + (scale + 17)) in * by lia.
    rewrite (Z.pow_add_r 2 1 (scale + 17)) in * by lia. change (2 ^ 1) with 2 in *.
    pose proof (pow2_pos (scale - 36) ltac:(lia)). lia. }
  specialize (F HO). split; [exact F|]. rewrite (V F). exact HE.
Qed.

Lemma category_shares (total : spec_float) :
  finb total = true -> 72 * 2 ^ scale <= val total <= 742 * 2 ^ scale ->
  let cs := derive_categories total in
  let s := fold_left fadd (map cat_kWh cs) fzero in
  Forall2 (share_in s) cs share_bounds.
Proof.
  intros Ft Hv cs s.
  destruct (categories_sum_close total Ft Hv) as [Fs Hs]. fold cs in Fs, Hs. fold s in Fs, Hs.
  destruct scale_atoms80 as (U & HU & E0 & E43 & E10 & E36 & EK).
  assert (Hv' : 0 <= val total < 2 ^ (scale + 10)).
  { rewrite E10, E0 in *. change (2 ^ 90) with (1024 * 2 ^ 80). lia. }
  unfold cs, derive_categories, cats, share_bounds. cbn [map fst snd].
  change (dec 42 2) with (S754_finite false 7566047373982433 (-54)).
  change (dec 22 2) with (S754_finite false 7926335344172073 (-55)).
  change (dec 18 2) with (S754_finite false 6485183463413514 (-55)).
  change (dec 10 2) with (S754_finite false 7205759403792794 (-56)).
  change (dec 8 2) with (S754_finite false 5764607523034235 (-56)).
  set (t := val total) in *. set (sv := val s) in *.
  assert (Hs0 : 0 < sv) by (rewrite E0 in Hv, Hs; lia).
  assert (G : forall (m : positive) (e : Z) (lo hi plo phi : positive) (el eh pl ph : Z),
    bounded prec emax m e = true -> -60 <= e <= -53 ->
    finb (S754_finite false lo el) = true -> finb (S754_finite false hi eh) = true ->
    finb (S754_finite false plo pl) = true -> finb (S754_finite false phi ph) = true ->
    -80 <= el -> -80 <= eh -> -80 <= pl -> -80 <= ph ->
    (forall X c p : Z,
       2 ^ (- e) * X <= t * Zpos m < 2 ^ (- e) * (X + 1) ->
       2 * Z.abs (c - X) <= 2 ^ 37 * U ->
       (0 <= c < 2 ^ 90 * U) /\
       (2 * Z.abs (p - 100 * c) <= 2 ^ 44 * U ->
        Zpos lo * 2 ^ (el + 80) * sv <= c * 2 ^ 80 /\
        c * 2 ^ 80 <= Zpos hi * 2 ^ (eh + 80) * sv /\
        Zpos plo * 2 ^ (pl + 80) * sv <= p * 2 ^ 80 /\
        p * 2 ^ 80 <= Zpos phi * 2 ^ (ph + 80) * sv /\ 0 <= p)) ->
    share_in s {| cat_name := EmptyString;
                  cat_kWh := fmul total (S754_finite false m e) |}
             ((S754_finite false lo el, S754_finite false hi eh),
              (S754_finite false plo pl, S754_finite false phi ph))).
  { intros m e lo hi plo phi el eh pl ph Bm He Flo Fhi Fplo Fphi Hel Heh Hpl Hph N.
    destruct (fmul_share_err total m e Ft Hv' Bm He) as (X & Fc & BX & RX & DX).
    cbv zeta in Fc, DX. set (c := fmul total (S754_finite false m e)) in *.
    fold t in BX. rewrite E43 in DX.
    destruct (N X (val c) (val (fmul (dec 1000 1) c)) BX DX) as [Hc N2].
    rewrite <- E10 in Hc.
    destruct (fmul_hundred c Fc Hc) as [Fp DP]. rewrite E36 in DP.
    destruct (N2 DP) as (L1 & L2 & L3 & L4 & Hp).
    unfold share_in, iv_in. cbn [fst snd cat_kWh]. fold c.
    assert (V : forall (m0 : positive) (e0 : Z), -80 <= e0 ->
              val (S754_finite false m0 e0) = Zpos m0 * 2 ^ (e0 + 80) * U).
    { intros m0 e0 H0. cbn [val]. rewrite EK by lia. ring. }
    assert (P : forall (m0 : positive) (e0 : Z), -80 <= e0 ->
              0 <= Zpos m0 * 2 ^ (e0 + 80) * U).
    { intros m0 e0 H0. pose proof (pow2_pos (e0 + 80) ltac:(lia)).
      apply Z.mul_nonneg_nonneg; [apply Z.mul_nonneg_nonneg|]; lia. }
    assert (M : forall a b, a <= b -> a * U <= b * U).
    { intros a b Hab. apply Z.mul_le_mono_nonneg_r; lia. }
    split.
    - apply fdiv_between;
        [exact Fc|exact Fs|lia|exact Hs0|exact Flo|exact Fhi
        |rewrite V by lia; apply P; lia|rewrite V by lia; apply P; lia| | ];
        rewrite V by lia; fold sv; rewrite E0.
      + replace (Z.pos lo * 2 ^ (el + 80) * U * sv)
          with (Z.pos lo * 2 ^ (el + 80) * sv * U) by ring.
        replace (val c * (2 ^ 80 * U)) with (val c * 2 ^ 80 * U) by ring.
        apply M. exact L1.
      + replace (Z.pos hi * 2 ^ (eh + 80) * U * sv)
          with (Z.pos hi * 2 ^ (eh + 80) * sv * U) by ring.
        replace (val c * (2 ^ 80 * U)) with (val c * 2 ^ 80 * U) by ring.
        apply M. exact L2.
    - set (p := fmul (dec 1000 1) c) in *.
      apply fdiv_between;
        [exact Fp|exact Fs|exact Hp|exact Hs0|exact Fplo|exact Fphi
        |rewrite V by lia; apply P; lia|rewrite V by lia; apply P; lia| | ];
        rewrite V by lia; fold sv; rewrite E0.
      + replace (Z.pos plo * 2 ^ (pl + 80) * U * sv)
          with (Z.pos plo * 2 ^ (pl + 80) * sv * U) by ring.
        replace (val p * (2 ^ 80 * U)) with (val p * 2 ^ 80 * U) by ring.
        apply M. exact L3.
      + replace (Z.pos phi * 2 ^ (ph + 80) * U * sv)
          with (Z.pos phi * 2 ^ (ph + 80) * sv * U) by ring.
        replace (val p * (2 ^ 80 * U)) with (val p * 2 ^ 80 * U) by ring.
        apply M. exact L4. }
  assert (R : forall (n1 n2 : string) v b,
             share_in s {| cat_name := n1; cat_kWh := v |} b ->
             share_in s {| cat_name := n2; cat_kWh := v |} b) by (intros; assumption).
  repeat (constructor;
    [ eapply R; apply G; try reflexivity; try lia;
      intros X c p BX DX; rewrite E0 in Hv, Hs;
      match type of BX with context [2 ^ (- ?e)] =>
        let v := eval vm_compute in (2 ^ (- e)) in change (2 ^ (- e)) with v in BX end;
      change (2 ^ 37) with 137438953472 in *;
      change (2 ^ 44) with 17592186044416 in *;
      change (2 ^ 90) with 1237940039285380274899124224 in *;
      change (2 ^ 80) with 1208925819614629174706176 in *;
      cbn [Z.add Z.pos_sub Pos.add Pos.succ Pos.pred_double Z.succ_double Z.pred_double Z.double Pos.add_carry];
      repeat match goal with |- context [2 ^ Zpos ?k] =>
        let v := eval vm_compute in (2 ^ Zpos k) in change (2 ^ Zpos k) with v end;
      lia
    | ]).
  constructor.
Qed.

(** *** Percentages and angles on a simulated day *)

Lemma B2Q_near (a : spec_float) (k : Z) (p : positive) :
  finb a = true -> Z.abs k < 2 ^ 53 ->
  Z.abs (val a - k * 2 ^ scale) * Zpos p < 2 ^ scale ->
  (Qabs (B2Q a - inject_Z k) < 1 # p)%Q.
Proof.
  intros Fa Hk H. pose proof scale_pow_pos as HP.
  destruct (of_Z_exact k Hk) as [Fb Vb].
  assert (E : (B2Q (of_Z k) == inject_Z k)%Q).
  { pose proof (B2Q_val (of_Z k) Fb) as Eb. rewrite Vb, inject_Z_mult in Eb.
    apply Qmult_inj_r in Eb; [exact Eb|].
    intros C. unfold Qeq in C. cbn [Qnum Qden inject_Z] in C. lia. }
  rewrite <- E. apply B2Q_close; auto. rewrite Vb. exact H.
Qed.

Lemma Forall2_map_bounds {A B C D : Type} (P : A -> B -> Prop) (G : B -> C -> Prop)
      (Q : D -> C -> Prop) (f : A -> D) :
  (forall a b k, P a b -> G b k -> Q (f a) k) ->
  forall l bs ks, Forall2 P l bs -> Forall2 G bs ks -> Forall2 Q (map f l) ks.
Proof.
  intros H l bs ks HP. revert ks.
  induction HP as [|a b l bs Hab HP IH]; intros ks HG; inversion HG; subst; cbn [map].
  - constructor.
  - constructor; [eapply H; eassumption|apply IH; assumption].
Qed.

Lemma percent_near_ok (s : double) (c : Category) (b : iv * iv) (k : Z) :
  share_in s c b -> percent_near b k = true ->
  let pct := fdiv (fmul (dec 1000 1) (cat_kWh c)) s in
  finb pct = true /\ (Qabs (B2Q pct - inject_Z k) < 1 # 100000)%Q.
Proof.
  intros [_ H] N pct. fold pct in H. unfold percent_near, iv_ok in N.
  rewrite !andb_true_iff, !Z.ltb_lt in N.
  destruct N as ((([Fl Fh] & N1) & N2) & Hk).
  pose proof (within_vals _ _ _ Fl Fh H) as [V1 V2].
  destruct H as (Fp & _). split; [exact Fp|].
  apply B2Q_near; [exact Fp|exact Hk|]. lia.
Qed.

Lemma simulated_shares (sin : double -> double)
      (sort : (Consumer -> Consumer -> bool) -> list Consumer -> list Consumer)
      (seed : Z) (t : SYSTEMTIME) :
  sin_ok sin ->
  let day := simulateEnergyDayFrom sin sort seed t in
  Forall2 (share_in (pie_total day)) (categoryBreakdown day) share_bounds.
Proof.
  intros Hsin day.
  destruct (day_fields sin sort seed t) as (E & _). fold day in E.
  destruct (simulated_total sin sort seed t Hsin) as [Ft Hv]. fold day in Ft, Hv.
  unfold pie_total. rewrite fold_left_map_kWh, E.
  apply category_shares; assumption.
Qed.

(** The legend of the pie chart.  On every simulated day the percentages
    [100.0 * cat.kWh / total] of the five categories are numbers within
    1/100000 of 42, 22, 18, 10 and 8, so that any formatting without
    decimals that rounds to the nearest integer prints these shares. *)
Theorem pie_legend_percent (sin : double -> double)
        (sort : (Consumer -> Consumer -> bool) -> list Consumer -> list Consumer)
        (seed : Z) (t : SYSTEMTIME) :
  sin_ok sin ->
  let day := simulateEnergyDayFrom sin sort seed t in
  Forall2 (fun pct k => finb pct = true /\ (Qabs (B2Q pct - inject_Z k) < 1 # 100000)%Q)
          (pie_percents day) [42; 22; 18; 10; 8].
Proof.
  intros Hsin day. unfold pie_percents.
  apply (Forall2_map_bounds (share_in (pie_total day))
           (fun b k => percent_near b k = true)) with (bs := share_bounds).
  - intros c b k H N. apply (percent_near_ok _ c b k H N).
  - apply simulated_shares. exact Hsin.
  - repeat constructor; vm_compute; reflexivity.
Qed.

Lemma angle_bounds_in (s : double) :
  forall (cs : list Category) (bs : list (iv * iv)) (cur : iv) (a : double),
    Forall2 (share_in s) cs bs -> angle_bounds_ok cur bs = true -> iv_in cur a ->
    Forall2 iv_in (angle_bounds cur bs) (pie_angles s a cs).
Proof.
  intros cs bs cur a H. revert cur a.
  induction H as [|c b cs bs [Hc _] H IH]; intros cur a Hok Ha.
  - cbn [angle_bounds pie_angles]. constructor; [exact Ha|constructor].
  - cbn [angle_bounds pie_angles]. constructor; [exact Ha|].
    cbn [angle_bounds_ok] in Hok. cbv zeta in Hok.
    rewrite !andb_true_iff in Hok. destruct Hok as (Oc & ((Ob & O2) & Os) & Or).
    assert (N2 : nonneg_const (of_Z 2) = true) by (vm_compute; reflexivity).
    assert (NP : nonneg_const PI_literal = true) by (vm_compute; reflexivity).
    apply IH; [exact Or|].
    assert (Oa : iv_ok (iv_add cur (iv_mul_r (iv_mul_r (fst b) (of_Z 2)) PI_literal)) = true).
    { destruct bs; cbn [angle_bounds_ok] in Or; rewrite ?andb_true_iff in Or; tauto. }
    apply iv_add_in; [exact Oc|exact Os|exact Oa|exact Ha|].
    apply iv_mul_r_in; [exact O2|exact NP|exact Os|].
    apply iv_mul_r_in; [exact Ob|exact N2|exact O2|exact Hc].
Qed.

Lemma simulated_angles_in (sin : double -> double)
      (sort : (Consumer -> Consumer -> bool) -> list Consumer -> list Consumer)
      (seed : Z) (t : SYSTEMTIME) :
  sin_ok sin ->
  let day := simulateEnergyDayFrom sin sort seed t in
  let startAngle := fdiv (SFopp PI_literal) (of_Z 2) in
  Forall2 iv_in simulated_angles
          (pie_angles (pie_total day) startAngle (categoryBreakdown day)).
Proof.
  intros Hsin day startAngle.
  pose proof (simulated_shares sin sort seed t Hsin) as H. fold day in H.
  assert (Hs : iv_in (iv_point startAngle) startAngle)
    by (apply iv_point_in; vm_compute; reflexivity).
  assert (Ok : angle_bounds_ok (iv_point startAngle) share_bounds = true)
    by (vm_compute; reflexivity).
  pose proof (angle_bounds_in (pie_total day) (categoryBreakdown day) share_bounds
                (iv_point startAngle) startAngle H Ok Hs) as HA.
  assert (W : Forall2 (fun i j => iv_subset i j = true)
                      (angle_bounds (iv_point startAngle) share_bounds) simulated_angles).
  { repeat constructor; vm_compute; reflexivity. }
  revert HA W. generalize (angle_bounds (iv_point startAngle) share_bounds).
  generalize (pie_angles (pie_total day) startAngle (categoryBreakdown day)).
  generalize simulated_angles.
  intros js xs ivs HA. revert js. induction HA as [|i x ivs xs Hi HA IH]; intros js W.
  - inversion W. constructor.
  - inversion W as [|? j ? js' Hij W']; subst. constructor; [|apply IH; exact W'].
    unfold iv_subset in Hij. rewrite !andb_true_iff in Hij.
    destruct Hij as (((Oi & Oj) & L) & U).
    apply (iv_in_weaken i j); assumption.
Qed.

(** The slices of the pie on a simulated day.  The first slice begins at
    -pi/2 (twelve o'clock), the boundaries between the slices are at
    1.06814, 2.45044, 3.58141 and 4.20973 radians, and the last slice ends at
    3 pi / 2 = 4.71238: up to 1/100000 the slices span 0.42, 0.22, 0.18, 0.10
    and 0.08 of the full turn, and the pie closes. *)
Theorem pie_angles_simulated (sin : double -> double)
        (sort : (Consumer -> Consumer -> bool) -> list Consumer -> list Consumer)
        (seed : Z) (t : SYSTEMTIME) :
  sin_ok sin ->
  let day := simulateEnergyDayFrom sin sort seed t in
  let startAngle := fdiv (SFopp PI_literal) (of_Z 2) in
  Forall2 iv_in simulated_angles
          (pie_angles (pie_total day) startAngle (categoryBreakdown day)).
Proof. exact (simulated_angles_in sin sort seed t). Qed.

(** *** The radial end points of the slices *)

(** [(int) x] for a double of magnitude at most [r]: an integer of magnitude
    at most [r]. *)
Lemma double_to_int_abs (x : spec_float) (r : Z) :
  finb x = true -> 0 <= r <= int_max -> Z.abs (val x) <= r * 2 ^ scale ->
  - r <= double_to_int x <= r.
Proof.
  intros F Hr H. pose proof scale_val as Hsc. pose proof scale_pow_pos as Hsp.
  destruct (finb_inv x F) as [[s ->]|(s & m & e & -> & Hb)].
  - cbn [double_to_int]. lia.
  - destruct (val_finite_sign s m e Hb) as (_ & A & _). rewrite A in H.
    pose proof (finite_val_pos m e Hb) as P.
    apply bounded_range in Hb. destruct Hb as (He & _).
    assert (Ea : match e with
                 | Zneg n => Z.shiftr (Zpos m) (Zpos n)
                 | _ => Z.shiftl (Zpos m) e
                 end = Zpos m * 2 ^ (e + scale) / 2 ^ scale).
    { destruct e as [|p|p].
      - rewrite Z.shiftl_0_r, Z.add_0_l, Z.div_mul by lia. reflexivity.
      - rewrite Z.shiftl_mul_pow2 by lia.
        rewrite Z.pow_add_r, Z.mul_assoc, Z.div_mul by lia. reflexivity.
      - rewrite Z.shiftr_div_pow2 by lia.
        assert (E : 2 ^ scale = 2 ^ (Zneg p + scale) * 2 ^ Zpos p).
        { rewrite <- Z.pow_add_r by lia. f_equal. lia. }
        assert (0 < 2 ^ (Zneg p + scale)) by (apply pow2_pos; lia).
        assert (0 < 2 ^ Zpos p) by (apply pow2_pos; lia).
        rewrite E, (Z.mul_comm (Zpos m)), Z.div_mul_cancel_l by lia. reflexivity. }
    unfold double_to_int. rewrite Ea.
    set (a := Zpos m * 2 ^ (e + scale) / 2 ^ scale) in *.
    assert (Ha : 0 <= a <= r).
    { split; [apply Z.div_pos; lia|].
      apply Z.div_le_upper_bound; lia. }
    unfold int_min, int_max in *.
    destruct s.
    + replace ((- 2 ^ 31 <=? - a) && (- a <=? 2 ^ 31 - 1)) with true; [lia|].
      symmetry. apply andb_true_iff. split; apply Z.leb_le; lia.
    + replace ((- 2 ^ 31 <=? a) && (a <=? 2 ^ 31 - 1)) with true; [lia|].
      symmetry. apply andb_true_iff. split; apply Z.leb_le; lia.
Qed.

(** [radius * f(angle)] for a value [f(angle)] in [-1, 1]. *)
Lemma radius_times_unit (radius : Z) (u : spec_float) :
  0 <= radius <= int_max -> iv_in (SFopp (dec 10 1), dec 10 1) u ->
  - radius <= double_to_int (fmul (of_Z radius) u) <= radius.
Proof.
  intros Hr Hu. pose proof scale_pow_pos as Hsp.
  unfold iv_in in Hu. cbn [fst snd] in Hu.
  pose proof (within_vals (SFopp (dec 10 1)) (dec 10 1) u eq_refl eq_refl Hu) as [L U].
  change (val (SFopp (dec 10 1))) with (- 2 ^ scale) in L.
  change (val (dec 10 1)) with (2 ^ scale) in U.
  destruct Hu as (Fu & _).
  destruct (of_Z_exact radius) as [Fc Vc]; [unfold int_max in Hr; lia|].
  destruct (fmul_val (of_Z radius) u Fc Fu) as (V & Fin & _).
  rewrite Vc in V, Fin.
  assert (R : rndS (radius * 2 ^ scale) = radius * 2 ^ scale).
  { rewrite <- Vc.
    destruct (finb_inv (of_Z radius) Fc) as [[s ->]|(s & m & e & -> & Hb)]; [apply rndS_0|].
    rewrite rndS_sign. destruct (val_finite_sign s m e Hb) as (S1 & S2 & _).
    rewrite S1, S2, finite_rnd_self by assumption.
    cbn [val]. destruct s; lia. }
  assert (B : - (radius * 2 ^ scale) <= vmul (radius * 2 ^ scale) (val u)
              <= radius * 2 ^ scale).
  { unfold vmul.
    replace (radius * 2 ^ scale * val u) with (radius * val u * 2 ^ scale) by ring.
    rewrite Z.div_mul by lia. nia. }
  assert (B' : - (radius * 2 ^ scale) <= rndS (vmul (radius * 2 ^ scale) (val u))
               <= radius * 2 ^ scale).
  { split.
    - rewrite <- R at 1. rewrite <- rndS_opp. apply rndS_mono. lia.
    - rewrite <- R at 2. apply rndS_mono. lia. }
  assert (O : radius * 2 ^ scale < OVF).
  { pose proof (finb_val_lt _ Fc) as Lc. rewrite Vc in Lc. lia. }
  assert (Fp : finb (fmul (of_Z radius) u) = true) by (apply Fin; lia).
  apply double_to_int_abs; [exact Fp|exact Hr|]. rewrite (V Fp). lia.
Qed.

Lemma pie_point_in (cos sin : double -> double) (cx cy radius : Z) (angle : double) :
  cos_ok cos -> cos_ok sin -> 0 <= radius <= int_max -> finb angle = true ->
  let p := pie_point cos sin cx cy radius angle in
  cx - radius <= fst p <= cx + radius /\ cy - radius <= snd p <= cy + radius.
Proof.
  intros Hc Hs Hr Fa p. unfold p, pie_point. cbn [fst snd].
  pose proof (radius_times_unit radius (cos angle) Hr (Hc angle Fa)).
  pose proof (radius_times_unit radius (sin angle) Hr (Hs angle Fa)).
  lia.
Qed.

Lemma pie_slices_in_box (cos sin : double -> double) (cx cy radius : Z)
      (total : double) (l : list Category) :
  cos_ok cos -> cos_ok sin -> 0 <= radius <= int_max ->
  forall (i : Z) (cur : double),
    Forall (fun a => finb a = true) (pie_angles total cur l) ->
    Forall radials_in_box (concat (pie_slices cos sin cx cy radius total i cur l)).
Proof.
  intros Hc Hs Hr. induction l as [|c l IH]; intros i cur HA.
  - constructor.
  - cbn [pie_angles] in HA. inversion HA as [|? ? Fcur HA']; subst.
    cbn [pie_slices concat app].
    set (nxt := fadd cur (fmul (fmul (fdiv (cat_kWh c) total) (of_Z 2)) PI_literal)) in *.
    assert (Fn : finb nxt = true).
    { destruct l; cbn [pie_angles] in HA'; inversion HA'; assumption. }
    constructor; [exact I|]. constructor; [exact I|].
    constructor.
    { cbn [radials_in_box]. split; apply pie_point_in; assumption. }
    constructor; [exact I|]. constructor; [exact I|].
    apply IH. exact HA'.
Qed.

Lemma legend_rows_no_pie (format_fixed : nat -> double -> string) (area : RECT)
      (total : double) (l : list Category) :
  forall i legendY,
    Forall radials_in_box (concat (legend_rows format_fixed area total i legendY l)).
Proof.
  induction l as [|c l IH]; intros i legendY; [constructor|].
  cbn [legend_rows concat]. unfold legend_row. cbv zeta. cbn [app].
  repeat (constructor; [exact I|]). apply IH.
Qed.

Lemma sin_ok_finite (sin : double -> double) : sin_ok sin -> cos_ok sin.
Proof. intros H x _. apply H. Qed.

(** The pie chart of a simulated day.  Every slice is drawn with radial end
    points inside the bounding square of the pie, a square of side 140 whose
    centre is 100 to the right and 170 below the corner of the section; for
    this the sine and the cosine need only return values in [-1, 1]. *)
Theorem pie_chart_radials (format_fixed : nat -> double -> string)
        (cos sin : double -> double)
        (sort : (Consumer -> Consumer -> bool) -> list Consumer -> list Consumer)
        (seed : Z) (t : SYSTEMTIME) (area : RECT) :
  sin_ok sin -> cos_ok cos ->
  let day := simulateEnergyDayFrom sin sort seed t in
  Forall radials_in_box (DrawPieChart format_fixed cos sin day area) /\
  Forall (fun c => match c with
                   | Pie l t r b _ _ _ _ =>
                       l = Rect.left area + 30 /\ t = Rect.top area + 100 /\
                       r = Rect.left area + 170 /\ b = Rect.top area + 240
                   | _ => True
                   end)
         (DrawPieChart format_fixed cos sin day area).
Proof.
  intros Hsin Hcos day.
  pose proof (simulated_angles_in sin sort seed t Hsin) as HA. cbv zeta in HA. fold day in HA.
  assert (FA : Forall (fun a => finb a = true)
                 (pie_angles (pie_total day) (fdiv (SFopp PI_literal) (of_Z 2))
                             (categoryBreakdown day))).
  { revert HA. generalize simulated_angles.
    generalize (pie_angles (pie_total day) (fdiv (SFopp PI_literal) (of_Z 2))
                           (categoryBreakdown day)).
    intros xs js H. induction H as [|j x js xs [F _] H IH]; [constructor|].
    constructor; [exact F|exact IH]. }
  unfold DrawPieChart. cbv zeta. split.
  - apply Forall_app. split.
    { apply Forall_forall. intros c Hin. apply in_map_iff in Hin.
      destruct Hin as (d & <- & _). exact I. }
    apply Forall_app. split.
    { apply pie_slices_in_box; auto using sin_ok_finite.
      unfold int_max. lia. }
    apply Forall_app. split; [apply legend_rows_no_pie|].
    constructor; [exact I|constructor].
  - clear HA FA. apply Forall_app. split.
    { apply Forall_forall. intros c Hin. apply in_map_iff in Hin.
      destruct Hin as (d & <- & _). exact I. }
    apply Forall_app. split.
    { generalize (fdiv (SFopp PI_literal) (of_Z 2)). generalize 0.
      induction (categoryBreakdown day) as [|c l IH]; intros i cur; [constructor|].
      cbn [pie_slices concat app].
      constructor; [exact I|]. constructor; [exact I|].
      constructor; [repeat split; lia|].
      constructor; [exact I|]. constructor; [exact I|]. apply IH. }
    apply Forall_app. split.
    { generalize (Rect.top area + 90). generalize 0.
      induction (categoryBreakdown day) as [|c l IH]; intros i y; [constructor|].
      cbn [legend_rows concat]. unfold legend_row. cbv zeta. cbn [app].
      repeat (constructor; [exact I|]). apply IH. }
    constructor; [exact I|constructor].
Qed.

(** *** The theorems at sample inputs *)

Lemma cos_table_ok : cos_ok cos_table.
Proof. intros x _. apply sin_table_ok. Qed.

Lemma sample_hours_plain : Forall plain_sample sample_hours.
Proof.
  repeat constructor; try (vm_compute; reflexivity); vm_compute; discriminate.
Qed.

(** The generator started from the seed of the program. *)
Lemma generator_full_period_witness :
  0 <= 12648430 < 2 ^ 64 /\
  (state_after (2 ^ 64) 12648430 = 12648430 <-> (2 ^ 64 | Z.of_N (2 ^ 64))).
Proof.
  assert (H : 0 <= 12648430 < 2 ^ 64) by lia.
  split; [exact H|]. exact (generator_full_period 12648430 (2 ^ 64) H).
Defined.

(** The date of the first of January 2026. *)
Lemma formatDate_roundtrip_witness :
  0 <= wDay noon /\ 0 <= wMonth noon /\ 0 <= wYear noon /\
  parse_date (formatDate noon) = Some (wDay noon, wMonth noon, wYear noon) /\
  (wDay noon <= 99 -> wMonth noon <= 99 -> 1000 <= wYear noon <= 9999 ->
   String.length (formatDate noon) = 10%nat /\
   String.get 2 (formatDate noon) = Some "."%char /\
   String.get 5 (formatDate noon) = Some "."%char).
Proof.
  assert (Hd : 0 <= wDay noon) by (cbn; lia).
  assert (Hm : 0 <= wMonth noon) by (cbn; lia).
  assert (Hy : 0 <= wYear noon) by (cbn; lia).
  split; [exact Hd|]. split; [exact Hm|]. split; [exact Hy|].
  exact (formatDate_roundtrip noon Hd Hm Hy).
Defined.

(** The table of three samples, sorted by insertion. *)
Lemma table_rows_top_witness :
  std_sort_rows_ok insertion_sort_rows /\
  Forall (fun v => wfb v = true) sample_hours /\
  (let rows := table_rows insertion_sort_rows sample_hours in
   length rows = Nat.min 10 (length sample_hours) /\
   NoDup (map row_hour rows) /\
   Forall (fun r => exists k : nat, (k < length sample_hours)%nat /\
                      row_hour r = Z.of_nat k /\ row_v r = nth k sample_hours fzero) rows /\
   StronglySorted (fun a b => fle (row_v b) (row_v a) = true) rows /\
   (forall k : nat, (k < length sample_hours)%nat ->
      ~ In (Z.of_nat k) (map row_hour rows) ->
      Forall (fun r => fle (nth k sample_hours fzero) (row_v r) = true) rows)).
Proof.
  assert (W : Forall (fun v => wfb v = true) sample_hours)
    by (repeat constructor).
  split; [exact insertion_sort_rows_ok|]. split; [exact W|].
  exact (table_rows_top insertion_sort_rows sample_hours insertion_sort_rows_ok W).
Defined.

(** A bar of 3.0 kWh beside one of 12.5 kWh, in a frame of 300 pixels. *)
Lemma bar_fill_within_frame_witness :
  Forall (fun c => finb (cons_kWh c) = true /\ fle fzero (cons_kWh c) = true)
         sample_consumers /\
  0 <= 300 <= int_max /\
  In {| cons_name := "B"; cons_kWh := dec 30 1 |} sample_consumers /\
  0 <= bar_fill_width 300 (bar_maxV sample_consumers)
                      {| cons_name := "B"; cons_kWh := dec 30 1 |} <= 300.
Proof.
  assert (W : Forall (fun c => finb (cons_kWh c) = true /\ fle fzero (cons_kWh c) = true)
                     sample_consumers)
    by (repeat constructor).
  assert (B : 0 <= 300 <= int_max) by (unfold int_max; lia).
  assert (I : In {| cons_name := "B"; cons_kWh := dec 30 1 |} sample_consumers)
    by (right; left; reflexivity).
  split; [exact W|]. split; [exact B|]. split; [exact I|].
  exact (bar_fill_within_frame sample_consumers 300 _ W B I).
Defined.

(** The line chart of three samples in a section of 400 by 300. *)
Lemma line_chart_in_plot_witness :
  Forall plain_sample sample_hours /\ (length sample_hours <= 24)%nat /\
  int_min <= Rect.left sample_area /\ Rect.right sample_area <= int_max /\
  int_min <= Rect.top sample_area /\ Rect.top sample_area + 210 <= int_max /\
  Rect.left sample_area + 52 <= Rect.right sample_area /\
  (Rect.right sample_area - Rect.left sample_area - 52) * 23 <= int_max /\
  (let plot := line_plot sample_area in
   let yMax := line_yMax sample_hours in
   (exists c, val yMax = 5 * c * 2 ^ scale /\ 2 <= c /\
              5 * (c - 1) * 2 ^ scale < val (line_maxV sample_hours) <= val yMax) /\
   Forall (fun v => fle v yMax = true) sample_hours /\
   Forall (point_in plot) (curve plot yMax 0 sample_hours) /\
   (forall v rest, sample_hours = v :: rest ->
      exists y, curve plot yMax 0 sample_hours
                = Gdi (MoveToEx (Rect.left plot) y) :: curve plot yMax 1 rest) /\
   (let '(peak, peakHour) := peak_loop 0 sample_hours (fzero, 0) in
    Rect.left plot <= plot_x plot peakHour <= Rect.right plot /\
    Rect.top plot <= plot_y plot yMax peak <= Rect.bottom plot)).
Proof.
  assert (L : (length sample_hours <= 24)%nat) by (cbn [length sample_hours]; lia).
  assert (HL : int_min <= Rect.left sample_area) by (cbn; unfold int_min; lia).
  assert (HR : Rect.right sample_area <= int_max) by (cbn; unfold int_max; lia).
  assert (HT : int_min <= Rect.top sample_area) by (cbn; unfold int_min; lia).
  assert (HB : Rect.top sample_area + 210 <= int_max) by (cbn; unfold int_max; lia).
  assert (A : Rect.left sample_area + 52 <= Rect.right sample_area) by (cbn; lia).
  assert (O : (Rect.right sample_area - Rect.left sample_area - 52) * 23 <= int_max)
    by (cbn; unfold int_max; lia).
  split; [exact sample_hours_plain|]. split; [exact L|].
  split; [exact HL|]. split; [exact HR|]. split; [exact HT|]. split; [exact HB|].
  split; [exact A|]. split; [exact O|].
  exact (line_chart_in_plot sample_hours sample_area sample_hours_plain L HL HR HT HB A O).
Defined.

(** The legend on the day of the program. *)
Lemma pie_legend_percent_witness :
  sin_ok sin_table /\
  (let day := simulateEnergyDayFrom sin_table stable_sort 12648430 noon in
   Forall2 (fun pct k => finb pct = true /\ (Qabs (B2Q pct - inject_Z k) < 1 # 100000)%Q)
           (pie_percents day) [42; 22; 18; 10; 8]).
Proof.
  split; [exact sin_table_ok|].
  exact (pie_legend_percent sin_table stable_sort 12648430 noon sin_table_ok).
Defined.

(** The angles of the slices on the day of the program. *)
Lemma pie_angles_simulated_witness :
  sin_ok sin_table /\
  (let day := simulateEnergyDayFrom sin_table stable_sort 12648430 noon in
   let startAngle := fdiv (SFopp PI_literal) (of_Z 2) in
   Forall2 iv_in simulated_angles
           (pie_angles (pie_total day) startAngle (categoryBreakdown day))).
Proof.
  split; [exact sin_table_ok|].
  exact (pie_angles_simulated sin_table stable_sort 12648430 noon sin_table_ok).
Defined.

(** The pie chart on the day of the program, with decimals printed as
    integers. *)
Lemma pie_chart_radials_witness :
  sin_ok sin_table /\ cos_ok cos_table /\
  (let day := simulateEnergyDayFrom sin_table stable_sort 12648430 noon in
   let drawn := DrawPieChart (fun _ x => to_wstring (double_to_int x))
                             cos_table sin_table day sample_area in
   Forall radials_in_box drawn /\
   Forall (fun c => match c with
                    | Pie l t r b _ _ _ _ =>
                        l = Rect.left sample_area + 30 /\ t = Rect.top sample_area + 100 /\
                        r = Rect.left sample_area + 170 /\ b = Rect.top sample_area + 240
                    | _ => True
                    end) drawn).
Proof.
  split; [exact sin_table_ok|]. split; [exact cos_table_ok|].
  exact (pie_chart_radials (fun _ x => to_wstring (double_to_int x))
           cos_table sin_table stable_sort 12648430 noon sample_area
           sin_table_ok cos_table_ok).
Defined.
